(** * A directed acyclic graph of stats: StatNode, HistoryStatNode,
      ModifierAggregator and GraphManager

    Shallow embedding of [include/StatNode.h], [include/HistoryNode.h],
    [include/Modifier.h] and [include/GraphManagerV2.h].

    - A C++ [double] is a binary64 primitive float ([PrimFloat.float]); the
      comparisons [==] and [<=] are [PrimFloat.eqb] and [PrimFloat.leb].
    - Objects held through [shared_ptr]/[weak_ptr] live in a store
      ([gmap addr StatNode]); a pointer is an address, [weak_ptr::lock()] is a
      lookup, and every method threads the store explicitly.
    - [std::function<bool()>] closures read ambient game state; that state is
      the type [Env] and a closure is a function out of it.
    - A [TimePoint] of the steady clock is its count of ticks, nanoseconds,
      an integer; [Duration(t1 - t0).count()] is the exact difference of the
      counts, converted to [double] and divided by [1e9].
    - Every call of [Clock::now()] is an explicit argument: a time point
      where a method reads the clock once, a function from the position of
      the event to a time point where a loop reads it once per event.
    - Recursive methods ([GetValue], [InvalidateChildren]) take a recursion
      budget and return [None] when it runs out. *)

From Stdlib Require Import Floats Reals Lra ZArith.
From stdpp Require Import gmap strings list sorting.

Set Warnings "-inexact-float".

Abbreviation addr := nat (only parsing).

(** ** StatNode.h *)

Inductive NodeType := Base | Derived | History.

Global Instance NodeType_eq_dec : EqDecision NodeType.
Proof. solve_decision. Defined.

(** [struct EdgeState] *)
Record EdgeState := {
  fromId : string;
  toId : string;
  isActive : bool;
  isConditional : bool;
  condition : string;
}.

(** [TimePoint] (HistoryNode.h): [std::chrono::time_point<steady_clock>],
    held as its count of ticks; a tick is a nanosecond. *)
Abbreviation TimePoint := Z (only parsing).

(** [static_cast<double>] of a tick count: the nearest [double], ties to
    even. *)
Definition double_of_Z (count : Z) : float :=
  SF2Prim (SpecFloat.binary_normalize prec emax count 0 false).

(** [Duration(later - earlier).count()] with
    [Duration = std::chrono::duration<double>]: the counts are subtracted
    as integers, the difference is converted to [double] and divided by the
    [1e9] ticks of a second. *)
Definition seconds_between (later earlier : TimePoint) : float :=
  (double_of_Z (later - earlier) / 1e9)%float.

(** [struct TimestampedEvent] (HistoryNode.h) *)
Record TimestampedEvent := {
  value : float;
  timestamp : TimePoint;
  eventType : string;
}.

(** The members [HistoryStatNode] adds to [StatNode]. *)
Record HistoryPart := {
  m_events : list TimestampedEvent;
  m_defaultWindow : float;
  m_lastCleanup : TimePoint;
}.

(** [CalculationFunc]: either a function of the parent values handed in by
    the caller, or the lambda the [HistoryStatNode] constructor installs,
    which ignores its argument and reads the node's own events. *)
Inductive CalculationFunc :=
  | CalcFn (f : list float → float)
  | CalcSumRecent.

Section StatNode.
Context {Env : Type}.

(** [struct ConditionalParent] *)
Record ConditionalParent := {
  cp_node : addr;
  cp_condition : option (Env → bool);
  cp_conditionDesc : string;
  cp_lastActive : bool;
}.

Record StatNode := {
  m_id : string;
  m_label : string;
  m_baseValue : float;
  m_cachedValue : float;
  m_isDirty : bool;
  m_type : NodeType;
  m_parents : list addr;
  m_conditionalParents : list ConditionalParent;
  m_children : list addr;
  m_calculateFunc : option CalculationFunc;
  m_nodeCategory : string;
  m_isHistoryNode : bool;
  m_history : option HistoryPart;
}.

Definition set_baseValue (v : float) (n : StatNode) : StatNode :=
  {| m_id := m_id n; m_label := m_label n; m_baseValue := v;
     m_cachedValue := m_cachedValue n; m_isDirty := m_isDirty n;
     m_type := m_type n; m_parents := m_parents n;
     m_conditionalParents := m_conditionalParents n;
     m_children := m_children n; m_calculateFunc := m_calculateFunc n;
     m_nodeCategory := m_nodeCategory n; m_isHistoryNode := m_isHistoryNode n;
     m_history := m_history n |}.

Definition set_cachedValue (v : float) (n : StatNode) : StatNode :=
  {| m_id := m_id n; m_label := m_label n; m_baseValue := m_baseValue n;
     m_cachedValue := v; m_isDirty := m_isDirty n;
     m_type := m_type n; m_parents := m_parents n;
     m_conditionalParents := m_conditionalParents n;
     m_children := m_children n; m_calculateFunc := m_calculateFunc n;
     m_nodeCategory := m_nodeCategory n; m_isHistoryNode := m_isHistoryNode n;
     m_history := m_history n |}.

Definition set_isDirty (b : bool) (n : StatNode) : StatNode :=
  {| m_id := m_id n; m_label := m_label n; m_baseValue := m_baseValue n;
     m_cachedValue := m_cachedValue n; m_isDirty := b;
     m_type := m_type n; m_parents := m_parents n;
     m_conditionalParents := m_conditionalParents n;
     m_children := m_children n; m_calculateFunc := m_calculateFunc n;
     m_nodeCategory := m_nodeCategory n; m_isHistoryNode := m_isHistoryNode n;
     m_history := m_history n |}.

Definition set_type (t : NodeType) (n : StatNode) : StatNode :=
  {| m_id := m_id n; m_label := m_label n; m_baseValue := m_baseValue n;
     m_cachedValue := m_cachedValue n; m_isDirty := m_isDirty n;
     m_type := t; m_parents := m_parents n;
     m_conditionalParents := m_conditionalParents n;
     m_children := m_children n; m_calculateFunc := m_calculateFunc n;
     m_nodeCategory := m_nodeCategory n; m_isHistoryNode := m_isHistoryNode n;
     m_history := m_history n |}.

Definition set_parents (l : list addr) (n : StatNode) : StatNode :=
  {| m_id := m_id n; m_label := m_label n; m_baseValue := m_baseValue n;
     m_cachedValue := m_cachedValue n; m_isDirty := m_isDirty n;
     m_type := m_type n; m_parents := l;
     m_conditionalParents := m_conditionalParents n;
     m_children := m_children n; m_calculateFunc := m_calculateFunc n;
     m_nodeCategory := m_nodeCategory n; m_isHistoryNode := m_isHistoryNode n;
     m_history := m_history n |}.

Definition set_conditionalParents (l : list ConditionalParent) (n : StatNode)
  : StatNode :=
  {| m_id := m_id n; m_label := m_label n; m_baseValue := m_baseValue n;
     m_cachedValue := m_cachedValue n; m_isDirty := m_isDirty n;
     m_type := m_type n; m_parents := m_parents n;
     m_conditionalParents := l;
     m_children := m_children n; m_calculateFunc := m_calculateFunc n;
     m_nodeCategory := m_nodeCategory n; m_isHistoryNode := m_isHistoryNode n;
     m_history := m_history n |}.

Definition set_children (l : list addr) (n : StatNode) : StatNode :=
  {| m_id := m_id n; m_label := m_label n; m_baseValue := m_baseValue n;
     m_cachedValue := m_cachedValue n; m_isDirty := m_isDirty n;
     m_type := m_type n; m_parents := m_parents n;
     m_conditionalParents := m_conditionalParents n;
     m_children := l; m_calculateFunc := m_calculateFunc n;
     m_nodeCategory := m_nodeCategory n; m_isHistoryNode := m_isHistoryNode n;
     m_history := m_history n |}.

Definition set_calculateFunc (f : option CalculationFunc) (n : StatNode)
  : StatNode :=
  {| m_id := m_id n; m_label := m_label n; m_baseValue := m_baseValue n;
     m_cachedValue := m_cachedValue n; m_isDirty := m_isDirty n;
     m_type := m_type n; m_parents := m_parents n;
     m_conditionalParents := m_conditionalParents n;
     m_children := m_children n; m_calculateFunc := f;
     m_nodeCategory := m_nodeCategory n; m_isHistoryNode := m_isHistoryNode n;
     m_history := m_history n |}.

Definition set_nodeCategory (c : string) (n : StatNode) : StatNode :=
  {| m_id := m_id n; m_label := m_label n; m_baseValue := m_baseValue n;
     m_cachedValue := m_cachedValue n; m_isDirty := m_isDirty n;
     m_type := m_type n; m_parents := m_parents n;
     m_conditionalParents := m_conditionalParents n;
     m_children := m_children n; m_calculateFunc := m_calculateFunc n;
     m_nodeCategory := c; m_isHistoryNode := m_isHistoryNode n;
     m_history := m_history n |}.

Definition set_isHistoryNode (b : bool) (n : StatNode) : StatNode :=
  {| m_id := m_id n; m_label := m_label n; m_baseValue := m_baseValue n;
     m_cachedValue := m_cachedValue n; m_isDirty := m_isDirty n;
     m_type := m_type n; m_parents := m_parents n;
     m_conditionalParents := m_conditionalParents n;
     m_children := m_children n; m_calculateFunc := m_calculateFunc n;
     m_nodeCategory := m_nodeCategory n; m_isHistoryNode := b;
     m_history := m_history n |}.

Definition set_history (hp : option HistoryPart) (n : StatNode) : StatNode :=
  {| m_id := m_id n; m_label := m_label n; m_baseValue := m_baseValue n;
     m_cachedValue := m_cachedValue n; m_isDirty := m_isDirty n;
     m_type := m_type n; m_parents := m_parents n;
     m_conditionalParents := m_conditionalParents n;
     m_children := m_children n; m_calculateFunc := m_calculateFunc n;
     m_nodeCategory := m_nodeCategory n; m_isHistoryNode := m_isHistoryNode n;
     m_history := hp |}.

(** The store of node objects. *)
Abbreviation heap := (gmap addr StatNode).

(** [StatNode::StatNode(id, label, baseValue, type)] *)
Definition new_StatNode (id label : string) (baseValue : float)
    (type : NodeType) : StatNode :=
  {| m_id := id; m_label := label; m_baseValue := baseValue;
     m_cachedValue := baseValue;
     m_isDirty := bool_decide (type = Derived);
     m_type := type; m_parents := []; m_conditionalParents := [];
     m_children := []; m_calculateFunc := None;
     m_nodeCategory := "unknown"%string; m_isHistoryNode := false;
     m_history := None |}.

(** [m_type == NodeType::Base || m_type == NodeType::History] *)
Definition is_source (n : StatNode) : bool :=
  bool_decide (m_type n = Base) || bool_decide (m_type n = History).

(** *** HistoryNode.h queries used by the calculation function *)

(** [TimestampedEvent::GetAge]; [now] is what its [Clock::now()] returns. *)
Definition GetAge (now : TimePoint) (e : TimestampedEvent) : float :=
  seconds_between now (timestamp e).

(** [TimestampedEvent::IsWithinWindow] *)
Definition IsWithinWindow (now : TimePoint) (e : TimestampedEvent)
    (windowSeconds : float) : bool :=
  PrimFloat.leb (GetAge now e) windowSeconds.

(** The deque with the position of each event; a loop over the deque reads
    the clock anew at every event, and [now i] is the reading at the event
    in position [i]. *)
Definition positions (events : list TimestampedEvent)
  : list (nat * TimestampedEvent) :=
  imap pair events.

(** [HistoryStatNode::SumRecent] over the event deque *)
Definition SumRecent (now : nat → TimePoint) (events : list TimestampedEvent)
    (windowSeconds : float) : float :=
  foldl (λ sum ie, if IsWithinWindow (now ie.1) ie.2 windowSeconds
                   then (sum + value ie.2)%float else sum)
        0%float (positions events).

(** [HistoryStatNode::CountRecent] *)
Definition CountRecent (now : nat → TimePoint) (events : list TimestampedEvent)
    (windowSeconds : float) : nat :=
  foldl (λ count ie, if IsWithinWindow (now ie.1) ie.2 windowSeconds
                     then S count else count)
        0 (positions events).

(** The default aggregation of [GetValue]:
    [m_cachedValue = 0.0; for (double v : parentValues) m_cachedValue += v;] *)
Definition sum_values (parentValues : list float) : float :=
  foldl (λ acc v, (acc + v)%float) 0%float parentValues.

(** What [GetValue] stores in [m_cachedValue] from [parentValues]; [now]
    are the readings of the clock the function of this node takes. *)
Definition run_calc (now : nat → TimePoint) (n : StatNode)
    (parentValues : list float)
  : float :=
  match m_calculateFunc n with
  | Some (CalcFn f) => f parentValues
  | Some CalcSumRecent =>
      match m_history n with
      | Some hp => SumRecent now (m_events hp) (m_defaultWindow hp)
      | None => 0%float
      end
  | None => sum_values parentValues
  end.

(** Nodes whose [m_calculateFunc] was invoked, in call order. *)
Definition calls_of (a : addr) (n : StatNode) : list addr :=
  match m_calculateFunc n with Some _ => [a] | None => [] end.

(** *** The pull: [StatNode::GetValue] *)

(** The result of a pull: the value, the store afterwards, and the nodes
    whose calculation function ran. *)
Abbreviation pulled := (option (float * heap * list addr)).

(** One iteration of [for (auto& weakParent : m_parents)]:
    [if (auto parent = weakParent.lock()) parentValues.push_back(parent->GetValue());] *)
Definition pull_parent (rec : heap → addr → pulled)
    (acc : option (list float * heap * list addr)) (p : addr)
  : option (list float * heap * list addr) :=
  '(vs, h, tr) ← acc;
  match h !! p with
  | None => Some (vs, h, tr)
  | Some _ => '(v, h', tr') ← rec h p; Some (vs ++ [v], h', tr ++ tr')
  end.

(** One iteration of [for (auto& cp : m_conditionalParents)]:
    [if (cp.condition && cp.condition()) if (auto parent = cp.node.lock()) ...] *)
Definition pull_conditional (env : Env) (rec : heap → addr → pulled)
    (acc : option (list float * heap * list addr)) (cp : ConditionalParent)
  : option (list float * heap * list addr) :=
  match cp_condition cp with
  | Some c => if c env then pull_parent rec acc (cp_node cp) else acc
  | None => acc
  end.

(** Both loops of [GetValue], filling [parentValues]. *)
Definition pull_parents (env : Env) (rec : heap → addr → pulled)
    (h : heap) (n : StatNode) : option (list float * heap * list addr) :=
  foldl (pull_conditional env rec)
        (foldl (pull_parent rec) (Some ([], h, [])) (m_parents n))
        (m_conditionalParents n).

(** The dirty branch of [GetValue] for the node [n] found at [a]: pull,
    calculate, cache, mark clean.  Within one call of [GetValue] the
    function of a node runs at most once (the node is clean afterwards and
    a pull marks nothing dirty), so the readings of the clock are told
    apart by the node and the position of the event: [now a i]. *)
Definition recompute (now : addr → nat → TimePoint) (env : Env)
    (rec : heap → addr → pulled)
    (h : heap) (a : addr) (n : StatNode) : pulled :=
  '(parentValues, h1, tr) ← pull_parents env rec h n;
  n1 ← h1 !! a;
  let v := run_calc (now a) n1 parentValues in
  Some (v, <[a := set_isDirty false (set_cachedValue v n1)]> h1,
        tr ++ calls_of a n1).

Fixpoint GetValue (fuel : nat) (now : addr → nat → TimePoint) (env : Env)
    (h : heap) (a : addr) : pulled :=
  match fuel with
  | 0 => None
  | S fuel' =>
      n ← h !! a;
      if is_source n then Some (m_baseValue n, h, [])
      else if negb (m_isDirty n) then Some (m_cachedValue n, h, [])
      else recompute now env (GetValue fuel' now env) h a n
  end.

(** [StatNode::GetCachedValue] *)
Definition GetCachedValue (n : StatNode) : float :=
  if is_source n then m_baseValue n else m_cachedValue n.

(** *** The push: [SetBaseValue], [MarkDirty], [InvalidateChildren] *)

(** One iteration of [for (auto& weakChild : m_children)]. *)
Definition invalidate_child (rec : heap → addr → option heap)
    (acc : option heap) (c : addr) : option heap :=
  h ← acc;
  match h !! c with
  | None => Some h
  | Some child =>
      if m_isDirty child then Some h
      else rec (<[c := set_isDirty true child]> h) c
  end.

Fixpoint InvalidateChildren (fuel : nat) (h : heap) (a : addr) : option heap :=
  match fuel with
  | 0 => None
  | S fuel' =>
      n ← h !! a;
      foldl (invalidate_child (InvalidateChildren fuel')) (Some h) (m_children n)
  end.

Definition SetBaseValue (fuel : nat) (h : heap) (a : addr) (v : float)
  : option heap :=
  n ← h !! a;
  if PrimFloat.eqb (m_baseValue n) v then Some h
  else
    let n1 := set_baseValue v n in
    let n2 := if is_source n1 then set_cachedValue v n1 else n1 in
    InvalidateChildren fuel (<[a := n2]> h) a.

(** [StatNode::SetCalculationFunc] *)
Definition SetCalculationFunc (func : option CalculationFunc) (n : StatNode)
  : StatNode :=
  set_calculateFunc func n.

Definition MarkDirty (fuel : nat) (h : heap) (a : addr) : option heap :=
  n ← h !! a;
  if negb (m_isDirty n)
  then InvalidateChildren fuel (<[a := set_isDirty true n]> h) a
  else Some h.

(** [StatNode::SetCategory] *)
Definition SetCategory (cat : string) (n : StatNode) : StatNode :=
  set_nodeCategory cat n.

(** [StatNode::SetIsHistoryNode] *)
Definition SetIsHistoryNode (isHistory : bool) (n : StatNode) : StatNode :=
  let n1 := set_isHistoryNode isHistory n in
  if isHistory then set_type History n1 else n1.

(** *** Graph structure *)

(** [StatNode::AddParent(Ptr parent)] on the node at [a]; a null [parent] is
    [None].  The three writes go to the store one after the other, so
    [a = p] behaves as in the source. *)
Definition AddParent (h : heap) (a : addr) (parent : option addr)
  : option heap :=
  match parent with
  | None => Some h
  | Some p =>
      n ← h !! a;
      let h1 := <[a := set_parents (m_parents n ++ [p]) n]> h in
      np ← h1 !! p;
      let h2 := <[p := set_children (m_children np ++ [a]) np]> h1 in
      n2 ← h2 !! a;
      if bool_decide (m_type n2 = Derived)
      then Some (<[a := set_isDirty true n2]> h2)
      else Some h2
  end.

(** [StatNode::AddParents] *)
Definition AddParents (h : heap) (a : addr) (parents : list (option addr))
  : option heap :=
  foldl (λ acc p, h' ← acc; AddParent h' a p) (Some h) parents.

(** [StatNode::AddConditionalParent(parent, condition, conditionDesc)] *)
Definition AddConditionalParent (h : heap) (a : addr) (parent : option addr)
    (cond : option (Env → bool)) (conditionDesc : string) : option heap :=
  match parent with
  | None => Some h
  | Some p =>
      n ← h !! a;
      let cp := {| cp_node := p; cp_condition := cond;
                   cp_conditionDesc := conditionDesc; cp_lastActive := true |} in
      let h1 :=
        <[a := set_conditionalParents (m_conditionalParents n ++ [cp]) n]> h in
      np ← h1 !! p;
      let h2 := <[p := set_children (m_children np ++ [a]) np]> h1 in
      n2 ← h2 !! a;
      Some (<[a := set_isDirty true n2]> h2)
  end.

(** [StatNode::GetEdgeStates] *)
Definition GetEdgeStates (env : Env) (h : heap) (n : StatNode)
  : list EdgeState :=
  omap (λ p, parent ← h !! p;
             Some {| fromId := m_id parent; toId := m_id n; isActive := true;
                     isConditional := false; condition := ""%string |})
       (m_parents n)
  ++
  omap (λ cp, parent ← h !! cp_node cp;
              let active := match cp_condition cp with
                            | Some c => c env
                            | None => true
                            end in
              Some {| fromId := m_id parent; toId := m_id n; isActive := active;
                      isConditional := true; condition := cp_conditionDesc cp |})
       (m_conditionalParents n).

(** ** HistoryNode.h *)

Definition DEFAULT_WINDOW : float := 4%float.
Definition MAX_EVENTS : nat := 1000.

(** [HistoryStatNode::HistoryStatNode(id, label, windowSeconds)]: a
    [StatNode] of type [Derived] whose calculation function is the
    [SumRecent(m_defaultWindow)] lambda. *)
Definition new_HistoryStatNode (now : TimePoint) (id label : string)
    (windowSeconds : float) : StatNode :=
  SetCalculationFunc (Some CalcSumRecent)
    (set_history (Some {| m_events := []; m_defaultWindow := windowSeconds;
                          m_lastCleanup := now |})
                 (new_StatNode id label 0%float Derived)).

(** [while (m_events.size() > MAX_EVENTS) m_events.pop_front();] *)
Fixpoint pop_front_over (max : nat) (events : list TimestampedEvent)
  : list TimestampedEvent :=
  match events with
  | [] => []
  | _ :: rest =>
      if decide (max < length events) then pop_front_over max rest else events
  end.

(** The event deque of a node ([m_events] of the [HistoryStatNode] part). *)
Definition events_of (n : StatNode) : list TimestampedEvent :=
  match m_history n with Some hp => m_events hp | None => [] end.

Definition set_events (evs : list TimestampedEvent) (n : StatNode) : StatNode :=
  match m_history n with
  | Some hp =>
      set_history (Some {| m_events := evs;
                           m_defaultWindow := m_defaultWindow hp;
                           m_lastCleanup := m_lastCleanup hp |}) n
  | None => n
  end.

(** [HistoryStatNode::RecordEvent(value, eventType)] at clock reading [now] *)
Definition RecordEvent (fuel : nat) (now : TimePoint) (h : heap) (a : addr)
    (val : float) (type : string) : option heap :=
  n ← h !! a;
  let ev := {| value := val; timestamp := now; eventType := type |} in
  let evs := pop_front_over MAX_EVENTS (events_of n ++ [ev]) in
  MarkDirty fuel (<[a := set_events evs n]> h) a.

(** [HistoryStatNode::RecordEventAt(value, time, eventType)] *)
Definition RecordEventAt (fuel : nat) (h : heap) (a : addr)
    (val : float) (time : TimePoint) (type : string) : option heap :=
  n ← h !! a;
  let ev := {| value := val; timestamp := time; eventType := type |} in
  MarkDirty fuel (<[a := set_events (events_of n ++ [ev]) n]> h) a.

(** [HistoryStatNode::GetEventCount] *)
Definition GetEventCount (n : StatNode) : nat := length (events_of n).

(** [HistoryStatNode::GetDefaultWindow] *)
Definition GetDefaultWindow (n : StatNode) : float :=
  match m_history n with Some hp => m_defaultWindow hp | None => DEFAULT_WINDOW end.

End StatNode.

Arguments StatNode : clear implicits.
Arguments ConditionalParent : clear implicits.

(** ** Modifier.h *)

(** [std::sort]: the order it leaves between elements the comparator does
    not separate is unspecified, so the development is parametric in the
    sorting function; only what the C++ standard promises is assumed. *)
Record StrictWeakOrder {A : Type} (comp : A → A → bool) : Prop := {
  swo_irrefl : ∀ x, comp x x = false;
  swo_trans : ∀ x y z, comp x y = true → comp y z = true → comp x z = true;
  swo_neg_trans : ∀ x y z,
    comp x y = false → comp y z = false → comp x z = false;
}.

(** No later element is strictly before an earlier one. *)
Definition sorted_by {A : Type} (comp : A → A → bool) (l : list A) : Prop :=
  StronglySorted (λ x y, comp y x = false) l.

Class StdSort :=
  std_sort : ∀ {A : Type}, (A → A → bool) → list A → list A.

Class StdSortSpec `{StdSort} : Prop := {
  std_sort_perm : ∀ {A : Type} (comp : A → A → bool) (l : list A),
    std_sort comp l ≡ₚ l;
  std_sort_sorted : ∀ {A : Type} (comp : A → A → bool) (l : list A),
    StrictWeakOrder comp → sorted_by comp (std_sort comp l);
}.

(** A sorting function meeting the interface: insertion sort. *)
Fixpoint insert_sorted {A : Type} (comp : A → A → bool) (x : A) (l : list A)
  : list A :=
  match l with
  | [] => [x]
  | y :: l' => if comp x y then x :: l else y :: insert_sorted comp x l'
  end.

Definition insertion_sort {A : Type} (comp : A → A → bool) (l : list A)
  : list A :=
  foldr (insert_sorted comp) [] l.

Global Instance insertion_StdSort : StdSort := @insertion_sort.

Module Modifiers.

Inductive ModifierType := Flat | Increased | More | Override.

Global Instance ModifierType_eq_dec : EqDecision ModifierType.
Proof. solve_decision. Defined.

(** [static_cast<int>(type)] *)
Definition ModifierType_to_int (t : ModifierType) : Z :=
  match t with Flat => 0 | Increased => 1 | More => 2 | Override => 3 end.

Definition ModifierTypeToString (t : ModifierType) : string :=
  match t with
  | Flat => "Flat" | Increased => "Increased"
  | More => "More" | Override => "Override"
  end.

Section Modifier.
Context {ModifierContext : Type}.

(** [using ConditionFunc = std::function<bool(const ModifierContext&)>] and
    [using ValueFunc = std::function<double(const ModifierContext&)>] *)
Record Modifier := {
  m_id : string;
  m_description : string;
  m_sourceId : string;
  m_targetStatId : string;
  m_type : ModifierType;
  m_value : float;
  m_priority : Z;
  m_condition : option (ModifierContext → bool);
  m_dynamicValue : option (ModifierContext → float);
  m_isActive : bool;
  m_conditionMet : bool;
}.

(** [Modifier::Modifier(id, targetStatId, type, value, description)] *)
Definition new_Modifier (id targetStatId : string) (type : ModifierType)
    (val : float) (description : string) : Modifier :=
  {| m_id := id; m_description := description; m_sourceId := "";
     m_targetStatId := targetStatId; m_type := type; m_value := val;
     m_priority := 0; m_condition := None; m_dynamicValue := None;
     m_isActive := true; m_conditionMet := true |}.

Definition WithSource (sourceId : string) (m : Modifier) : Modifier :=
  {| m_id := m_id m; m_description := m_description m; m_sourceId := sourceId;
     m_targetStatId := m_targetStatId m; m_type := m_type m;
     m_value := m_value m; m_priority := m_priority m;
     m_condition := m_condition m; m_dynamicValue := m_dynamicValue m;
     m_isActive := m_isActive m; m_conditionMet := m_conditionMet m |}.

Definition WithPriority (priority : Z) (m : Modifier) : Modifier :=
  {| m_id := m_id m; m_description := m_description m;
     m_sourceId := m_sourceId m;
     m_targetStatId := m_targetStatId m; m_type := m_type m;
     m_value := m_value m; m_priority := priority;
     m_condition := m_condition m; m_dynamicValue := m_dynamicValue m;
     m_isActive := m_isActive m; m_conditionMet := m_conditionMet m |}.

Definition WithCondition (cond : option (ModifierContext → bool))
    (m : Modifier) : Modifier :=
  {| m_id := m_id m; m_description := m_description m;
     m_sourceId := m_sourceId m;
     m_targetStatId := m_targetStatId m; m_type := m_type m;
     m_value := m_value m; m_priority := m_priority m;
     m_condition := cond; m_dynamicValue := m_dynamicValue m;
     m_isActive := m_isActive m; m_conditionMet := m_conditionMet m |}.

Definition WithDynamicValue (valueFunc : option (ModifierContext → float))
    (m : Modifier) : Modifier :=
  {| m_id := m_id m; m_description := m_description m;
     m_sourceId := m_sourceId m;
     m_targetStatId := m_targetStatId m; m_type := m_type m;
     m_value := m_value m; m_priority := m_priority m;
     m_condition := m_condition m; m_dynamicValue := valueFunc;
     m_isActive := m_isActive m; m_conditionMet := m_conditionMet m |}.

Definition SetActive (active : bool) (m : Modifier) : Modifier :=
  {| m_id := m_id m; m_description := m_description m;
     m_sourceId := m_sourceId m;
     m_targetStatId := m_targetStatId m; m_type := m_type m;
     m_value := m_value m; m_priority := m_priority m;
     m_condition := m_condition m; m_dynamicValue := m_dynamicValue m;
     m_isActive := active; m_conditionMet := m_conditionMet m |}.

Definition set_conditionMet (met : bool) (m : Modifier) : Modifier :=
  {| m_id := m_id m; m_description := m_description m;
     m_sourceId := m_sourceId m;
     m_targetStatId := m_targetStatId m; m_type := m_type m;
     m_value := m_value m; m_priority := m_priority m;
     m_condition := m_condition m; m_dynamicValue := m_dynamicValue m;
     m_isActive := m_isActive m; m_conditionMet := met |}.

(** [Modifier::EvaluateCondition]: the result, and the modifier with the
    result cached in [m_conditionMet]. *)
Definition EvaluateCondition (ctx : ModifierContext) (m : Modifier)
  : bool * Modifier :=
  if negb (m_isActive m) then (false, set_conditionMet false m)
  else
    let met := match m_condition m with
               | Some c => c ctx
               | None => true
               end in
    (met, set_conditionMet met m).

(** [Modifier::GetValue] *)
Definition GetValue (ctx : ModifierContext) (m : Modifier) : float :=
  if negb (m_conditionMet m) then 0%float
  else match m_dynamicValue m with
       | Some f => f ctx
       | None => m_value m
       end.

(** [Modifier::GetEffectiveValue] *)
Definition GetEffectiveValue (ctx : ModifierContext) (m : Modifier) : float :=
  let val := GetValue ctx m in
  match m_type m with
  | More => (1 + val)%float
  | _ => val
  end.

(** *** ModifierAggregator: [m_modifiers] is a [list Modifier] *)

(** The comparator handed to [std::sort] in [AddModifier]. *)
Definition modifier_before (a b : Modifier) : bool :=
  if bool_decide (m_type a ≠ m_type b)
  then bool_decide (ModifierType_to_int (m_type a)
                    < ModifierType_to_int (m_type b))%Z
  else bool_decide (m_priority a < m_priority b)%Z.

Definition AddModifier `{StdSort} (m_modifiers : list Modifier)
    (mod_ : Modifier) : list Modifier :=
  std_sort modifier_before (m_modifiers ++ [mod_]).

(** [erase(remove_if(..., id matches), end)] *)
Definition RemoveModifier (m_modifiers : list Modifier) (modifierId : string)
  : list Modifier :=
  filter (λ m, m_id m ≠ modifierId) m_modifiers.

Definition RemoveModifiersBySource (m_modifiers : list Modifier)
    (sourceId : string) : list Modifier :=
  filter (λ m, m_sourceId m ≠ sourceId) m_modifiers.

(** The locals of [Calculate]. *)
Record Accum := {
  flat : float;
  increased : float;
  more : float;
  override : option float;
}.

(** One iteration of [for (auto& mod : m_modifiers)]; the second component
    collects the modifiers with their refreshed [m_conditionMet]. *)
Definition Calculate_step (ctx : ModifierContext)
    (st : Accum * list Modifier) (mod_ : Modifier) : Accum * list Modifier :=
  let '(acc, seen) := st in
  let '(met, mod_') := EvaluateCondition ctx mod_ in
  if negb met then (acc, seen ++ [mod_'])
  else
    let val := GetValue ctx mod_' in
    let acc' :=
      match m_type mod_' with
      | Flat => {| flat := (flat acc + val)%float; increased := increased acc;
                   more := more acc; override := override acc |}
      | Increased => {| flat := flat acc;
                        increased := (increased acc + val)%float;
                        more := more acc; override := override acc |}
      | More => {| flat := flat acc; increased := increased acc;
                   more := (more acc * (1 + val))%float;
                   override := override acc |}
      | Override => {| flat := flat acc; increased := increased acc;
                       more := more acc; override := Some val |}
      end in
    (acc', seen ++ [mod_']).

(** [ModifierAggregator::Calculate]: the returned number and the
    aggregator's modifiers afterwards. *)
Definition Calculate (baseValue : float) (ctx : ModifierContext)
    (m_modifiers : list Modifier) : float * list Modifier :=
  let '(acc, mods) :=
    foldl (Calculate_step ctx)
          ({| flat := 0; increased := 0; more := 1; override := None |}, [])
          m_modifiers in
  (match override acc with
   | Some v => v
   | None => ((baseValue + flat acc) * (1 + increased acc) * more acc)%float
   end, mods).

(** [ModifierAggregator::GetActiveCount] *)
Definition GetActiveCount (ctx : ModifierContext) (m_modifiers : list Modifier)
  : nat * list Modifier :=
  foldl (λ '(count, seen) mod_,
           let '(met, mod_') := EvaluateCondition ctx mod_ in
           (if met then S count else count, seen ++ [mod_']))
        (0, []) m_modifiers.

End Modifier.

Arguments Modifier : clear implicits.

End Modifiers.

(** ** GraphManagerV2.h *)

Section GraphManager.
Context {Env ModifierContext : Type} `{StdSort}.

(** The members of [GraphManager] the operations below touch, and [store],
    the node objects its [shared_ptr]s keep alive.  The tag container, the
    three [RecentlyTracker]s and [m_lastTick] are left out: none of the
    operations modelled here reads or writes them. *)
Record GraphManager := {
  store : gmap addr (StatNode Env);
  m_nodes : gmap string addr;
  m_historyNodes : gmap string addr;
  m_nodeOrder : list string;
  m_modifiers : gmap string (list (Modifiers.Modifier ModifierContext));
  m_hasChanges : bool;
}.

(** [GraphManager::GraphManager()] *)
Definition new_GraphManager : GraphManager :=
  {| store := ∅; m_nodes := ∅; m_historyNodes := ∅; m_nodeOrder := [];
     m_modifiers := ∅; m_hasChanges := false |}.

Definition set_store (s : gmap addr (StatNode Env)) (g : GraphManager)
  : GraphManager :=
  {| store := s; m_nodes := m_nodes g; m_historyNodes := m_historyNodes g;
     m_nodeOrder := m_nodeOrder g; m_modifiers := m_modifiers g;
     m_hasChanges := m_hasChanges g |}.

Definition set_historyNodes (m : gmap string addr) (g : GraphManager)
  : GraphManager :=
  {| store := store g; m_nodes := m_nodes g; m_historyNodes := m;
     m_nodeOrder := m_nodeOrder g; m_modifiers := m_modifiers g;
     m_hasChanges := m_hasChanges g |}.

Definition set_modifiers
    (m : gmap string (list (Modifiers.Modifier ModifierContext)))
    (g : GraphManager) : GraphManager :=
  {| store := store g; m_nodes := m_nodes g;
     m_historyNodes := m_historyNodes g;
     m_nodeOrder := m_nodeOrder g; m_modifiers := m;
     m_hasChanges := m_hasChanges g |}.

Definition set_hasChanges (b : bool) (g : GraphManager) : GraphManager :=
  {| store := store g; m_nodes := m_nodes g;
     m_historyNodes := m_historyNodes g;
     m_nodeOrder := m_nodeOrder g; m_modifiers := m_modifiers g;
     m_hasChanges := b |}.

(** A call either returns or throws [std::runtime_error]; both leave a
    manager behind. *)
Inductive outcome (A : Type) :=
  | Returns (x : A) (g : GraphManager)
  | Throws (what : string) (g : GraphManager).
Arguments Returns {A} x g.
Arguments Throws {A} what g.

(** [std::make_shared<...>(...)]: the object lands at an unused address. *)
Definition make_shared (n : StatNode Env) (g : GraphManager)
  : addr * GraphManager :=
  let a := fresh (dom (store g)) in (a, set_store (<[a := n]> (store g)) g).

(** [GraphManager::RegisterNode] *)
Definition RegisterNode (g : GraphManager) (node : addr) : outcome unit :=
  match store g !! node with
  | None => Throws "null node" g
  | Some n =>
      let id := m_id n in
      match m_nodes g !! id with
      | Some _ => Throws ("Node with ID '" +:+ id +:+ "' already exists!") g
      | None =>
          Returns tt
            {| store := store g; m_nodes := <[id := node]> (m_nodes g);
               m_historyNodes := m_historyNodes g;
               m_nodeOrder := m_nodeOrder g ++ [id];
               m_modifiers := m_modifiers g; m_hasChanges := true |}
      end
  end.

(** [GraphManager::CreateBaseStat] *)
Definition CreateBaseStat (g : GraphManager) (id label : string)
    (baseValue : float) (category : string) : outcome addr :=
  let n := new_StatNode id label baseValue Base in
  let n := if bool_decide (category ≠ ""%string) then SetCategory category n
           else n in
  let '(node, g1) := make_shared n g in
  match RegisterNode g1 node with
  | Returns _ g2 => Returns node g2
  | Throws w g2 => Throws w g2
  end.

(** [GraphManager::CreateHistoryNode] at clock reading [now] *)
Definition CreateHistoryNode (now : TimePoint) (g : GraphManager)
    (id label : string) (windowSeconds : float) (category : string)
  : outcome addr :=
  let n := new_HistoryStatNode now id label windowSeconds in
  let n := if bool_decide (category ≠ ""%string) then SetCategory category n
           else n in
  let n := SetIsHistoryNode true n in
  let '(node, g1) := make_shared n g in
  let g2 := set_historyNodes (<[id := node]> (m_historyNodes g1)) g1 in
  match RegisterNode g2 node with
  | Returns _ g3 => Returns node g3
  | Throws w g3 => Throws w g3
  end.

(** [GraphManager::GetNode]; [nullptr] is [None]. *)
Definition GetNode (g : GraphManager) (id : string) : option addr :=
  m_nodes g !! id.

(** [GraphManager::GetHistoryNode] *)
Definition GetHistoryNode (g : GraphManager) (id : string) : option addr :=
  m_historyNodes g !! id.

(** [GraphManager::SetNodeValue] *)
Definition SetNodeValue (fuel : nat) (g : GraphManager) (id : string)
    (v : float) : option (bool * GraphManager) :=
  match GetNode g id with
  | Some node =>
      s ← SetBaseValue fuel (store g) node v;
      Some (true, set_hasChanges true (set_store s g))
  | None => Some (false, g)
  end.

(** [m_modifiers[targetId]]: [operator[]] creates an empty aggregator. *)
Definition aggregator_at (g : GraphManager) (statId : string)
  : list (Modifiers.Modifier ModifierContext) :=
  default [] (m_modifiers g !! statId).

(** [GraphManager::AddModifier] *)
Definition AddModifier (fuel : nat) (g : GraphManager)
    (modifier : Modifiers.Modifier ModifierContext) : option GraphManager :=
  let targetId := Modifiers.m_targetStatId modifier in
  let g1 :=
    set_modifiers (<[targetId := Modifiers.AddModifier
                                   (aggregator_at g targetId) modifier]>
                     (m_modifiers g)) g in
  match GetNode g1 targetId with
  | Some node =>
      s ← MarkDirty fuel (store g1) node;
      Some (set_hasChanges true (set_store s g1))
  | None => Some g1
  end.

(** [GraphManager::RemoveModifier] *)
Definition RemoveModifier (g : GraphManager) (modifierId : string)
  : GraphManager :=
  set_hasChanges true
    (set_modifiers
       ((λ aggregator, Modifiers.RemoveModifier aggregator modifierId)
          <$> m_modifiers g) g).

(** [GraphManager::RemoveModifiersBySource]; the loop visits the entries of
    the [unordered_map] in the order [map_to_list] lists them. *)
Definition RemoveModifiersBySource (fuel : nat) (g : GraphManager)
    (sourceId : string) : option GraphManager :=
  let mods :=
    (λ aggregator, Modifiers.RemoveModifiersBySource aggregator sourceId)
      <$> m_modifiers g in
  s ← foldl (λ acc statId,
               h ← acc;
               match GetNode g statId with
               | Some node => MarkDirty fuel h node
               | None => Some h
               end)
            (Some (store g)) ((map_to_list (m_modifiers g)).*1);
  Some (set_hasChanges true (set_modifiers mods (set_store s g))).

(** [GraphManager::GetModifiers]; [nullptr] is [None]. *)
Definition GetModifiers (g : GraphManager) (statId : string)
  : option (list (Modifiers.Modifier ModifierContext)) :=
  m_modifiers g !! statId.

(** [GraphManager::RecordDamage] at clock reading [now] *)
Definition RecordDamage (fuel : nat) (now : TimePoint) (g : GraphManager)
    (historyNodeId : string) (amount : float) (damageType : string)
  : option GraphManager :=
  match GetHistoryNode g historyNodeId with
  | Some histNode =>
      s ← RecordEvent fuel now (store g) histNode amount damageType;
      Some (set_hasChanges true (set_store s g))
  | None => Some g
  end.

(** [GraphManager::HasChanges] *)
Definition HasChanges (g : GraphManager) : bool * GraphManager :=
  (m_hasChanges g, set_hasChanges false g).

(** [GraphManager::MarkChanged] *)
Definition MarkChanged (g : GraphManager) : GraphManager :=
  set_hasChanges true g.

(** [GraphManager::MarkAllConditionalNodesDirty]; [m_nodes.at(id)] on a
    missing id throws. *)
Definition MarkAllConditionalNodesDirty (fuel : nat) (g : GraphManager)
  : option GraphManager :=
  s ← foldl (λ acc id,
               h ← acc;
               node ← m_nodes g !! id;
               n ← h !! node;
               if negb (match m_conditionalParents n with
                        | [] => true
                        | _ => false
                        end)
                  || bool_decide (is_Some (m_modifiers g !! id))
               then MarkDirty fuel h node
               else Some h)
            (Some (store g)) (m_nodeOrder g);
  Some (set_store s g).

End GraphManager.

Arguments GraphManager : clear implicits.
Arguments outcome : clear implicits.
Arguments Returns {Env ModifierContext A} x g.
Arguments Throws {Env ModifierContext A} what g.

(** ** HistoryNode.h: the other queries, maintenance and [Tick] *)

(** [HistoryStatNode::SumRecentByType]; [&&] reads the clock at the events
    of the given type only. *)
Definition SumRecentByType (now : nat → TimePoint)
    (events : list TimestampedEvent)
    (windowSeconds : float) (type : string) : float :=
  foldl (λ sum ie, if bool_decide (eventType ie.2 = type)
                      && IsWithinWindow (now ie.1) ie.2 windowSeconds
                   then (sum + value ie.2)%float else sum)
        0%float (positions events).

(** [HistoryStatNode::HasRecentEvent] *)
Definition HasRecentEvent (now : nat → TimePoint)
    (events : list TimestampedEvent) (windowSeconds : float) : bool :=
  bool_decide (0 < CountRecent now events windowSeconds).

(** [HistoryStatNode::GetLastEventTime]; [std::nullopt] is [None]. *)
Definition GetLastEventTime (events : list TimestampedEvent)
  : option TimePoint :=
  timestamp <$> last events.

(** [HistoryStatNode::GetSecondsSinceLastEvent] *)
Definition GetSecondsSinceLastEvent (now : TimePoint)
    (events : list TimestampedEvent) : float :=
  match GetLastEventTime events with
  | None => infinity
  | Some lastTime => seconds_between now lastTime
  end.

(** [HistoryStatNode::GetEventHistory]: (value, age) pairs *)
Definition GetEventHistory (now : nat → TimePoint)
    (events : list TimestampedEvent) : list (float * float) :=
  (λ ie, (value ie.2, GetAge (now ie.1) ie.2)) <$> positions events.

(** The loop of [CleanupOldEvents], which reads the clock once, before it:
    [while (!m_events.empty()) if (age(front) > maxAge) pop_front(); else break;] *)
Fixpoint pop_front_older (now : TimePoint) (maxAge : float)
    (events : list TimestampedEvent) : list TimestampedEvent :=
  match events with
  | [] => []
  | front :: rest =>
      if PrimFloat.ltb maxAge (seconds_between now (timestamp front))
      then pop_front_older now maxAge rest
      else events
  end.

Section HistoryMaintenance.
Context {Env : Type}.

(** [HistoryStatNode::CleanupOldEvents(maxAge)] at clock reading [now] *)
Definition CleanupOldEvents (now : TimePoint) (maxAge : float)
    (n : StatNode Env) : StatNode Env :=
  match m_history n with
  | Some hp =>
      set_history
        (Some {| m_events := pop_front_older now maxAge (m_events hp);
                 m_defaultWindow := m_defaultWindow hp;
                 m_lastCleanup := now |}) n
  | None => n
  end.

(** [HistoryStatNode::Tick(maxAge)] on the node at [a]; only a node with a
    [HistoryStatNode] part has the method.  [checked] is the reading of
    the clock in the test, [cleaned] the one [CleanupOldEvents] takes and
    [now] the readings of the pull. *)
Definition Tick (fuel : nat) (checked cleaned : TimePoint)
    (now : addr → nat → TimePoint) (env : Env)
    (h : gmap addr (StatNode Env)) (a : addr) (maxAge : float)
  : option (bool * gmap addr (StatNode Env)) :=
  n ← h !! a;
  hp ← m_history n;
  let oldValue := GetCachedValue n in
  let n1 := if PrimFloat.ltb 1 (seconds_between checked (m_lastCleanup hp))
            then CleanupOldEvents cleaned maxAge n else n in
  h1 ← MarkDirty fuel (<[a := n1]> h) a;
  '(newValue, h2, _) ← GetValue fuel now env h1 a;
  Some (PrimFloat.ltb 0.01 (abs (newValue - oldValue)), h2).

End HistoryMaintenance.

(** *** RecentlyTracker *)

Record RecentlyTracker := {
  m_lastTrigger : TimePoint;
  m_window : float;
  m_hasEverTriggered : bool;
}.

(** [RecentlyTracker::RecentlyTracker(windowSeconds)] at clock reading [now] *)
Definition new_RecentlyTracker (now : TimePoint) (windowSeconds : float)
  : RecentlyTracker :=
  {| m_lastTrigger := now; m_window := windowSeconds;
     m_hasEverTriggered := false |}.

(** [RecentlyTracker::TriggerAt] *)
Definition TriggerAt (time : TimePoint) (t : RecentlyTracker)
  : RecentlyTracker :=
  {| m_lastTrigger := time; m_window := m_window t;
     m_hasEverTriggered := true |}.

(** [RecentlyTracker::Trigger] at clock reading [now] *)
Definition Trigger (now : TimePoint) (t : RecentlyTracker) : RecentlyTracker :=
  {| m_lastTrigger := now; m_window := m_window t;
     m_hasEverTriggered := true |}.

(** [RecentlyTracker::IsRecent] *)
Definition IsRecent (now : TimePoint) (t : RecentlyTracker) : bool :=
  if negb (m_hasEverTriggered t) then false
  else PrimFloat.leb (seconds_between now (m_lastTrigger t)) (m_window t).

(** [RecentlyTracker::GetSecondsSinceTrigger] *)
Definition GetSecondsSinceTrigger (now : TimePoint) (t : RecentlyTracker)
  : float :=
  if negb (m_hasEverTriggered t) then infinity
  else seconds_between now (m_lastTrigger t).

(** [RecentlyTracker::GetRemainingTime] *)
Definition GetRemainingTime (now : TimePoint) (t : RecentlyTracker) : float :=
  if negb (m_hasEverTriggered t) then 0%float
  else
    let elapsed := seconds_between now (m_lastTrigger t) in
    if PrimFloat.ltb elapsed (m_window t) then (m_window t - elapsed)%float
    else 0%float.

(** [RecentlyTracker::SetWindow], [GetWindow] *)
Definition SetWindow (seconds : float) (t : RecentlyTracker) : RecentlyTracker :=
  {| m_lastTrigger := m_lastTrigger t; m_window := seconds;
     m_hasEverTriggered := m_hasEverTriggered t |}.
Definition GetWindow (t : RecentlyTracker) : float := m_window t.

(** ** GameplayTag.h *)

(** [std::hash<std::string>]: implementation-defined, so a parameter. *)
Class StdHash := std_hash : string → N.

Module GameplayTags.

Section GameplayTag.
Context `{StdHash}.

Record GameplayTag := {
  m_hash : N;
  m_name : string;
}.

(** [GameplayTag::GameplayTag()] *)
Definition default_GameplayTag : GameplayTag :=
  {| m_hash := 0; m_name := "" |}.

(** [GameplayTag::GameplayTag(name)]; the intern pool it writes to is read
    by nothing. *)
Definition new_GameplayTag (name : string) : GameplayTag :=
  {| m_hash := std_hash name; m_name := name |}.

(** [operator==], [operator!=], [operator<]: on the hashes *)
Definition tag_eqb (a b : GameplayTag) : bool := (m_hash a =? m_hash b)%N.
Definition tag_neqb (a b : GameplayTag) : bool := negb (m_hash a =? m_hash b)%N.
Definition tag_ltb (a b : GameplayTag) : bool := (m_hash a <? m_hash b)%N.

Definition GetHash (t : GameplayTag) : N := m_hash t.
Definition GetName (t : GameplayTag) : string := m_name t.

(** [GameplayTag::IsValid] *)
Definition IsValid (t : GameplayTag) : bool := negb (m_hash t =? 0)%N.

(** The character ['.'] (code 46). *)
Definition dot : Ascii.ascii := Ascii.ascii_of_nat 46.

(** [GameplayTag::MatchesParent] *)
Definition MatchesParent (t parent : GameplayTag) : bool :=
  let plen := String.length (m_name parent) in
  if String.length (m_name t) <? plen then false
  else
    bool_decide (String.substring 0 plen (m_name t) = m_name parent)
    && (bool_decide (String.length (m_name t) = plen)
        || bool_decide (String.get plen (m_name t) = Some dot)).

(** *** GameplayTagContainer

    [std::unordered_set<GameplayTag>]: at most one element per hash value,
    since the tags' equality is equality of hashes.  The change callback
    acts on a world of type [W]. *)
Record GameplayTagContainer {W : Type} := {
  m_tags : gmap N GameplayTag;
  m_onChangedCallback : option (W → W);
}.
Arguments GameplayTagContainer : clear implicits.

Section Container.
Context {W : Type}.
Implicit Types (c : GameplayTagContainer W) (tags : gmap N GameplayTag).

Definition new_GameplayTagContainer : GameplayTagContainer W :=
  {| m_tags := ∅; m_onChangedCallback := None |}.

Definition SetOnChangedCallback (callback : option (W → W)) c
  : GameplayTagContainer W :=
  {| m_tags := m_tags c; m_onChangedCallback := callback |}.

Definition set_tags tags c : GameplayTagContainer W :=
  {| m_tags := tags; m_onChangedCallback := m_onChangedCallback c |}.

(** [if (changed && m_onChangedCallback) m_onChangedCallback();] *)
Definition notify (changed : bool) c (w : W) : W :=
  if changed then
    match m_onChangedCallback c with Some callback => callback w | None => w end
  else w.

(** [GameplayTagContainer::AddTag(const GameplayTag&)]: [insert] keeps an
    element that is already there. *)
Definition AddTag c (tag : GameplayTag) (w : W) : GameplayTagContainer W * W :=
  match m_tags c !! m_hash tag with
  | Some _ => (c, notify false c w)
  | None => (set_tags (<[m_hash tag := tag]> (m_tags c)) c, notify true c w)
  end.

(** [GameplayTagContainer::RemoveTag(const GameplayTag&)] *)
Definition RemoveTag c (tag : GameplayTag) (w : W) : GameplayTagContainer W * W :=
  match m_tags c !! m_hash tag with
  | Some _ => (set_tags (delete (m_hash tag) (m_tags c)) c, notify true c w)
  | None => (c, notify false c w)
  end.

(** [GameplayTagContainer::ClearAllTags] *)
Definition ClearAllTags c (w : W) : GameplayTagContainer W * W :=
  let hadTags := negb (bool_decide (size (m_tags c) = 0)) in
  (set_tags ∅ c, notify hadTags c w).

End Container.

(** The [const] queries read [m_tags] only. *)

(** [GameplayTagContainer::HasTag(const GameplayTag&)] *)
Definition HasTag (tags : gmap N GameplayTag) (tag : GameplayTag) : bool :=
  bool_decide (is_Some (tags !! m_hash tag)).

(** [GameplayTagContainer::HasAnyTag] *)
Fixpoint HasAnyTag (tags : gmap N GameplayTag) (query : list GameplayTag) : bool :=
  match query with
  | [] => false
  | tag :: rest => if HasTag tags tag then true else HasAnyTag tags rest
  end.

(** [GameplayTagContainer::HasAllTags] *)
Fixpoint HasAllTags (tags : gmap N GameplayTag) (query : list GameplayTag) : bool :=
  match query with
  | [] => true
  | tag :: rest => if negb (HasTag tags tag) then false else HasAllTags tags rest
  end.

(** [GameplayTagContainer::GetAllTags]; the set is walked in the order
    [map_to_list] gives. *)
Definition GetAllTags (tags : gmap N GameplayTag) : list GameplayTag :=
  (map_to_list tags).*2.

(** [GameplayTagContainer::HasTagMatching] *)
Definition HasTagMatching (tags : gmap N GameplayTag) (parent : GameplayTag)
  : bool :=
  existsb (λ tag, MatchesParent tag parent) (GetAllTags tags).

(** [GameplayTagContainer::GetAllTagNames]: [std::sort] with [operator<] of
    [std::string]. *)
Definition GetAllTagNames `{StdSort} (tags : gmap N GameplayTag) : list string :=
  std_sort String.ltb (m_name <$> GetAllTags tags).

(** [GameplayTagContainer::Count] *)
Definition Count (tags : gmap N GameplayTag) : nat := size tags.

End GameplayTag.

Arguments GameplayTagContainer : clear implicits.

End GameplayTags.

(** ** Modifier.h: [ModifierContext] and the builders that use it *)

Module Contexts.
Import GameplayTags Modifiers.

Section ModifierContext.
Context `{StdHash}.

(** [struct ModifierContext].  [tags] points at a container, of which the
    methods below read [m_tags] only; [graph] points at a type that is
    incomplete in this header and is dereferenced by nothing in it. *)
Record ModifierContext := {
  tags : option (gmap N GameplayTag);
  currentTime : float;
}.

Definition new_ModifierContext : ModifierContext :=
  {| tags := None; currentTime := 0 |}.

(** [ModifierContext::HasTag(const std::string&)]:
    [tags && tags->HasTag(tagName)] *)
Definition HasTagNamed (ctx : ModifierContext) (tagName : string) : bool :=
  match tags ctx with
  | Some container => HasTag container (new_GameplayTag tagName)
  | None => false
  end.

(** [ModifierContext::HasTag(const GameplayTag&)] *)
Definition HasTag (ctx : ModifierContext) (tag : GameplayTag) : bool :=
  match tags ctx with
  | Some container => GameplayTags.HasTag container tag
  | None => false
  end.

(** [ModifierContext::HasAnyTag], [HasAllTags] *)
Definition HasAnyTag (ctx : ModifierContext) (tagList : list GameplayTag) : bool :=
  match tags ctx with
  | Some container => GameplayTags.HasAnyTag container tagList
  | None => false
  end.
Definition HasAllTags (ctx : ModifierContext) (tagList : list GameplayTag) : bool :=
  match tags ctx with
  | Some container => GameplayTags.HasAllTags container tagList
  | None => false
  end.

(** [Modifier::RequiresTag(const std::string&)] *)
Definition RequiresTagNamed (tagName : string) (m : Modifier ModifierContext)
  : Modifier ModifierContext :=
  WithCondition (Some (λ ctx, HasTagNamed ctx tagName)) m.

(** [Modifier::RequiresTag(const GameplayTag&)] *)
Definition RequiresTag (tag : GameplayTag) (m : Modifier ModifierContext)
  : Modifier ModifierContext :=
  WithCondition (Some (λ ctx, HasTag ctx tag)) m.

(** [Modifier::RequiresAnyTag] *)
Definition RequiresAnyTag (tagList : list GameplayTag)
    (m : Modifier ModifierContext) : Modifier ModifierContext :=
  WithCondition (Some (λ ctx, HasAnyTag ctx tagList)) m.

End ModifierContext.

Section Builders.
Context {ModifierContext : Type}.
Implicit Types (m : Modifier ModifierContext).

(** [Modifier::WithDescription] *)
Definition WithDescription (desc : string) m : Modifier ModifierContext :=
  {| m_id := m_id m; m_description := desc; m_sourceId := m_sourceId m;
     m_targetStatId := m_targetStatId m; m_type := m_type m;
     m_value := m_value m; m_priority := m_priority m;
     m_condition := m_condition m; m_dynamicValue := m_dynamicValue m;
     m_isActive := m_isActive m; m_conditionMet := m_conditionMet m |}.

(** [Modifier::SetValue] *)
Definition SetValue (val : float) m : Modifier ModifierContext :=
  {| m_id := m_id m; m_description := m_description m;
     m_sourceId := m_sourceId m;
     m_targetStatId := m_targetStatId m; m_type := m_type m;
     m_value := val; m_priority := m_priority m;
     m_condition := m_condition m; m_dynamicValue := m_dynamicValue m;
     m_isActive := m_isActive m; m_conditionMet := m_conditionMet m |}.

(** [Modifier::HasCondition], [HasDynamicValue], [IsConditionMet] *)
Definition HasCondition m : bool :=
  match m_condition m with Some _ => true | None => false end.
Definition HasDynamicValue m : bool :=
  match m_dynamicValue m with Some _ => true | None => false end.
Definition IsConditionMet m : bool := m_conditionMet m.

(** [ModifierAggregator::Clear] *)
Definition Clear (m_modifiers : list (Modifier ModifierContext))
  : list (Modifier ModifierContext) := [].

End Builders.

End Contexts.

(** ** GraphManagerV2.h: the rest of the manager *)

Section CreateDerived.
Context {Env ModifierContext : Type}.
Implicit Types (g : GraphManager Env ModifierContext).

(** [GraphManager::CreateDerivedStat]; a null entry of [parents] is [None].
    When [RegisterNode] throws, the new node, which by then only the weak
    back-references of its parents mention, is left in the store. *)
Definition CreateDerivedStat g (id label : string)
    (parents : list (option addr)) (calcFunc : option CalculationFunc)
    (category : string) : option (outcome Env ModifierContext addr) :=
  let '(node, g1) := make_shared (new_StatNode id label 0 Derived) g in
  s ← AddParents (store g1) node parents;
  n ← s !! node;
  let n := match calcFunc with
           | Some _ => SetCalculationFunc calcFunc n
           | None => n
           end in
  let n := if bool_decide (category ≠ ""%string) then SetCategory category n
           else n in
  Some (match RegisterNode (set_store (<[node := n]> s) g1) node with
        | Returns _ g2 => Returns node g2
        | Throws w g2 => Throws w g2
        end).

(** [GraphManager::GetNodeIds] *)
Definition GetNodeIds g : list string := m_nodeOrder g.

End CreateDerived.

Module Managers.
Import GameplayTags Contexts.

Section Manager.
Context {Env : Type} `{StdSort} `{StdHash}.

Local Abbreviation Core := (GraphManager Env ModifierContext).

(** The whole [GraphManager]: the members [GraphManager] above holds, the
    tag container, the three trackers and the time of the last tick.  The
    change callback of the container acts on the other members; it yields
    [None] when a call it makes throws or runs out of budget. *)
Record Manager := {
  core : Core;
  m_activeTags : GameplayTagContainer (option Core);
  m_critRecently : RecentlyTracker;
  m_blockRecently : RecentlyTracker;
  m_killRecently : RecentlyTracker;
  m_lastTick : TimePoint;
}.

Definition set_core (g : Core) (m : Manager) : Manager :=
  {| core := g; m_activeTags := m_activeTags m;
     m_critRecently := m_critRecently m;
     m_blockRecently := m_blockRecently m;
     m_killRecently := m_killRecently m; m_lastTick := m_lastTick m |}.

Definition set_activeTags (c : GameplayTagContainer (option Core)) (m : Manager)
  : Manager :=
  {| core := core m; m_activeTags := c;
     m_critRecently := m_critRecently m;
     m_blockRecently := m_blockRecently m;
     m_killRecently := m_killRecently m; m_lastTick := m_lastTick m |}.

(** The lambda the constructor hands to [SetOnChangedCallback]:
    [MarkAllConditionalNodesDirty(); m_hasChanges = true;] *)
Definition on_tags_changed (fuel : nat) (w : option Core) : option Core :=
  g ← w;
  g' ← MarkAllConditionalNodesDirty fuel g;
  Some (set_hasChanges true g').

(** [GraphManager::GraphManager()]; [fuel] is the recursion budget of the
    callback.  Each tracker reads the clock in its constructor and
    [m_lastTick] is a fourth reading. *)
Definition new_Manager (fuel : nat)
    (critNow blockNow killNow tickNow : TimePoint) : Manager :=
  {| core := new_GraphManager;
     m_activeTags :=
       SetOnChangedCallback (Some (on_tags_changed fuel))
         new_GameplayTagContainer;
     m_critRecently := new_RecentlyTracker critNow 4;
     m_blockRecently := new_RecentlyTracker blockNow 4;
     m_killRecently := new_RecentlyTracker killNow 4;
     m_lastTick := tickNow |}.

(** A method of the members in [core], called on the whole manager. *)
Definition on_core (f : Core → option Core) (m : Manager) : option Manager :=
  g ← f (core m); Some (set_core g m).

(** [GraphManager::AddTag(const GameplayTag&)] *)
Definition AddTag (m : Manager) (tag : GameplayTag) : option Manager :=
  let '(c, w) := GameplayTags.AddTag (m_activeTags m) tag (Some (core m)) in
  g ← w; Some (set_core g (set_activeTags c m)).

(** [GraphManager::AddTag(const std::string&)] *)
Definition AddTagNamed (m : Manager) (tagName : string) : option Manager :=
  AddTag m (new_GameplayTag tagName).

(** [GraphManager::RemoveTag(const GameplayTag&)] *)
Definition RemoveTag (m : Manager) (tag : GameplayTag) : option Manager :=
  let '(c, w) := GameplayTags.RemoveTag (m_activeTags m) tag (Some (core m)) in
  g ← w; Some (set_core g (set_activeTags c m)).

(** [GraphManager::RemoveTag(const std::string&)] *)
Definition RemoveTagNamed (m : Manager) (tagName : string) : option Manager :=
  RemoveTag m (new_GameplayTag tagName).

(** [GraphManager::HasTag] *)
Definition HasTag (m : Manager) (tag : GameplayTag) : bool :=
  GameplayTags.HasTag (m_tags (m_activeTags m)) tag.
Definition HasTagNamed (m : Manager) (tagName : string) : bool :=
  HasTag m (new_GameplayTag tagName).

(** The context the manager hands to the modifiers:
    [ctx.tags = &m_activeTags; ctx.graph = this;] *)
Definition context_of (m : Manager) : ModifierContext :=
  {| tags := Some (m_tags (m_activeTags m)); currentTime := 0 |}.

(** [GraphManager::TriggerCritRecently] at clock reading [now] *)
Definition TriggerCritRecently (fuel : nat) (now : TimePoint) (m : Manager)
  : option Manager :=
  g ← MarkAllConditionalNodesDirty fuel (set_hasChanges true (core m));
  Some {| core := g; m_activeTags := m_activeTags m;
          m_critRecently := Trigger now (m_critRecently m);
          m_blockRecently := m_blockRecently m;
          m_killRecently := m_killRecently m; m_lastTick := m_lastTick m |}.

(** [GraphManager::TriggerBlockRecently], [TriggerKillRecently] *)
Definition TriggerBlockRecently (now : TimePoint) (m : Manager) : Manager :=
  {| core := set_hasChanges true (core m); m_activeTags := m_activeTags m;
     m_critRecently := m_critRecently m;
     m_blockRecently := Trigger now (m_blockRecently m);
     m_killRecently := m_killRecently m; m_lastTick := m_lastTick m |}.
Definition TriggerKillRecently (now : TimePoint) (m : Manager) : Manager :=
  {| core := set_hasChanges true (core m); m_activeTags := m_activeTags m;
     m_critRecently := m_critRecently m;
     m_blockRecently := m_blockRecently m;
     m_killRecently := Trigger now (m_killRecently m);
     m_lastTick := m_lastTick m |}.

(** [GraphManager::CritRecently], [BlockedRecently], [KilledRecently] *)
Definition CritRecently (now : TimePoint) (m : Manager) : bool :=
  IsRecent now (m_critRecently m).
Definition BlockedRecently (now : TimePoint) (m : Manager) : bool :=
  IsRecent now (m_blockRecently m).
Definition KilledRecently (now : TimePoint) (m : Manager) : bool :=
  IsRecent now (m_killRecently m).

(** The first loop of [GraphManager::Tick]: every history node ticks, in
    the order [map_to_list] lists [m_historyNodes]; the flag tells whether
    any of them returned true.  The readings of the clock are given per
    id, the tick of the node registered under [id] taking [checked id],
    [cleaned id] and [now id]. *)
Definition tick_history_nodes (fuel : nat)
    (checked cleaned : string → TimePoint)
    (now : string → addr → nat → TimePoint) (env : Env)
    (g : Core) : option (bool * gmap addr (StatNode Env)) :=
  foldl (λ (acc : option (bool * gmap addr (StatNode Env)))
           (entry : string * addr),
           '(anyChanged, h) ← acc;
           '(changed, h') ← Tick fuel (checked entry.1) (cleaned entry.1)
                              (now entry.1) env h entry.2 10;
           Some (if changed : bool then true else anyChanged, h'))
        (Some (false, store g)) (map_to_list (m_historyNodes g)).

(** [GraphManager::Tick]; the three trackers are asked at [critNow],
    [blockNow] and [killNow], as far as [||] gets, and [tickNow] is the
    reading stored in [m_lastTick]. *)
Definition Tick (fuel : nat) (checked cleaned : string → TimePoint)
    (now : string → addr → nat → TimePoint)
    (critNow blockNow killNow tickNow : TimePoint) (env : Env) (m : Manager)
  : option Manager :=
  '(anyChanged, h) ← tick_history_nodes fuel checked cleaned now env (core m);
  let anyChanged :=
    anyChanged || IsRecent critNow (m_critRecently m)
    || IsRecent blockNow (m_blockRecently m)
    || IsRecent killNow (m_killRecently m) in
  let g := set_store h (core m) in
  Some {| core := if anyChanged then set_hasChanges true g else g;
          m_activeTags := m_activeTags m;
          m_critRecently := m_critRecently m;
          m_blockRecently := m_blockRecently m;
          m_killRecently := m_killRecently m; m_lastTick := tickNow |}.

(** The first loop of [RecalculateAndSerialize]: every modifier of every
    aggregator evaluates its condition. *)
Definition evaluate_conditions (ctx : ModifierContext) (g : Core) : Core :=
  set_modifiers
    ((λ aggregator : list (Modifiers.Modifier ModifierContext),
        (λ mod_, (Modifiers.EvaluateCondition ctx mod_).2) <$> aggregator)
       <$> m_modifiers g) g.

(** The second loop: every node that is not of type Base is pulled, in
    registration order; [m_nodes.at(id)] throws on a missing id.  The
    pull at position [i] of [m_nodeOrder] takes the readings [now i]. *)
Definition pull_all (fuel : nat) (now : nat → addr → nat → TimePoint)
    (env : Env) (g : Core) : option (gmap addr (StatNode Env)) :=
  foldl (λ (acc : option (gmap addr (StatNode Env))) (entry : nat * string),
           h ← acc;
           node ← m_nodes g !! entry.2;
           n ← h !! node;
           if bool_decide (m_type n ≠ Base)
           then '(_, h', _) ← GetValue fuel (now entry.1) env h node; Some h'
           else Some h)
        (Some (store g)) (imap pair (m_nodeOrder g)).

(** What [GraphManager::RecalculateAndSerialize] does to the manager
    before it serializes, [ToJsonString] being [const]. *)
Definition Recalculate (fuel : nat) (now : nat → addr → nat → TimePoint)
    (env : Env) (m : Manager) : option Manager :=
  let g := evaluate_conditions (context_of m) (core m) in
  h ← pull_all fuel now env g;
  Some (set_core (set_store h g) m).

End Manager.

Arguments Manager : clear implicits.

End Managers.

(** ** Producer.h *)

Module Producers.
Import GameplayTags Contexts Managers.

Inductive Slot :=
  | MainHand | OffHand | Helmet | BodyArmor | Gloves | Boots
  | Ring1 | Ring2 | Amulet | Belt.

Inductive DamageType := Physical | Fire | Cold | Lightning | Chaos | COUNT.

(** [DamageTypeToString] *)
Definition DamageTypeToString (type : DamageType) : string :=
  match type with
  | Physical => "Physical" | Fire => "Fire" | Cold => "Cold"
  | Lightning => "Lightning" | Chaos => "Chaos" | COUNT => "Unknown"
  end.

Section Producer.
Context {Env : Type} `{StdSort} `{StdHash}.

Local Abbreviation Core := (GraphManager Env ModifierContext).
Local Abbreviation Mod := (Modifiers.Modifier ModifierContext).
Local Abbreviation Mgr := (Manager Env).

(** [class Item] *)
Record Item := {
  m_id : string;
  m_name : string;
  m_slot : Slot;
  m_isEquipped : bool;
  m_modifiers : list Mod;
  m_grantedTags : list GameplayTag;
}.

(** [Item::Item(id, name, slot)] *)
Definition new_Item (id name : string) (slot : Slot) : Item :=
  {| m_id := id; m_name := name; m_slot := slot; m_isEquipped := false;
     m_modifiers := []; m_grantedTags := [] |}.

Definition set_isEquipped (b : bool) (i : Item) : Item :=
  {| m_id := m_id i; m_name := m_name i; m_slot := m_slot i;
     m_isEquipped := b; m_modifiers := m_modifiers i;
     m_grantedTags := m_grantedTags i |}.

Definition push_modifier (mod_ : Mod) (i : Item) : Item :=
  {| m_id := m_id i; m_name := m_name i; m_slot := m_slot i;
     m_isEquipped := m_isEquipped i; m_modifiers := m_modifiers i ++ [mod_];
     m_grantedTags := m_grantedTags i |}.

(** [Item::AddModifier(targetStat, type, value, description)] *)
Definition Item_AddModifier (targetStat : string)
    (type : Modifiers.ModifierType) (val : float) (description : string)
    (i : Item) : Item :=
  let mod_ :=
    Modifiers.new_Modifier (m_id i +:+ "_" +:+ targetStat +:+ "_mod")
      targetStat type val
      (if bool_decide (description = ""%string)
       then m_name i +:+ " " +:+ targetStat else description) in
  push_modifier (Modifiers.WithSource (m_id i) mod_) i.

(** [Item::AddConditionalModifier] *)
Definition Item_AddConditionalModifier (targetStat : string)
    (type : Modifiers.ModifierType) (val : float)
    (condition : option (ModifierContext → bool)) (description : string)
    (i : Item) : Item :=
  let mod_ :=
    Modifiers.new_Modifier (m_id i +:+ "_" +:+ targetStat +:+ "_cond_mod")
      targetStat type val description in
  push_modifier
    (Modifiers.WithCondition condition (Modifiers.WithSource (m_id i) mod_)) i.

(** [Item::GrantsTag(const GameplayTag&)], [GrantsTag(const std::string&)] *)
Definition Item_GrantsTag (tag : GameplayTag) (i : Item) : Item :=
  {| m_id := m_id i; m_name := m_name i; m_slot := m_slot i;
     m_isEquipped := m_isEquipped i; m_modifiers := m_modifiers i;
     m_grantedTags := m_grantedTags i ++ [tag] |}.
Definition Item_GrantsTagNamed (tagName : string) (i : Item) : Item :=
  Item_GrantsTag (new_GameplayTag tagName) i.

(** The loops [for (mod : m_modifiers) graph.AddModifier(mod);],
    [for (tag : m_grantedTags) graph.AddTag(tag);] and
    [... graph.RemoveTag(tag);] *)
Definition add_modifiers (fuel : nat) (mods : list Mod) (m : Mgr)
  : option Mgr :=
  foldl (λ acc mod_, m' ← acc; on_core (λ g, AddModifier fuel g mod_) m')
        (Some m) mods.
Definition add_tags (tagList : list GameplayTag) (m : Mgr) : option Mgr :=
  foldl (λ acc tag, m' ← acc; AddTag m' tag) (Some m) tagList.
Definition remove_tags (tagList : list GameplayTag) (m : Mgr)
  : option Mgr :=
  foldl (λ acc tag, m' ← acc; RemoveTag m' tag) (Some m) tagList.

(** [Item::Activate] ([Equip]) *)
Definition Item_Activate (fuel : nat) (i : Item) (m : Mgr)
  : option (Item * Mgr) :=
  if m_isEquipped i then Some (i, m)
  else
    m1 ← add_modifiers fuel (m_modifiers i) m;
    m2 ← add_tags (m_grantedTags i) m1;
    Some (set_isEquipped true i, m2).

(** [Item::Deactivate] ([Unequip]) *)
Definition Item_Deactivate (fuel : nat) (i : Item) (m : Mgr)
  : option (Item * Mgr) :=
  if negb (m_isEquipped i) then Some (i, m)
  else
    m1 ← on_core (λ g, RemoveModifiersBySource fuel g (m_id i)) m;
    m2 ← remove_tags (m_grantedTags i) m1;
    Some (set_isEquipped false i, m2).

(** [class Aura] *)
Record Aura := {
  a_id : string;
  a_name : string;
  a_isActive : bool;
  a_duration : float;
  a_activatedAt : TimePoint;
  a_grantedTags : list GameplayTag;
  a_modifiers : list Mod;
}.

(** [Aura::Aura(id, name, duration)]; [m_activatedAt] is
    default-constructed, the epoch of the clock. *)
Definition new_Aura (id name : string) (duration : float) : Aura :=
  {| a_id := id; a_name := name; a_isActive := false; a_duration := duration;
     a_activatedAt := 0; a_grantedTags := []; a_modifiers := [] |}.

Definition set_active (b : bool) (activatedAt : TimePoint) (a : Aura) : Aura :=
  {| a_id := a_id a; a_name := a_name a; a_isActive := b;
     a_duration := a_duration a; a_activatedAt := activatedAt;
     a_grantedTags := a_grantedTags a; a_modifiers := a_modifiers a |}.

(** [Aura::GrantsTag], [Aura::AddModifier] *)
Definition Aura_GrantsTag (tag : GameplayTag) (a : Aura) : Aura :=
  {| a_id := a_id a; a_name := a_name a; a_isActive := a_isActive a;
     a_duration := a_duration a; a_activatedAt := a_activatedAt a;
     a_grantedTags := a_grantedTags a ++ [tag]; a_modifiers := a_modifiers a |}.
Definition Aura_AddModifier (targetStat : string)
    (type : Modifiers.ModifierType) (val : float) (description : string)
    (a : Aura) : Aura :=
  let mod_ :=
    Modifiers.new_Modifier (a_id a +:+ "_" +:+ targetStat +:+ "_aura")
      targetStat type val
      (if bool_decide (description = ""%string)
       then a_name a +:+ " " +:+ targetStat else description) in
  {| a_id := a_id a; a_name := a_name a; a_isActive := a_isActive a;
     a_duration := a_duration a; a_activatedAt := a_activatedAt a;
     a_grantedTags := a_grantedTags a;
     a_modifiers := a_modifiers a ++ [Modifiers.WithSource (a_id a) mod_] |}.

(** [Aura::Activate] at clock reading [now] *)
Definition Aura_Activate (fuel : nat) (now : TimePoint) (a : Aura) (m : Mgr)
  : option (Aura * Mgr) :=
  if a_isActive a then Some (a, m)
  else
    m1 ← add_tags (a_grantedTags a) m;
    m2 ← add_modifiers fuel (a_modifiers a) m1;
    Some (set_active true now a, m2).

(** [Aura::Deactivate] *)
Definition Aura_Deactivate (fuel : nat) (a : Aura) (m : Mgr)
  : option (Aura * Mgr) :=
  if negb (a_isActive a) then Some (a, m)
  else
    m1 ← remove_tags (a_grantedTags a) m;
    m2 ← on_core (λ g, RemoveModifiersBySource fuel g (a_id a)) m1;
    Some (set_active false (a_activatedAt a) a, m2).

(** [Aura::HasExpired] *)
Definition HasExpired (now : TimePoint) (a : Aura) : bool :=
  if PrimFloat.ltb (a_duration a) 0 then false
  else if negb (a_isActive a) then true
  else PrimFloat.ltb (a_duration a) (seconds_between now (a_activatedAt a)).

(** [Aura::GetRemainingDuration] *)
Definition GetRemainingDuration (now : TimePoint) (a : Aura) : float :=
  if PrimFloat.ltb (a_duration a) 0 then infinity
  else if negb (a_isActive a) then 0%float
  else
    let elapsed := seconds_between now (a_activatedAt a) in
    if PrimFloat.ltb elapsed (a_duration a)
    then (a_duration a - elapsed)%float else 0%float.

(** [if (auto node = graph.GetHistoryNode(id)) node->RecordEvent(...)] *)
Definition record_if_present (fuel : nat) (now : TimePoint) (historyId : string)
    (amount : float) (type : string) (g : Core) : option Core :=
  match GetHistoryNode g historyId with
  | Some node =>
      s ← RecordEvent fuel now (store g) node amount type;
      Some (set_store s g)
  | None => Some g
  end.

(** [CombatEvent::TakeDamage], [CombatEvent::DealDamage]; each of the two
    [RecordEvent] calls stamps its event with a reading of its own. *)
Definition TakeDamage (fuel : nat) (typedNow generalNow : TimePoint)
    (g : Core) (amount : float) (type : DamageType) : option Core :=
  let historyId := DamageTypeToString type +:+ "DamageTaken" in
  g1 ← record_if_present fuel typedNow historyId amount
         (DamageTypeToString type) g;
  g2 ← record_if_present fuel generalNow "damageTaken" amount
         (DamageTypeToString type) g1;
  Some (MarkChanged g2).
Definition DealDamage (fuel : nat) (typedNow generalNow : TimePoint)
    (g : Core) (amount : float) (type : DamageType) : option Core :=
  let historyId := DamageTypeToString type +:+ "DamageDealt" in
  g1 ← record_if_present fuel typedNow historyId amount
         (DamageTypeToString type) g;
  g2 ← record_if_present fuel generalNow "damageDealt" amount
         (DamageTypeToString type) g1;
  Some (MarkChanged g2).

(** [CombatEvent::TriggerCrit], [TriggerBlock], [RecordKill]: the tracker
    reads the clock at [triggerNow], the event is stamped at [eventNow]. *)
Definition TriggerCrit (fuel : nat) (triggerNow eventNow : TimePoint) (m : Mgr)
  : option Mgr :=
  m1 ← TriggerCritRecently fuel triggerNow m;
  on_core (record_if_present fuel eventNow "critHistory" 1 "crit") m1.
Definition TriggerBlock (fuel : nat) (triggerNow eventNow : TimePoint) (m : Mgr)
  : option Mgr :=
  on_core (record_if_present fuel eventNow "blockHistory" 1 "block")
          (TriggerBlockRecently triggerNow m).
Definition RecordKill (fuel : nat) (triggerNow eventNow : TimePoint) (m : Mgr)
  : option Mgr :=
  on_core (record_if_present fuel eventNow "killHistory" 1 "kill")
          (TriggerKillRecently triggerNow m).

End Producer.

End Producers.

(** * Exponential decay

    [std::exp] has no counterpart among the operations on primitive floats,
    and which [double] it returns is the C library's choice, so the
    development is parametric in it. *)
Class StdExp := std_exp : float → float.

Module Decay.

(** [HistoryStatNode::GetDecayingValue(halfLife)] on the deque [m_events];
    [now] is the reading of the clock in [lastEvent.GetAge()]. *)
Definition GetDecayingValue `{StdExp} (now : TimePoint)
    (m_events : list TimestampedEvent) (halfLife : float) : float :=
  match last m_events with
  | None => 0%float
  | Some lastEvent =>
      let age := GetAge now lastEvent in
      let decay := std_exp ((-0.693)%float * age / halfLife)%float in
      (value lastEvent * decay)%float
  end.

(** One event of value 1, recorded at tick 0. *)
Definition unit_event : TimestampedEvent :=
  {| value := 1; timestamp := 0; eventType := "" |}.

(** The exponential series, summed term by term. *)
Fixpoint exp_series (terms : nat) (x k term sum : float) : float :=
  match terms with
  | 0 => sum
  | S terms' =>
      let term' := (term * x / k)%float in
      exp_series terms' x (k + 1)%float term' (sum + term')%float
  end.

(** A stand-in for [std::exp] on arguments near zero: thirty terms of the
    series. *)
Definition series_exp : StdExp := λ x, exp_series 30 x 1 1 1.

End Decay.

(** * Specification vocabulary *)

Section GraphVocabulary.
Context {Env : Type}.
Implicit Types (h : gmap addr (StatNode Env)) (n : StatNode Env).

(** The node at [x] exists and its dirty flag has the given value. *)
Definition flag_at h (x : addr) (b : bool) : Prop :=
  ∃ n, h !! x = Some n ∧ m_isDirty n = b.

(** [y] is a live entry of [x]'s [m_children]. *)
Definition child_edge h (x y : addr) : Prop :=
  ∃ n, h !! x = Some n ∧ y ∈ m_children n ∧ is_Some (h !! y).

(** A child edge into a node that is clean. *)
Definition clean_edge h (x y : addr) : Prop :=
  child_edge h x y ∧ flag_at h y false.

(** Transitive dependents, and those reached through clean nodes only. *)
Definition descendant h : relation addr := tc (child_edge h).
Definition clean_descendant h : relation addr := tc (clean_edge h).

(** Every live child of a dirty node is dirty. *)
Definition dirty_closed h : Prop :=
  ∀ x y, flag_at h x true → child_edge h x y → flag_at h y true.

(** [h'] is [h] with some clean nodes marked dirty, nothing else touched. *)
Definition dirtied h h' : Prop :=
  ∀ x, h' !! x = h !! x ∨
       ∃ n, h !! x = Some n ∧ m_isDirty n = false ∧
            h' !! x = Some (set_isDirty true n).

(** Number of clean nodes: the recursion budget invalidation needs. *)
Definition clean_count h : nat :=
  size (filter (λ kv, m_isDirty kv.2 = false) h).

(** Every address a node may pull from. *)
Definition parent_addrs n : list addr :=
  m_parents n ++ (cp_node <$> m_conditionalParents n).

(** The ancestors of [a] form an acyclic graph of depth below [d]. *)
Fixpoint grounded (d : nat) h (a : addr) : bool :=
  match d with
  | 0 => false
  | S d' =>
      match h !! a with
      | None => false
      | Some n =>
          forallb (λ p, match h !! p with
                        | None => true
                        | Some _ => grounded d' h p
                        end)
                  (parent_addrs n)
      end
  end.

(** A node that was clean in [h] and is dirty in [h']. *)
Definition newly_dirty h h' (x : addr) : Prop :=
  flag_at h x false ∧ flag_at h' x true.

(** What one run of the loop over [cs] has done, from [hc] to [h']. *)
Definition loop_post hc (cs : list addr) h' : Prop :=
  dirtied hc h' ∧
  (∀ x, newly_dirty hc h' x →
        ∃ c, c ∈ cs ∧ flag_at hc c false ∧ (x = c ∨ clean_descendant hc c x)) ∧
  (∀ c, c ∈ cs → is_Some (hc !! c) → flag_at h' c true) ∧
  (∀ x y, newly_dirty hc h' x → child_edge hc x y → flag_at h' y true).

(** What [InvalidateChildren] has done, from [h] to [h']. *)
Definition inval_post h (a : addr) h' : Prop :=
  dirtied h h' ∧
  (∀ x, newly_dirty h h' x → clean_descendant h a x) ∧
  (∀ y, child_edge h a y → flag_at h' y true) ∧
  (∀ x y, newly_dirty h h' x → child_edge h x y → flag_at h' y true).

End GraphVocabulary.

(** ** Vocabulary of the pull *)

Section PullVocabulary.
Context {Env : Type}.
Implicit Types (h : gmap addr (StatNode Env)) (n : StatNode Env).

(** The predicate of a conditional edge holds: [cp.condition && cp.condition()]. *)
Definition active (env : Env) (cp : ConditionalParent Env) : bool :=
  match cp_condition cp with Some c => c env | None => false end.

(** The pointers [GetValue] tries to lock, in order: the ordinary parents,
    then the conditional parents whose predicate holds. *)
Definition pull_targets (env : Env) n : list addr :=
  m_parents n ++ (cp_node <$> filter (λ cp, active env cp) (m_conditionalParents n)).

(** A node with its cache fields blanked. *)
Definition skeleton n : StatNode Env :=
  set_isDirty false (set_cachedValue 0%float n).

(** [h'] differs from [h] in cached values and dirty flags only. *)
Definition recached h h' : Prop :=
  ∀ x, skeleton <$> h' !! x = skeleton <$> h !! x.

Local Abbreviation pull_fn :=
  (gmap addr (StatNode Env) → addr
   → option (float * gmap addr (StatNode Env) * list addr)).

(** The nodes of [ps] that are alive are pulled one after the other, from
    left to right, each in the store the pull before it has left: [vs] are
    the values the pulls returned, in this order, [h'] is the store after
    the last of them and [tr] lists the calculation functions that ran. *)
Inductive pulls (rec : pull_fn)
  : gmap addr (StatNode Env) → list addr → list float
    → gmap addr (StatNode Env) → list addr → Prop :=
  | pulls_nil h : pulls rec h [] [] h []
  | pulls_expired h p ps vs h' tr :
      h !! p = None → pulls rec h ps vs h' tr →
      pulls rec h (p :: ps) vs h' tr
  | pulls_live h p ps v h1 tr1 vs h' tr :
      is_Some (h !! p) → rec h p = Some (v, h1, tr1) →
      pulls rec h1 ps vs h' tr →
      pulls rec h (p :: ps) (v :: vs) h' (tr1 ++ tr).

End PullVocabulary.

(** ** Coherence of the caches *)

Section CoherenceVocabulary.
Context {Env : Type}.
Implicit Types (h : gmap addr (StatNode Env)) (n : StatNode Env).

(** [GetValue] answers from the node itself, without pulling. *)
Definition settled n : bool := is_source n || negb (m_isDirty n).

(** What the live nodes among [ps] currently show ([GetCachedValue]). *)
Definition shown_values h (ps : list addr) : list float :=
  omap (λ p, GetCachedValue <$> h !! p) ps.

(** The cache of the clean computed node [n] is its calculation applied to
    what its pull targets show, and none of them awaits recomputation. *)
Definition coherent_at (now : nat → TimePoint) (env : Env) h n : Prop :=
  (∀ p np, p ∈ pull_targets env n → h !! p = Some np → settled np = true) ∧
  m_cachedValue n = run_calc now n (shown_values h (pull_targets env n)).

Definition coherent (now : addr → nat → TimePoint) (env : Env) h : Prop :=
  ∀ a n, h !! a = Some n → is_source n = false → m_isDirty n = false →
         coherent_at (now a) env h n.

(** Every parent pointer has its back-reference in the parent's
    [m_children]. *)
Definition wf_edges h : Prop :=
  ∀ a n p np, h !! a = Some n → p ∈ parent_addrs n → h !! p = Some np →
              a ∈ m_children np.

(** Settled nodes of [h] are the same objects in [h']. *)
Definition keeps_settled h h' : Prop :=
  ∀ x nx, h !! x = Some nx → settled nx = true → h' !! x = Some nx.

(** The value of a node computed from scratch: base values at the sources,
    calculation functions above, caches and dirty flags ignored. *)
Fixpoint eval (d : nat) (now : addr → nat → TimePoint) (env : Env) h (a : addr)
  : option float :=
  match d with
  | 0 => None
  | S d' =>
      n ← h !! a;
      if is_source n then Some (m_baseValue n)
      else
        vs ← mapM (eval d' now env h)
                  (filter (λ p, is_Some (h !! p)) (pull_targets env n));
        Some (run_calc (now a) n vs)
  end.

Local Abbreviation pull_fn :=
  (gmap addr (StatNode Env) → addr
   → option (float * gmap addr (StatNode Env) * list addr)).

(** What a pull of [p] achieves in a coherent store [h] that differs from
    [h0] in cache fields only. *)
Definition pull_ok (rec : pull_fn) (d : nat) (now : addr → nat → TimePoint)
    (env : Env)
    h0 h (p : addr) : Prop :=
  ∃ v h' tr np',
    rec h p = Some (v, h', tr) ∧ eval d now env h0 p = Some v ∧
    coherent now env h' ∧ recached h h' ∧ keeps_settled h h' ∧
    h' !! p = Some np' ∧ settled np' = true ∧ GetCachedValue np' = v.

End CoherenceVocabulary.

Arguments shown_values : simpl never.

(** ** Checking the hypotheses on a concrete store *)

(** Equality of two [double]s as objects (not [==]): equality of their
    IEEE 754 decodings. *)
Global Instance spec_float_eq_dec : EqDecision SpecFloat.spec_float.
Proof. solve_decision. Defined.

Global Instance float_eq_dec : EqDecision float.
Proof.
  intros x y. destruct (decide (Prim2SF x = Prim2SF y)) as [E|N].
  - left. by apply Prim2SF_inj.
  - right. congruence.
Defined.

Section Checkers.
Context {Env : Type}.
Implicit Types (h : gmap addr (StatNode Env)) (n : StatNode Env).

(** [dirty_closed] as a computation over the entries of the store. *)
Definition dirty_closedb h : bool :=
  forallb (λ kv, negb (m_isDirty kv.2)
                 || forallb (λ c, match h !! c with
                                  | Some child => m_isDirty child
                                  | None => true
                                  end) (m_children kv.2))
          (map_to_list h).

(** [wf_edges] as a computation. *)
Definition wf_edgesb h : bool :=
  forallb (λ kv, forallb (λ p, match h !! p with
                               | Some parent =>
                                   bool_decide (kv.1 ∈ m_children parent)
                               | None => true
                               end) (parent_addrs kv.2))
          (map_to_list h).

(** [coherent] as a computation. *)
Definition coherentb (now : addr → nat → TimePoint) (env : Env) h : bool :=
  forallb (λ kv,
             is_source kv.2 || m_isDirty kv.2
             || (forallb (λ p, match h !! p with
                               | Some np => settled np
                               | None => true
                               end) (pull_targets env kv.2)
                 && bool_decide
                      (m_cachedValue kv.2
                       = run_calc (now kv.1) kv.2
                           (shown_values h (pull_targets env kv.2)))))
          (map_to_list h).

End Checkers.

(** ** Vocabulary of the aggregator *)

Module ModifiersSpec.
Import Modifiers.

Section Vocabulary.
Context {ModifierContext : Type}.
Implicit Types (m : Modifier ModifierContext) (ms : list (Modifier ModifierContext)).

(** The modifier's condition holds in [ctx]: it is active and has no
    condition function or one that returns true. *)
Definition applies (ctx : ModifierContext) m : bool :=
  m_isActive m && match m_condition m with Some c => c ctx | None => true end.

(** The value an applicable modifier contributes. *)
Definition value_of (ctx : ModifierContext) m : float :=
  match m_dynamicValue m with Some f => f ctx | None => m_value m end.

(** The applicable modifiers of one type, in aggregator order. *)
Definition contributing (t : ModifierType) (ctx : ModifierContext) ms
  : list (Modifier ModifierContext) :=
  filter (λ m, m_type m = t ∧ applies ctx m) ms.

(** Left-to-right sum from [0.0], and product of [1 + v] from [1.0]. *)
Definition fsum (vs : list float) : float :=
  foldl (λ acc v, (acc + v)%float) 0%float vs.
Definition fprod1 (vs : list float) : float :=
  foldl (λ acc v, (acc * (1 + v))%float) 1%float vs.

(** The stacking example of the specification. *)
Definition stacking_example : list (Modifier ModifierContext) :=
  [ new_Modifier "flat" "damage" Flat 10 "";
    new_Modifier "inc" "damage" Increased 0.5 "";
    new_Modifier "more" "damage" More 0.2%float "" ].

Definition override_42 : Modifier ModifierContext :=
  new_Modifier "ovr" "damage" Override 42 "".

End Vocabulary.

End ModifiersSpec.

(** ** Vocabulary of the manager *)

Section ManagerVocabulary.
Context {Env ModifierContext : Type}.
Implicit Types (g : GraphManager Env ModifierContext).

(** Every registered id points at a live node. *)
Definition registered g : Prop :=
  ∀ id a, m_nodes g !! id = Some a → is_Some (store g !! a).

(** No aggregator holds a modifier with this id / from this source. *)
Definition no_modifier_id g (modifierId : string) : Prop :=
  ∀ statId aggregator m,
    m_modifiers g !! statId = Some aggregator → m ∈ aggregator →
    Modifiers.m_id m ≠ modifierId.
Definition no_modifier_source g (sourceId : string) : Prop :=
  ∀ statId aggregator m,
    m_modifiers g !! statId = Some aggregator → m ∈ aggregator →
    Modifiers.m_sourceId m ≠ sourceId.

End ManagerVocabulary.

(** ** The public operations of a node, as steps of the store *)

Section GraphSteps.
Context {Env : Type}.
Implicit Types (h : gmap addr (StatNode Env)) (n : StatNode Env).

(** One call of a public method of [StatNode] or [HistoryStatNode] on a
    live node, that returns; or the construction of a node, which lands at
    an unused address. *)
Inductive graph_step h : gmap addr (StatNode Env) → Prop :=
  | step_GetValue fuel now env a v h' tr :
      GetValue fuel now env h a = Some (v, h', tr) → graph_step h h'
  | step_SetBaseValue fuel a v h' :
      SetBaseValue fuel h a v = Some h' → graph_step h h'
  | step_MarkDirty fuel a h' :
      MarkDirty fuel h a = Some h' → graph_step h h'
  | step_SetCalculationFunc a n func :
      h !! a = Some n → graph_step h (<[a := SetCalculationFunc func n]> h)
  | step_SetCategory a n cat :
      h !! a = Some n → graph_step h (<[a := SetCategory cat n]> h)
  | step_SetIsHistoryNode a n isHistory :
      h !! a = Some n → graph_step h (<[a := SetIsHistoryNode isHistory n]> h)
  | step_AddParent a parent h' :
      AddParent h a parent = Some h' → graph_step h h'
  | step_AddConditionalParent a parent cond desc h' :
      AddConditionalParent h a parent cond desc = Some h' → graph_step h h'
  | step_RecordEvent fuel now a v ty h' :
      RecordEvent fuel now h a v ty = Some h' → graph_step h h'
  | step_RecordEventAt fuel a v time ty h' :
      RecordEventAt fuel h a v time ty = Some h' → graph_step h h'
  | step_CleanupOldEvents now maxAge a n :
      h !! a = Some n → graph_step h (<[a := CleanupOldEvents now maxAge n]> h)
  | step_Tick fuel checked cleaned now env a maxAge changed h' :
      Tick fuel checked cleaned now env h a maxAge = Some (changed, h') →
      graph_step h h'
  | step_new_StatNode a id label baseValue type :
      h !! a = None →
      graph_step h (<[a := new_StatNode id label baseValue type]> h)
  | step_new_HistoryStatNode now a id label windowSeconds :
      h !! a = None →
      graph_step h (<[a := new_HistoryStatNode now id label windowSeconds]> h).

(** The node at [a] has type [History] and is dirty. *)
Definition dirty_History h (a : addr) : Prop :=
  ∃ n, h !! a = Some n ∧ m_type n = History ∧ m_isDirty n = true.

(** Every parent pointer is live. *)
Definition closed h : Prop :=
  ∀ x n q, h !! x = Some n → q ∈ parent_addrs n → is_Some (h !! q).

Definition edges_ok h : Prop := wf_edges h ∧ closed h.

(** [h'] keeps the nodes of [h] alive, adds none, removes no edge, and adds
    at most the edge from the live parent [p] to its new child [a]. *)
Definition extends_edges h h' (new_edge : option (addr * addr)) : Prop :=
  (∀ x, is_Some (h !! x) → is_Some (h' !! x)) ∧
  (∀ a p, new_edge = Some (a, p) → is_Some (h' !! p)) ∧
  ∀ x nx', h' !! x = Some nx' →
    ∃ nx, h !! x = Some nx ∧
      (∀ c, c ∈ m_children nx → c ∈ m_children nx') ∧
      (∀ q, q ∈ parent_addrs nx' →
            q ∈ parent_addrs nx ∨ new_edge = Some (x, q)) ∧
      (∀ a, new_edge = Some (a, x) → a ∈ m_children nx').

(** Every node of [h] is still there in [h'], related to what it was
    by [R]. *)
Definition preserves (R : relation (StatNode Env)) h h' : Prop :=
  ∀ x n, h !! x = Some n → ∃ n', h' !! x = Some n' ∧ R n n'.

(** [n'] is the object [n] at a later time: it has the id of [n], and
    its [HistoryStatNode] part if [n] has one. *)
Definition same_node n n' : Prop :=
  m_id n' = m_id n ∧ (is_Some (m_history n) → is_Some (m_history n')).

End GraphSteps.

(** ** The public operations of the manager, as steps *)

Section ManagerSteps.
Context {Env ModifierContext : Type} `{StdSort}.
Implicit Types (g : GraphManager Env ModifierContext).

(** The manager [g'] a call leaves behind, whether it returned or threw. *)
Definition left_behind {A} (o : outcome Env ModifierContext A)
  : GraphManager Env ModifierContext :=
  match o with Returns _ g' => g' | Throws _ g' => g' end.

(** One call of a public method of the manager that terminates, or of a
    method of a node through a pointer the manager handed out. *)
Inductive manager_step g : GraphManager Env ModifierContext → Prop :=
  | mstep_CreateBaseStat id label baseValue category :
      manager_step g (left_behind (CreateBaseStat g id label baseValue category))
  | mstep_CreateDerivedStat id label parents calcFunc category o :
      CreateDerivedStat g id label parents calcFunc category = Some o →
      manager_step g (left_behind o)
  | mstep_CreateHistoryNode now id label windowSeconds category :
      manager_step g
        (left_behind (CreateHistoryNode now g id label windowSeconds category))
  | mstep_SetNodeValue fuel id v found g' :
      SetNodeValue fuel g id v = Some (found, g') → manager_step g g'
  | mstep_AddModifier fuel modifier g' :
      AddModifier fuel g modifier = Some g' → manager_step g g'
  | mstep_RemoveModifier modifierId :
      manager_step g (RemoveModifier g modifierId)
  | mstep_RemoveModifiersBySource fuel sourceId g' :
      RemoveModifiersBySource fuel g sourceId = Some g' → manager_step g g'
  | mstep_RecordDamage fuel now id amount damageType g' :
      RecordDamage fuel now g id amount damageType = Some g' →
      manager_step g g'
  | mstep_HasChanges : manager_step g (HasChanges g).2
  | mstep_MarkChanged : manager_step g (MarkChanged g)
  | mstep_MarkAllConditionalNodesDirty fuel g' :
      MarkAllConditionalNodesDirty fuel g = Some g' → manager_step g g'
  | mstep_node h' :
      graph_step (store g) h' → manager_step g (set_store h' g).

(** The registry is consistent: every registered id names a live node
    that carries this id, and [m_nodeOrder] lists the registered ids, each
    once. *)
Definition registry_ok g : Prop :=
  (∀ id a, m_nodes g !! id = Some a →
           ∃ n, store g !! a = Some n ∧ m_id n = id) ∧
  NoDup (m_nodeOrder g) ∧
  (∀ id, id ∈ m_nodeOrder g ↔ is_Some (m_nodes g !! id)).

(** Every entry of [m_historyNodes] is a live [HistoryStatNode] of type
    History that is dirty. *)
Definition history_ok g : Prop :=
  ∀ id a, m_historyNodes g !! id = Some a →
    ∃ n, store g !! a = Some n ∧ is_Some (m_history n) ∧
         m_type n = History ∧ m_isDirty n = true.

(** Every aggregator is in (type, priority) order and holds modifiers of
    its own stat only. *)
Definition aggregators_ok g : Prop :=
  ∀ statId aggregator, m_modifiers g !! statId = Some aggregator →
    sorted_by Modifiers.modifier_before aggregator ∧
    ∀ m, m ∈ aggregator → Modifiers.m_targetStatId m = statId.

Definition manager_ok g : Prop :=
  registry_ok g ∧ history_ok g ∧ aggregators_ok g ∧ edges_ok (store g).

(** The test of [MarkAllConditionalNodesDirty] on the node [n] registered
    as [id]. *)
Definition is_conditional g (id : string) (n : StatNode Env) : Prop :=
  m_conditionalParents n ≠ [] ∨ is_Some (m_modifiers g !! id).

End ManagerSteps.

(** ** Vocabulary for the producers *)

Section ProducerVocabulary.
Context {Env : Type} `{StdSort} `{StdHash}.
Import GameplayTags Contexts Managers.

(** The tag container still has the callback the constructor gave it, the
    registry is in order and the budget covers a push from any node. *)
Definition ready (fuel : nat) (m : Manager Env) : Prop :=
  m_onChangedCallback (m_activeTags m) = Some (on_tags_changed fuel) ∧
  registry_ok (core m) ∧
  clean_count (store (core m)) ≤ fuel.

(** From [g] to [g'] the registries are the same and the nodes differ in
    raised dirty flags only. *)
Definition restamped (g g' : GraphManager Env ModifierContext) : Prop :=
  m_nodes g' = m_nodes g ∧ m_nodeOrder g' = m_nodeOrder g ∧
  m_historyNodes g' = m_historyNodes g ∧
  dirtied (store g) (store g').

(** [tag] equals ([operator==]) one of the tags of [tagList]. *)
Definition tag_among (tag : GameplayTag) (tagList : list GameplayTag) : bool :=
  existsb (tag_eqb tag) tagList.

End ProducerVocabulary.

(** ** What the writes of the methods keep *)

Section Writes.
Context {Env : Type}.

(** The elementary writes of the methods keep [R]. *)
Record kept_by_writes (R : relation (StatNode Env)) : Prop := {
  kept_refl : Reflexive R;
  kept_trans : Transitive R;
  kept_cache : ∀ n v b, R n (set_isDirty b (set_cachedValue v n));
  kept_dirty : ∀ n, R n (set_isDirty true n);
  kept_base : ∀ n v, R n (set_baseValue v n);
  kept_base_cache : ∀ n v, R n (set_cachedValue v (set_baseValue v n));
  kept_parents : ∀ n p, R n (set_parents (m_parents n ++ [p]) n);
  kept_conditional : ∀ n cp,
    R n (set_conditionalParents (m_conditionalParents n ++ [cp]) n);
  kept_children : ∀ n c, R n (set_children (m_children n ++ [c]) n);
  kept_calc : ∀ n f, R n (SetCalculationFunc f n);
  kept_category : ∀ n c, R n (SetCategory c n);
  kept_isHistory : ∀ n b, R n (SetIsHistoryNode b n);
  kept_events : ∀ n evs, R n (set_events evs n);
  kept_cleanup : ∀ n now maxAge, R n (CleanupOldEvents now maxAge n);
}.

End Writes.

(** * Scenarios *)

(** Every reading of the clock is the time point [t]. *)
Definition always (t : TimePoint) : nat → TimePoint := λ _, t.
Definition at_time (t : TimePoint) : addr → nat → TimePoint := λ _ _, t.

(** The test [ConditionalParent_OnlyAppliesWhenConditionMet]: [Env] is the
    captured [bool conditionMet]; node 0 is [base], 1 is [bonus], 2 is
    [derived]. *)
Definition conditional_nodes : gmap addr (StatNode bool) :=
  <[2 := new_StatNode "derived" "Derived" 0 Derived]>
    (<[1 := new_StatNode "bonus" "Bonus" 50 Base]>
       (<[0 := new_StatNode "base" "Base" 100 Base]> ∅)).

Definition conditional_graph : option (gmap addr (StatNode bool)) :=
  h ← AddParent conditional_nodes 2 (Some 0);
  AddConditionalParent h 2 (Some 1) (Some (λ conditionMet, conditionMet))
    "Test Condition".

(** The test's calls: pull while the predicate is false; then, the
    predicate being true, [MarkDirty] and pull again. *)
Definition conditional_run : option (float * float) :=
  h ← conditional_graph;
  '(first, h1, _) ← GetValue 2 (at_time 0) false h 2;
  h2 ← MarkDirty 3 h1 2;
  '(second, _, _) ← GetValue 2 (at_time 0) true h2 2;
  Some (first, second).

(** The same nodes, the bonus edge added with an empty [std::function]. *)
Definition null_condition_graph : option (gmap addr (StatNode bool)) :=
  h ← AddParent conditional_nodes 2 (Some 0);
  AddConditionalParent h 2 (Some 1) None "no predicate".

(** A chain [0 → 1 → 2]: node 1 derives from the base node 0, node 2
    depends on node 1 through an edge whose predicate is the environment. *)
Definition chain_nodes : gmap addr (StatNode bool) :=
  <[2 := new_StatNode "C" "C" 0 Derived]>
    (<[1 := new_StatNode "B" "B" 0 Derived]>
       (<[0 := new_StatNode "A" "A" 10 Base]> ∅)).

Definition chain_graph : option (gmap addr (StatNode bool)) :=
  h ← AddParent chain_nodes 1 (Some 0);
  AddConditionalParent h 2 (Some 1) (Some (λ flag, flag)) "flag".

(** [C->GetValue()] while the predicate is false: [C] is cached clean, [B]
    was not pulled and stays dirty. *)
Definition chain_after_pull : option (gmap addr (StatNode bool)) :=
  h ← chain_graph;
  '(_, h', _) ← GetValue 3 (at_time 0) false h 2;
  Some h'.

(** The test [SetBaseValue_MarksDependentsAsDirty]: node 1 doubles the
    value of the base node 0. *)
Definition doubling_nodes : gmap addr (StatNode unit) :=
  <[1 := SetCalculationFunc
           (Some (CalcFn (λ parents, (nth 0 parents 0 * 2)%float)))
           (new_StatNode "derived" "Derived" 0 Derived)]>
    (<[0 := new_StatNode "base" "Base" 10 Base]> ∅).

Definition doubling_graph : gmap addr (StatNode unit) :=
  default ∅ (AddParent doubling_nodes 1 (Some 0)).

(** The conditional graph after its first pull (predicate false): every
    node is clean. *)
Definition conditional_pulled : gmap addr (StatNode bool) :=
  default ∅ (h ← conditional_graph; '(_, h', _) ← GetValue 2 (at_time 0) false h 2; Some h').

(** The chain after [C]'s pull, as a store. *)
Definition chain_pulled : gmap addr (StatNode bool) :=
  default ∅ chain_after_pull.

(** An ordinary chain [0 → 1 → 2], fully pulled, after which node 1 is
    given a second parent, the base node 3. *)
Definition regraft_nodes : gmap addr (StatNode unit) :=
  <[3 := new_StatNode "A2" "A2" 5 Base]>
    (<[2 := new_StatNode "C" "C" 0 Derived]>
       (<[1 := new_StatNode "B" "B" 0 Derived]>
          (<[0 := new_StatNode "A" "A" 10 Base]> ∅))).

Definition regraft_graph : option (gmap addr (StatNode unit)) :=
  h ← AddParent regraft_nodes 1 (Some 0);
  h ← AddParent h 2 (Some 1);
  '(_, h, _) ← GetValue 3 (at_time 0) tt h 2;
  AddParent h 1 (Some 3).

(** A [HistoryStatNode] on its own, at address 0, created at time 0 with
    the default window. *)
Definition ledger_alone : gmap addr (StatNode unit) :=
  {[ 0 := new_HistoryStatNode 0 "damageTaken" "Total DMG Taken" DEFAULT_WINDOW ]}.

(** [k] calls [RecordEventAt(1.0, t0)] in a row. *)
Definition replay (k : nat) : option (gmap addr (StatNode unit)) :=
  Nat.iter k (λ acc, h ← acc; RecordEventAt 1 h 0 1 0 "") (Some ledger_alone).

(** What the ledger holds after [k] replayed events: [GetEventCount()] and
    [CountRecent] over a window of a million seconds, asked at time 1. *)
Definition replay_counts (k : nat) : option (nat * nat) :=
  h ← replay k;
  n ← h !! 0;
  Some (GetEventCount n, CountRecent (always 1000000000) (events_of n) 1000000).

(** A history node made by [GraphManager::CreateHistoryNode], one event of
    10 recorded through [RecordDamage], then pulled, all at time 0: the
    value [GetValue()] returns, the node's [SumRecent(m_defaultWindow)], and
    its type. *)
Definition managed_ledger_run : option (float * float * NodeType) :=
  match CreateHistoryNode (Env := unit) (ModifierContext := unit) 0
          new_GraphManager "damageTaken" "Total DMG Taken" 4 "defense" with
  | Returns node g =>
      g' ← RecordDamage 2 0 g "damageTaken" 10 "Fire";
      '(v, _, _) ← GetValue 2 (at_time 0) tt (store g') node;
      n ← store g' !! node;
      Some (v, SumRecent (always 0) (events_of n) (GetDefaultWindow n), m_type n)
  | Throws _ _ => None
  end.

(** The same calls on a [HistoryStatNode] constructed directly. *)
Definition standalone_ledger_run : option (float * float * NodeType) :=
  h ← RecordEvent 2 0 ledger_alone 0 10 "Fire";
  '(v, _, _) ← GetValue 2 (at_time 0) tt h 0;
  n ← h !! 0;
  Some (v, SumRecent (always 0) (events_of n) (GetDefaultWindow n), m_type n).

(** A manager with one base stat, [health], and one Flat modifier on it
    that came from the source [ring]. *)
Definition equipped_manager : option (GraphManager unit unit) :=
  match CreateBaseStat new_GraphManager "health" "Health" 100 "" with
  | Returns _ g =>
      AddModifier 2 g
        (Modifiers.WithSource "ring"
           (Modifiers.new_Modifier "ring_flat" "health" Modifiers.Flat 10
              "+10 health"))
  | Throws _ _ => None
  end.


(** ** Scenarios for the manager, the tags and the producers *)

(** A stand-in for [std::hash<std::string>]: the bytes of the string read
    as a number in base 256. *)
Fixpoint bytes_from (acc : N) (s : string) : N :=
  match s with
  | EmptyString => acc
  | String c rest => bytes_from (acc * 256 + Ascii.N_of_ascii c) rest
  end.

Global Instance byte_hash : StdHash := bytes_from 0.

(** Three events, recorded 0, 5 and 9 seconds after the epoch of the
    clock. *)
Definition three_events : list TimestampedEvent :=
  [ {| value := 1; timestamp := 0; eventType := "Fire" |};
    {| value := 2; timestamp := 5000000000; eventType := "Cold" |};
    {| value := 4; timestamp := 9000000000; eventType := "Fire" |} ].

(** A directly constructed [HistoryStatNode] that holds them, alone in a
    store. *)
Definition ledger_node : StatNode unit :=
  set_events three_events
    (new_HistoryStatNode 0 "damageTaken" "Total DMG Taken" DEFAULT_WINDOW).

Definition ledger_store : gmap addr (StatNode unit) := {[ 0 := ledger_node ]}.

(** A manager after [CreateHistoryNode] alone. *)
Definition managed_ledger : GraphManager unit Contexts.ModifierContext :=
  left_behind
    (CreateHistoryNode 0 new_GraphManager "damageTaken" "Total DMG Taken" 4
       "defense").

(** The tag [Weapon.Sword], and a modifier that asks for it. *)
Definition sword_tag : GameplayTags.GameplayTag :=
  GameplayTags.new_GameplayTag "Weapon.Sword".

Definition sword_mastery : Modifiers.Modifier Contexts.ModifierContext :=
  Contexts.RequiresTag sword_tag
    (Modifiers.new_Modifier "sword_mastery" "power" Modifiers.Increased 0.5
       "50% increased power with swords").

(** A manager with the base stat [strength] (node 0), the history node
    [damageTaken] (node 1), the derived stat [power] (node 2), which
    doubles [strength], and the modifier above on [power]. *)
Definition combat_stats : GraphManager unit Contexts.ModifierContext :=
  left_behind
    (CreateHistoryNode 0
       (left_behind
          (CreateBaseStat new_GraphManager "strength" "Strength" 10
             "attributes"))
       "damageTaken" "Total DMG Taken" 4 "defense").

Definition combat_graph
  : option (outcome unit Contexts.ModifierContext addr) :=
  CreateDerivedStat combat_stats "power" "Power" [Some 0]
    (Some (CalcFn (λ parents, (nth 0 parents 0 * 2)%float))) "offense".

Definition combat_core : GraphManager unit Contexts.ModifierContext :=
  default combat_stats
    (o ← combat_graph; AddModifier 4 (left_behind o) sword_mastery).

Definition combat_manager : Managers.Manager unit :=
  Managers.set_core combat_core (Managers.new_Manager 4 0 0 0 0).

(** An item that adds 5 to [strength] and grants the tag. *)
Definition iron_sword : Producers.Item :=
  Producers.Item_GrantsTag sword_tag
    (Producers.Item_AddModifier "strength" Modifiers.Flat 5 ""
       (Producers.new_Item "sword" "Iron Sword" Producers.MainHand)).

(** The manager after the item was equipped, and the equipped item. *)
Definition armed_manager : Managers.Manager unit :=
  default combat_manager
    (snd <$> Producers.Item_Activate 4 iron_sword combat_manager).

Definition equipped_sword : Producers.Item :=
  Producers.set_isEquipped true iron_sword.

(** An aura of ten seconds that grants the tag [Buff.Haste] and adds 20%
    to [power]. *)
Definition haste : Producers.Aura :=
  Producers.Aura_AddModifier "power" Modifiers.Increased 0.2 ""
    (Producers.Aura_GrantsTag (GameplayTags.new_GameplayTag "Buff.Haste")
       (Producers.new_Aura "haste" "Haste" 10)).

(** A container with the tags [Weapon.Sword] and [Buff.Haste]. *)
Definition two_tags : gmap N GameplayTags.GameplayTag :=
  <[GameplayTags.m_hash (GameplayTags.new_GameplayTag "Buff.Haste") :=
      GameplayTags.new_GameplayTag "Buff.Haste"]>
    {[ GameplayTags.m_hash sword_tag := sword_tag ]}.

(** * Theorems *)

(** ** Invalidation *)

Section Invalidation.
Context {Env : Type}.
Implicit Types (h : gmap addr (StatNode Env)) (n : StatNode Env).

Lemma set_isDirty_id n : m_isDirty n = true → set_isDirty true n = n.
Proof. destruct n; simpl; intros ->; reflexivity. Qed.

Lemma dirtied_refl h : dirtied h h.
Proof. intros x; by left. Qed.

Lemma dirtied_trans h1 h2 h3 : dirtied h1 h2 → dirtied h2 h3 → dirtied h1 h3.
Proof.
  intros H12 H23 x.
  destruct (H23 x) as [E|(n2 & E2 & Hc & E3)].
  - rewrite E. apply H12.
  - destruct (H12 x) as [E|(n1 & E1 & Hc1 & E1')].
    + right. exists n2. by rewrite <- E.
    + rewrite E1' in E2. injection E2 as <-. discriminate Hc.
Qed.

Lemma dirtied_mark h c n :
  h !! c = Some n → m_isDirty n = false →
  dirtied h (<[c := set_isDirty true n]> h).
Proof.
  intros Hc Hd x. destruct (decide (x = c)) as [->|Hne].
  - right. exists n. by rewrite lookup_insert_eq.
  - left. by rewrite lookup_insert_ne.
Qed.

Lemma dirtied_lookup h h' x n' :
  dirtied h h' → h' !! x = Some n' →
  ∃ n, h !! x = Some n ∧ m_children n = m_children n' ∧
       (n' = n ∨ (m_isDirty n = false ∧ n' = set_isDirty true n)).
Proof.
  intros Hd Hx. destruct (Hd x) as [E|(n & E & Hc & E')].
  - exists n'. rewrite <- E. auto.
  - rewrite E' in Hx. injection Hx as <-. exists n. auto.
Qed.

Lemma dirtied_lookup_fwd h h' x n :
  dirtied h h' → h !! x = Some n →
  ∃ n', h' !! x = Some n' ∧ m_children n' = m_children n ∧
        (n' = n ∨ (m_isDirty n = false ∧ n' = set_isDirty true n)).
Proof.
  intros Hd Hx. destruct (Hd x) as [E|(n0 & E & Hc & E')].
  - exists n. rewrite E. auto.
  - rewrite Hx in E. injection E as <-. exists (set_isDirty true n). auto.
Qed.

Lemma dirtied_is_Some h h' x : dirtied h h' → is_Some (h' !! x) ↔ is_Some (h !! x).
Proof.
  intros Hd. destruct (Hd x) as [E|(n & E & Hc & E')].
  - by rewrite E.
  - rewrite E, E'. split; eauto.
Qed.

Lemma dirtied_flag_true h h' x :
  dirtied h h' → flag_at h x true → flag_at h' x true.
Proof.
  intros Hd (n & Hx & Hf).
  destruct (dirtied_lookup_fwd _ _ _ _ Hd Hx) as (n' & Hx' & _ & [->|[_ ->]]);
    exists n; rewrite ?set_isDirty_id in * by done; eauto.
Qed.

Lemma dirtied_flag_false h h' x :
  dirtied h h' → flag_at h' x false → flag_at h x false ∧ h' !! x = h !! x.
Proof.
  intros Hd (n' & Hx' & Hf).
  destruct (Hd x) as [E|(n & E & Hc & E')].
  - split; [exists n'; by rewrite <- E | done].
  - rewrite E' in Hx'. injection Hx' as <-. discriminate Hf.
Qed.

Lemma dirtied_changed h h' x :
  dirtied h h' → h' !! x ≠ h !! x → flag_at h x false ∧ flag_at h' x true.
Proof.
  intros Hd Hne. destruct (Hd x) as [E|(n & E & Hc & E')]; [done|].
  split; [by exists n | by exists (set_isDirty true n)].
Qed.

Lemma dirtied_child_edge h h' x y :
  dirtied h h' → child_edge h' x y ↔ child_edge h x y.
Proof.
  intros Hd. split.
  - intros (n' & Hx & Hin & Hy).
    destruct (dirtied_lookup _ _ _ _ Hd Hx) as (n & Hx0 & Hch & _).
    exists n. rewrite Hch. by rewrite <- (dirtied_is_Some h h').
  - intros (n & Hx & Hin & Hy).
    destruct (dirtied_lookup_fwd _ _ _ _ Hd Hx) as (n' & Hx' & Hch & _).
    exists n'. rewrite Hch. by rewrite (dirtied_is_Some h h').
Qed.

Lemma dirtied_clean_edge h h' x y :
  dirtied h h' → clean_edge h' x y → clean_edge h x y.
Proof.
  intros Hd [He Hf]. split.
  - by apply (dirtied_child_edge h h').
  - by apply (dirtied_flag_false h h').
Qed.

Lemma dirtied_clean_descendant h h' x y :
  dirtied h h' → clean_descendant h' x y → clean_descendant h x y.
Proof.
  intros Hd. unfold clean_descendant.
  induction 1 as [x y He|x y z He _ IH].
  - apply tc_once. by apply (dirtied_clean_edge h h').
  - eapply tc_l; [by apply (dirtied_clean_edge h h')|done].
Qed.

Lemma dirtied_cases h h' x :
  dirtied h h' → h' !! x = h !! x ∨ newly_dirty h h' x.
Proof.
  intros Hd. destruct (Hd x) as [E|(n & E & Hc & E')]; [by left|right].
  split; [by exists n | by exists (set_isDirty true n)].
Qed.

Lemma flag_at_inj h x b1 b2 : flag_at h x b1 → flag_at h x b2 → b1 = b2.
Proof. intros (n1 & H1 & <-) (n2 & H2 & <-). congruence. Qed.

Lemma flag_at_cases h x : is_Some (h !! x) → flag_at h x false ∨ flag_at h x true.
Proof.
  intros [n Hn]. destruct (m_isDirty n) eqn:E; [right|left]; by exists n.
Qed.

Lemma flag_at_is_Some h x b : flag_at h x b → is_Some (h !! x).
Proof. intros (n & Hn & _). eauto. Qed.

Lemma foldl_invalidate_None (rec : gmap addr (StatNode Env) → addr → option _) cs :
  foldl (invalidate_child rec) None cs = None.
Proof. induction cs; simpl; auto. Qed.

Lemma invalidate_loop_spec (rec : gmap addr (StatNode Env) → addr → option _) :
  (∀ h a h', rec h a = Some h' → inval_post h a h') →
  ∀ cs hc h',
    foldl (invalidate_child rec) (Some hc) cs = Some h' → loop_post hc cs h'.
Proof.
  intros IH. induction cs as [|c cs IHcs]; intros hc h' Hf; simpl in Hf.
  - injection Hf as <-. split; [apply dirtied_refl|].
    split; [|split].
    + intros x [H1 H2]. by pose proof (flag_at_inj _ _ _ _ H1 H2).
    + intros c Hc. by apply elem_of_nil in Hc.
    + intros x y [H1 H2]. by pose proof (flag_at_inj _ _ _ _ H1 H2).
  - destruct (hc !! c) as [child|] eqn:Hc; simpl in Hf;
      [destruct (m_isDirty child) eqn:Hdirty|].
    + (* already dirty: skipped *)
      destruct (IHcs _ _ Hf) as (Hd & Hsound & Hkids & Hclosed).
      split; [done|]. split; [|split; [|done]].
      * intros x Hx. destruct (Hsound x Hx) as (c' & ? & ?).
        exists c'. split; [by apply elem_of_cons; right|done].
      * intros c0 [->|Hin]%elem_of_cons Hlive; [|by apply Hkids].
        apply (dirtied_flag_true hc); [done|by exists child].
    + (* clean: marked, then its own children *)
      destruct (rec (<[c:=set_isDirty true child]> hc) c) as [h1|] eqn:Hrec;
        [|by rewrite foldl_invalidate_None in Hf].
      set (hm := <[c:=set_isDirty true child]> hc) in *.
      assert (Hdm : dirtied hc hm) by by apply dirtied_mark.
      destruct (IH _ _ _ Hrec) as (Hd1 & Hsound1 & Hkids1 & Hclosed1).
      destruct (IHcs _ _ Hf) as (Hd2 & Hsound2 & Hkids2 & Hclosed2).
      assert (Hd01 : dirtied hc h1) by by eapply dirtied_trans.
      assert (Hcm : flag_at hm c true).
      { exists (set_isDirty true child). unfold hm. by rewrite lookup_insert_eq. }
      assert (Hc0 : flag_at hc c false) by by exists child.
      (* where a node newly dirty in [h'] became dirty *)
      assert (Hwhen : ∀ x, newly_dirty hc h' x →
                newly_dirty h1 h' x ∨ newly_dirty hm h1 x ∨ x = c).
      { intros x [Hx0 Hx'].
        assert (is_Some (h1 !! x)) as [?|?]%flag_at_cases.
        { apply (dirtied_is_Some hc); [done|by eapply flag_at_is_Some]. }
        { by left. }
        right.
        assert (is_Some (hm !! x)) as [?|Hxm]%flag_at_cases.
        { apply (dirtied_is_Some hc); [done|by eapply flag_at_is_Some]. }
        { by left. }
        right. destruct (decide (x = c)) as [|Hne]; [done|].
        destruct Hxm as (nx & Hnx & Hfx). unfold hm in Hnx.
        rewrite lookup_insert_ne in Hnx by done.
        assert (flag_at hc x true) as Hbad by by exists nx.
        by pose proof (flag_at_inj _ _ _ _ Hx0 Hbad). }
      split; [by eapply dirtied_trans|]. split; [|split].
      * intros x Hx. destruct (Hwhen x Hx) as [Hn|[Hn| ->]].
        -- destruct (Hsound2 x Hn) as (c' & Hin & Hfc & Hreach).
           exists c'. split; [by apply elem_of_cons; right|].
           split; [by apply (dirtied_flag_false hc h1)|].
           destruct Hreach as [->|Hreach]; [by left|right].
           by apply (dirtied_clean_descendant hc h1).
        -- exists c. split; [by apply elem_of_cons; left|]. split; [done|].
           right. apply (dirtied_clean_descendant hc hm); [done|].
           by apply Hsound1.
        -- exists c. split; [by apply elem_of_cons; left|]. split; [done|].
           by left.
      * intros c0 [->|Hin]%elem_of_cons Hlive.
        -- apply (dirtied_flag_true h1); [done|].
           by apply (dirtied_flag_true hm).
        -- apply Hkids2; [done|]. by apply (dirtied_is_Some hc h1).
      * intros x y Hx He. destruct (Hwhen x Hx) as [Hn|[Hn| ->]].
        -- apply (Hclosed2 x); [done|]. by apply (dirtied_child_edge hc h1).
        -- apply (dirtied_flag_true h1); [done|].
           apply (Hclosed1 x); [done|]. by apply (dirtied_child_edge hc hm).
        -- apply (dirtied_flag_true h1); [done|].
           apply Hkids1. by apply (dirtied_child_edge hc hm).
    + (* expired weak pointer *)
      destruct (IHcs _ _ Hf) as (Hd & Hsound & Hkids & Hclosed).
      split; [done|]. split; [|split; [|done]].
      * intros x Hx. destruct (Hsound x Hx) as (c' & ? & ?).
        exists c'. split; [by apply elem_of_cons; right|done].
      * intros c0 [->|Hin]%elem_of_cons Hlive; [|by apply Hkids].
        rewrite Hc in Hlive. by destruct Hlive.
Qed.

Lemma InvalidateChildren_spec fuel h a h' :
  InvalidateChildren fuel h a = Some h' → inval_post h a h'.
Proof.
  revert h a h'. induction fuel as [|fuel IH]; intros h a h' Hi; [done|].
  simpl in Hi. destruct (h !! a) as [n|] eqn:Ha; [|done]. simpl in Hi.
  destruct (invalidate_loop_spec _ IH _ _ _ Hi)
    as (Hd & Hsound & Hkids & Hclosed).
  split; [done|]. split; [|split; [|done]].
  - intros x Hx. destruct (Hsound x Hx) as (c & Hin & Hfc & Hreach).
    assert (clean_edge h a c) as Hedge.
    { split; [|done]. exists n. split; [done|]. split; [done|].
      by eapply flag_at_is_Some. }
    destruct Hreach as [->|Hreach]; [by apply tc_once|by eapply tc_l].
  - intros y (n' & Hn' & Hin & Hlive). rewrite Ha in Hn'.
    injection Hn' as <-. by apply Hkids.
Qed.

(** *** The recursion budget: one unit per clean node *)

Lemma clean_count_dirtied h h' : dirtied h h' → clean_count h' ≤ clean_count h.
Proof.
  intros Hd. apply map_subseteq_size, map_subseteq_spec.
  intros x n' [Hx Hf]%map_lookup_filter_Some. apply map_lookup_filter_Some.
  split; [|done]. simpl in Hf.
  destruct (dirtied_flag_false h h' x Hd) as [_ <-]; [by exists n'|done].
Qed.

Lemma clean_count_mark h c n :
  h !! c = Some n → m_isDirty n = false →
  clean_count (<[c := set_isDirty true n]> h) < clean_count h.
Proof.
  intros Hc Hf. unfold clean_count.
  rewrite map_filter_insert_False by (simpl; congruence).
  rewrite map_filter_delete.
  assert (filter (λ kv, m_isDirty kv.2 = false) h !! c = Some n) as Hin
    by by apply map_lookup_filter_Some.
  rewrite map_size_delete_Some by eauto.
  pose proof (map_size_ne_0_lookup_2 _ c (ltac:(eauto) : is_Some (_ !! c))).
  lia.
Qed.

Lemma clean_count_insert_same h a n n' :
  h !! a = Some n → m_isDirty n' = m_isDirty n →
  clean_count (<[a := n']> h) = clean_count h.
Proof.
  intros Ha Hf. unfold clean_count. destruct (m_isDirty n) eqn:Hn.
  - rewrite map_filter_insert_False by (simpl; congruence).
    rewrite map_filter_delete. apply map_size_delete_None.
    apply eq_None_not_Some. intros [m [Hm Hp]%map_lookup_filter_Some].
    simpl in Hp. congruence.
  - rewrite map_filter_insert_True by (simpl; congruence).
    apply map_size_insert_Some. exists n. by apply map_lookup_filter_Some.
Qed.

Lemma invalidate_loop_total (rec : gmap addr (StatNode Env) → addr → option _)
    (bound : nat) :
  (∀ h a h', rec h a = Some h' → inval_post h a h') →
  (∀ h a, is_Some (h !! a) → clean_count h < bound → is_Some (rec h a)) →
  ∀ cs hc, clean_count hc ≤ bound →
    is_Some (foldl (invalidate_child rec) (Some hc) cs).
Proof.
  intros Hspec Htot. induction cs as [|c cs IHcs]; intros hc Hb; simpl; [eauto|].
  destruct (hc !! c) as [child|] eqn:Hc; simpl;
    [destruct (m_isDirty child) eqn:Hdirty|]; [by apply IHcs| |by apply IHcs].
  pose proof (clean_count_mark _ _ _ Hc Hdirty) as Hlt.
  destruct (Htot (<[c:=set_isDirty true child]> hc) c) as [h1 Hrec].
  { rewrite lookup_insert_eq. eauto. }
  { lia. }
  rewrite Hrec. apply IHcs.
  destruct (Hspec _ _ _ Hrec) as [Hd _].
  pose proof (clean_count_dirtied _ _ Hd). lia.
Qed.

Lemma InvalidateChildren_total fuel h a :
  is_Some (h !! a) → clean_count h < fuel →
  is_Some (InvalidateChildren fuel h a).
Proof.
  revert h a. induction fuel as [|fuel IH]; intros h a [n Ha] Hlt; [lia|].
  simpl. rewrite Ha. simpl.
  apply (invalidate_loop_total _ fuel); [|done|lia].
  intros ???. apply InvalidateChildren_spec.
Qed.

(** *** Reachability along child edges *)

Lemma descendant_closed h (Q : addr → Prop) :
  (∀ z w, Q z → child_edge h z w → Q w) →
  ∀ a x, descendant h a x → Q a → Q x.
Proof.
  intros Hstep a x. unfold descendant.
  induction 1 as [s x He|s y x He _ IH]; intros Hs; eauto.
Qed.

Lemma clean_descendant_closed h (Q : addr → Prop) :
  (∀ z w, Q z → clean_edge h z w → Q w) →
  ∀ a x, clean_descendant h a x → Q a → Q x.
Proof.
  intros Hstep a x. unfold clean_descendant.
  induction 1 as [s x He|s y x He _ IH]; intros Hs; eauto.
Qed.

Lemma clean_descendant_descendant h a x :
  clean_descendant h a x → descendant h a x.
Proof.
  unfold clean_descendant, descendant.
  induction 1 as [s x [He _]|s y x [He _] _ IH];
    [by apply tc_once|by eapply tc_l].
Qed.

Lemma dirtied_descendant h h' x y :
  dirtied h h' → descendant h' x y ↔ descendant h x y.
Proof.
  intros Hd. unfold descendant. split; induction 1 as [? ? He|? ? ? He _ IH];
    apply (dirtied_child_edge h h') in He; try done;
    [by apply tc_once|by eapply tc_l|by apply tc_once|by eapply tc_l].
Qed.

(** Replacing a node by one with the same flag and the same children
    changes neither flags nor edges. *)
Section same_links.
Context (h : gmap addr (StatNode Env)) (a : addr) (n n' : StatNode Env).
Hypothesis Ha : h !! a = Some n.
Hypothesis Hflag : m_isDirty n' = m_isDirty n.
Hypothesis Hkids : m_children n' = m_children n.

Lemma insert_flag_at x b : flag_at (<[a := n']> h) x b ↔ flag_at h x b.
Proof.
  unfold flag_at. destruct (decide (x = a)) as [->|Hne].
  - rewrite lookup_insert_eq, Ha. split; intros (m & [= <-] & Hm);
      eexists; (split; [done|congruence]).
  - by rewrite lookup_insert_ne.
Qed.

Lemma insert_is_Some x : is_Some (<[a := n']> h !! x) ↔ is_Some (h !! x).
Proof.
  destruct (decide (x = a)) as [->|Hne].
  - rewrite lookup_insert_eq, Ha. split; eauto.
  - by rewrite lookup_insert_ne.
Qed.

Lemma insert_child_edge x y :
  child_edge (<[a := n']> h) x y ↔ child_edge h x y.
Proof.
  unfold child_edge. setoid_rewrite insert_is_Some.
  destruct (decide (x = a)) as [->|Hne].
  - rewrite lookup_insert_eq, Ha. split; intros (m & [= <-] & Hm);
      eexists; (split; [done|congruence]).
  - by rewrite lookup_insert_ne.
Qed.

Lemma insert_clean_edge x y :
  clean_edge (<[a := n']> h) x y ↔ clean_edge h x y.
Proof. unfold clean_edge. by rewrite insert_child_edge, insert_flag_at. Qed.

Lemma insert_descendant x y :
  descendant (<[a := n']> h) x y ↔ descendant h x y.
Proof.
  unfold descendant. split; induction 1 as [? ? He|? ? ? He _ IH];
    apply insert_child_edge in He;
    [by apply tc_once|by eapply tc_l|by apply tc_once|by eapply tc_l].
Qed.

Lemma insert_clean_descendant x y :
  clean_descendant (<[a := n']> h) x y ↔ clean_descendant h x y.
Proof.
  unfold clean_descendant. split; induction 1 as [? ? He|? ? ? He _ IH];
    apply insert_clean_edge in He;
    [by apply tc_once|by eapply tc_l|by apply tc_once|by eapply tc_l].
Qed.
End same_links.

(** After [InvalidateChildren] every node reached from [a] through clean
    nodes is dirty. *)
Lemma inval_post_complete h a h' x :
  inval_post h a h' → clean_descendant h a x → flag_at h' x true.
Proof.
  intros (Hd & _ & Hkids & Hclosed) Hreach.
  cut (∀ s t, clean_descendant h s t → s = a ∨ newly_dirty h h' s →
              flag_at h' t true).
  { intros Hgen. apply (Hgen a x); [done|by left]. }
  clear x Hreach. unfold clean_descendant.
  induction 1 as [s t [He Hf]|s y t [He Hf] Ht IH]; intros Hs.
  - destruct Hs as [->|Hs]; [by apply Hkids|by eapply Hclosed].
  - apply IH. right. split; [done|].
    destruct Hs as [->|Hs]; [by apply Hkids|by eapply Hclosed].
Qed.

(** When dirtiness is closed under children, everything below [a] is dirty
    afterwards. *)
Lemma inval_post_closed h a h' x :
  inval_post h a h' →
  (∀ z w, z ≠ a → flag_at h z true → child_edge h z w → flag_at h w true) →
  descendant h a x → flag_at h' x true.
Proof.
  intros (Hd & _ & Hkids & Hclosed) Hdc Hreach.
  cut (∀ s t, descendant h s t → s = a ∨ flag_at h' s true → flag_at h' t true).
  { intros Hgen. apply (Hgen a x); [done|by left]. }
  clear x Hreach.
  assert (∀ z w, z = a ∨ flag_at h' z true → child_edge h z w →
                 flag_at h' w true) as Hstep.
  { intros z w Hz He. destruct (decide (z = a)) as [->|Hne]; [by apply Hkids|].
    destruct Hz as [->|Hz]; [done|].
    destruct (dirtied_cases h h' z Hd) as [E|Hn]; [|by eapply Hclosed].
    apply (dirtied_flag_true h); [done|]. apply (Hdc z); [done| |done].
    destruct Hz as (nz & Hnz & Hfz). exists nz. by rewrite <- E. }
  unfold descendant. induction 1 as [s t He|s y t He _ IH]; intros Hs.
  - by eapply Hstep.
  - apply IH. right. by eapply Hstep.
Qed.

End Invalidation.

(** ** Event queue arithmetic *)

Lemma pop_front_over_drop max (events : list TimestampedEvent) :
  pop_front_over max events = drop (length events - max) events.
Proof.
  induction events as [|e events IH]; [done|]. simpl. case_decide as Hlt.
  - rewrite IH.
    by replace (S (length events) - max) with (S (length events - max)) by lia.
  - by replace (S (length events) - max) with 0 by lia.
Qed.

Lemma pop_front_over_length max (events : list TimestampedEvent) :
  length (pop_front_over max events) = length events `min` max.
Proof. rewrite pop_front_over_drop, length_drop. lia. Qed.

Lemma length_positions (events : list TimestampedEvent) :
  length (positions events) = length events.
Proof. apply length_imap. Qed.

Lemma CountRecent_le now (events : list TimestampedEvent) w :
  CountRecent now events w ≤ length events.
Proof.
  unfold CountRecent. rewrite <- length_positions.
  cut (∀ (l : list (nat * TimestampedEvent)) c,
         foldl (λ count ie, if IsWithinWindow (now ie.1) ie.2 w
                            then S count else count) c l
         ≤ c + length l).
  { intros Hc. apply (Hc _ 0). }
  induction l as [|ie l IH]; intros c; simpl; [lia|].
  destruct (IsWithinWindow (now ie.1) ie.2 w);
    etrans; [apply IH|lia|apply IH|lia].
Qed.

(** ** The push *)

Section Push.
Context {Env : Type}.
Implicit Types (h : gmap addr (StatNode Env)) (n : StatNode Env).

Lemma MarkDirty_clean_spec fuel h a n :
  h !! a = Some n → m_isDirty n = false → clean_count h ≤ fuel →
  ∃ h', MarkDirty fuel h a = Some h' ∧
        inval_post (<[a := set_isDirty true n]> h) a h'.
Proof.
  intros Ha Hf Hfuel. unfold MarkDirty. rewrite Ha. simpl. rewrite Hf. simpl.
  destruct (InvalidateChildren_total fuel (<[a := set_isDirty true n]> h) a)
    as [h' Hi].
  { rewrite lookup_insert_eq. eauto. }
  { pose proof (clean_count_mark _ _ _ Ha Hf). lia. }
  exists h'. split; [done|]. by eapply InvalidateChildren_spec.
Qed.

(** C6, as amended: [MarkDirty] on a dirty node is the identity on the
    store; and from a store in which every live child of a dirty node is
    dirty, [MarkDirty] on any node yields exactly the store in which that
    node and each of its transitive dependents has been marked on its own,
    every other node being left as it was. *)
Theorem MarkDirty_dirty_set fuel h a n :
  h !! a = Some n →
  (m_isDirty n = true → MarkDirty fuel h a = Some h) ∧
  (dirty_closed h → clean_count h ≤ fuel →
   ∃ h', MarkDirty fuel h a = Some h' ∧
     (∀ x, h !! x = None → h' !! x = None) ∧
     ∀ x nx, h !! x = Some nx →
       (x = a ∨ descendant h a x → h' !! x = Some (set_isDirty true nx)) ∧
       (¬ (x = a ∨ descendant h a x) → h' !! x = Some nx)).
Proof.
  intros Ha. split.
  { intros Hd. unfold MarkDirty. rewrite Ha. simpl. by rewrite Hd. }
  intros Hdc Hfuel. destruct (m_isDirty n) eqn:Hf.
  - (* already dirty: nothing happens, and everything below is dirty *)
    exists h. split; [unfold MarkDirty; rewrite Ha; simpl; by rewrite Hf|].
    split; [done|]. intros x nx Hx. split; [|done].
    intros Hreach. rewrite Hx. f_equal. symmetry. apply set_isDirty_id.
    assert (flag_at h x true) as (nx' & Hx' & Hfx).
    { destruct Hreach as [->|Hreach]; [by exists n|].
      eapply (descendant_closed h (λ z, flag_at h z true)); [|done|by exists n].
      intros z w Hz He. by eapply Hdc. }
    congruence.
  - destruct (MarkDirty_clean_spec fuel h a n Ha Hf Hfuel) as (h' & Hm & Hpost).
    exists h'. split; [done|].
    set (hm := <[a := set_isDirty true n]> h) in *.
    assert (Hdm : dirtied h hm) by by apply dirtied_mark.
    pose proof Hpost as (Hd & Hsound & _).
    assert (Hd' : dirtied h h') by by eapply dirtied_trans.
    split.
    { intros x Hx. apply eq_None_not_Some.
      rewrite (dirtied_is_Some h h') by done. by rewrite Hx; intros []. }
    intros x nx Hx. split.
    + intros Hreach.
      assert (flag_at h' x true) as (nx' & Hx' & Hfx).
      { destruct Hreach as [->|Hreach].
        - apply (dirtied_flag_true hm); [done|].
          exists (set_isDirty true n). unfold hm. by rewrite lookup_insert_eq.
        - eapply inval_post_closed; [done| |].
          + intros z w Hne Hz He.
            apply (dirtied_flag_true h hm); [done|].
            apply (Hdc z).
            * destruct Hz as (nz & Hnz & ?). exists nz. unfold hm in Hnz.
              by rewrite lookup_insert_ne in Hnz.
            * by apply (dirtied_child_edge h hm).
          + by apply (dirtied_descendant h hm). }
      destruct (dirtied_lookup_fwd _ _ _ _ Hd' Hx) as (n' & Hn' & _ & [->|[_ ->]]);
        [|done].
      rewrite Hn'. f_equal. symmetry. apply set_isDirty_id. congruence.
    + intros Hnot. destruct (dirtied_cases h h' x Hd') as [E|[Hc Hn]];
        [by rewrite E|].
      exfalso. apply Hnot. destruct (decide (x = a)) as [|Hne]; [by left|right].
      assert (clean_descendant hm a x) as Hcd.
      { apply Hsound. split; [|done]. destruct Hc as (m & Hm' & ?).
        exists m. unfold hm. by rewrite lookup_insert_ne. }
      apply clean_descendant_descendant in Hcd.
      by apply (dirtied_descendant h hm) in Hcd.
Qed.

Lemma MarkDirty_dirtied fuel h a h' : MarkDirty fuel h a = Some h' → dirtied h h'.
Proof.
  unfold MarkDirty. destruct (h !! a) as [n|] eqn:Ha; [|done]. simpl.
  destruct (m_isDirty n) eqn:Hf; simpl.
  - intros [= <-]. apply dirtied_refl.
  - intros (Hd & _)%InvalidateChildren_spec.
    eapply dirtied_trans; [|done]. by apply dirtied_mark.
Qed.

Lemma MarkDirty_total fuel h a :
  is_Some (h !! a) → clean_count h ≤ fuel → is_Some (MarkDirty fuel h a).
Proof.
  intros [n Ha] Hfuel. destruct (m_isDirty n) eqn:Hf.
  - unfold MarkDirty. rewrite Ha. simpl. rewrite Hf. eauto.
  - destruct (MarkDirty_clean_spec fuel h a n Ha Hf Hfuel) as (h' & -> & _).
    eauto.
Qed.

Lemma MarkDirty_marks fuel h a h' :
  MarkDirty fuel h a = Some h' → flag_at h' a true.
Proof.
  intros Hm. pose proof (MarkDirty_dirtied _ _ _ _ Hm) as Hd. revert Hm.
  unfold MarkDirty. destruct (h !! a) as [n|] eqn:Ha; [|done]. simpl.
  destruct (m_isDirty n) eqn:Hf; simpl.
  - intros [= <-]. by exists n.
  - intros (Hd' & _)%InvalidateChildren_spec.
    apply (dirtied_flag_true (<[a:=set_isDirty true n]> h)); [done|].
    exists (set_isDirty true n). by rewrite lookup_insert_eq.
Qed.

Lemma dirtied_events h h' a n' :
  dirtied h h' → h' !! a = Some n' →
  ∃ n, h !! a = Some n ∧ events_of n' = events_of n.
Proof.
  intros Hd Ha. destruct (dirtied_lookup _ _ _ _ Hd Ha) as (n & Hn & _ & [->|[_ ->]]);
    by exists n.
Qed.

(** [RecordEvent] never leaves more than [MAX_EVENTS] events, and what it
    keeps is the newest end of the queue. *)
Lemma RecordEvent_bounded fuel now h a n v ty h' :
  h !! a = Some n → is_Some (m_history n) →
  RecordEvent fuel now h a v ty = Some h' →
  ∃ n', h' !! a = Some n' ∧ GetEventCount n' ≤ MAX_EVENTS ∧
        let evs := events_of n
                   ++ [{| value := v; timestamp := now; eventType := ty |}] in
        events_of n' = drop (length evs - MAX_EVENTS) evs.
Proof.
  intros Ha [hp Hhp] Hrec. unfold RecordEvent in Hrec. rewrite Ha in Hrec.
  simpl in Hrec. apply MarkDirty_dirtied in Hrec as Hd.
  destruct (dirtied_lookup_fwd _ _ a _ Hd (lookup_insert_eq _ _ _))
    as (n' & Hn' & _ & Hcase).
  exists n'. split; [done|]. unfold GetEventCount.
  assert (events_of n' = pop_front_over MAX_EVENTS
            (events_of n ++ [{| value := v; timestamp := now; eventType := ty |}]))
    as ->.
  { destruct Hcase as [->|[_ ->]]; unfold events_of, set_events;
      rewrite ?Hhp; simpl; by rewrite ?Hhp. }
  split; [|apply pop_front_over_drop].
  rewrite pop_front_over_length. lia.
Qed.

End Push.

(** ** The pull *)

Section Pull.
Context {Env : Type}.
Implicit Types (h : gmap addr (StatNode Env)) (n : StatNode Env).
Local Abbreviation pull_fn :=
  (gmap addr (StatNode Env) → addr
   → option (float * gmap addr (StatNode Env) * list addr)).

Lemma pull_parents_targets env (rec : pull_fn) h n :
  pull_parents env rec h n
  = foldl (pull_parent rec) (Some ([], h, [])) (pull_targets env n).
Proof.
  unfold pull_parents, pull_targets. rewrite foldl_app.
  generalize (foldl (pull_parent rec) (Some ([], h, [])) (m_parents n)).
  induction (m_conditionalParents n) as [|cp cps IH]; intros acc; [done|].
  simpl. rewrite IH. unfold pull_conditional.
  destruct (decide (active env cp)) as [Hact|Hact].
  - rewrite filter_cons_True by done. simpl. unfold active in Hact.
    destruct (cp_condition cp) as [c|]; [|done].
    by destruct (c env).
  - rewrite filter_cons_False by done. unfold active in Hact.
    destruct (cp_condition cp) as [c|]; [|done].
    by destruct (c env).
Qed.

Lemma skeleton_recache b v n :
  skeleton (set_isDirty b (set_cachedValue v n)) = skeleton n.
Proof. by destruct n. Qed.

Lemma skeleton_fields n1 n2 :
  skeleton n1 = skeleton n2 →
  m_id n1 = m_id n2 ∧ m_baseValue n1 = m_baseValue n2 ∧
  m_type n1 = m_type n2 ∧ m_parents n1 = m_parents n2 ∧
  m_conditionalParents n1 = m_conditionalParents n2 ∧
  m_children n1 = m_children n2 ∧ m_calculateFunc n1 = m_calculateFunc n2 ∧
  m_history n1 = m_history n2.
Proof. destruct n1, n2. unfold skeleton. simpl. intros [=]. by subst. Qed.

Lemma recached_refl h : recached h h.
Proof. by intros x. Qed.

Lemma recached_trans h1 h2 h3 : recached h1 h2 → recached h2 h3 → recached h1 h3.
Proof. intros H12 H23 x. by rewrite H23. Qed.

Lemma recached_lookup h h' x n :
  recached h h' → h !! x = Some n →
  ∃ n', h' !! x = Some n' ∧ skeleton n' = skeleton n.
Proof.
  intros Hr Hx. specialize (Hr x). rewrite Hx in Hr.
  destruct (h' !! x) as [n'|]; [|done].
  apply (inj Some) in Hr. exists n'. by split.
Qed.

Lemma recached_None h h' x : recached h h' → h !! x = None → h' !! x = None.
Proof.
  intros Hr Hx. specialize (Hr x). rewrite Hx in Hr.
  by destruct (h' !! x).
Qed.

Lemma recached_sym h h' : recached h h' → recached h' h.
Proof. intros Hr x. by rewrite Hr. Qed.

Lemma recached_insert h a n b v :
  h !! a = Some n →
  recached h (<[a := set_isDirty b (set_cachedValue v n)]> h).
Proof.
  intros Ha x. destruct (decide (x = a)) as [->|Hne].
  - rewrite lookup_insert_eq, Ha. simpl. by rewrite skeleton_recache.
  - by rewrite lookup_insert_ne.
Qed.

Lemma parent_addrs_skeleton n1 n2 :
  skeleton n1 = skeleton n2 → parent_addrs n1 = parent_addrs n2.
Proof.
  intros (_ & _ & _ & Hp & Hc & _)%skeleton_fields.
  unfold parent_addrs. by rewrite Hp, Hc.
Qed.

Lemma pull_targets_skeleton env n1 n2 :
  skeleton n1 = skeleton n2 → pull_targets env n1 = pull_targets env n2.
Proof.
  intros (_ & _ & _ & Hp & Hc & _)%skeleton_fields.
  unfold pull_targets. by rewrite Hp, Hc.
Qed.

Lemma run_calc_skeleton now n1 n2 vs :
  skeleton n1 = skeleton n2 → run_calc now n1 vs = run_calc now n2 vs.
Proof.
  intros (_ & _ & _ & _ & _ & _ & Hf & Hh)%skeleton_fields.
  unfold run_calc. by rewrite Hf, Hh.
Qed.

Lemma is_source_skeleton n1 n2 :
  skeleton n1 = skeleton n2 → is_source n1 = is_source n2.
Proof.
  intros (_ & _ & Ht & _)%skeleton_fields. unfold is_source. by rewrite Ht.
Qed.

Lemma grounded_recached d h h' a :
  recached h h' → grounded d h' a = grounded d h a.
Proof.
  intros Hr. revert a. induction d as [|d IH]; intros a; [done|]. simpl.
  destruct (h !! a) as [n|] eqn:Ha.
  - destruct (recached_lookup _ _ _ _ Hr Ha) as (n' & -> & Hsk).
    rewrite (parent_addrs_skeleton _ _ Hsk).
    induction (parent_addrs n) as [|p ps IHps]; [done|]. simpl.
    rewrite IHps. f_equal. destruct (h !! p) as [np|] eqn:Hp.
    + destruct (recached_lookup _ _ _ _ Hr Hp) as (np' & -> & _). apply IH.
    + by rewrite (recached_None _ _ _ Hr Hp).
  - by rewrite (recached_None _ _ _ Hr Ha).
Qed.

Lemma grounded_parent d h a n p :
  grounded (S d) h a = true → h !! a = Some n → p ∈ parent_addrs n →
  is_Some (h !! p) → grounded d h p = true.
Proof.
  simpl. intros Hg Ha Hin [np Hp]. rewrite Ha in Hg.
  rewrite forallb_forall in Hg. apply list_elem_of_In in Hin.
  specialize (Hg p Hin). by rewrite Hp in Hg.
Qed.

Lemma pull_targets_parent_addrs env n p :
  p ∈ pull_targets env n → p ∈ parent_addrs n.
Proof.
  unfold pull_targets, parent_addrs. rewrite !elem_of_app.
  intros [?|Hin]; [by left|right].
  apply list_elem_of_fmap in Hin as (cp & -> & Hcp).
  apply list_elem_of_fmap. exists cp. split; [done|].
  by apply list_elem_of_filter in Hcp as [_ ?].
Qed.

Lemma pull_loop_total (rec : pull_fn) h0 :
  ∀ ps,
  (∀ h p, p ∈ ps → recached h0 h → is_Some (h0 !! p) →
      ∃ v h' tr, rec h p = Some (v, h', tr) ∧ recached h h') →
  ∀ hi vs tr, recached h0 hi →
    ∃ ws h1 trs,
      foldl (pull_parent rec) (Some (vs, hi, tr)) ps
      = Some (vs ++ ws, h1, tr ++ trs) ∧
      recached h0 h1 ∧ pulls rec hi ps ws h1 trs.
Proof.
  induction ps as [|p ps IH]; intros Hrec hi vs tr Hr; simpl.
  { exists [], hi, []. rewrite !app_nil_r. split; [done|].
    split; [done|constructor]. }
  assert (∀ h q, q ∈ ps → recached h0 h → is_Some (h0 !! q) →
            ∃ v h' tr, rec h q = Some (v, h', tr) ∧ recached h h') as Hrec'.
  { intros h q Hq. apply Hrec. by apply elem_of_cons; right. }
  destruct (h0 !! p) as [np|] eqn:Hp.
  - destruct (recached_lookup _ _ _ _ Hr Hp) as (np' & Hp' & _).
    rewrite Hp'.
    destruct (Hrec hi p) as (v & h' & tr1 & Hv & Hr');
      [by apply elem_of_cons; left|done|by rewrite Hp|].
    rewrite Hv. simpl.
    destruct (IH Hrec' h' (vs ++ [v]) (tr ++ tr1))
      as (ws & h1 & trs & Hf & Hr1 & Hpulls).
    { by eapply recached_trans. }
    exists (v :: ws), h1, (tr1 ++ trs). rewrite Hf, <- !app_assoc.
    split; [done|]. split; [done|].
    by apply (pulls_live rec hi p ps v h' tr1); [eexists|..].
  - pose proof (recached_None _ _ _ Hr Hp) as Hpi. rewrite Hpi.
    destruct (IH Hrec' hi vs tr Hr) as (ws & h1 & trs & Hf & Hr1 & Hpulls).
    exists ws, h1, trs. split; [done|]. split; [done|].
    by apply pulls_expired.
Qed.

Lemma GetValue_total d : ∀ fuel now env h a,
  grounded d h a = true → d ≤ fuel →
  ∃ v h' tr, GetValue fuel now env h a = Some (v, h', tr) ∧ recached h h'.
Proof.
  induction d as [|d IH]; intros fuel now env h a Hg Hle; [done|].
  destruct fuel as [|fuel]; [lia|]. pose proof Hg as Hg'. simpl in Hg'.
  simpl. destruct (h !! a) as [n|] eqn:Ha; [|done]. simpl.
  destruct (is_source n); [by exists (m_baseValue n), h, []|].
  destruct (m_isDirty n); simpl; [|by exists (m_cachedValue n), h, []].
  unfold recompute. rewrite pull_parents_targets.
  destruct (pull_loop_total (GetValue fuel now env) h (pull_targets env n))
    with (hi := h) (vs := @nil float) (tr := @nil addr)
    as (ws & h1 & tr' & Hf & Hr1 & _); [|done|].
  { intros hp p Hin Hr Hlive. apply IH; [|lia].
    rewrite (grounded_recached _ _ _ _ Hr).
    apply (grounded_parent d h a n p Hg Ha);
      [by eapply pull_targets_parent_addrs|done]. }
  rewrite Hf. simpl.
  destruct (recached_lookup _ _ _ _ Hr1 Ha) as (n1 & Hn1 & Hsk).
  rewrite Hn1. simpl. eexists _, _, _. split; [done|].
  eapply recached_trans; [done|]. by apply recached_insert.
Qed.

End Pull.

Section PullTheorems.
Context {Env : Type}.
Implicit Types (h : gmap addr (StatNode Env)) (n : StatNode Env).

Lemma is_source_Derived n : m_type n = Derived → is_source n = false.
Proof. unfold is_source. by intros ->. Qed.

Lemma pull_targets_drop_null env n l1 cp l2 :
  m_conditionalParents n = l1 ++ cp :: l2 → cp_condition cp = None →
  pull_targets env n = pull_targets env (set_conditionalParents (l1 ++ l2) n).
Proof.
  intros Hcps Hnull. unfold pull_targets. simpl. rewrite Hcps.
  rewrite !filter_app, filter_cons_False; [done|].
  unfold active. rewrite Hnull. intros [].
Qed.

(** C10: an edge added with an empty predicate never feeds the value
    computation ([GetValue] proceeds exactly as for the node without that
    edge), while [GetEdgeStates] lists the same edge as active. *)
Theorem null_condition_edge now env h a n l1 cp l2 parent :
  h !! a = Some n →
  m_conditionalParents n = l1 ++ cp :: l2 → cp_condition cp = None →
  h !! cp_node cp = Some parent →
  (∀ fuel,
     GetValue (S fuel) now env h a
     = if is_source n then Some (m_baseValue n, h, [])
       else if negb (m_isDirty n) then Some (m_cachedValue n, h, [])
       else recompute now env (GetValue fuel now env) h a
              (set_conditionalParents (l1 ++ l2) n)) ∧
  {| fromId := m_id parent; toId := m_id n; isActive := true;
     isConditional := true; condition := cp_conditionDesc cp |}
    ∈ GetEdgeStates env h n.
Proof.
  intros Ha Hcps Hnull Hparent. split.
  - intros fuel. simpl. rewrite Ha. simpl.
    destruct (is_source n); [done|]. destruct (negb (m_isDirty n)); [done|].
    unfold recompute. rewrite !pull_parents_targets.
    by rewrite (pull_targets_drop_null env n l1 cp l2).
  - unfold GetEdgeStates. apply elem_of_app. right.
    apply list_elem_of_omap. exists cp. split.
    + rewrite Hcps. apply elem_of_app. right. by apply elem_of_cons; left.
    + rewrite Hparent. simpl. by rewrite Hnull.
Qed.

End PullTheorems.

(** ** The aggregator *)

(** *** Insertion sort meets the [std::sort] interface *)

Lemma insert_sorted_perm {A} (comp : A → A → bool) x l :
  insert_sorted comp x l ≡ₚ x :: l.
Proof.
  induction l as [|y l IH]; simpl; [done|].
  destruct (comp x y); [done|]. rewrite IH. apply Permutation_swap.
Qed.

Lemma insertion_sort_perm {A} (comp : A → A → bool) l :
  insertion_sort comp l ≡ₚ l.
Proof.
  induction l as [|x l IH]; simpl; [done|].
  unfold insertion_sort in *. simpl. by rewrite insert_sorted_perm, IH.
Qed.

Lemma insert_sorted_sorted {A} (comp : A → A → bool) x l :
  StrictWeakOrder comp → sorted_by comp l →
  sorted_by comp (insert_sorted comp x l).
Proof.
  intros Hswo. unfold sorted_by.
  induction 1 as [|y l Hsorted IH Hall]; simpl.
  { repeat constructor. }
  destruct (comp x y) eqn:Hxy.
  - constructor; [by constructor|]. constructor.
    + destruct (comp y x) eqn:Hyx; [|done].
      pose proof (swo_trans _ Hswo x y x Hxy Hyx) as Hxx.
      by rewrite (swo_irrefl _ Hswo) in Hxx.
    + eapply Forall_impl; [exact Hall|]. intros z Hzy. simpl in *.
      destruct (comp z x) eqn:Hzx; [|done].
      pose proof (swo_trans _ Hswo z x y Hzx Hxy). congruence.
  - constructor; [done|].
    rewrite (insert_sorted_perm comp x l). by constructor.
Qed.

Lemma insertion_sort_sorted {A} (comp : A → A → bool) l :
  StrictWeakOrder comp → sorted_by comp (insertion_sort comp l).
Proof.
  intros Hswo. induction l as [|x l IH]; [constructor|].
  by apply insert_sorted_sorted.
Qed.

Global Instance insertion_StdSortSpec : StdSortSpec.
Proof.
  split.
  - intros A comp l. apply insertion_sort_perm.
  - intros A comp l. apply insertion_sort_sorted.
Qed.

Module ModifiersFacts.
Import Modifiers ModifiersSpec.

Section Aggregator.
Context {ModifierContext : Type}.
Implicit Types (m : Modifier ModifierContext) (ms : list (Modifier ModifierContext)).

Lemma modifier_before_spec m1 m2 :
  modifier_before m1 m2 = true ↔
  (ModifierType_to_int (m_type m1) < ModifierType_to_int (m_type m2)
   ∨ (m_type m1 = m_type m2 ∧ m_priority m1 < m_priority m2))%Z.
Proof.
  unfold modifier_before.
  destruct (m_type m1), (m_type m2); simpl;
    rewrite ?bool_decide_eq_true; split; intros; try lia;
    destruct_or?; destruct_and?; try lia; try done; auto.
Qed.

Lemma modifier_before_false m1 m2 :
  modifier_before m1 m2 = false ↔
  ¬ (ModifierType_to_int (m_type m1) < ModifierType_to_int (m_type m2)
     ∨ (m_type m1 = m_type m2 ∧ m_priority m1 < m_priority m2))%Z.
Proof. rewrite <- modifier_before_spec. by destruct (modifier_before m1 m2). Qed.

Lemma ModifierType_to_int_inj t1 t2 :
  ModifierType_to_int t1 = ModifierType_to_int t2 → t1 = t2.
Proof. by destruct t1, t2. Qed.

Lemma modifier_before_swo :
  StrictWeakOrder (modifier_before (ModifierContext := ModifierContext)).
Proof.
  split.
  - intros x. apply modifier_before_false. lia.
  - intros x y z. rewrite !modifier_before_spec.
    intros [?|[E1 ?]] [?|[E2 ?]]; rewrite ?E1, <- ?E2 in *; try lia.
    right. split; [congruence|lia].
  - intros x y z. rewrite !modifier_before_false. intros Hxy Hyz Hxz.
    assert (ModifierType_to_int (m_type x) = ModifierType_to_int (m_type y)
            ∨ ModifierType_to_int (m_type x) ≠ ModifierType_to_int (m_type y))
      as [E1%ModifierType_to_int_inj|N1] by lia;
    assert (ModifierType_to_int (m_type y) = ModifierType_to_int (m_type z)
            ∨ ModifierType_to_int (m_type y) ≠ ModifierType_to_int (m_type z))
      as [E2%ModifierType_to_int_inj|N2] by lia.
    + apply Hxy. destruct Hxz as [?|[E ?]]; [rewrite E1, E2 in *; lia|].
      right. split; [done|]. destruct (decide (m_priority x < m_priority y)%Z);
        [done|]. exfalso. apply Hyz. right. split; [done|lia].
    + apply Hyz. left. rewrite <- E1.
      destruct Hxz as [?|[E ?]]; [|congruence].
      assert (¬ (ModifierType_to_int (m_type y)
                 < ModifierType_to_int (m_type z))%Z) by tauto.
      rewrite E1 in *. lia.
    + apply Hxy. left. rewrite E2.
      destruct Hxz as [?|[E ?]]; [done|congruence].
    + destruct Hxz as [?|[E ?]].
      * assert (¬ (ModifierType_to_int (m_type x)
                   < ModifierType_to_int (m_type y))%Z) by tauto.
        assert (¬ (ModifierType_to_int (m_type y)
                   < ModifierType_to_int (m_type z))%Z) by tauto.
        lia.
      * assert (¬ (ModifierType_to_int (m_type x)
                   < ModifierType_to_int (m_type y))%Z) by tauto.
        assert (¬ (ModifierType_to_int (m_type y)
                   < ModifierType_to_int (m_type z))%Z) by tauto.
        rewrite E in *. lia.
Qed.

(** *** The loop of [Calculate] *)

Lemma contributing_cons_True t ctx m ms :
  m_type m = t → applies ctx m = true →
  contributing t ctx (m :: ms) = m :: contributing t ctx ms.
Proof.
  intros Ht Ha. unfold contributing. rewrite filter_cons_True; [done|].
  split; [done|]. by rewrite Ha.
Qed.

Lemma contributing_cons_other t ctx m ms :
  m_type m ≠ t → contributing t ctx (m :: ms) = contributing t ctx ms.
Proof.
  intros Ht. unfold contributing. rewrite filter_cons_False; [done|].
  by intros [? _].
Qed.

Lemma contributing_cons_False t ctx m ms :
  applies ctx m = false → contributing t ctx (m :: ms) = contributing t ctx ms.
Proof.
  intros Ha. unfold contributing. rewrite filter_cons_False; [done|].
  rewrite Ha. by intros [_ ?].
Qed.

Lemma EvaluateCondition_applies ctx m :
  (EvaluateCondition ctx m).1 = applies ctx m.
Proof.
  unfold EvaluateCondition, applies. by destruct (m_isActive m).
Qed.

Lemma GetValue_evaluated ctx m :
  applies ctx m = true →
  GetValue ctx (EvaluateCondition ctx m).2 = value_of ctx m.
Proof.
  unfold EvaluateCondition, applies, GetValue, value_of.
  destruct (m_isActive m); [|done]. simpl. by intros ->.
Qed.

Lemma EvaluateCondition_type ctx m :
  m_type (EvaluateCondition ctx m).2 = m_type m.
Proof. unfold EvaluateCondition. by destruct (m_isActive m). Qed.

(** The accumulators after the loop, from any starting point. *)
Lemma Calculate_loop ctx ms : ∀ acc seen,
  (foldl (Calculate_step ctx) (acc, seen) ms).1
  = {| flat := foldl (λ a v, (a + v)%float) (flat acc)
                 (value_of ctx <$> contributing Flat ctx ms);
       increased := foldl (λ a v, (a + v)%float) (increased acc)
                      (value_of ctx <$> contributing Increased ctx ms);
       more := foldl (λ a v, (a * (1 + v))%float) (more acc)
                 (value_of ctx <$> contributing More ctx ms);
       override := match last (contributing Override ctx ms) with
                   | Some m => Some (value_of ctx m)
                   | None => override acc
                   end |}.
Proof.
  induction ms as [|m ms IH]; intros acc seen; [by destruct acc|].
  simpl. unfold Calculate_step at 1.
  pose proof (EvaluateCondition_applies ctx m) as Hmet.
  pose proof (EvaluateCondition_type ctx m) as Hty.
  pose proof (GetValue_evaluated ctx m) as Hval.
  destruct (EvaluateCondition ctx m) as [met m']. simpl in *. subst met.
  destruct (applies ctx m) eqn:Happ; simpl.
  - rewrite IH, Hty, Hval by done.
    destruct (m_type m) eqn:Ht; simpl;
      rewrite (contributing_cons_True _ ctx m ms Ht Happ);
      rewrite !(contributing_cons_other _ ctx m ms) by (by rewrite Ht);
      simpl; try done.
    f_equal. rewrite last_cons. by destruct (last _).
  - rewrite IH. by rewrite !contributing_cons_False.
Qed.

Lemma Calculate_value b ctx ms :
  (Calculate b ctx ms).1
  = match last (contributing Override ctx ms) with
    | Some m => value_of ctx m
    | None =>
        ((b + fsum (value_of ctx <$> contributing Flat ctx ms))
         * (1 + fsum (value_of ctx <$> contributing Increased ctx ms))
         * fprod1 (value_of ctx <$> contributing More ctx ms))%float
    end.
Proof.
  unfold Calculate.
  pose proof (Calculate_loop ctx ms
                {| flat := 0; increased := 0; more := 1; override := None |} [])
    as Hloop.
  destruct (foldl _ _ ms) as [acc mods]. simpl in *. subst acc. simpl.
  by destruct (last _).
Qed.

(** *** The order [AddModifier] keeps *)

Lemma sorted_by_filter {A} (comp : A → A → bool) (P : A → Prop)
    `{∀ x, Decision (P x)} l :
  sorted_by comp l → sorted_by comp (filter P l).
Proof.
  unfold sorted_by. induction 1 as [|x l Hs IH Hall]; [constructor|].
  rewrite filter_cons. destruct (decide (P x)); [|done].
  constructor; [done|]. rewrite Forall_forall in *.
  intros y [_ Hy]%list_elem_of_filter. by apply Hall.
Qed.

Lemma sorted_by_last {A} (comp : A → A → bool) l x y :
  sorted_by comp l → last l = Some x → y ∈ l → comp x y = false ∨ y = x.
Proof.
  unfold sorted_by. intros Hs. revert x y.
  induction Hs as [|z l Hs IH Hall]; intros x y Hlast Hin; [done|].
  rewrite last_cons in Hlast. destruct (last l) as [x'|] eqn:E.
  - injection Hlast as ->. apply elem_of_cons in Hin as [->|Hin].
    + left. rewrite Forall_forall in Hall. apply Hall.
      by apply last_Some_elem_of.
    + by apply IH.
  - injection Hlast as ->. right.
    destruct l as [|z' l']; [by apply list_elem_of_singleton in Hin|].
    rewrite last_cons in E. by destruct (last l').
Qed.

Lemma AddModifier_sorted `{StdSortSpec} ms m :
  sorted_by modifier_before (AddModifier ms m).
Proof. apply std_sort_sorted, modifier_before_swo. Qed.

Lemma RemoveModifier_sorted ms id :
  sorted_by modifier_before ms →
  sorted_by modifier_before (RemoveModifier ms id).
Proof. apply sorted_by_filter. Qed.

Lemma RemoveModifiersBySource_sorted ms src :
  sorted_by modifier_before ms →
  sorted_by modifier_before (RemoveModifiersBySource ms src).
Proof. apply sorted_by_filter. Qed.

(** C1: without an applicable Override, [Calculate] returns
    [(b + flat) * (1 + increased) * more], the sums and the product running
    over the values of the modifiers of each type whose condition holds;
    with one, it returns the value of the last applicable Override of the
    aggregator, which in the (type, ascending priority) order has the
    highest priority among them; base 100 with Flat +10, Increased +0.5 and
    More +0.2 gives 198, and when the applicable Overrides all carry one
    value (a single Override of 42, say) that value is the result whatever
    the base and the other modifiers are. *)
Theorem Calculate_stacking b ctx ms :
  sorted_by modifier_before ms →
  (contributing Override ctx ms = [] →
   (Calculate b ctx ms).1
   = ((b + fsum (value_of ctx <$> contributing Flat ctx ms))
      * (1 + fsum (value_of ctx <$> contributing Increased ctx ms))
      * fprod1 (value_of ctx <$> contributing More ctx ms))%float) ∧
  (∀ m, last (contributing Override ctx ms) = Some m →
        (Calculate b ctx ms).1 = value_of ctx m ∧
        ∀ m', m' ∈ contributing Override ctx ms →
              (m_priority m' ≤ m_priority m)%Z) ∧
  (Calculate 100 ctx stacking_example).1 = 198%float ∧
  (∀ v, contributing Override ctx ms ≠ [] →
        (∀ m, m ∈ contributing Override ctx ms → value_of ctx m = v) →
        (Calculate b ctx ms).1 = v).
Proof.
  intros Hsorted. rewrite Calculate_value.
  split; [|split; [|split; [by vm_compute|]]]; [|intros m H; split|].
  - by intros ->.
  - by rewrite H.
  - intros m' Hm'.
    pose proof (sorted_by_filter modifier_before
                  (λ m, m_type m = Override ∧ applies ctx m) ms Hsorted) as Hs.
    destruct (sorted_by_last _ _ m m' Hs H Hm') as [Hlt| ->]; [|lia].
    apply modifier_before_false in Hlt.
    apply last_Some_elem_of, list_elem_of_filter in H as [[Hm _] _].
    apply list_elem_of_filter in Hm' as [[Hm' _] _].
    destruct (decide (m_priority m' ≤ m_priority m)%Z); [done|].
    exfalso. apply Hlt. right. split; [congruence|lia].
  - intros v Hne Hall. destruct (last (contributing Override ctx ms)) as [m|] eqn:E.
    + by apply Hall, last_Some_elem_of.
    + by apply last_None in E.
Qed.

End Aggregator.

End ModifiersFacts.

(** The example's three modifiers followed by an Override of 42: the
    aggregator is in sorted order and [Calculate] on base 7 returns 42. *)
Lemma Calculate_stacking_witness :
  (Modifiers.Calculate 7 tt
     (ModifiersSpec.stacking_example ++ [ModifiersSpec.override_42])).1
  = 42%float.
Proof.
  refine (proj1 (proj1 (proj2
    (ModifiersFacts.Calculate_stacking 7%float tt
       (ModifiersSpec.stacking_example ++ [ModifiersSpec.override_42]) _))
    ModifiersSpec.override_42 _)).
  - unfold sorted_by. repeat constructor.
  - reflexivity.
Defined.

(** ** The event ledger *)

Section Ledger.
Context {Env : Type}.
Implicit Types (h : gmap addr (StatNode Env)) (n : StatNode Env).

Lemma GetValue_source fuel now env h a n :
  h !! a = Some n → is_source n = true →
  GetValue (S fuel) now env h a = Some (m_baseValue n, h, []).
Proof. intros Ha Hs. simpl. rewrite Ha. simpl. by rewrite Hs. Qed.

End Ledger.

(** C7 (the claim fails on [RecordEventAt]): 1001 replayed events are all
    retained, and [CountRecent] over a long window counts 1001 of them,
    one more than [MAX_EVENTS]. *)
Theorem RecordEventAt_exceeds_MAX_EVENTS :
  replay_counts 1001 = Some (1001, 1001) ∧ MAX_EVENTS = 1000.
Proof. split; [by vm_compute|done]. Qed.

(** C2 (the claim fails on the code): the node [CreateHistoryNode] makes has
    type [History], so its pull returns [m_baseValue], 0, while its
    [SumRecent(m_defaultWindow)] is 10; the directly constructed node, of
    type [Derived], returns 10. *)
Theorem CreateHistoryNode_GetValue_ignores_events :
  managed_ledger_run = Some (0%float, 10%float, History) ∧
  standalone_ledger_run = Some (10%float, 10%float, Derived).
Proof. split; by vm_compute. Qed.

(** ** The manager *)

Section Manager.
Context {Env ModifierContext : Type} `{StdSort}.
Implicit Types (g : GraphManager Env ModifierContext).

Lemma filter_all {A} (P : A → Prop) `{∀ x, Decision (P x)} (l : list A) :
  (∀ x, x ∈ l → P x) → filter P l = l.
Proof.
  induction l as [|x l IH]; intros Hall; [done|].
  rewrite filter_cons_True by (apply Hall; by left).
  f_equal. apply IH. intros y Hy. apply Hall. by right.
Qed.

Lemma set_modifiers_id g : set_modifiers (m_modifiers g) g = g.
Proof. by destruct g. Qed.

Lemma set_store_id g : set_store (store g) g = g.
Proof. by destruct g. Qed.

Lemma mark_loop_spec fuel g (h0 : gmap addr (StatNode Env)) :
  (∀ id a, m_nodes g !! id = Some a → is_Some (h0 !! a)) →
  clean_count h0 ≤ fuel →
  ∀ ids hc, dirtied h0 hc →
    ∃ h', foldl (λ acc statId,
                   h ← acc;
                   match GetNode g statId with
                   | Some node => MarkDirty fuel h node
                   | None => Some h
                   end) (Some hc) ids = Some h' ∧
          dirtied hc h' ∧
          ∀ id a, id ∈ ids → m_nodes g !! id = Some a → flag_at h' a true.
Proof.
  intros Hreg Hfuel. unfold GetNode.
  induction ids as [|id ids IH]; intros hc Hd; simpl.
  { exists hc. split; [done|]. split; [apply dirtied_refl|].
    intros ?? Hin. by apply elem_of_nil in Hin. }
  destruct (m_nodes g !! id) as [a|] eqn:Hid.
  - destruct (MarkDirty_total fuel hc a) as [h1 Hm].
    { apply (dirtied_is_Some h0); [done|]. by eapply Hreg. }
    { pose proof (clean_count_dirtied _ _ Hd). lia. }
    rewrite Hm. pose proof (MarkDirty_dirtied _ _ _ _ Hm) as Hd1.
    destruct (IH h1) as (h' & Hf & Hd' & Hmarked);
      [by eapply dirtied_trans|].
    exists h'. split; [done|]. split; [by eapply dirtied_trans|].
    intros id' a' [->|Hin]%elem_of_cons Hid'; [|by eapply Hmarked].
    rewrite Hid in Hid'. injection Hid' as <-.
    apply (dirtied_flag_true h1); [done|]. by eapply MarkDirty_marks.
  - destruct (IH hc Hd) as (h' & Hf & Hd' & Hmarked).
    exists h'. split; [done|]. split; [done|].
    intros id' a' [->|Hin]%elem_of_cons Hid'; [congruence|by eapply Hmarked].
Qed.

(** C9, as amended: [SetNodeValue] on an unknown id returns [false] and
    [RecordDamage] on an unknown history id returns, both with the manager
    (pending-changes flag included) exactly as it was; [RemoveModifier] with
    an id no modifier carries changes nothing but the pending-changes flag,
    which it sets; [RemoveModifiersBySource] with a source no modifier
    carries leaves every aggregator, the registry and the node order as
    they were, sets the pending-changes flag, and marks dirty (as
    [MarkDirty] does) every registered node that has an aggregator. *)
Theorem not_found_operations fuel now g :
  (∀ id v, GetNode g id = None → SetNodeValue fuel g id v = Some (false, g)) ∧
  (∀ id amount damageType,
     GetHistoryNode g id = None →
     RecordDamage fuel now g id amount damageType = Some g) ∧
  (∀ modifierId,
     no_modifier_id g modifierId →
     RemoveModifier g modifierId = set_hasChanges true g) ∧
  (∀ sourceId,
     no_modifier_source g sourceId → registered g →
     clean_count (store g) ≤ fuel →
     ∃ s, RemoveModifiersBySource fuel g sourceId
          = Some (set_hasChanges true (set_store s g)) ∧
          dirtied (store g) s ∧
          ∀ statId a, is_Some (m_modifiers g !! statId) →
                      m_nodes g !! statId = Some a → flag_at s a true).
Proof.
  split; [|split; [|split]].
  - intros id v Hid. unfold SetNodeValue. by rewrite Hid.
  - intros id amount ty Hid. unfold RecordDamage. by rewrite Hid.
  - intros modifierId Hnone. unfold RemoveModifier.
    assert ((λ aggregator, Modifiers.RemoveModifier aggregator modifierId)
              <$> m_modifiers g = m_modifiers g) as ->;
      [|by rewrite set_modifiers_id].
    apply map_eq. intros statId. rewrite lookup_fmap.
    destruct (m_modifiers g !! statId) as [aggregator|] eqn:Hagg; [|done].
    simpl. f_equal. apply filter_all. intros m Hm. by eapply Hnone.
  - intros sourceId Hnone Hreg Hfuel. unfold RemoveModifiersBySource, GetNode.
    destruct (mark_loop_spec fuel g (store g) Hreg Hfuel
                ((map_to_list (m_modifiers g)).*1) (store g) (dirtied_refl _))
      as (s & Hf & Hd & Hmarked). unfold GetNode in Hf.
    exists s. rewrite Hf. simpl. split; [|split; [done|]].
    + assert ((λ aggregator,
                 Modifiers.RemoveModifiersBySource aggregator sourceId)
                <$> m_modifiers g = m_modifiers (set_store s g)) as ->;
        [|by rewrite set_modifiers_id].
      apply map_eq. intros statId. rewrite lookup_fmap. simpl.
      destruct (m_modifiers g !! statId) as [aggregator|] eqn:Hagg; [|done].
      simpl. f_equal. apply filter_all. intros m Hm. by eapply Hnone.
    + intros statId a [aggregator Hagg] Ha. apply (Hmarked statId); [|done].
      apply list_elem_of_fmap. exists (statId, aggregator). split; [done|].
      by apply elem_of_map_to_list.
Qed.

End Manager.

(** C9, as stated, fails: removing a modifier id that no aggregator holds
    turns the pending-changes flag on. *)
Lemma RemoveModifier_unknown_sets_flag :
  let g := new_GraphManager (Env := unit) (ModifierContext := unit) in
  m_hasChanges g = false ∧ m_modifiers g = ∅ ∧
  m_hasChanges (RemoveModifier g "no such modifier") = true.
Proof. by vm_compute. Qed.

(** ** Exponential decay *)

Module DecayFacts.
Import Decay.
Local Open Scope R_scope.

Lemma exp_double_lower x a b :
  a <= exp x → 0 <= a → b <= a * a → b <= exp (2 * x).
Proof.
  intros Ha H0 Hb. replace (2 * x) with (x + x) by lra. rewrite exp_plus.
  apply Rle_trans with (a * a); [done|].
  apply Rmult_le_compat; done.
Qed.

(** [e^(-0.693) > 1/2]: from [1 + x <= e^x] at [x = -0.693/8192], squared
    thirteen times with the bounds rounded down. *)
Lemma exp_0693_lower : 0.5000589 < exp (- 0.693).
Proof.
  assert (H0 : 0.9999154052734375 <= exp (- 0.693 / 8192)).
  { etrans; [|apply exp_ineq1_le]. lra. }
  pose proof (exp_double_lower _ _ 0.9998308177031427 H0 ltac:(lra) ltac:(lra)) as H1.
  pose proof (exp_double_lower _ _ 0.9996616640289349 H1 ltac:(lra) ltac:(lra)) as H2.
  pose proof (exp_double_lower _ _ 0.9993234425290991 H2 ltac:(lra) ltac:(lra)) as H3.
  pose proof (exp_double_lower _ _ 0.9986473427882096 H3 ltac:(lra) ltac:(lra)) as H4.
  pose proof (exp_double_lower _ _ 0.9972965152579518 H4 ltac:(lra) ltac:(lra)) as H5.
  pose proof (exp_double_lower _ _ 0.994600339345654 H5 ltac:(lra) ltac:(lra)) as H6.
  pose proof (exp_double_lower _ _ 0.98922983502649 H6 ltac:(lra) ltac:(lra)) as H7.
  pose proof (exp_double_lower _ _ 0.9785756665065366 H7 ltac:(lra) ltac:(lra)) as H8.
  pose proof (exp_double_lower _ _ 0.9576103350787123 H8 ltac:(lra) ltac:(lra)) as H9.
  pose proof (exp_double_lower _ _ 0.9170175538495636 H9 ltac:(lra) ltac:(lra)) as H10.
  pose proof (exp_double_lower _ _ 0.8409211940682372 H10 ltac:(lra) ltac:(lra)) as H11.
  pose proof (exp_double_lower _ _ 0.7071484546331498 H11 ltac:(lra) ltac:(lra)) as H12.
  pose proof (exp_double_lower _ _ 0.5000589368900519 H12 ltac:(lra) ltac:(lra)) as H13.
  replace (- 0.693) with
    (2 * (2 * (2 * (2 * (2 * (2 * (2 * (2 * (2 * (2 * (2 * (2 * (2 *
       (- 0.693 / 8192)))))))))))))) by lra.
  lra.
Qed.

Lemma ln2_above_0693 : 0.693 < ln 2.
Proof.
  assert (exp 0.693 < 2) as Hexp.
  { pose proof exp_0693_lower as Hl. pose proof (exp_pos 0.693) as Hpos.
    assert (exp (- 0.693) * exp 0.693 = 1) as Hinv.
    { rewrite <- exp_plus. replace (- 0.693 + 0.693) with 0 by lra. apply exp_0. }
    nra. }
  rewrite <- (ln_exp 0.693). apply ln_increasing; [apply exp_pos|done].
Qed.

Lemma Rpower_2_opp_1 : Rpower 2 (Ropp 1) = / 2.
Proof. rewrite Rpower_Ropp, Rpower_1; [done|lra]. Qed.

Local Close Scope R_scope.



End DecayFacts.

(** ** Coherence of the caches *)

Section Coherence.
Context {Env : Type}.
Implicit Types (h : gmap addr (StatNode Env)) (n : StatNode Env).
Local Abbreviation pull_fn :=
  (gmap addr (StatNode Env) → addr
   → option (float * gmap addr (StatNode Env) * list addr)).

Lemma live_filter_recached h h' (ps : list addr) :
  recached h h' →
  filter (λ p, is_Some (h' !! p)) ps = filter (λ p, is_Some (h !! p)) ps.
Proof.
  intros Hr. induction ps as [|p ps IH]; [done|].
  rewrite !filter_cons, IH.
  destruct (h !! p) as [np|] eqn:Hp.
  - destruct (recached_lookup _ _ _ _ Hr Hp) as (np' & -> & _).
    by rewrite !decide_True by eauto.
  - rewrite (recached_None _ _ _ Hr Hp).
    by rewrite !decide_False by (by intros []).
Qed.

Lemma eval_recached d now env h h' a :
  recached h h' → eval d now env h' a = eval d now env h a.
Proof.
  intros Hr. revert a. induction d as [|d IH]; intros a; [done|]. simpl.
  destruct (h !! a) as [n|] eqn:Ha.
  - destruct (recached_lookup _ _ _ _ Hr Ha) as (n' & -> & Hsk). simpl.
    rewrite (is_source_skeleton _ _ Hsk), (pull_targets_skeleton env _ _ Hsk).
    rewrite (live_filter_recached h h') by done.
    destruct (skeleton_fields _ _ Hsk) as (_ & -> & _).
    destruct (is_source n); [done|].
    assert (mapM (eval d now env h')
              (filter (λ p, is_Some (h !! p)) (pull_targets env n))
            = mapM (eval d now env h)
                (filter (λ p, is_Some (h !! p)) (pull_targets env n))) as ->.
    { induction (filter _ _) as [|p ps IHps]; [done|]. simpl.
      by rewrite IH, IHps. }
    destruct (mapM _ _); [|done]. simpl.
    by rewrite (run_calc_skeleton (now a) _ _ _ Hsk).
  - by rewrite (recached_None _ _ _ Hr Ha).
Qed.

Lemma grounded_no_self d h a n :
  grounded d h a = true → h !! a = Some n → a ∉ parent_addrs n.
Proof.
  intros Hg Ha Hin. induction d as [|d IH]; [done|].
  apply IH. by eapply grounded_parent.
Qed.

Lemma shown_values_cons h p (ps : list addr) :
  shown_values h (p :: ps)
  = match h !! p with
    | Some np => GetCachedValue np :: shown_values h ps
    | None => shown_values h ps
    end.
Proof. unfold shown_values. simpl. by destruct (h !! p). Qed.

Lemma shown_values_insert h a n1 n2 (ps : list addr) :
  h !! a = Some n1 →
  (a ∈ ps → GetCachedValue n2 = GetCachedValue n1) →
  shown_values (<[a := n2]> h) ps = shown_values h ps.
Proof.
  intros Ha Hsame. induction ps as [|p ps IH]; [done|].
  rewrite !shown_values_cons.
  rewrite IH by (intros ?; apply Hsame; by right).
  destruct (decide (p = a)) as [->|Hne].
  - rewrite lookup_insert_eq, Ha. rewrite Hsame; [done|by left].
  - by rewrite lookup_insert_ne.
Qed.

Lemma shown_values_ext h h' (ps : list addr) :
  (∀ p, p ∈ ps → h' !! p = h !! p) → shown_values h' ps = shown_values h ps.
Proof.
  intros Hsame. induction ps as [|p ps IH]; [done|].
  rewrite !shown_values_cons.
  rewrite IH by (intros ??; apply Hsame; by right).
  rewrite Hsame; [done|by left].
Qed.

Lemma GetValue_settled fuel now env h a n :
  h !! a = Some n → settled n = true →
  GetValue (S fuel) now env h a = Some (GetCachedValue n, h, []).
Proof.
  intros Ha Hs. simpl. rewrite Ha. simpl. unfold GetCachedValue.
  unfold settled in Hs. destruct (is_source n); [done|].
  simpl in Hs. by rewrite Hs.
Qed.

Lemma settled_clean n : settled (set_isDirty false n) = true.
Proof. unfold settled. simpl. apply orb_true_r. Qed.

Lemma keeps_settled_refl h : keeps_settled h h.
Proof. by intros x nx. Qed.

Lemma keeps_settled_trans h1 h2 h3 :
  keeps_settled h1 h2 → keeps_settled h2 h3 → keeps_settled h1 h3.
Proof. intros H12 H23 x nx Hx Hs. apply H23; [|done]. by apply H12. Qed.

Lemma pull_loop_coherent (rec : pull_fn) d now env h0 :
  ∀ ps,
  (∀ h p, p ∈ ps → coherent now env h → recached h0 h → is_Some (h0 !! p) →
          pull_ok rec d now env h0 h p) →
  ∀ hi vs tr, coherent now env hi → recached h0 hi →
    ∃ ws h1 tr',
      foldl (pull_parent rec) (Some (vs, hi, tr)) ps = Some (vs ++ ws, h1, tr') ∧
      coherent now env h1 ∧ recached h0 h1 ∧ keeps_settled hi h1 ∧
      mapM (eval d now env h0) (filter (λ p, is_Some (h0 !! p)) ps) = Some ws ∧
      (∀ p np, p ∈ ps → h1 !! p = Some np → settled np = true) ∧
      shown_values h1 ps = ws.
Proof.
  induction ps as [|p ps IH]; intros Hrec hi vs tr Hcoh Hr.
  { exists [], hi, tr. simpl. rewrite app_nil_r.
    split; [done|]. split; [done|]. split; [done|].
    split; [apply keeps_settled_refl|]. split; [done|]. split; [|done].
    intros ?? Hin. by apply elem_of_nil in Hin. }
  assert (∀ h q, q ∈ ps → coherent now env h → recached h0 h →
            is_Some (h0 !! q) → pull_ok rec d now env h0 h q) as Hrec'.
  { intros h q Hq. apply Hrec. by right. }
  simpl. destruct (h0 !! p) as [np0|] eqn:Hp0.
  - destruct (recached_lookup _ _ _ _ Hr Hp0) as (npi & Hpi & _). rewrite Hpi.
    destruct (Hrec hi p) as (v & h' & tr1 & np1 & Hv & Hev & Hcoh' & Hr' & Hks'
                             & Hp1 & Hs1 & Hc1);
      [by left|done|done|by rewrite Hp0|].
    rewrite Hv. simpl.
    destruct (IH Hrec' h' (vs ++ [v]) (tr ++ tr1) Hcoh')
      as (ws & h1 & tr' & Hf & Hcoh1 & Hr1 & Hks1 & HmapM & Hsett & Hshown);
      [by eapply recached_trans|].
    exists (v :: ws), h1, tr'. rewrite Hf, <- app_assoc.
    split; [done|]. split; [done|]. split; [done|].
    split; [by eapply keeps_settled_trans|].
    pose proof (Hks1 p np1 Hp1 Hs1) as Hp1'.
    split; [|split].
    + rewrite filter_cons_True by (by rewrite Hp0). simpl.
      by rewrite Hev, HmapM.
    + intros q nq [->|Hq]%elem_of_cons Hnq; [|by eapply Hsett].
      rewrite Hp1' in Hnq. by injection Hnq as <-.
    + by rewrite shown_values_cons, Hp1', Hc1, Hshown.
  - rewrite (recached_None _ _ _ Hr Hp0).
    destruct (IH Hrec' hi vs tr Hcoh Hr)
      as (ws & h1 & tr' & Hf & Hcoh1 & Hr1 & Hks1 & HmapM & Hsett & Hshown).
    exists ws, h1, tr'. split; [done|]. split; [done|]. split; [done|].
    split; [done|]. pose proof (recached_None _ _ _ Hr1 Hp0) as Hp1.
    split; [|split].
    + rewrite filter_cons_False; [done|]. rewrite Hp0. by intros [].
    + intros q nq [->|Hq]%elem_of_cons Hnq; [congruence|by eapply Hsett].
    + by rewrite shown_values_cons, Hp1.
Qed.

Lemma mapM_eval_settled d now env h (ps : list addr) :
  (∀ p np, p ∈ ps → h !! p = Some np →
           eval d now env h p = Some (GetCachedValue np)) →
  mapM (eval d now env h) (filter (λ p, is_Some (h !! p)) ps)
  = Some (shown_values h ps).
Proof.
  induction ps as [|p ps IH]; intros Hall; [done|].
  rewrite shown_values_cons, filter_cons.
  assert (mapM (eval d now env h) (filter (λ p, is_Some (h !! p)) ps)
          = Some (shown_values h ps)) as IH'.
  { apply IH. intros q nq Hq. apply Hall. by right. }
  destruct (h !! p) as [np|] eqn:Hp.
  - rewrite decide_True by eauto. simpl.
    rewrite (Hall p np) by (done || by left). simpl. by rewrite IH'.
  - by rewrite decide_False by (by intros []).
Qed.

(** A pull from a coherent store returns the value computed from scratch
    and leaves a coherent store in which the node is settled. *)
Lemma GetValue_coherent d : ∀ fuel now env h a,
  coherent now env h → grounded d h a = true → d ≤ fuel →
  pull_ok (GetValue fuel now env) d now env h h a.
Proof.
  induction d as [|d IH]; intros fuel now env h a Hcoh Hg Hle; [done|].
  destruct fuel as [|fuel]; [lia|].
  pose proof Hg as Hg'. simpl in Hg'.
  destruct (h !! a) as [n|] eqn:Ha; [|done].
  destruct (settled n) eqn:Hsettled.
  - (* a source, or a clean computed node: answered on the spot *)
    exists (GetCachedValue n), h, [], n.
    split; [by apply GetValue_settled|].
    split; [|split; [done|]; split; [apply recached_refl|];
              split; [apply keeps_settled_refl|done]].
    simpl. rewrite Ha. simpl. unfold GetCachedValue.
    destruct (is_source n) eqn:Hsrc; [done|].
    unfold settled in Hsettled. rewrite Hsrc in Hsettled. simpl in Hsettled.
    apply negb_true_iff in Hsettled.
    destruct (Hcoh a n Ha Hsrc Hsettled) as [Hsett Hcached].
    rewrite (mapM_eval_settled d now env h (pull_targets env n)).
    { simpl. by rewrite Hcached. }
    intros p np Hin Hp.
    destruct (IH d now env h p Hcoh) as (v & h' & tr & np' & Hv & Hev & _);
      [|done|].
    { apply (grounded_parent d h a n p Hg Ha);
        [by eapply pull_targets_parent_addrs|by eauto]. }
    destruct d as [|d0]; [done|].
    rewrite (GetValue_settled d0 now env h p np Hp) in Hv by by eapply Hsett.
    injection Hv as <- _ _. done.
  - (* a dirty computed node: pull, calculate, cache *)
    assert (is_source n = false ∧ m_isDirty n = true) as [Hsrc Hdirty].
    { unfold settled in Hsettled. apply orb_false_iff in Hsettled as [? ?].
      split; [done|]. by apply negb_false_iff. }
    destruct (pull_loop_coherent (GetValue fuel now env) d now env h
                (pull_targets env n))
      with (hi := h) (vs := @nil float) (tr := @nil addr)
      as (ws & h1 & tr' & Hf & Hcoh1 & Hr1 & Hks1 & HmapM & Hsett & Hshown);
      [|done|apply recached_refl|].
    { intros hp p Hin Hcohp Hrp Hlive.
      destruct (IH fuel now env hp p Hcohp)
        as (v & h' & tr & np' & Hv & Hev & Hrest); [|lia|].
      { rewrite (grounded_recached _ _ _ _ Hrp).
        apply (grounded_parent d h a n p Hg Ha);
          [by eapply pull_targets_parent_addrs|done]. }
      exists v, h', tr, np'. split; [done|]. split; [|done].
      by rewrite <- (eval_recached d now env h hp). }
    destruct (recached_lookup _ _ _ _ Hr1 Ha) as (n1 & Hn1 & Hsk).
    set (v := run_calc (now a) n ws).
    set (n2 := set_isDirty false (set_cachedValue v n1)).
    assert (a ∉ pull_targets env n) as Hself.
    { intros Hin%pull_targets_parent_addrs.
      by eapply (grounded_no_self (S d) h a n). }
    assert (skeleton n2 = skeleton n) as Hsk2.
    { unfold n2. by rewrite skeleton_recache. }
    exists v, (<[a := n2]> h1), (tr' ++ calls_of a n1), n2.
    split.
    { simpl. rewrite Ha. simpl. rewrite Hsrc, Hdirty. simpl.
      unfold recompute. rewrite pull_parents_targets, Hf. simpl.
      rewrite Hn1. simpl. by rewrite (run_calc_skeleton (now a) n1 n) by done. }
    split.
    { simpl. rewrite Ha. simpl. rewrite Hsrc. by rewrite HmapM. }
    split; [|split; [|split; [|split; [|split]]]].
    + (* the new store is coherent *)
      intros x nx Hx Hxsrc Hxclean.
      destruct (decide (x = a)) as [->|Hne].
      * rewrite lookup_insert_eq in Hx. injection Hx as <-.
        unfold coherent_at. rewrite (pull_targets_skeleton env n2 n Hsk2).
        split.
        -- intros p np Hin Hp.
           rewrite lookup_insert_ne in Hp by (intros ->; done).
           by eapply Hsett.
        -- rewrite (run_calc_skeleton (now a) n2 n) by done.
           rewrite (shown_values_insert h1 a n1 n2) by done.
           by rewrite Hshown.
      * rewrite lookup_insert_ne in Hx by done.
        destruct (Hcoh1 x nx Hx Hxsrc Hxclean) as [Hxsett Hxcached].
        split.
        -- intros p np Hin Hp. destruct (decide (p = a)) as [->|Hpa].
           ++ rewrite lookup_insert_eq in Hp. injection Hp as <-.
              apply settled_clean.
           ++ rewrite lookup_insert_ne in Hp by done. by eapply Hxsett.
        -- rewrite Hxcached. f_equal. symmetry.
           apply (shown_values_insert h1 a n1 n2); [done|].
           intros Hin. pose proof (Hxsett a n1 Hin Hn1) as Hs1.
           assert (is_source n1 = false) as Hsrc1
               by by rewrite (is_source_skeleton n1 n).
           unfold settled in Hs1. rewrite Hsrc1 in Hs1. simpl in Hs1.
           apply negb_true_iff in Hs1.
           destruct (Hcoh1 a n1 Hn1 Hsrc1 Hs1) as [_ Hc1].
           unfold GetCachedValue.
           rewrite (is_source_skeleton n2 n), Hsrc1, Hsrc by done.
           simpl. rewrite Hc1, (pull_targets_skeleton env n1 n) by done.
           rewrite (run_calc_skeleton (now a) n1 n) by done. by rewrite Hshown.
    + eapply recached_trans; [done|]. by apply recached_insert.
    + intros x nx Hx Hs. destruct (decide (x = a)) as [->|Hne].
      * rewrite Ha in Hx. injection Hx as <-. congruence.
      * rewrite lookup_insert_ne by done. by apply Hks1.
    + apply lookup_insert_eq.
    + apply settled_clean.
    + unfold GetCachedValue. by rewrite (is_source_skeleton n2 n), Hsrc.
Qed.

(** Invalidation from a source node whose value changed keeps the store
    coherent: a node left clean pulls from nobody that was touched. *)
Lemma coherent_after_push now env h a n n2 h' :
  coherent now env h → wf_edges h →
  h !! a = Some n → is_source n2 = true →
  m_children n2 = m_children n →
  inval_post (<[a := n2]> h) a h' →
  coherent now env h'.
Proof.
  intros Hcoh Hwf Ha Hsrc2 Hkids2 (Hd & _ & Hkids & Hclosed).
  intros x nx Hx Hxsrc Hxclean.
  set (h0 := <[a := n2]> h) in *.
  destruct (dirtied_flag_false h0 h' x Hd) as [_ Hx0]; [by exists nx|].
  rewrite Hx in Hx0. symmetry in Hx0.
  assert (x ≠ a) as Hxa.
  { intros ->. unfold h0 in Hx0. rewrite lookup_insert_eq in Hx0.
    injection Hx0 as ->. congruence. }
  assert (h !! x = Some nx) as Hxh.
  { unfold h0 in Hx0. by rewrite lookup_insert_ne in Hx0. }
  destruct (Hcoh x nx Hxh Hxsrc Hxclean) as [Hsett Hcached].
  assert (∀ p q, child_edge h0 p q → q = x →
                 p = a ∨ newly_dirty h0 h' p → False) as Hclean.
  { intros p q Hedge -> Hp.
    assert (flag_at h' x true) as (nx' & Hx' & Hf').
    { destruct Hp as [->|Hp]; [by apply Hkids|by eapply Hclosed]. }
    congruence. }
  assert (∀ p, p ∈ pull_targets env nx → h' !! p = h !! p) as Hsame.
  { intros p Hin%pull_targets_parent_addrs.
    destruct (decide (p = a)) as [->|Hpa].
    - exfalso. apply (Hclean a x); [|done|by left].
      exists n2. unfold h0 at 1. rewrite lookup_insert_eq.
      split; [done|]. rewrite Hkids2, Hx0. split; [by eapply Hwf|eauto].
    - assert (h0 !! p = h !! p) as Hp0
          by (unfold h0; by rewrite lookup_insert_ne).
      destruct (dirtied_cases h0 h' p Hd) as [E|Hnew]; [by rewrite E|].
      exfalso. apply (Hclean p x); [|done|by right].
      destruct Hnew as [(np & Hnp & _) _]. exists np. split; [done|].
      rewrite Hx0. split; [|eauto]. rewrite Hp0 in Hnp. by eapply Hwf. }
  split.
  - intros p np Hin Hp. rewrite Hsame in Hp by done. by eapply Hsett.
  - by rewrite (shown_values_ext h h' _ Hsame).
Qed.

(** C4, as amended: [SetBaseValue] on a Base node with a value that
    compares equal to the stored one changes nothing; with a different
    value it stores the value and marks dirty every node reached through
    child edges by way of clean nodes (all nodes below, when every dirty
    node's live children were dirty already), changing nothing else in
    them; the descent does not pass an already-dirty child, so every other
    node, in particular one that is reached only through a dirty child and
    one with no path from the changed node, keeps all its fields, its flag
    included; and from a coherent store with mirrored edges the store
    stays coherent, so that the next pull of any node returns its value
    computed from scratch, from the new base value. *)
Theorem SetBaseValue_push fuel h a n v :
  h !! a = Some n → m_type n = Base → clean_count h < fuel →
  (PrimFloat.eqb (m_baseValue n) v = true → SetBaseValue fuel h a v = Some h) ∧
  (PrimFloat.eqb (m_baseValue n) v = false →
   ∃ h',
     SetBaseValue fuel h a v = Some h' ∧
     (∃ n', h' !! a = Some n' ∧ m_baseValue n' = v ∧ m_type n' = Base) ∧
     (∀ x, clean_descendant h a x → flag_at h' x true) ∧
     (dirty_closed h → ∀ x, descendant h a x → flag_at h' x true) ∧
     (∀ x nx, x ≠ a → h !! x = Some nx → ¬ descendant h a x →
              h' !! x = Some nx) ∧
     (∀ x nx, x ≠ a → h !! x = Some nx → clean_descendant h a x →
              h' !! x = Some (set_isDirty true nx)) ∧
     (∀ x nx, x ≠ a → h !! x = Some nx → ¬ clean_descendant h a x →
              h' !! x = Some nx) ∧
     (∀ now env,
        coherent now env h → wf_edges h →
        coherent now env h' ∧
        ∀ d fuel' x, grounded d h' x = true → d ≤ fuel' →
          ∃ r hx tr, GetValue fuel' now env h' x = Some (r, hx, tr) ∧
                     eval d now env h' x = Some r)).
Proof.
  intros Ha Hty Hfuel. unfold SetBaseValue. rewrite Ha. simpl.
  split; [by intros ->|]. intros ->.
  set (n2 := if is_source (set_baseValue v n)
             then set_cachedValue v (set_baseValue v n)
             else set_baseValue v n).
  assert (n2 = set_cachedValue v (set_baseValue v n)) as Hn2.
  { unfold n2, is_source. simpl. by rewrite Hty. }
  assert (m_isDirty n2 = m_isDirty n ∧ m_children n2 = m_children n ∧
          m_baseValue n2 = v ∧ m_type n2 = Base ∧ is_source n2 = true)
    as (Hf2 & Hk2 & Hb2 & Ht2 & Hs2).
  { rewrite Hn2. unfold is_source. simpl. by rewrite Hty. }
  clearbody n2.
  destruct (InvalidateChildren_total fuel (<[a := n2]> h) a) as [h' Hi].
  { rewrite lookup_insert_eq. eauto. }
  { by rewrite (clean_count_insert_same h a n n2). }
  pose proof (InvalidateChildren_spec _ _ _ _ Hi) as Hpost.
  pose proof Hpost as (Hd & Hsound & Hkids & Hclosed).
  exists h'. split; [done|]. split; [|split; [|split; [|split; [|split; [|split]]]]].
  - destruct (dirtied_lookup_fwd _ _ a n2 Hd (lookup_insert_eq _ _ _))
      as (n' & Hn' & _ & Hcase).
    exists n'. split; [done|]. by destruct Hcase as [->|[_ ->]].
  - intros x Hx. eapply inval_post_complete; [done|].
    by apply (insert_clean_descendant h a n n2).
  - intros Hdc x Hx. eapply inval_post_closed; [done| |].
    + intros z w _ Hz He.
      apply (insert_flag_at h a n n2 Ha Hf2).
      apply (Hdc z); [by apply (insert_flag_at h a n n2 Ha Hf2) in Hz|].
      by apply (insert_child_edge h a n n2 Ha Hk2) in He.
    + by apply (insert_descendant h a n n2).
  - intros x nx Hxa Hx Hnot.
    destruct (dirtied_cases _ h' x Hd) as [E|[Hc Hn]].
    + by rewrite E, lookup_insert_ne.
    + exfalso. apply Hnot.
      apply (insert_descendant h a n n2 Ha Hk2).
      apply clean_descendant_descendant, Hsound. by split.
  - intros x nx Hxa Hx Hreach.
    assert (flag_at h' x true) as (nx' & Hx' & Hf').
    { eapply inval_post_complete; [done|].
      by apply (insert_clean_descendant h a n n2). }
    destruct (Hd x) as [E|(n0 & E0 & Hc0 & E')].
    + rewrite E, lookup_insert_ne, Hx in Hx' by done. injection Hx' as <-.
      rewrite E, lookup_insert_ne, Hx by done.
      by rewrite set_isDirty_id.
    + rewrite lookup_insert_ne, Hx in E0 by done. by injection E0 as <-.
  - intros x nx Hxa Hx Hnot.
    destruct (dirtied_cases _ h' x Hd) as [E|Hnew].
    + by rewrite E, lookup_insert_ne.
    + exfalso. apply Hnot.
      apply (insert_clean_descendant h a n n2 Ha Hf2 Hk2).
      by apply Hsound.
  - intros now env Hcoh Hwf.
    assert (coherent now env h') as Hcoh'
        by by eapply (coherent_after_push now env h a n n2 h').
    split; [done|]. intros d fuel' x Hg Hle.
    destruct (GetValue_coherent d fuel' now env h' x Hcoh' Hg Hle)
      as (r & hx & tr & _ & Hget & Hev & _).
    by exists r, hx, tr.
Qed.

End Coherence.

(** ** What a pull hands to the calculation function *)

Section PullStated.
Context {Env : Type}.
Implicit Types (h : gmap addr (StatNode Env)) (n : StatNode Env).

Lemma pulls_settled fuel now env h ps vs h1 tr :
  pulls (GetValue fuel now env) h ps vs h1 tr →
  (∀ p np, p ∈ ps → h !! p = Some np → settled np = true) →
  vs = shown_values h ps ∧ h1 = h ∧ tr = [].
Proof.
  induction 1 as [h|h p ps vs h' tr Hp _ IH
                  |h p ps v h1 tr1 vs h' tr [np Hp] Hv _ IH]; intros Hall.
  - done.
  - rewrite shown_values_cons, Hp. apply IH.
    intros q nq Hq. apply Hall. by right.
  - destruct fuel as [|fuel]; [done|].
    rewrite (GetValue_settled fuel now env h p np Hp) in Hv
      by (eapply Hall; [by left|done]).
    injection Hv as <- <- <-.
    destruct IH as (-> & -> & ->).
    { intros q nq Hq. apply Hall. by right. }
    by rewrite shown_values_cons, Hp.
Qed.

Lemma pulls_coherent d fuel now env h0 hi ps vs h1 tr :
  pulls (GetValue fuel now env) hi ps vs h1 tr →
  coherent now env hi → recached h0 hi →
  (∀ p, p ∈ ps → is_Some (h0 !! p) → grounded d h0 p = true) → d ≤ fuel →
  mapM (eval d now env h0) (filter (λ p, is_Some (h0 !! p)) ps) = Some vs.
Proof.
  induction 1 as [h|h p ps vs h' tr Hp _ IH
                  |h p ps v h1 tr1 vs h' tr [np Hp] Hv _ IH];
    intros Hcoh Hr Hg Hle.
  - done.
  - rewrite filter_cons_False.
    { apply IH; [done..| |done]. intros q Hq. apply Hg. by right. }
    intros [np0 Hp0].
    destruct (recached_lookup _ _ _ _ Hr Hp0) as (? & ? & _). congruence.
  - assert (is_Some (h0 !! p)) as Hlive.
    { destruct (h0 !! p) eqn:Hp0; [by eexists|].
      rewrite (recached_None _ _ _ Hr Hp0) in Hp. done. }
    destruct (GetValue_coherent d fuel now env h p Hcoh)
      as (v' & h1' & tr' & np' & Hv' & Hev & Hcoh1 & Hr1 & _); [|done|].
    { rewrite (grounded_recached _ _ _ _ Hr). apply Hg; [by left|done]. }
    rewrite Hv in Hv'. injection Hv' as <- <- <-.
    rewrite filter_cons_True by done. simpl.
    rewrite <- (eval_recached d now env h0 h) by done. rewrite Hev. simpl.
    rewrite IH; [done|done|by eapply recached_trans| |done].
    intros q Hq. apply Hg. by right.
Qed.

(** A pull of a dirty computed node whose ancestors are acyclic. *)
Lemma GetValue_dirty d fuel now env h a n :
  h !! a = Some n → is_source n = false → m_isDirty n = true →
  grounded (S d) h a = true → d ≤ fuel →
  ∃ parentValues h1 tr n1,
    pulls (GetValue fuel now env) h (pull_targets env n) parentValues h1 tr ∧
    recached h h1 ∧ h1 !! a = Some n1 ∧ skeleton n1 = skeleton n ∧
    GetValue (S fuel) now env h a
    = Some (run_calc (now a) n parentValues,
            <[a := set_isDirty false
                     (set_cachedValue (run_calc (now a) n parentValues) n1)]> h1,
            tr ++ calls_of a n) ∧
    ((∀ p np, p ∈ pull_targets env n → h !! p = Some np → settled np = true) →
     parentValues = shown_values h (pull_targets env n) ∧ h1 = h ∧ tr = []) ∧
    (coherent now env h →
     mapM (eval d now env h)
          (filter (λ p, is_Some (h !! p)) (pull_targets env n))
     = Some parentValues).
Proof.
  intros Ha Hsrc Hdirty Hg Hle.
  assert (∀ p, p ∈ pull_targets env n → is_Some (h !! p) →
               grounded d h p = true) as Hgp.
  { intros p Hin Hlive. apply (grounded_parent d h a n p Hg Ha);
      [by eapply pull_targets_parent_addrs|done]. }
  destruct (pull_loop_total (GetValue fuel now env) h (pull_targets env n))
    with (hi := h) (vs := @nil float) (tr := @nil addr)
    as (ws & h1 & trs & Hf & Hr1 & Hpulls); [|done|].
  { intros hp p Hin Hr Hlive. apply GetValue_total with (d := d); [|done].
    rewrite (grounded_recached _ _ _ _ Hr). by apply Hgp. }
  destruct (recached_lookup _ _ _ _ Hr1 Ha) as (n1 & Hn1 & Hsk).
  exists ws, h1, trs, n1.
  split; [done|]. split; [done|]. split; [done|]. split; [done|].
  split; [|split].
  - simpl. rewrite Ha. simpl. rewrite Hsrc, Hdirty. simpl.
    unfold recompute. rewrite pull_parents_targets, Hf. simpl.
    rewrite Hn1. simpl. rewrite (run_calc_skeleton (now a) n1 n) by done.
    unfold calls_of.
    by destruct (skeleton_fields _ _ Hsk) as (_ & _ & _ & _ & _ & _ & -> & _).
  - by apply (pulls_settled fuel now env).
  - intros Hcoh.
    apply (pulls_coherent d fuel now env h h (pull_targets env n) ws h1 trs);
      [done|done|apply recached_refl|done|done].
Qed.

(** C3: a pull of a dirty Derived node with calculation function [f]
    pulls its live parents, the ordinary ones and then the conditional ones
    whose predicate holds, one after the other, and returns [f] of the
    values those pulls returned, in order, having run [f] on this node
    once and stored the result with the dirty flag cleared.  The values
    are what the parents show when none of them awaits recomputation, and
    the parents' values computed from scratch when the caches of the store
    are coherent.  A second pull returns the same number, leaves the
    store as it is and runs no calculation function. *)
Theorem GetValue_lazy d fuel now env h a n f :
  h !! a = Some n → m_type n = Derived → m_isDirty n = true →
  m_calculateFunc n = Some (CalcFn f) →
  grounded (S d) h a = true → d ≤ fuel →
  ∃ parentValues h1 tr n1 h2,
    pulls (GetValue fuel now env) h (pull_targets env n) parentValues h1 tr ∧
    h1 !! a = Some n1 ∧
    h2 = <[a := set_isDirty false (set_cachedValue (f parentValues) n1)]> h1 ∧
    GetValue (S fuel) now env h a = Some (f parentValues, h2, tr ++ [a]) ∧
    ((∀ p np, p ∈ pull_targets env n → h !! p = Some np → settled np = true) →
     parentValues = shown_values h (pull_targets env n) ∧ h1 = h ∧ tr = []) ∧
    (coherent now env h →
     mapM (eval d now env h)
          (filter (λ p, is_Some (h !! p)) (pull_targets env n))
     = Some parentValues) ∧
    ∀ fuel', GetValue (S fuel') now env h2 a = Some (f parentValues, h2, []).
Proof.
  intros Ha Hty Hdirty Hf Hg Hle.
  destruct (GetValue_dirty d fuel now env h a n Ha (is_source_Derived _ Hty)
              Hdirty Hg Hle)
    as (vs & h1 & tr & n1 & Hpulls & Hr & Hn1 & Hsk & Hget & Hshown & Heval).
  assert (run_calc (now a) n vs = f vs) as Hcalc
    by (unfold run_calc; by rewrite Hf).
  assert (calls_of a n = [a]) as Hcalls by (unfold calls_of; by rewrite Hf).
  rewrite Hcalc, Hcalls in Hget.
  eexists vs, h1, tr, n1, _. split; [done|]. split; [done|].
  split; [reflexivity|]. split; [exact Hget|]. split; [done|].
  split; [done|].
  intros fuel'. simpl. rewrite lookup_insert_eq. simpl.
  destruct (skeleton_fields _ _ Hsk) as (_ & _ & Ht & _).
  unfold is_source. simpl. by rewrite Ht, Hty.
Qed.

End PullStated.

(** C5: in the scenario of the test the first pull yields 100 and, once the
    predicate holds and [MarkDirty] has run, the next pull yields 150.  In
    general a pull of a dirty Derived node pulls, one after the other, its
    live ordinary parents and then the live conditional parents whose
    predicate is present and true in the environment of the pull, and
    hands the values returned, in this order and no other, to the
    calculation; these are what the parents show when none of them awaits
    recomputation (the values of the ordinary parents, then those of the
    conditional parents whose predicate holds) and their values computed
    from scratch when the caches of the store are coherent. *)
Theorem conditional_parent_contribution :
  conditional_run = Some (100%float, 150%float) ∧
  (∀ (Env : Type) d fuel now (env : Env) (h : gmap addr (StatNode Env)) a n,
     h !! a = Some n → m_type n = Derived → m_isDirty n = true →
     grounded (S d) h a = true → d ≤ fuel →
     let contributing :=
       cp_node <$> filter (λ cp, active env cp) (m_conditionalParents n) in
     ∃ parentValues h1 tr h',
       pulls (GetValue fuel now env) h (m_parents n ++ contributing)
             parentValues h1 tr ∧
       GetValue (S fuel) now env h a
       = Some (run_calc (now a) n parentValues, h', tr ++ calls_of a n) ∧
       ((∀ p np, p ∈ m_parents n ++ contributing → h !! p = Some np →
                 settled np = true) →
        parentValues
        = shown_values h (m_parents n) ++ shown_values h contributing) ∧
       (coherent now env h →
        mapM (eval d now env h)
             (filter (λ p, is_Some (h !! p)) (m_parents n ++ contributing))
        = Some parentValues)).
Proof.
  split.
  - by vm_compute.
  - intros Env d fuel now env h a n Ha Hty Hdirty Hg Hle contributing.
    destruct (GetValue_dirty d fuel now env h a n Ha (is_source_Derived _ Hty)
                Hdirty Hg Hle)
      as (vs & h1 & tr & n1 & Hpulls & Hr & Hn1 & Hsk & Hget & Hshown & Heval).
    eexists vs, h1, tr, _. split; [exact Hpulls|]. split; [exact Hget|].
    split; [|exact Heval].
    intros Hall. destruct (Hshown Hall) as (-> & _).
    unfold pull_targets, shown_values. by rewrite omap_app.
Qed.

(** ** The checkers are sound *)

Section CheckersFacts.
Context {Env : Type}.
Implicit Types (h : gmap addr (StatNode Env)) (n : StatNode Env).

Lemma dirty_closedb_sound h : dirty_closedb h = true → dirty_closed h.
Proof.
  unfold dirty_closedb. rewrite forallb_forall.
  intros Hall x y (n & Hx & Hd) (n' & Hx' & Hin & ny & Hy).
  rewrite Hx in Hx'. injection Hx' as <-.
  specialize (Hall (x, n)). simpl in Hall. rewrite Hd in Hall. simpl in Hall.
  rewrite forallb_forall in Hall. exists ny. split; [done|].
  assert (In (x, n) (map_to_list h)) as Hxin.
  { apply list_elem_of_In. by apply elem_of_map_to_list. }
  specialize (Hall Hxin y (proj1 (list_elem_of_In _ _) Hin)).
  by rewrite Hy in Hall.
Qed.

Lemma map_to_list_In h x n :
  h !! x = Some n → In (x, n) (map_to_list h).
Proof. intros Hx. apply list_elem_of_In. by apply elem_of_map_to_list. Qed.

Lemma wf_edgesb_sound h : wf_edgesb h = true → wf_edges h.
Proof.
  unfold wf_edgesb. rewrite forallb_forall.
  intros Hall a n p np Ha Hin Hp.
  specialize (Hall (a, n) (map_to_list_In _ _ _ Ha)). simpl in Hall.
  rewrite forallb_forall in Hall.
  specialize (Hall p (proj1 (list_elem_of_In _ _) Hin)).
  rewrite Hp in Hall. by apply bool_decide_eq_true in Hall.
Qed.

Lemma coherentb_sound now env h : coherentb now env h = true → coherent now env h.
Proof.
  unfold coherentb. rewrite forallb_forall.
  intros Hall a n Ha Hsrc Hclean.
  specialize (Hall (a, n) (map_to_list_In _ _ _ Ha)). simpl in Hall.
  rewrite Hsrc, Hclean in Hall. simpl in Hall.
  apply andb_true_iff in Hall as [Hsett Hcached].
  rewrite forallb_forall in Hsett. split.
  - intros p np Hin Hp.
    specialize (Hsett p (proj1 (list_elem_of_In _ _) Hin)).
    by rewrite Hp in Hsett.
  - by apply bool_decide_eq_true in Hcached.
Qed.

End CheckersFacts.

(** ** Comparisons and differences of [double]s *)

Lemma ltb_leb (x y : float) : PrimFloat.ltb x y = true → PrimFloat.leb x y = true.
Proof.
  rewrite FloatAxioms.ltb_spec, FloatAxioms.leb_spec. unfold SpecFloat.SFltb, SpecFloat.SFleb.
  by destruct SpecFloat.SFcompare as [[]|].
Qed.

Lemma leb_false_ltb (x y : float) :
  PrimFloat.leb x y = false → PrimFloat.ltb x y = false.
Proof.
  intros Hle. destruct (PrimFloat.ltb x y) eqn:Hlt; [|done].
  apply ltb_leb in Hlt. congruence.
Qed.

Lemma SFcompare_Lt_Gt x y :
  SpecFloat.SFcompare x y = Some Lt → SpecFloat.SFcompare y x = Some Gt.
Proof.
  destruct x as [[]|[]| |[] mx ex], y as [[]|[]| |[] my ey]; simpl; try done;
    rewrite (Z.compare_antisym ey ex); destruct (ey ?= ex)%Z; simpl; try done;
    rewrite (ZC4 my mx); by destruct (Pos.compare_cont Eq mx my).
Qed.

Lemma ltb_asym (x y : float) :
  PrimFloat.ltb x y = true → PrimFloat.ltb y x = false.
Proof.
  rewrite !FloatAxioms.ltb_spec. unfold SpecFloat.SFltb.
  destruct (SpecFloat.SFcompare (Prim2SF x) (Prim2SF y)) as [[]|] eqn:Hc; try done.
  by rewrite (SFcompare_Lt_Gt _ _ Hc).
Qed.

(** [b - b] is [+0.0], or a NaN when [b] is infinite or a NaN. *)
Lemma sub_diag_cases (b : float) :
  Prim2SF (b - b) = SpecFloat.S754_zero false ∨ Prim2SF (b - b) = SpecFloat.S754_nan.
Proof.
  rewrite FloatAxioms.sub_spec. unfold SF64sub.
  destruct (Prim2SF b) as [[]|[]| |s m e]; simpl; auto.
  left. rewrite Z.min_id. unfold SpecFloat.shl_align. rewrite Z.sub_diag. simpl.
  first [done | by rewrite Z.sub_diag].
Qed.

Lemma abs_sub_diag_small (c b : float) :
  PrimFloat.ltb 0 c = true → PrimFloat.ltb c (abs (b - b)) = false.
Proof.
  rewrite !FloatAxioms.ltb_spec, FloatAxioms.abs_spec. unfold SpecFloat.SFltb.
  destruct (sub_diag_cases b) as [-> | ->]; simpl.
  - replace (Prim2SF 0) with (SpecFloat.S754_zero false) by done.
    by destruct (Prim2SF c) as [[]|[]| |[] m e].
  - by destruct (Prim2SF c) as [[]|[]| |[] m e].
Qed.

Lemma SFcompare_refl x :
  x ≠ SpecFloat.S754_nan → SpecFloat.SFcompare x x = Some Eq.
Proof.
  destruct x as [[]|[]| |[] m e]; simpl; try done; intros _;
    rewrite Z.compare_refl; f_equal.
  - by rewrite Pos.compare_cont_refl.
  - by rewrite Pos.compare_cont_refl.
Qed.

Lemma is_nan_Prim2SF (v : float) :
  PrimFloat.is_nan v = true ↔ Prim2SF v = SpecFloat.S754_nan.
Proof.
  unfold PrimFloat.is_nan. rewrite FloatAxioms.eqb_spec. unfold SpecFloat.SFeqb. split.
  - intros Hn. destruct (decide (Prim2SF v = SpecFloat.S754_nan)) as [|Hne]; [done|].
    by rewrite (SFcompare_refl _ Hne) in Hn.
  - by intros ->.
Qed.

Lemma eqb_nan_r (x v : float) :
  PrimFloat.is_nan v = true → PrimFloat.eqb x v = false.
Proof.
  intros Hn%is_nan_Prim2SF. rewrite FloatAxioms.eqb_spec, Hn. unfold SpecFloat.SFeqb.
  by destruct (Prim2SF x) as [[]|[]| |[] m e].
Qed.

(** ** The ledger's queries *)

Lemma elem_of_positions (events : list TimestampedEvent) i e :
  (i, e) ∈ positions events ↔ events !! i = Some e.
Proof.
  unfold positions. rewrite elem_of_lookup_imap. split.
  - by intros (j & x & [= -> ->] & Hx).
  - intros He. by exists i, e.
Qed.

Lemma foldl_positions_always {A} (g : A → TimestampedEvent → A)
    (events : list TimestampedEvent) : ∀ (p : nat → nat) acc,
  foldl (λ a (ie : nat * TimestampedEvent), g a ie.2) acc
        (imap (λ i x, (p i, x)) events)
  = foldl g acc events.
Proof.
  induction events as [|e events IH]; intros p acc; [done|]. simpl.
  apply (IH (p ∘ S)).
Qed.

Lemma SumRecent_loop now w (l : list (nat * TimestampedEvent)) : ∀ acc,
  (∀ ie, ie ∈ l → IsWithinWindow (now ie.1) ie.2 w = false) →
  foldl (λ sum ie, if IsWithinWindow (now ie.1) ie.2 w
                   then (sum + value ie.2)%float else sum) acc l = acc.
Proof.
  induction l as [|e l IH]; intros acc Hout; [done|]. simpl.
  rewrite (Hout e) by by left. apply IH. intros e' He'. apply Hout. by right.
Qed.

Lemma SumRecentByType_loop now w ty (l : list (nat * TimestampedEvent)) :
  ∀ acc,
  foldl (λ sum ie, if bool_decide (eventType ie.2 = ty)
                      && IsWithinWindow (now ie.1) ie.2 w
                   then (sum + value ie.2)%float else sum) acc l
  = foldl (λ sum ie, if IsWithinWindow (now ie.1) ie.2 w
                     then (sum + value ie.2)%float else sum) acc
          (filter (λ ie, eventType ie.2 = ty) l).
Proof.
  induction l as [|e l IH]; intros acc; [done|]. simpl.
  destruct (decide (eventType e.2 = ty)) as [Hty|Hty].
  - rewrite filter_cons_True by done. rewrite bool_decide_eq_true_2 by done.
    simpl. apply IH.
  - rewrite filter_cons_False by done. rewrite bool_decide_eq_false_2 by done.
    simpl. apply IH.
Qed.

Lemma CountRecent_loop now w (l : list (nat * TimestampedEvent)) : ∀ acc,
  foldl (λ count ie, if IsWithinWindow (now ie.1) ie.2 w
                     then S count else count) acc l
  = acc + length (filter (λ ie, IsWithinWindow (now ie.1) ie.2 w = true) l).
Proof.
  induction l as [|e l IH]; intros acc; simpl; [lia|].
  rewrite IH. destruct (IsWithinWindow (now e.1) e.2 w) eqn:Hin.
  - rewrite filter_cons_True by done. simpl. lia.
  - rewrite filter_cons_False by congruence. done.
Qed.

Lemma SumRecent_always t w (events : list TimestampedEvent) :
  SumRecent (always t) events w
  = foldl (λ sum e, if IsWithinWindow t e w
                    then (sum + value e)%float else sum) 0%float events.
Proof.
  pose proof (foldl_positions_always
                (λ sum e, if IsWithinWindow t e w
                          then (sum + value e)%float else sum)
                events (λ i, i) 0%float) as Hloop.
  exact Hloop.
Qed.

Lemma SumRecentByType_always t w ty (events : list TimestampedEvent) :
  SumRecentByType (always t) events w ty
  = foldl (λ sum e, if bool_decide (eventType e = ty) && IsWithinWindow t e w
                    then (sum + value e)%float else sum) 0%float events.
Proof.
  pose proof (foldl_positions_always
                (λ sum e, if bool_decide (eventType e = ty)
                             && IsWithinWindow t e w
                          then (sum + value e)%float else sum)
                events (λ i, i) 0%float) as Hloop.
  exact Hloop.
Qed.

Lemma CountRecent_filter now w (events : list TimestampedEvent) :
  CountRecent now events w
  = length (filter (λ ie, IsWithinWindow (now ie.1) ie.2 w = true)
                   (positions events)).
Proof. unfold CountRecent. by rewrite CountRecent_loop. Qed.

(** X1: with [now i] the reading of the clock at the event in position [i],
    [CountRecent] counts the events found within the window; the typed sum
    adds, in order, the events of that type found within the window, which
    under an unchanging clock is [SumRecent] of the events of that type;
    [HasRecentEvent] holds exactly when some event is found within the
    window; and when it fails, both sums taken at the same readings are
    [0.0]. *)
Theorem window_queries now w (events : list TimestampedEvent) :
  CountRecent now events w
  = length (filter (λ ie, IsWithinWindow (now ie.1) ie.2 w = true)
                   (positions events)) ∧
  (∀ ty, SumRecentByType now events w ty
         = foldl (λ sum ie, if IsWithinWindow (now ie.1) ie.2 w
                            then (sum + value ie.2)%float else sum) 0%float
                 (filter (λ ie, eventType ie.2 = ty) (positions events))) ∧
  (∀ t ty, SumRecentByType (always t) events w ty
           = SumRecent (always t) (filter (λ e, eventType e = ty) events) w) ∧
  (HasRecentEvent now events w = true
   ↔ ∃ i e, events !! i = Some e ∧ IsWithinWindow (now i) e w = true) ∧
  (HasRecentEvent now events w = false →
   SumRecent now events w = 0%float ∧
   ∀ ty, SumRecentByType now events w ty = 0%float).
Proof.
  split; [apply CountRecent_filter|]. split.
  { intros ty. apply SumRecentByType_loop. }
  split.
  { intros t ty. rewrite SumRecentByType_always, SumRecent_always.
    generalize 0%float. induction events as [|e events IH]; intros acc; [done|].
    simpl. destruct (decide (eventType e = ty)) as [Hty|Hty].
    - rewrite filter_cons_True by done. rewrite bool_decide_eq_true_2 by done.
      simpl. apply IH.
    - rewrite filter_cons_False by done.
      rewrite bool_decide_eq_false_2 by done. simpl. apply IH. }
  assert (HasRecentEvent now events w = true
          ↔ ∃ i e, events !! i = Some e ∧ IsWithinWindow (now i) e w = true)
    as Hhas.
  { unfold HasRecentEvent. rewrite bool_decide_eq_true, CountRecent_filter.
    split.
    - intros Hlen.
      destruct (filter (λ ie, IsWithinWindow (now ie.1) ie.2 w = true)
                       (positions events)) as [|[i e] l] eqn:Hf;
        [simpl in Hlen; lia|].
      assert ((i, e) ∈ filter (λ ie, IsWithinWindow (now ie.1) ie.2 w = true)
                              (positions events)) as Hmem
        by (rewrite Hf; by left).
      apply list_elem_of_filter in Hmem as [Hin He].
      apply elem_of_positions in He. by exists i, e.
    - intros (i & e & He & Hin).
      assert ((i, e) ∈ filter (λ ie, IsWithinWindow (now ie.1) ie.2 w = true)
                              (positions events)) as Hmem.
      { apply list_elem_of_filter. split; [done|]. by apply elem_of_positions. }
      destruct (filter _ (positions events));
        [by apply elem_of_nil in Hmem|simpl; lia]. }
  split; [done|]. intros Hnone.
  assert (∀ ie, ie ∈ positions events →
                IsWithinWindow (now ie.1) ie.2 w = false) as Hout.
  { intros [i e] He. simpl.
    destruct (IsWithinWindow (now i) e w) eqn:Hin; [|done].
    apply elem_of_positions in He.
    assert (HasRecentEvent now events w = true) by (apply Hhas; eauto).
    congruence. }
  split; [by apply SumRecent_loop|].
  intros ty. unfold SumRecentByType. rewrite SumRecentByType_loop.
  apply SumRecent_loop.
  intros ie [_ He]%list_elem_of_filter. by apply Hout.
Qed.

(** ** [CleanupOldEvents] *)

Lemma pop_front_older_spec now maxAge (events : list TimestampedEvent) :
  ∃ k, pop_front_older now maxAge events = drop k events ∧
       (∀ e, e ∈ take k events →
             PrimFloat.ltb maxAge (GetAge now e) = true) ∧
       (∀ e, head (drop k events) = Some e →
             PrimFloat.ltb maxAge (GetAge now e) = false).
Proof.
  induction events as [|front rest (k & Hk & Hold & Hyoung)].
  { exists 0. split; [done|]. split; [|done].
    intros e He. by apply elem_of_nil in He. }
  simpl. destruct (PrimFloat.ltb maxAge (seconds_between now (timestamp front)))
    eqn:Hage.
  - exists (S k). split; [done|]. split; [|done].
    simpl. intros e [->|He]%elem_of_cons; [done|by apply Hold].
  - exists 0. split; [done|]. split.
    + intros e He. by apply elem_of_nil in He.
    + simpl. by intros e [= <-].
Qed.

Lemma pop_front_older_idem now maxAge (events : list TimestampedEvent) :
  pop_front_older now maxAge (pop_front_older now maxAge events)
  = pop_front_older now maxAge events.
Proof.
  induction events as [|front rest IH]; [done|]. simpl.
  destruct (PrimFloat.ltb maxAge (seconds_between now (timestamp front)))
    eqn:Hage; [done|].
  simpl. by rewrite Hage.
Qed.

Section CleanupFacts.
Context {Env : Type}.
Implicit Types (n : StatNode Env).

(** X2: [CleanupOldEvents] drops a prefix of the deque: every dropped event
    is older than [maxAge], the first kept one is not, and whatever
    follows it is kept regardless of its age; it records the clock reading,
    touches nothing else, and a second call at the same clock reading
    changes nothing. *)
Theorem CleanupOldEvents_spec now maxAge n hp :
  m_history n = Some hp →
  ∃ k,
    CleanupOldEvents now maxAge n
    = set_history (Some {| m_events := drop k (m_events hp);
                           m_defaultWindow := m_defaultWindow hp;
                           m_lastCleanup := now |}) n ∧
    (∀ e, e ∈ take k (m_events hp) →
          PrimFloat.ltb maxAge (GetAge now e) = true) ∧
    (∀ e, head (drop k (m_events hp)) = Some e →
          PrimFloat.ltb maxAge (GetAge now e) = false) ∧
    CleanupOldEvents now maxAge (CleanupOldEvents now maxAge n)
    = CleanupOldEvents now maxAge n.
Proof.
  intros Hhp. destruct (pop_front_older_spec now maxAge (m_events hp))
    as (k & Hk & Hold & Hyoung).
  exists k. unfold CleanupOldEvents. rewrite Hhp, Hk. simpl.
  split; [done|]. split; [done|]. split; [done|].
  by rewrite <- Hk, pop_front_older_idem.
Qed.

End CleanupFacts.

(** ** RecentlyTracker *)

(** X3: a tracker that has never been triggered is not recent, whatever the
    clock and the window; a tracker that is not recent has no remaining
    time; and after [TriggerAt] the tracker is recent exactly while the
    elapsed time is at most the window. *)
Theorem RecentlyTracker_laws now (t : RecentlyTracker) :
  (∀ t0 w, IsRecent now (new_RecentlyTracker t0 w) = false ∧
           GetRemainingTime now (new_RecentlyTracker t0 w) = 0%float ∧
           GetSecondsSinceTrigger now (new_RecentlyTracker t0 w) = infinity) ∧
  (IsRecent now t = false → GetRemainingTime now t = 0%float) ∧
  (∀ time, IsRecent now (TriggerAt time t)
           = PrimFloat.leb (seconds_between now time) (m_window t) ∧
           GetSecondsSinceTrigger now (TriggerAt time t)
           = seconds_between now time) ∧
  (∀ seconds, IsRecent now (SetWindow seconds t)
              = m_hasEverTriggered t
                && PrimFloat.leb (seconds_between now (m_lastTrigger t)) seconds).
Proof.
  split; [done|]. split; [|split; [done|]].
  - unfold IsRecent, GetRemainingTime.
    destruct (m_hasEverTriggered t); simpl; [|done].
    intros Hle. by rewrite (leb_false_ltb _ _ Hle).
  - intros seconds. unfold IsRecent. simpl. by destruct (m_hasEverTriggered t).
Qed.

(** ** GameplayTag *)

Lemma append_String c (a b : string) :
  (String c a +:+ b)%string = String c (a +:+ b).
Proof. done. Qed.

Lemma append_nil_l (b : string) : ("" +:+ b)%string = b.
Proof. done. Qed.

Lemma substring_0_length (p s : string) :
  String.substring 0 (String.length p) s = p ↔ ∃ rest, s = (p +:+ rest)%string.
Proof.
  revert s. induction p as [|c p IH]; intros s.
  - split; [intros _; by exists s|intros _; by destruct s].
  - destruct s as [|c' s]; simpl.
    + split; [done|]. by intros (rest & [=]).
    + split.
      * intros [= -> Hp]. apply IH in Hp as (rest & ->). by exists rest.
      * intros (rest & Heq). rewrite append_String in Heq.
        injection Heq as -> ->. f_equal. apply IH. by exists rest.
Qed.

Lemma length_append_string (a b : string) :
  String.length (a +:+ b) = String.length a + String.length b.
Proof.
  induction a as [|c a IH]; [done|]. rewrite append_String. simpl.
  by rewrite IH.
Qed.

Lemma get_append_length (p rest : string) :
  String.get (String.length p) (p +:+ rest)
  = match rest with String c _ => Some c | EmptyString => None end.
Proof.
  induction p as [|c p IH]; [by destruct rest|].
  rewrite append_String. simpl. apply IH.
Qed.

Lemma append_nil_r (a : string) : (a +:+ "")%string = a.
Proof.
  induction a as [|c a IH]; [done|]. rewrite append_String. by rewrite IH.
Qed.

Lemma append_assoc_string (a b c : string) :
  ((a +:+ b) +:+ c)%string = (a +:+ (b +:+ c))%string.
Proof.
  induction a as [|x a IH]; [done|]. rewrite !append_String. by rewrite IH.
Qed.

Module GameplayTagsFacts.
Import GameplayTags.

Section TagFacts.
Context `{StdHash}.
Implicit Types (t p : GameplayTag) (tags : gmap N GameplayTag).

Lemma MatchesParent_names t p :
  MatchesParent t p = true ↔
  m_name t = m_name p ∨
  ∃ rest, m_name t = (m_name p +:+ String dot rest)%string.
Proof.
  unfold MatchesParent. split.
  - destruct (String.length (m_name t) <? String.length (m_name p)) eqn:Hlen;
      [done|].
    intros [Hpre Hnext]%andb_true_iff.
    apply bool_decide_eq_true, substring_0_length in Hpre as (rest & Hrest).
    apply orb_true_iff in Hnext as [Heq|Hdot].
    + apply bool_decide_eq_true in Heq. left.
      rewrite Hrest, length_append_string in Heq.
      destruct rest; [by rewrite Hrest, append_nil_r|simpl in Heq; lia].
    + apply bool_decide_eq_true in Hdot. right.
      rewrite Hrest, get_append_length in Hdot.
      destruct rest as [|c rest]; [done|]. injection Hdot as ->.
      by exists rest.
  - intros [Heq|(rest & Heq)]; rewrite Heq.
    + rewrite Nat.ltb_irrefl. apply andb_true_iff. split.
      * apply bool_decide_eq_true, substring_0_length. exists ""%string.
        by rewrite append_nil_r.
      * apply orb_true_iff. left. by apply bool_decide_eq_true.
    + rewrite length_append_string.
      assert ((String.length (m_name p) + String.length (String dot rest)
               <? String.length (m_name p)) = false) as ->
        by (apply Nat.ltb_ge; lia).
      apply andb_true_iff. split.
      * apply bool_decide_eq_true, substring_0_length. by eexists.
      * apply orb_true_iff. right. apply bool_decide_eq_true.
        by rewrite get_append_length.
Qed.

(** X4: a tag matches a parent exactly when its name is the parent's name
    or continues it with a dot; the relation is by name, not by hash, it is
    reflexive and transitive. *)
Theorem MatchesParent_hierarchy t :
  (∀ p, MatchesParent t p = true ↔
        m_name t = m_name p ∨
        ∃ rest, m_name t = (m_name p +:+ String dot rest)%string) ∧
  MatchesParent t t = true ∧
  (∀ p q, MatchesParent t p = true → MatchesParent p q = true →
          MatchesParent t q = true).
Proof.
  split; [apply MatchesParent_names|]. split.
  { apply MatchesParent_names. by left. }
  intros p q [Htp|(r1 & Htp)]%MatchesParent_names
             [Hpq|(r2 & Hpq)]%MatchesParent_names;
    apply MatchesParent_names.
  - left. congruence.
  - right. exists r2. congruence.
  - right. exists r1. congruence.
  - right. exists (r2 +:+ String dot r1)%string.
    rewrite Htp, Hpq. by rewrite append_assoc_string.
Qed.

Lemma HasTag_true tags t : HasTag tags t = true ↔ is_Some (tags !! m_hash t).
Proof. unfold HasTag. apply bool_decide_eq_true. Qed.

Lemma HasTag_false tags t : HasTag tags t = false ↔ tags !! m_hash t = None.
Proof.
  unfold HasTag. rewrite bool_decide_eq_false. symmetry.
  apply eq_None_not_Some.
Qed.

(** X5: [AddTag] makes the tag present, [RemoveTag] makes it absent, and no
    tag with another hash is affected; the change callback runs exactly
    when the set changed, once; tags are told apart by hash only, so a tag
    with the same hash as a stored one counts as present. *)
Theorem AddTag_RemoveTag_laws {W : Type} (c : GameplayTagContainer W)
    (tag : GameplayTag) (w : W) :
  let fired := match m_onChangedCallback c with
               | Some callback => callback w
               | None => w
               end in
  (HasTag (m_tags (AddTag c tag w).1) tag = true ∧
   m_onChangedCallback (AddTag c tag w).1 = m_onChangedCallback c ∧
   (∀ other, HasTag (m_tags (AddTag c tag w).1) other
             = HasTag (m_tags c) other || (m_hash other =? m_hash tag)%N) ∧
   (HasTag (m_tags c) tag = true → AddTag c tag w = (c, w)) ∧
   (HasTag (m_tags c) tag = false →
    (AddTag c tag w).2 = fired ∧
    Count (m_tags (AddTag c tag w).1) = S (Count (m_tags c)))) ∧
  (HasTag (m_tags (RemoveTag c tag w).1) tag = false ∧
   m_onChangedCallback (RemoveTag c tag w).1 = m_onChangedCallback c ∧
   (∀ other, HasTag (m_tags (RemoveTag c tag w).1) other
             = HasTag (m_tags c) other && negb (m_hash other =? m_hash tag)%N) ∧
   (HasTag (m_tags c) tag = false → RemoveTag c tag w = (c, w)) ∧
   (HasTag (m_tags c) tag = true →
    (RemoveTag c tag w).2 = fired ∧
    S (Count (m_tags (RemoveTag c tag w).1)) = Count (m_tags c))).
Proof.
  intros fired. unfold AddTag, RemoveTag, Count, fired.
  assert (∀ tags other,
            tags !! m_hash tag = None →
            HasTag (<[m_hash tag := tag]> tags) other
            = HasTag tags other || (m_hash other =? m_hash tag)%N) as Hadd.
  { intros tags other Hnone. unfold HasTag.
    destruct (N.eqb_spec (m_hash other) (m_hash tag)) as [E|N].
    - rewrite orb_true_r. apply bool_decide_eq_true.
      rewrite E, lookup_insert_eq. by eexists.
    - rewrite orb_false_r. by rewrite lookup_insert_ne. }
  assert (∀ tags other,
            HasTag (delete (m_hash tag) tags) other
            = HasTag tags other && negb (m_hash other =? m_hash tag)%N) as Hdel.
  { intros tags other. unfold HasTag.
    destruct (N.eqb_spec (m_hash other) (m_hash tag)) as [E|N]; simpl.
    - rewrite andb_false_r. apply bool_decide_eq_false.
      rewrite E, lookup_delete_eq. by intros [? [=]].
    - rewrite andb_true_r. by rewrite lookup_delete_ne. }
  destruct (m_tags c !! m_hash tag) as [old|] eqn:Hold; simpl.
  - assert (HasTag (m_tags c) tag = true) as Hin
      by (apply HasTag_true; by eexists).
    split_and!; try done; try congruence.
    + intros other. destruct (N.eqb_spec (m_hash other) (m_hash tag)) as [E|N].
      * rewrite orb_true_r. apply HasTag_true. rewrite E. by eexists.
      * by rewrite orb_false_r.
    + apply HasTag_false. apply lookup_delete_eq.
    + intros _. split; [done|]. rewrite map_size_delete, Hold.
      assert (size (m_tags c) ≠ 0) as Hsize; [|simpl; lia].
      apply map_size_non_empty_iff. intros Hempty.
      by rewrite Hempty, lookup_empty in Hold.
  - assert (HasTag (m_tags c) tag = false) as Hout by by apply HasTag_false.
    split_and!; try done; try congruence.
    + apply HasTag_true. rewrite lookup_insert_eq. by eexists.
    + intros other. by apply Hadd.
    + intros _. split; [done|]. by rewrite map_size_insert_None.
    + intros other. destruct (N.eqb_spec (m_hash other) (m_hash tag)) as [E|N].
      * rewrite andb_false_r. apply HasTag_false. by rewrite E.
      * by rewrite andb_true_r.
Qed.

Lemma HasAnyTag_spec tags (query : list GameplayTag) :
  HasAnyTag tags query = true ↔ ∃ t, t ∈ query ∧ HasTag tags t = true.
Proof.
  induction query as [|t query IH]; simpl.
  - split; [done|]. intros (t & Ht & _). by apply elem_of_nil in Ht.
  - destruct (HasTag tags t) eqn:Ht.
    + split; [|done]. intros _. exists t. split; [by left|done].
    + rewrite IH. split.
      * intros (t' & Hin & Ht'). exists t'. split; [by right|done].
      * intros (t' & [->|Hin]%elem_of_cons & Ht'); [congruence|by exists t'].
Qed.

Lemma HasAllTags_spec tags (query : list GameplayTag) :
  HasAllTags tags query = true ↔ ∀ t, t ∈ query → HasTag tags t = true.
Proof.
  induction query as [|t query IH]; simpl.
  - split; [|done]. intros _ t Ht. by apply elem_of_nil in Ht.
  - destruct (HasTag tags t) eqn:Ht; simpl.
    + rewrite IH. split.
      * intros Hall t' [->|Hin]%elem_of_cons; [done|by apply Hall].
      * intros Hall t' Hin. apply Hall. by right.
    + split; [done|]. intros Hall. rewrite <- Ht. apply Hall. by left.
Qed.

(** X6: [HasAnyTag] holds exactly when some queried tag is present (never
    for an empty query), [HasAllTags] exactly when every queried tag is
    present (always for an empty query), and [HasTagMatching] exactly when
    the name of some stored tag is the parent's name or continues it with a
    dot. *)
Theorem tag_queries tags :
  (∀ query, HasAnyTag tags query = true
            ↔ ∃ t, t ∈ query ∧ HasTag tags t = true) ∧
  (∀ query, HasAllTags tags query = true
            ↔ ∀ t, t ∈ query → HasTag tags t = true) ∧
  HasAnyTag tags [] = false ∧ HasAllTags tags [] = true ∧
  (∀ parent, HasTagMatching tags parent = true
             ↔ ∃ h t, tags !! h = Some t ∧
                      (m_name t = m_name parent ∨
                       ∃ rest, m_name t
                               = (m_name parent +:+ String dot rest)%string)).
Proof.
  split; [apply HasAnyTag_spec|]. split; [apply HasAllTags_spec|].
  split; [done|]. split; [done|].
  intros parent. unfold HasTagMatching, GetAllTags. rewrite existsb_exists.
  split.
  - intros (t & Hin & Hm). apply list_elem_of_In, list_elem_of_fmap in Hin
      as ([h t'] & -> & Hin). apply elem_of_map_to_list in Hin.
    exists h, t'. split; [done|]. by apply MatchesParent_names.
  - intros (h & t & Ht & Hm). exists t. split.
    + apply list_elem_of_In, list_elem_of_fmap. exists (h, t).
      split; [done|]. by apply elem_of_map_to_list.
    + by apply MatchesParent_names.
Qed.

End TagFacts.

End GameplayTagsFacts.

(** ** What a pull leaves alone *)

Section PullFrame.
Context {Env : Type}.
Implicit Types (h : gmap addr (StatNode Env)) (n : StatNode Env).
Local Abbreviation pull_fn :=
  (gmap addr (StatNode Env) → addr
   → option (float * gmap addr (StatNode Env) * list addr)).

Lemma foldl_pull_parent_None (rec : pull_fn) ps :
  foldl (pull_parent rec) None ps = None.
Proof. by induction ps. Qed.

Lemma pull_loop_frame (rec : pull_fn) :
  (∀ h p v h' tr, rec h p = Some (v, h', tr) →
                  recached h h' ∧ keeps_settled h h') →
  ∀ ps hi vs tr vs' h1 tr',
    foldl (pull_parent rec) (Some (vs, hi, tr)) ps = Some (vs', h1, tr') →
    recached hi h1 ∧ keeps_settled hi h1.
Proof.
  intros Hrec. induction ps as [|p ps IH]; intros hi vs tr vs' h1 tr'; simpl.
  { intros [= <- <- <-]. split; [apply recached_refl|apply keeps_settled_refl]. }
  destruct (hi !! p) as [np|] eqn:Hp; [|apply IH].
  destruct (rec hi p) as [[[v hp] trp]|] eqn:Hpull; simpl.
  - intros Hloop. apply IH in Hloop as [Hr Hk].
    apply Hrec in Hpull as [Hr' Hk'].
    split; [by eapply recached_trans|by eapply keeps_settled_trans].
  - by rewrite foldl_pull_parent_None.
Qed.

Lemma GetValue_frame fuel : ∀ now env h a v h' tr,
  GetValue fuel now env h a = Some (v, h', tr) →
  recached h h' ∧ keeps_settled h h' ∧
  ∃ n', h' !! a = Some n' ∧ settled n' = true ∧ GetCachedValue n' = v.
Proof.
  induction fuel as [|fuel IH]; intros now env h a v h' tr; [done|]. simpl.
  destruct (h !! a) as [n|] eqn:Ha; [simpl|done].
  destruct (is_source n) eqn:Hsrc.
  { intros [= <- <- <-]. split; [apply recached_refl|].
    split; [apply keeps_settled_refl|]. exists n. split; [done|].
    unfold settled, GetCachedValue. by rewrite Hsrc. }
  destruct (m_isDirty n) eqn:Hdirty; simpl.
  2:{ intros [= <- <- <-]. split; [apply recached_refl|].
      split; [apply keeps_settled_refl|]. exists n. split; [done|].
      unfold settled, GetCachedValue. by rewrite Hsrc, Hdirty. }
  unfold recompute. rewrite pull_parents_targets.
  destruct (foldl _ _ (pull_targets env n)) as [[[vs h1] tr1]|] eqn:Hloop;
    [simpl|done].
  apply (pull_loop_frame (GetValue fuel now env)) in Hloop as [Hr Hk].
  2:{ intros hx p vx hx' trx Hx. apply IH in Hx as (? & ? & _). done. }
  destruct (recached_lookup _ _ _ _ Hr Ha) as (n1 & Ha1 & Hskel).
  rewrite Ha1. simpl. intros [= <- <- <-].
  split; [|split].
  - eapply recached_trans; [done|]. by apply recached_insert.
  - intros x nx Hx Hset. destruct (decide (x = a)) as [->|Hne].
    + rewrite Ha in Hx. injection Hx as <-.
      unfold settled in Hset. by rewrite Hsrc, Hdirty in Hset.
    + rewrite lookup_insert_ne by done. by apply Hk.
  - eexists. split; [apply lookup_insert_eq|]. split; [apply settled_clean|].
    unfold GetCachedValue.
    assert (is_source (set_isDirty false
              (set_cachedValue (run_calc (now a) n1 vs) n1)) = false) as ->; [|done].
    rewrite <- Hsrc. apply is_source_skeleton.
    by rewrite skeleton_recache.
Qed.

End PullFrame.

(** ** Invariants of the store along the operations *)

Section StepInvariants.
Context {Env : Type}.
Implicit Types (h : gmap addr (StatNode Env)) (n : StatNode Env).

Lemma extends_edges_ok h h' e :
  extends_edges h h' e → edges_ok h → edges_ok h'.
Proof.
  intros (Hlive & Hnew & Hext) [Hwf Hclosed]. split.
  - intros x nx' q nq' Hx Hq Hnq.
    destruct (Hext _ _ Hx) as (nx & Hx0 & _ & Hpar & _).
    destruct (Hext _ _ Hnq) as (nq & Hq0 & Hkids & _ & Hback).
    destruct (Hpar _ Hq) as [Hold| ->]; [|by apply Hback].
    apply Hkids. by eapply Hwf.
  - intros x nx' q Hx Hq.
    destruct (Hext _ _ Hx) as (nx & Hx0 & _ & Hpar & _).
    destruct (Hpar _ Hq) as [Hold| ->]; [|by eapply Hnew].
    apply Hlive. by eapply Hclosed.
Qed.

Lemma recached_extends h h' : recached h h' → extends_edges h h' None.
Proof.
  intros Hr. split; [|split; [done|]].
  { intros x [nx Hx]. destruct (recached_lookup _ _ _ _ Hr Hx) as (? & ? & _).
    by eexists. }
  intros x nx' Hx.
  destruct (recached_lookup _ _ _ _ (recached_sym _ _ Hr) Hx) as (nx & Hx0 & Hs).
  exists nx. split; [done|].
  pose proof (skeleton_fields _ _ Hs) as (_ & _ & _ & _ & _ & Hc & _).
  pose proof (parent_addrs_skeleton _ _ Hs) as Hp.
  split; [by rewrite Hc|]. split; [|done]. intros q Hq. left. by rewrite Hp.
Qed.

Lemma dirtied_extends h h' : dirtied h h' → extends_edges h h' None.
Proof.
  intros Hd. split; [|split; [done|]].
  { intros x. by apply dirtied_is_Some. }
  intros x nx' Hx.
  destruct (dirtied_lookup _ _ _ _ Hd Hx) as (nx & Hx0 & Hc & Hcase).
  exists nx. split; [done|]. split; [by rewrite Hc|]. split; [|done].
  intros q Hq. left. by destruct Hcase as [->|[_ ->]].
Qed.

Lemma insert_live h x n' y :
  is_Some (h !! y) → is_Some (<[x := n']> h !! y).
Proof.
  intros Hy. destruct (decide (y = x)) as [->|Hne].
  - rewrite lookup_insert_eq. by eexists.
  - by rewrite lookup_insert_ne.
Qed.

Lemma insert_extends h x n n' :
  h !! x = Some n → parent_addrs n' = parent_addrs n →
  m_children n' = m_children n →
  extends_edges h (<[x := n']> h) None.
Proof.
  intros Hx Hp Hc. split; [|split; [done|]].
  { intros y. apply insert_live. }
  intros y ny'. destruct (decide (y = x)) as [->|Hne].
  - rewrite lookup_insert_eq. intros [= <-]. exists n. split; [done|].
    split; [by rewrite Hc|]. split; [|done]. intros q Hq. left. by rewrite <- Hp.
  - rewrite lookup_insert_ne by done. intros Hy. exists ny'. split; [done|].
    split; [done|]. split; [|done]. by left.
Qed.

Lemma extends_edges_trans h1 h2 h3 e :
  extends_edges h1 h2 None → extends_edges h2 h3 e → extends_edges h1 h3 e.
Proof.
  intros (L12 & _ & H12) (L23 & N23 & H23). split; [by auto|]. split; [done|].
  intros x n3 Hx.
  destruct (H23 _ _ Hx) as (n2 & Hx2 & Hc2 & Hp2 & Hn2).
  destruct (H12 _ _ Hx2) as (n1 & Hx1 & Hc1 & Hp1 & _).
  exists n1. split; [done|]. split; [by auto|]. split; [|done].
  intros q Hq. destruct (Hp2 _ Hq) as [Hold|Hnew]; [|by right].
  destruct (Hp1 _ Hold) as [?|[=]]. by left.
Qed.

Lemma extends_edges_trans_r h1 h2 h3 e :
  extends_edges h1 h2 e → extends_edges h2 h3 None → extends_edges h1 h3 e.
Proof.
  intros (L12 & N12 & H12) (L23 & _ & H23). split; [by auto|].
  split; [intros a p Hap; apply L23; by eapply N12|].
  intros x n3 Hx.
  destruct (H23 _ _ Hx) as (n2 & Hx2 & Hc2 & Hp2 & _).
  destruct (H12 _ _ Hx2) as (n1 & Hx1 & Hc1 & Hp1 & Hn1).
  exists n1. split; [done|]. split; [by auto|]. split.
  - intros q Hq. destruct (Hp2 _ Hq) as [Hold|[=]]. by apply Hp1.
  - intros a Ha. apply Hc2. by apply Hn1.
Qed.

Lemma extends_edges_refl h : extends_edges h h None.
Proof.
  split; [done|]. split; [done|].
  intros x nx Hx. exists nx. split; [done|]. split; [done|].
  split; [by left|done].
Qed.

Lemma AddParent_extends h a p h' :
  AddParent h a (Some p) = Some h' → extends_edges h h' (Some (a, p)).
Proof.
  unfold AddParent.
  destruct (h !! a) as [n|] eqn:Ha; [simpl|done].
  set (h1 := <[a := set_parents (m_parents n ++ [p]) n]> h).
  destruct (h1 !! p) as [np|] eqn:Hp; [simpl|done].
  set (h2 := <[p := set_children (m_children np ++ [a]) np]> h1).
  destruct (h2 !! a) as [n2|] eqn:Ha2; [simpl|done].
  assert (extends_edges h h2 (Some (a, p))) as H2.
  { split; [|split].
    { intros y Hy. by do 2 apply insert_live. }
    { intros ?? [= <- <-]. unfold h2. rewrite lookup_insert_eq. by eexists. }
    intros x nx'. unfold h2. destruct (decide (x = p)) as [->|Hxp].
    - rewrite lookup_insert_eq. intros [= <-]. unfold h1 in Hp.
      destruct (decide (p = a)) as [->|Hpa].
      + rewrite lookup_insert_eq in Hp. injection Hp as <-.
        exists n. split; [done|]. simpl. split; [set_solver|].
        split; [|set_solver]. unfold parent_addrs. simpl.
        intros q. rewrite !elem_of_app, list_elem_of_singleton.
        intros [[?| ->]|?]; auto.
      + rewrite lookup_insert_ne in Hp by done. exists np. split; [done|].
        simpl. split; [set_solver|]. split; [by left|set_solver].
    - rewrite lookup_insert_ne by done. unfold h1.
      destruct (decide (x = a)) as [->|Hxa].
      + rewrite lookup_insert_eq. intros [= <-]. exists n. split; [done|].
        split; [done|]. split; [|by intros ? [=]].
        unfold parent_addrs. simpl.
        intros q. rewrite !elem_of_app, list_elem_of_singleton.
        intros [[?| ->]|?]; auto.
      + rewrite lookup_insert_ne by done. intros Hx. exists nx'.
        split; [done|]. split; [done|]. split; [by left|by intros ? [=]]. }
  assert (extends_edges h2 (<[a := set_isDirty true n2]> h2) None) as H3
    by by eapply insert_extends.
  destruct (bool_decide (m_type n2 = Derived)); intros [= <-]; [|done].
  by eapply extends_edges_trans_r.
Qed.

Lemma AddConditionalParent_extends h a p cond desc h' :
  AddConditionalParent h a (Some p) cond desc = Some h' →
  extends_edges h h' (Some (a, p)).
Proof.
  unfold AddConditionalParent.
  destruct (h !! a) as [n|] eqn:Ha; [simpl|done].
  set (cp := {| cp_node := p; cp_condition := cond;
                cp_conditionDesc := desc; cp_lastActive := true |}).
  set (h1 := <[a := set_conditionalParents (m_conditionalParents n ++ [cp]) n]> h).
  destruct (h1 !! p) as [np|] eqn:Hp; [simpl|done].
  set (h2 := <[p := set_children (m_children np ++ [a]) np]> h1).
  destruct (h2 !! a) as [n2|] eqn:Ha2; [simpl|done].
  assert (extends_edges h h2 (Some (a, p))) as H2.
  { split; [|split].
    { intros y Hy. by do 2 apply insert_live. }
    { intros ?? [= <- <-]. unfold h2. rewrite lookup_insert_eq. by eexists. }
    intros x nx'. unfold h2. destruct (decide (x = p)) as [->|Hxp].
    - rewrite lookup_insert_eq. intros [= <-]. unfold h1 in Hp.
      destruct (decide (p = a)) as [->|Hpa].
      + rewrite lookup_insert_eq in Hp. injection Hp as <-.
        exists n. split; [done|]. simpl. split; [set_solver|].
        split; [|set_solver]. unfold parent_addrs. simpl.
        intros q. rewrite fmap_app. simpl.
        rewrite !elem_of_app, list_elem_of_singleton.
        intros [?|[?| ->]]; auto.
      + rewrite lookup_insert_ne in Hp by done. exists np. split; [done|].
        simpl. split; [set_solver|]. split; [by left|set_solver].
    - rewrite lookup_insert_ne by done. unfold h1.
      destruct (decide (x = a)) as [->|Hxa].
      + rewrite lookup_insert_eq. intros [= <-]. exists n. split; [done|].
        split; [done|]. split; [|by intros ? [=]].
        unfold parent_addrs. simpl.
        intros q. rewrite fmap_app. simpl.
        rewrite !elem_of_app, list_elem_of_singleton.
        intros [?|[?| ->]]; auto.
      + rewrite lookup_insert_ne by done. intros Hx. exists nx'.
        split; [done|]. split; [done|]. split; [by left|by intros ? [=]]. }
  assert (extends_edges h2 (<[a := set_isDirty true n2]> h2) None) as H3
    by by eapply insert_extends.
  intros [= <-]. by eapply extends_edges_trans_r.
Qed.

(** A new object without edges, at an unused address. *)
Lemma edges_ok_fresh h a n :
  h !! a = None → parent_addrs n = [] → m_children n = [] →
  edges_ok h → edges_ok (<[a := n]> h).
Proof.
  intros Ha Hp Hc [Hwf Hclosed]. split.
  - intros x nx q nq. destruct (decide (x = a)) as [->|Hxa].
    { rewrite lookup_insert_eq. intros [= <-]. rewrite Hp.
      intros Hq. by apply elem_of_nil in Hq. }
    rewrite lookup_insert_ne by done. intros Hx Hq.
    destruct (decide (q = a)) as [->|Hqa].
    { destruct (Hclosed _ _ _ Hx Hq) as [? ?]. congruence. }
    rewrite lookup_insert_ne by done. by eapply Hwf.
  - intros x nx q. destruct (decide (x = a)) as [->|Hxa].
    { rewrite lookup_insert_eq. intros [= <-]. rewrite Hp.
      intros Hq. by apply elem_of_nil in Hq. }
    rewrite lookup_insert_ne by done. intros Hx Hq.
    apply insert_live. by eapply Hclosed.
Qed.

End StepInvariants.

Section StepFacts.
Context {Env : Type}.
Implicit Types (h : gmap addr (StatNode Env)) (n : StatNode Env).

Lemma dirty_History_frame h h' a :
  recached h h' → keeps_settled h h' → dirty_History h a → dirty_History h' a.
Proof.
  intros _ Hk (n & Ha & Hty & Hd). exists n. split; [|done].
  apply Hk; [done|]. unfold settled, is_source. rewrite Hty.
  by rewrite (bool_decide_eq_true_2 (History = History)), orb_true_r.
Qed.

Lemma dirty_History_dirtied h h' a :
  dirtied h h' → dirty_History h a → dirty_History h' a.
Proof.
  intros Hd (n & Ha & Hty & Hdirty).
  destruct (dirtied_lookup_fwd _ _ _ _ Hd Ha) as (n' & Ha' & _ & [->|[? _]]);
    [|congruence].
  by exists n.
Qed.

Lemma dirty_History_insert h x n n' a :
  h !! x = Some n →
  (m_type n = History → m_type n' = History) →
  (m_isDirty n = true → m_isDirty n' = true) →
  dirty_History h a → dirty_History (<[x := n']> h) a.
Proof.
  intros Hx Hty Hd (na & Ha & Htya & Hda). destruct (decide (a = x)) as [->|Hne].
  - rewrite Hx in Ha. injection Ha as <-. exists n'.
    split; [apply lookup_insert_eq|]. auto.
  - exists na. by rewrite lookup_insert_ne.
Qed.

Lemma SetBaseValue_cases fuel h a v h' :
  SetBaseValue fuel h a v = Some h' →
  h' = h ∨
  ∃ n n2, h !! a = Some n ∧ m_type n2 = m_type n ∧
          m_isDirty n2 = m_isDirty n ∧ parent_addrs n2 = parent_addrs n ∧
          m_children n2 = m_children n ∧ m_baseValue n2 = v ∧
          dirtied (<[a := n2]> h) h'.
Proof.
  unfold SetBaseValue. destruct (h !! a) as [n|] eqn:Ha; [simpl|done].
  destruct (PrimFloat.eqb (m_baseValue n) v); [intros [= <-]; by left|].
  intros Hinv. right.
  apply InvalidateChildren_spec in Hinv as [Hd _].
  eexists n, _. split; [done|]. split_and!; [..|exact Hd];
    by destruct (is_source (set_baseValue v n)).
Qed.

Lemma MarkDirty_shape fuel h a h' :
  MarkDirty fuel h a = Some h' →
  extends_edges h h' None ∧ ∀ x, dirty_History h x → dirty_History h' x.
Proof.
  intros Hd%MarkDirty_dirtied. split; [by apply dirtied_extends|].
  intros x. by apply dirty_History_dirtied.
Qed.

Lemma insert_shape h a n n' :
  h !! a = Some n → parent_addrs n' = parent_addrs n →
  m_children n' = m_children n →
  (m_type n = History → m_type n' = History) →
  (m_isDirty n = true → m_isDirty n' = true) →
  extends_edges h (<[a := n']> h) None ∧
  ∀ x, dirty_History h x → dirty_History (<[a := n']> h) x.
Proof.
  intros Ha Hp Hc Hty Hd. split; [by eapply insert_extends|].
  intros x. by eapply dirty_History_insert.
Qed.

Lemma set_events_fields evs n :
  parent_addrs (set_events evs n) = parent_addrs n ∧
  m_children (set_events evs n) = m_children n ∧
  m_type (set_events evs n) = m_type n ∧
  m_isDirty (set_events evs n) = m_isDirty n.
Proof. unfold set_events. by destruct (m_history n). Qed.

Lemma CleanupOldEvents_fields now maxAge n :
  parent_addrs (CleanupOldEvents now maxAge n) = parent_addrs n ∧
  m_children (CleanupOldEvents now maxAge n) = m_children n ∧
  m_type (CleanupOldEvents now maxAge n) = m_type n ∧
  m_isDirty (CleanupOldEvents now maxAge n) = m_isDirty n.
Proof. unfold CleanupOldEvents. by destruct (m_history n). Qed.

Lemma AddParent_dirty_History h a p h' x :
  AddParent h a (Some p) = Some h' → dirty_History h x → dirty_History h' x.
Proof.
  unfold AddParent.
  destruct (h !! a) as [n|] eqn:Ha; [simpl|done].
  set (h1 := <[a := set_parents (m_parents n ++ [p]) n]> h).
  destruct (h1 !! p) as [np|] eqn:Hp; [simpl|done].
  set (h2 := <[p := set_children (m_children np ++ [a]) np]> h1).
  destruct (h2 !! a) as [n2|] eqn:Ha2; [simpl|done].
  intros Hres Hx.
  assert (dirty_History h2 x) as H2.
  { eapply dirty_History_insert; [done..|].
    by eapply dirty_History_insert. }
  destruct (bool_decide (m_type n2 = Derived)); injection Hres as <-; [|done].
  by eapply dirty_History_insert.
Qed.

Lemma AddConditionalParent_dirty_History h a p cond desc h' x :
  AddConditionalParent h a (Some p) cond desc = Some h' →
  dirty_History h x → dirty_History h' x.
Proof.
  unfold AddConditionalParent.
  destruct (h !! a) as [n|] eqn:Ha; [simpl|done].
  set (cp := {| cp_node := p; cp_condition := cond;
                cp_conditionDesc := desc; cp_lastActive := true |}).
  set (h1 := <[a := set_conditionalParents (m_conditionalParents n ++ [cp]) n]> h).
  destruct (h1 !! p) as [np|] eqn:Hp; [simpl|done].
  set (h2 := <[p := set_children (m_children np ++ [a]) np]> h1).
  destruct (h2 !! a) as [n2|] eqn:Ha2; [simpl|done].
  intros [= <-] Hx.
  eapply dirty_History_insert; [done..|].
  eapply dirty_History_insert; [done..|].
  by eapply dirty_History_insert.
Qed.

Lemma graph_step_shape h h' :
  graph_step h h' →
  ((∃ e, extends_edges h h' e) ∨
   (∃ a n, h !! a = None ∧ parent_addrs n = [] ∧ m_children n = [] ∧
           h' = <[a := n]> h)) ∧
  ∀ x, dirty_History h x → dirty_History h' x.
Proof.
  intros Hstep.
  assert (∀ fuel a n n' h2,
            h !! a = Some n → parent_addrs n' = parent_addrs n →
            m_children n' = m_children n → m_type n' = m_type n →
            m_isDirty n' = m_isDirty n →
            MarkDirty fuel (<[a := n']> h) a = Some h2 →
            extends_edges h h2 None ∧
            ∀ x, dirty_History h x → dirty_History h2 x) as Hrecord.
  { intros fuel a n n' h2 Ha Hp Hc Hty Hdy Hmark.
    destruct (insert_shape h a n n' Ha Hp Hc) as [He Hd]; [congruence..|].
    destruct (MarkDirty_shape _ _ _ _ Hmark) as [He' Hd'].
    split; [by eapply extends_edges_trans|auto]. }
  destruct Hstep as [fuel now env a v h' tr Hget
                    |fuel a v h' Hset
                    |fuel a h' Hmark
                    |a n func Ha|a n cat Ha|a n isHistory Ha
                    |a parent h' Hadd
                    |a parent cond desc h' Hadd
                    |fuel now a v ty h' Hrec
                    |fuel a v time ty h' Hrec
                    |now maxAge a n Ha
                    |fuel checked cleaned now env a maxAge changed h' Htick
                    |a id label baseValue type Ha
                    |now a id label windowSeconds Ha].
  - apply GetValue_frame in Hget as (Hr & Hk & _).
    split; [left; eexists; by apply recached_extends|].
    intros x. by apply dirty_History_frame.
  - apply SetBaseValue_cases in Hset
      as [->|(n & n2 & Ha & Hty & Hdy & Hp & Hc & _ & Hd)].
    { split; [left; eexists; apply extends_edges_refl|done]. }
    destruct (insert_shape h a n n2 Ha Hp Hc) as [He Hh]; [congruence..|].
    split.
    + left. eexists. eapply extends_edges_trans; [done|]. by apply dirtied_extends.
    + intros x Hx. eapply dirty_History_dirtied; [done|]. by apply Hh.
  - destruct (MarkDirty_shape _ _ _ _ Hmark). split; [left; by eexists|done].
  - destruct (insert_shape h a n (SetCalculationFunc func n) Ha); try done.
    split; [left; by eexists|done].
  - destruct (insert_shape h a n (SetCategory cat n) Ha); try done.
    split; [left; by eexists|done].
  - destruct (insert_shape h a n (SetIsHistoryNode isHistory n) Ha);
      try (by destruct isHistory).
    split; [left; by eexists|done].
  - destruct parent as [p|].
    + split; [left; eexists; by eapply AddParent_extends|].
      intros x. by eapply AddParent_dirty_History.
    + injection Hadd as <-. split; [left; eexists; apply extends_edges_refl|done].
  - destruct parent as [p|].
    + split; [left; eexists; by eapply AddConditionalParent_extends|].
      intros x. by eapply AddConditionalParent_dirty_History.
    + injection Hadd as <-. split; [left; eexists; apply extends_edges_refl|done].
  - unfold RecordEvent in Hrec.
    destruct (h !! a) as [n|] eqn:Ha; [simpl in Hrec|done].
    match type of Hrec with
    | MarkDirty _ (<[_ := set_events ?evs _]> _) _ = _ =>
        destruct (set_events_fields evs n) as (Hp & Hc & Hty & Hdy)
    end.
    destruct (Hrecord _ _ _ _ _ Ha Hp Hc Hty Hdy Hrec). split; [left; by eexists|done].
  - unfold RecordEventAt in Hrec.
    destruct (h !! a) as [n|] eqn:Ha; [simpl in Hrec|done].
    match type of Hrec with
    | MarkDirty _ (<[_ := set_events ?evs _]> _) _ = _ =>
        destruct (set_events_fields evs n) as (Hp & Hc & Hty & Hdy)
    end.
    destruct (Hrecord _ _ _ _ _ Ha Hp Hc Hty Hdy Hrec). split; [left; by eexists|done].
  - destruct (CleanupOldEvents_fields now maxAge n) as (Hp & Hc & Hty & Hdy).
    destruct (insert_shape h a n (CleanupOldEvents now maxAge n) Ha);
      try congruence.
    split; [left; by eexists|done].
  - unfold Tick in Htick.
    destruct (h !! a) as [n|] eqn:Ha; [simpl in Htick|done].
    destruct (m_history n) as [hp|] eqn:Hhp; [simpl in Htick|done].
    destruct (MarkDirty fuel _ a) as [h1|] eqn:Hmark; [simpl in Htick|done].
    destruct (GetValue fuel now env h1 a) as [[[newValue h2] tr]|] eqn:Hget;
      [simpl in Htick|done].
    injection Htick as _ <-.
    apply GetValue_frame in Hget as (Hr & Hk & _).
    assert (extends_edges h h1 None ∧
            ∀ x, dirty_History h x → dirty_History h1 x) as [He Hd].
    { destruct (CleanupOldEvents_fields cleaned maxAge n) as (Hp & Hc & Hty & Hdy).
      destruct (PrimFloat.ltb 1 (seconds_between checked (m_lastCleanup hp))).
      - exact (Hrecord _ _ _ _ _ Ha Hp Hc Hty Hdy Hmark).
      - exact (Hrecord _ _ n n _ Ha eq_refl eq_refl eq_refl eq_refl Hmark). }
    split.
    + left. eexists. eapply extends_edges_trans; [done|].
      by apply recached_extends.
    + intros x Hx. eapply dirty_History_frame; [done..|]. by apply Hd.
  - split; [right; by exists a, (new_StatNode id label baseValue type)|].
    intros x (nx & Hx & ?). exists nx. split; [|done].
    rewrite lookup_insert_ne; [done|congruence].
  - split; [right; by exists a, (new_HistoryStatNode now id label windowSeconds)|].
    intros x (nx & Hx & ?). exists nx. split; [|done].
    rewrite lookup_insert_ne; [done|congruence].
Qed.

Lemma graph_step_edges_ok h h' : graph_step h h' → edges_ok h → edges_ok h'.
Proof.
  intros [[[e He]|(a & n & Ha & Hp & Hc & ->)] _]%graph_step_shape.
  - by eapply extends_edges_ok.
  - by apply edges_ok_fresh.
Qed.

Lemma graph_steps_edges_ok h h' : rtc graph_step h h' → edges_ok h → edges_ok h'.
Proof.
  induction 1 as [|h1 h2 h3 Hstep _ IH]; [done|].
  intros Hok. apply IH. by eapply graph_step_edges_ok.
Qed.

Lemma graph_steps_dirty_History h h' a :
  rtc graph_step h h' → dirty_History h a → dirty_History h' a.
Proof.
  induction 1 as [|h1 h2 h3 Hstep _ IH]; [done|].
  intros Hd. apply IH. by apply (graph_step_shape _ _ Hstep).
Qed.



End StepFacts.

Section NodeTheorems.
Context {Env : Type}.
Implicit Types (h : gmap addr (StatNode Env)) (n : StatNode Env).

(** X8: a pull that returns has changed cached values and dirty flags only
    ([recached]), and none of a Base node, a History node or a clean node
    ([keeps_settled]): it never clears the dirty flag of a Base or History
    node and never touches an edge, a base value or an event.  Afterwards
    the pulled node answers the returned value without recomputing: the
    same pull again returns it, changes nothing and runs no calculation
    function. *)
Theorem GetValue_touches_caches_only fuel now env h a v h' tr :
  GetValue fuel now env h a = Some (v, h', tr) →
  recached h h' ∧ keeps_settled h h' ∧
  (∃ n', h' !! a = Some n' ∧ settled n' = true ∧ GetCachedValue n' = v) ∧
  ∀ fuel', GetValue (S fuel') now env h' a = Some (v, h', []).
Proof.
  intros (Hr & Hk & n' & Ha & Hs & Hv)%GetValue_frame.
  split; [done|]. split; [done|]. split; [by exists n'|].
  intros fuel'. rewrite <- Hv. by apply GetValue_settled.
Qed.

(** X9: [MarkDirty] and [InvalidateChildren] only raise dirty flags: each
    node is left as it was or goes from clean to dirty, so no value, cache,
    edge or event changes and no flag is cleared; [SetBaseValue] does the
    same after writing the value into the one node it is called on. *)
Theorem push_raises_flags_only fuel h a :
  (∀ h', MarkDirty fuel h a = Some h' → dirtied h h') ∧
  (∀ h', InvalidateChildren fuel h a = Some h' → dirtied h h') ∧
  (∀ v h', SetBaseValue fuel h a v = Some h' →
     h' = h ∨
     ∃ n, h !! a = Some n ∧
          dirtied (<[a := if is_source n
                          then set_cachedValue v (set_baseValue v n)
                          else set_baseValue v n]> h) h').
Proof.
  split; [intros h'; apply MarkDirty_dirtied|]. split.
  { intros h' Hinv. by apply InvalidateChildren_spec in Hinv as [? _]. }
  intros v h'. unfold SetBaseValue.
  destruct (h !! a) as [n|] eqn:Ha; [simpl|done].
  destruct (PrimFloat.eqb (m_baseValue n) v); [intros [= <-]; by left|].
  intros Hinv. right. exists n. split; [done|].
  apply InvalidateChildren_spec in Hinv as [Hd _].
  replace (is_source n) with (is_source (set_baseValue v n)) by done.
  by destruct (is_source (set_baseValue v n)).
Qed.

(** X10: in a store whose clean computed nodes are coherent, a pull of a
    node whose ancestors are acyclic returns the value computed from
    scratch from the base values, and leaves the store coherent. *)
Theorem GetValue_from_scratch d fuel now env h a :
  coherent now env h → grounded d h a = true → d ≤ fuel →
  ∃ v h' tr,
    GetValue fuel now env h a = Some (v, h', tr) ∧
    eval d now env h a = Some v ∧
    coherent now env h' ∧ recached h h'.
Proof.
  intros Hc Hg Hle.
  destruct (GetValue_coherent d fuel now env h a Hc Hg Hle)
    as (v & h' & tr & np' & Hget & Hev & Hc' & Hr & _).
  by exists v, h', tr.
Qed.

End NodeTheorems.

Section HistoryNodeTheorems.
Context {Env ModifierContext : Type}.
Implicit Types (h : gmap addr (StatNode Env)) (n : StatNode Env).
Implicit Types (g : GraphManager Env ModifierContext).

Lemma CreateHistoryNode_dirty_History now g id label w cat node g' :
  CreateHistoryNode now g id label w cat = Returns node g' →
  dirty_History (store g') node.
Proof.
  unfold CreateHistoryNode, make_shared. simpl.
  unfold RegisterNode. simpl. rewrite lookup_insert_eq.
  destruct (m_nodes g !! _); [done|].
  intros [= <- <-]. simpl. eexists. split; [apply lookup_insert_eq|].
  by destruct (bool_decide (cat ≠ ""%string)).
Qed.

(** X11: the node [CreateHistoryNode] returns is dirty and of type History,
    and stays so whatever methods are called on the nodes of the store: a
    pull of it returns its base value and clears nothing; so [RecordEvent]
    on it changes its event deque and nothing else: no dependent of a
    history node made by the manager is ever marked dirty by an event. *)
Theorem History_node_never_propagates now0 g id label w cat node g' h :
  CreateHistoryNode now0 g id label w cat = Returns node g' →
  rtc graph_step (store g') h →
  ∃ n, h !! node = Some n ∧ m_type n = History ∧ m_isDirty n = true ∧
       (∀ fuel now env,
          GetValue (S fuel) now env h node = Some (m_baseValue n, h, [])) ∧
       (∀ fuel now v ty,
          RecordEvent fuel now h node v ty
          = Some (<[node :=
                      set_events
                        (pop_front_over MAX_EVENTS
                           (events_of n
                            ++ [{| value := v; timestamp := now;
                                   eventType := ty |}])) n]> h)).
Proof.
  intros Hcreate%CreateHistoryNode_dirty_History Hsteps.
  destruct (graph_steps_dirty_History _ _ _ Hsteps Hcreate)
    as (n & Hn & Hty & Hd).
  exists n. split; [done|]. split; [done|]. split; [done|]. split.
  - intros fuel now env. apply GetValue_source; [done|].
    unfold is_source. rewrite Hty.
    by rewrite (bool_decide_eq_true_2 (History = History)), orb_true_r.
  - intros fuel now v ty. unfold RecordEvent, MarkDirty. rewrite Hn. simpl.
    rewrite lookup_insert_eq. simpl.
    destruct (set_events_fields
                (pop_front_over MAX_EVENTS
                   (events_of n ++ [{| value := v; timestamp := now;
                                       eventType := ty |}])) n)
      as (_ & _ & _ & ->).
    by rewrite Hd.
Qed.

End HistoryNodeTheorems.

Section TickTheorems.
Context {Env : Type}.
Implicit Types (h : gmap addr (StatNode Env)) (n : StatNode Env).

Lemma grounded_ext d h h' : ∀ a,
  (∀ x, is_Some (h' !! x) ↔ is_Some (h !! x)) →
  (∀ x nx nx', h !! x = Some nx → h' !! x = Some nx' →
               parent_addrs nx' = parent_addrs nx) →
  grounded d h' a = grounded d h a.
Proof.
  induction d as [|d IH]; intros a Hlive Hpar; [done|]. simpl.
  destruct (h !! a) as [n|] eqn:Ha.
  - destruct (proj2 (Hlive a)) as [n' Ha']; [by eexists|]. rewrite Ha'.
    rewrite (Hpar _ _ _ Ha Ha'). induction (parent_addrs n) as [|p ps IHps];
      [done|].
    simpl. rewrite IHps. f_equal.
    destruct (h !! p) as [np|] eqn:Hp.
    + destruct (proj2 (Hlive p)) as [np' ->]; [by eexists|]. by apply IH.
    + destruct (h' !! p) as [np'|] eqn:Hp'; [|done].
      destruct (proj1 (Hlive p)) as [? ?]; [by eexists|congruence].
  - destruct (h' !! a) as [n'|] eqn:Ha'; [|done].
    destruct (proj1 (Hlive a)) as [? ?]; [by eexists|congruence].
Qed.

Lemma Tick_dirty_History fuel checked cleaned now env h a n hp maxAge :
  h !! a = Some n → m_history n = Some hp →
  m_type n = History → m_isDirty n = true → 0 < fuel →
  Tick fuel checked cleaned now env h a maxAge
  = Some (false,
          <[a := if PrimFloat.ltb 1 (seconds_between checked (m_lastCleanup hp))
                 then CleanupOldEvents cleaned maxAge n else n]> h).
Proof.
  intros Ha Hhp Hty Hd Hfuel. unfold Tick. rewrite Ha. simpl. rewrite Hhp. simpl.
  set (n1 := if PrimFloat.ltb 1 (seconds_between checked (m_lastCleanup hp))
             then CleanupOldEvents cleaned maxAge n else n).
  assert (m_type n1 = History ∧ m_isDirty n1 = true ∧
          m_baseValue n1 = m_baseValue n) as (Hty1 & Hd1 & Hb1).
  { unfold n1, CleanupOldEvents. rewrite Hhp.
    by destruct (PrimFloat.ltb 1 (seconds_between checked (m_lastCleanup hp))). }
  assert (is_source n = true ∧ is_source n1 = true) as [Hs Hs1].
  { unfold is_source. rewrite Hty, Hty1.
    by rewrite (bool_decide_eq_true_2 (History = History)), orb_true_r. }
  unfold MarkDirty. rewrite lookup_insert_eq. simpl. rewrite Hd1. simpl.
  destruct fuel as [|fuel]; [lia|].
  rewrite (GetValue_source fuel now env _ a n1) by
    (done || apply lookup_insert_eq).
  simpl. unfold GetCachedValue. rewrite Hs, Hb1.
  by rewrite abs_sub_diag_small.
Qed.

(** X12: on a dirty node of type History, [Tick] always returns [false]: the
    value it compares before and after is the base value both times.  It
    changes the node's own event deque at most (the cleanup), no other
    node and no flag. *)
Theorem Tick_History_node fuel checked cleaned now env h a n hp maxAge :
  h !! a = Some n → m_history n = Some hp →
  m_type n = History → m_isDirty n = true → 0 < fuel →
  Tick fuel checked cleaned now env h a maxAge
  = Some (false,
          <[a := if PrimFloat.ltb 1 (seconds_between checked (m_lastCleanup hp))
                 then CleanupOldEvents cleaned maxAge n else n]> h).
Proof. apply Tick_dirty_History. Qed.

(** X13: on a directly constructed [HistoryStatNode] (type Derived, with the
    constructor's calculation function) [Tick] leaves the node clean with
    the sum of the events within its default window in the cache, the deque
    being first cleaned up if the last cleanup is more than a second old;
    it returns whether that sum differs from the value the node showed
    before by more than 0.01. *)
Theorem Tick_ledger d fuel checked cleaned now env h a n hp maxAge :
  h !! a = Some n → m_history n = Some hp → m_type n = Derived →
  m_calculateFunc n = Some CalcSumRecent →
  grounded (S d) h a = true → d < fuel → clean_count h ≤ fuel →
  let evs := if PrimFloat.ltb 1 (seconds_between checked (m_lastCleanup hp))
             then pop_front_older cleaned maxAge (m_events hp)
             else m_events hp in
  let newValue := SumRecent (now a) evs (m_defaultWindow hp) in
  ∃ h' n',
    Tick fuel checked cleaned now env h a maxAge
    = Some (PrimFloat.ltb 0.01 (abs (newValue - m_cachedValue n)), h') ∧
    h' !! a = Some n' ∧ m_isDirty n' = false ∧
    m_cachedValue n' = newValue ∧ events_of n' = evs.
Proof.
  intros Ha Hhp Hty Hcalc Hg Hd Hcount evs newValue.
  unfold Tick. rewrite Ha. simpl. rewrite Hhp. simpl.
  set (n1 := if PrimFloat.ltb 1 (seconds_between checked (m_lastCleanup hp))
             then CleanupOldEvents cleaned maxAge n else n).
  assert (m_type n1 = Derived ∧ m_isDirty n1 = m_isDirty n ∧
          parent_addrs n1 = parent_addrs n ∧
          m_calculateFunc n1 = Some CalcSumRecent ∧
          m_history n1 = Some {| m_events := evs;
                                 m_defaultWindow := m_defaultWindow hp;
                                 m_lastCleanup :=
                                   if PrimFloat.ltb 1 (seconds_between checked (m_lastCleanup hp))
                                   then cleaned else m_lastCleanup hp |})
    as (Hty1 & Hd1 & Hp1 & Hcalc1 & Hh1).
  { unfold n1, evs, CleanupOldEvents. rewrite Hhp.
    destruct (PrimFloat.ltb 1 (seconds_between checked (m_lastCleanup hp))); simpl; [done|].
    split_and!; try done. rewrite Hhp. by destruct hp. }
  assert (is_source n = false) as Hsrc by by apply is_source_Derived.
  set (h0 := <[a := n1]> h).
  assert (h0 !! a = Some n1) as Ha0 by apply lookup_insert_eq.
  destruct (MarkDirty_total fuel h0 a) as [h1 Hmark]; [by eexists|..].
  { unfold h0. by rewrite (clean_count_insert_same h a n n1). }
  rewrite Hmark. simpl.
  pose proof (MarkDirty_dirtied _ _ _ _ Hmark) as Hdirtied.
  destruct (MarkDirty_marks _ _ _ _ Hmark) as (na & Ha1 & Hdna).
  destruct (dirtied_lookup _ _ _ _ Hdirtied Ha1) as (n1' & Ha0' & _ & Hcase).
  rewrite Ha0 in Ha0'. injection Ha0' as <-.
  assert (m_type na = Derived ∧ parent_addrs na = parent_addrs n ∧
          m_calculateFunc na = Some CalcSumRecent ∧
          m_history na = m_history n1) as (Htya & Hpa & Hcalca & Hha).
  { by destruct Hcase as [->|[_ ->]]. }
  assert (grounded (S d) h1 a = true) as Hg1.
  { rewrite <- Hg. apply grounded_ext.
    - intros x. rewrite (dirtied_is_Some _ _ _ Hdirtied). unfold h0.
      destruct (decide (x = a)) as [->|Hne].
      + rewrite lookup_insert_eq, Ha. split; by eexists.
      + by rewrite lookup_insert_ne.
    - intros x nx nx' Hx Hx'.
      destruct (dirtied_lookup _ _ _ _ Hdirtied Hx') as (n0 & Hx0 & _ & Hc0).
      assert (parent_addrs nx' = parent_addrs n0) as ->
        by by destruct Hc0 as [->|[_ ->]].
      unfold h0 in Hx0. destruct (decide (x = a)) as [->|Hne].
      + rewrite lookup_insert_eq in Hx0. injection Hx0 as <-. congruence.
      + rewrite lookup_insert_ne in Hx0 by done. congruence. }
  destruct fuel as [|fuel]; [lia|].
  destruct (GetValue_dirty d fuel now env h1 a na Ha1)
    as (pv & h2 & tr & n2 & _ & _ & Ha2 & Hskel & Hget & _);
    [by apply is_source_Derived|done|done|lia|].
  rewrite Hget. simpl.
  assert (run_calc (now a) na pv = newValue) as Hval.
  { unfold run_calc. by rewrite Hcalca, Hha, Hh1. }
  rewrite Hval. unfold GetCachedValue. rewrite Hsrc.
  eexists _, _. split; [done|]. split; [apply lookup_insert_eq|].
  split; [done|]. split; [done|].
  pose proof (skeleton_fields _ _ Hskel) as (_ & _ & _ & _ & _ & _ & _ & Hh2).
  unfold events_of. simpl. by rewrite Hh2, Hha, Hh1.
Qed.

End TickTheorems.

(** ** What the operations preserve of each node *)

Section Preserves.
Context {Env : Type}.
Implicit Types (h : gmap addr (StatNode Env)) (n : StatNode Env).
Implicit Types (R : relation (StatNode Env)).

Lemma preserves_refl R `{!Reflexive R} h : preserves R h h.
Proof. intros x n Hx. by exists n. Qed.

Lemma preserves_trans R `{!Transitive R} h1 h2 h3 :
  preserves R h1 h2 → preserves R h2 h3 → preserves R h1 h3.
Proof.
  intros H12 H23 x n Hx. destruct (H12 _ _ Hx) as (n2 & Hx2 & HR2).
  destruct (H23 _ _ Hx2) as (n3 & Hx3 & HR3). exists n3. split; [done|].
  by etrans.
Qed.

Lemma preserves_insert R `{!Reflexive R} h a n n' :
  h !! a = Some n → R n n' → preserves R h (<[a := n']> h).
Proof.
  intros Ha HR x nx Hx. destruct (decide (x = a)) as [->|Hne].
  - rewrite Ha in Hx. injection Hx as <-. exists n'.
    by rewrite lookup_insert_eq.
  - exists nx. by rewrite lookup_insert_ne.
Qed.

Lemma preserves_fresh R `{!Reflexive R} h a n :
  h !! a = None → preserves R h (<[a := n]> h).
Proof.
  intros Ha x nx Hx. exists nx. split; [|done].
  rewrite lookup_insert_ne; [done|congruence].
Qed.

Lemma preserves_recached R `{!Reflexive R} h h' :
  (∀ n v b, R n (set_isDirty b (set_cachedValue v n))) →
  recached h h' → keeps_settled h h' → preserves R h h'.
Proof.
  intros HR Hr Hk x n Hx.
  destruct (recached_lookup _ _ _ _ Hr Hx) as (n' & Hx' & Hs).
  exists n'. split; [done|].
  assert (n' = set_isDirty (m_isDirty n') (set_cachedValue (m_cachedValue n') n))
    as ->; [|apply HR].
  pose proof (skeleton_fields _ _ Hs) as (?&?&?&?&?&?&?&?).
  assert (m_label n' = m_label n ∧ m_nodeCategory n' = m_nodeCategory n ∧
          m_isHistoryNode n' = m_isHistoryNode n) as (?&?&?).
  { unfold skeleton in Hs. by injection Hs. }
  destruct n, n'; simpl in *; by subst.
Qed.

Lemma preserves_dirtied R `{!Reflexive R} h h' :
  (∀ n, R n (set_isDirty true n)) → dirtied h h' → preserves R h h'.
Proof.
  intros HR Hd x n Hx.
  destruct (dirtied_lookup_fwd _ _ _ _ Hd Hx) as (n' & Hx' & _ & [->|[_ ->]]);
    eexists; (split; [done|]); [reflexivity|apply HR].
Qed.

Section kept.
Context R (HR : kept_by_writes R).

Lemma kept_preserves_refl h : preserves R h h.
Proof. apply (preserves_refl R (Reflexive0 := kept_refl R HR)). Qed.

Lemma kept_preserves_trans h1 h2 h3 :
  preserves R h1 h2 → preserves R h2 h3 → preserves R h1 h3.
Proof. apply (preserves_trans R (Transitive0 := kept_trans R HR)). Qed.

Lemma kept_preserves_insert h a n n' :
  h !! a = Some n → R n n' → preserves R h (<[a := n']> h).
Proof. apply (preserves_insert R (Reflexive0 := kept_refl R HR)). Qed.

Lemma kept_preserves_fresh h a n :
  h !! a = None → preserves R h (<[a := n]> h).
Proof. apply (preserves_fresh R (Reflexive0 := kept_refl R HR)). Qed.

Lemma kept_preserves_dirtied h h' : dirtied h h' → preserves R h h'.
Proof.
  apply (preserves_dirtied R (Reflexive0 := kept_refl R HR)).
  apply (kept_dirty R HR).
Qed.

Lemma kept_preserves_recached h h' :
  recached h h' → keeps_settled h h' → preserves R h h'.
Proof.
  apply (preserves_recached R (Reflexive0 := kept_refl R HR)).
  apply (kept_cache R HR).
Qed.

Lemma AddParent_preserves h a parent h' :
  AddParent h a parent = Some h' → preserves R h h'.
Proof.
  unfold AddParent.
  destruct parent as [p|]; [|intros [= <-]; by apply kept_preserves_refl].
  destruct (h !! a) as [n|] eqn:Ha; [simpl|done].
  set (h1 := <[a := set_parents (m_parents n ++ [p]) n]> h).
  destruct (h1 !! p) as [np|] eqn:Hp; [simpl|done].
  set (h2 := <[p := set_children (m_children np ++ [a]) np]> h1).
  destruct (h2 !! a) as [n2|] eqn:Ha2; [simpl|done].
  intros Hres.
  assert (preserves R h h2) as H2.
  { eapply kept_preserves_trans.
    - eapply kept_preserves_insert; [done|]. apply (kept_parents R HR).
    - eapply kept_preserves_insert; [done|]. apply (kept_children R HR). }
  destruct (bool_decide (m_type n2 = Derived)); injection Hres as <-; [|done].
  eapply kept_preserves_trans; [done|].
  eapply kept_preserves_insert; [done|]. apply (kept_dirty R HR).
Qed.

Lemma AddConditionalParent_preserves h a parent cond desc h' :
  AddConditionalParent h a parent cond desc = Some h' → preserves R h h'.
Proof.
  unfold AddConditionalParent.
  destruct parent as [p|]; [|intros [= <-]; by apply kept_preserves_refl].
  destruct (h !! a) as [n|] eqn:Ha; [simpl|done].
  set (cp := {| cp_node := p; cp_condition := cond;
                cp_conditionDesc := desc; cp_lastActive := true |}).
  set (h1 := <[a := set_conditionalParents (m_conditionalParents n ++ [cp]) n]> h).
  destruct (h1 !! p) as [np|] eqn:Hp; [simpl|done].
  set (h2 := <[p := set_children (m_children np ++ [a]) np]> h1).
  destruct (h2 !! a) as [n2|] eqn:Ha2; [simpl|done].
  intros [= <-].
  eapply kept_preserves_trans.
  - eapply kept_preserves_trans.
    + eapply kept_preserves_insert; [done|]. apply (kept_conditional R HR).
    + eapply kept_preserves_insert; [done|]. apply (kept_children R HR).
  - eapply kept_preserves_insert; [done|]. apply (kept_dirty R HR).
Qed.

Lemma MarkDirty_preserves fuel h a h' :
  MarkDirty fuel h a = Some h' → preserves R h h'.
Proof.
  intros Hd%MarkDirty_dirtied. by apply kept_preserves_dirtied.
Qed.

Lemma GetValue_preserves fuel now env h a v h' tr :
  GetValue fuel now env h a = Some (v, h', tr) → preserves R h h'.
Proof.
  intros (Hr & Hk & _)%GetValue_frame.
  by apply kept_preserves_recached.
Qed.

Lemma SetBaseValue_preserves fuel h a v h' :
  SetBaseValue fuel h a v = Some h' → preserves R h h'.
Proof.
  unfold SetBaseValue. destruct (h !! a) as [n|] eqn:Ha; [simpl|done].
  destruct (PrimFloat.eqb (m_baseValue n) v);
    [intros [= <-]; by apply kept_preserves_refl|].
  intros Hinv. apply InvalidateChildren_spec in Hinv as [Hd _].
  eapply kept_preserves_trans; [|by apply kept_preserves_dirtied].
  eapply kept_preserves_insert; [done|].
  destruct (is_source (set_baseValue v n));
    [apply (kept_base_cache R HR)|apply (kept_base R HR)].
Qed.

Lemma record_preserves fuel h a n n' h' :
  h !! a = Some n → R n n' →
  MarkDirty fuel (<[a := n']> h) a = Some h' → preserves R h h'.
Proof.
  intros Ha Hn Hmark.
  eapply kept_preserves_trans; [|by eapply MarkDirty_preserves].
  by eapply kept_preserves_insert.
Qed.

Lemma graph_step_preserves h h' : graph_step h h' → preserves R h h'.
Proof.
  intros [fuel now env a v h1 tr Hget
         |fuel a v h1 Hset
         |fuel a h1 Hmark
         |a n func Ha|a n cat Ha|a n isHistory Ha
         |a parent h1 Hadd
         |a parent cond desc h1 Hadd
         |fuel now a v ty h1 Hrec
         |fuel a v time ty h1 Hrec
         |now maxAge a n Ha
         |fuel checked cleaned now env a maxAge changed h1 Htick
         |a id label baseValue type Ha
         |now a id label windowSeconds Ha].
  - by eapply GetValue_preserves.
  - by eapply SetBaseValue_preserves.
  - by eapply MarkDirty_preserves.
  - eapply kept_preserves_insert; [done|]. apply (kept_calc R HR).
  - eapply kept_preserves_insert; [done|]. apply (kept_category R HR).
  - eapply kept_preserves_insert; [done|]. apply (kept_isHistory R HR).
  - by eapply AddParent_preserves.
  - by eapply AddConditionalParent_preserves.
  - unfold RecordEvent in Hrec.
    destruct (h !! a) as [n|] eqn:Ha; [simpl in Hrec|done].
    eapply record_preserves; [done| |done]. apply (kept_events R HR).
  - unfold RecordEventAt in Hrec.
    destruct (h !! a) as [n|] eqn:Ha; [simpl in Hrec|done].
    eapply record_preserves; [done| |done]. apply (kept_events R HR).
  - eapply kept_preserves_insert; [done|]. apply (kept_cleanup R HR).
  - unfold Tick in Htick.
    destruct (h !! a) as [n|] eqn:Ha; [simpl in Htick|done].
    destruct (m_history n) as [hp|] eqn:Hhp; [simpl in Htick|done].
    destruct (MarkDirty fuel _ a) as [h2|] eqn:Hmark; [simpl in Htick|done].
    destruct (GetValue fuel now env h2 a) as [[[newValue h3] tr]|] eqn:Hget;
      [simpl in Htick|done].
    injection Htick as _ <-.
    eapply kept_preserves_trans; [|by eapply GetValue_preserves].
    eapply record_preserves; [done| |done].
    destruct (PrimFloat.ltb 1 (seconds_between checked (m_lastCleanup hp)));
      [apply (kept_cleanup R HR)|apply (kept_refl R HR)].
  - by apply kept_preserves_fresh.
  - by apply kept_preserves_fresh.
Qed.

Lemma graph_steps_preserve h h' : rtc graph_step h h' → preserves R h h'.
Proof.
  induction 1 as [|h1 h2 h3 Hstep _ IH]; [by apply kept_preserves_refl|].
  eapply kept_preserves_trans; [|done]. by apply graph_step_preserves.
Qed.

End kept.

End Preserves.

(** ** The manager acts on the nodes through their methods *)

Section ManagerStore.
Context {Env ModifierContext : Type} `{StdSort}.
Implicit Types (g : GraphManager Env ModifierContext).
Implicit Types (h : gmap addr (StatNode Env)) (n : StatNode Env).

Lemma foldl_steps {A} (f : option (gmap addr (StatNode Env)) → A
                          → option (gmap addr (StatNode Env))) :
  (∀ x, f None x = None) →
  (∀ h x h1, f (Some h) x = Some h1 → rtc graph_step h h1) →
  ∀ l hc h', foldl f (Some hc) l = Some h' → rtc graph_step hc h'.
Proof.
  intros Hnone Hstep. induction l as [|x l IH]; intros hc h'; simpl.
  { by intros [= <-]. }
  destruct (f (Some hc) x) as [h1|] eqn:Hx.
  - intros Hl. etrans; [by eapply Hstep|by apply IH].
  - assert (foldl f None l = None) as ->; [|done].
    clear -Hnone. induction l as [|y l IH]; [done|]. simpl. by rewrite Hnone.
Qed.

Lemma fresh_store_None h : h !! fresh (dom h) = None.
Proof. apply not_elem_of_dom. apply is_fresh. Qed.

Lemma AddParents_steps h a parents h' :
  AddParents h a parents = Some h' → rtc graph_step h h'.
Proof.
  unfold AddParents. apply foldl_steps; [done|].
  intros h0 p h1. simpl. intros Hadd. apply rtc_once. by econstructor.
Qed.

Lemma RegisterNode_store g node :
  store (left_behind (RegisterNode g node)) = store g.
Proof.
  unfold RegisterNode. destruct (store g !! node); [|done].
  by destruct (m_nodes g !! _).
Qed.

Lemma CreateBaseStat_left_behind g id label v cat :
  left_behind (CreateBaseStat g id label v cat)
  = left_behind (RegisterNode (make_shared
      (if bool_decide (cat ≠ ""%string)
       then SetCategory cat (new_StatNode id label v Base)
       else new_StatNode id label v Base) g).2 (fresh (dom (store g)))).
Proof. unfold CreateBaseStat. simpl. by destruct (RegisterNode _ _). Qed.

Lemma CreateHistoryNode_left_behind now g id label w cat :
  left_behind (CreateHistoryNode now g id label w cat)
  = left_behind
      (RegisterNode
         (set_historyNodes
            (<[id := fresh (dom (store g))]> (m_historyNodes g))
            (make_shared
               (SetIsHistoryNode true
                  (if bool_decide (cat ≠ ""%string)
                   then SetCategory cat (new_HistoryStatNode now id label w)
                   else new_HistoryStatNode now id label w)) g).2)
         (fresh (dom (store g)))).
Proof. unfold CreateHistoryNode. simpl. by destruct (RegisterNode _ _). Qed.

Lemma CreateDerivedStat_left_behind g id label parents calcFunc cat o :
  CreateDerivedStat g id label parents calcFunc cat = Some o →
  ∃ s n,
    AddParents (<[fresh (dom (store g)) := new_StatNode id label 0 Derived]>
                  (store g)) (fresh (dom (store g))) parents = Some s ∧
    s !! fresh (dom (store g)) = Some n ∧
    let n1 := match calcFunc with
              | Some _ => SetCalculationFunc calcFunc n
              | None => n
              end in
    let n2 := if bool_decide (cat ≠ ""%string) then SetCategory cat n1
              else n1 in
    left_behind o
    = left_behind (RegisterNode
                     (set_store (<[fresh (dom (store g)) := n2]> s) g)
                     (fresh (dom (store g)))).
Proof.
  unfold CreateDerivedStat, make_shared. simpl.
  destruct (AddParents _ _ parents) as [s|] eqn:Hadd; [simpl|done].
  destruct (s !! fresh (dom (store g))) as [n|] eqn:Hn; [simpl|done].
  intros [= <-]. exists s, n. split; [done|]. split; [done|]. simpl.
  by destruct (RegisterNode _ _).
Qed.

Lemma manager_step_store g g' :
  manager_step g g' → rtc graph_step (store g) (store g').
Proof.
  intros [id label v cat
         |id label parents calcFunc cat o Hcreate
         |now id label w cat
         |fuel id v found g1 Hset
         |fuel modifier g1 Hadd
         |modifierId
         |fuel sourceId g1 Hrem
         |fuel now id amount ty g1 Hrec
         | |
         |fuel g1 Hmark
         |h' Hstep].
  - rewrite CreateBaseStat_left_behind, RegisterNode_store. simpl.
    pose proof (fresh_store_None (store g)) as Hfresh.
    destruct (bool_decide (cat ≠ ""%string)).
    + eapply rtc_l; [by apply (step_new_StatNode _ (fresh (dom (store g))) id label v Base)|].
      apply rtc_once.
      rewrite <- (insert_insert_eq (store g) (fresh (dom (store g)))
                    (SetCategory cat (new_StatNode id label v Base))
                    (new_StatNode id label v Base)).
      apply step_SetCategory. apply lookup_insert_eq.
    + apply rtc_once. by constructor.
  - apply CreateDerivedStat_left_behind in Hcreate
      as (s & n & Hadd & Hn & ->).
    rewrite RegisterNode_store. simpl.
    pose proof (fresh_store_None (store g)) as Hfresh.
    eapply rtc_l; [by apply (step_new_StatNode _ (fresh (dom (store g))) id label 0 Derived)|].
    etrans; [by eapply AddParents_steps|].
    destruct calcFunc as [f|].
    + eapply rtc_l; [by apply (step_SetCalculationFunc _ (fresh (dom (store g))) n (Some f))|].
      destruct (bool_decide (cat ≠ ""%string)).
      * apply rtc_once.
        rewrite <- (insert_insert_eq s (fresh (dom (store g)))
                      (SetCategory cat (SetCalculationFunc (Some f) n))
                      (SetCalculationFunc (Some f) n)).
        apply step_SetCategory. apply lookup_insert_eq.
      * done.
    + destruct (bool_decide (cat ≠ ""%string)).
      * apply rtc_once. by apply step_SetCategory.
      * rewrite insert_id by done. done.
  - rewrite CreateHistoryNode_left_behind, RegisterNode_store. simpl.
    pose proof (fresh_store_None (store g)) as Hfresh.
    eapply rtc_l;
      [by apply (step_new_HistoryStatNode _ now (fresh (dom (store g))) id label w)|].
    destruct (bool_decide (cat ≠ ""%string)).
    + eapply rtc_l.
      { apply (step_SetCategory _ (fresh (dom (store g)))
                 (new_HistoryStatNode now id label w) cat).
        apply lookup_insert_eq. }
      rewrite insert_insert_eq. apply rtc_once.
      rewrite <- (insert_insert_eq (store g) (fresh (dom (store g)))
                    (SetIsHistoryNode true
                       (SetCategory cat (new_HistoryStatNode now id label w)))
                    (SetCategory cat (new_HistoryStatNode now id label w))).
      apply step_SetIsHistoryNode. apply lookup_insert_eq.
    + apply rtc_once.
      rewrite <- (insert_insert_eq (store g) (fresh (dom (store g)))
                    (SetIsHistoryNode true (new_HistoryStatNode now id label w))
                    (new_HistoryStatNode now id label w)).
      apply step_SetIsHistoryNode. apply lookup_insert_eq.
  - unfold SetNodeValue in Hset. destruct (GetNode g id) as [node|].
    + destruct (SetBaseValue fuel (store g) node v) as [s|] eqn:Hs;
        [simpl in Hset|done].
      injection Hset as _ <-. simpl. apply rtc_once. by econstructor.
    + by injection Hset as _ <-.
  - unfold AddModifier in Hadd. destruct (GetNode _ _) as [node|].
    + simpl in Hadd.
      destruct (MarkDirty fuel (store g) node) as [s|] eqn:Hs;
        [simpl in Hadd|done].
      injection Hadd as <-. simpl. apply rtc_once. by econstructor.
    + by injection Hadd as <-.
  - done.
  - unfold RemoveModifiersBySource in Hrem.
    destruct (foldl _ _ _) as [s|] eqn:Hfold; [simpl in Hrem|done].
    injection Hrem as <-. simpl. revert Hfold. apply foldl_steps; [done|].
    intros h0 statId h1. simpl. destruct (GetNode g statId).
    + intros Hm. apply rtc_once. by econstructor.
    + by intros [= <-].
  - unfold RecordDamage in Hrec. destruct (GetHistoryNode g id) as [node|].
    + destruct (RecordEvent fuel now (store g) node amount ty) as [s|] eqn:Hs;
        [simpl in Hrec|done].
      injection Hrec as <-. simpl. apply rtc_once. by econstructor.
    + by injection Hrec as <-.
  - done.
  - done.
  - unfold MarkAllConditionalNodesDirty in Hmark.
    destruct (foldl _ _ _) as [s|] eqn:Hfold; [simpl in Hmark|done].
    injection Hmark as <-. simpl. revert Hfold. apply foldl_steps; [done|].
    intros h0 id h1. simpl.
    destruct (m_nodes g !! id) as [node|]; [simpl|done].
    destruct (h0 !! node) as [n|]; [simpl|done].
    destruct (_ || _).
    + intros Hm. apply rtc_once. by econstructor.
    + by intros [= <-].
  - simpl. by apply rtc_once.
Qed.

End ManagerStore.

(** ** The invariant of the manager *)

Section SameNode.
Context {Env : Type}.
Implicit Types (n : StatNode Env).

Lemma same_node_kept : kept_by_writes (same_node (Env := Env)).
Proof.
  split; try (intros; by split).
  - intros n1 n2 n3 [E1 H1] [E2 H2]. split; [congruence|auto].
  - intros n b. unfold SetIsHistoryNode. by destruct b.
  - intros n evs. unfold set_events, same_node.
    destruct (m_history n); simpl; [|done]. split; [done|]. by eexists.
  - intros n now maxAge. unfold CleanupOldEvents, same_node.
    destruct (m_history n); simpl; [|done]. split; [done|]. by eexists.
Qed.

End SameNode.

Section ManagerInvariant.
Context {Env ModifierContext : Type} `{StdSortSpec}.
Implicit Types (g : GraphManager Env ModifierContext).
Implicit Types (h : gmap addr (StatNode Env)) (n : StatNode Env).

Lemma registry_ok_ext g g' :
  m_nodes g' = m_nodes g → m_nodeOrder g' = m_nodeOrder g →
  preserves same_node (store g) (store g') →
  registry_ok g → registry_ok g'.
Proof.
  intros Hn Ho Hp (Hreg & Hnd & Hord). unfold registry_ok. rewrite Hn, Ho.
  split; [|done]. intros id a Ha.
  destruct (Hreg _ _ Ha) as (n & Hlook & Hid).
  destruct (Hp _ _ Hlook) as (n' & Hlook' & Hid' & _).
  exists n'. split; [done|congruence].
Qed.

Lemma RegisterNode_registry_ok g node n :
  store g !! node = Some n → registry_ok g →
  registry_ok (left_behind (RegisterNode g node)).
Proof.
  intros Hnode (Hreg & Hnd & Hord). unfold RegisterNode. rewrite Hnode.
  destruct (m_nodes g !! m_id n) eqn:Hid; [done|]. simpl.
  split; [|split]; simpl.
  - intros id a. destruct (decide (id = m_id n)) as [->|Hne].
    + rewrite lookup_insert_eq. intros [= <-]. by exists n.
    + rewrite lookup_insert_ne by done. apply Hreg.
  - apply NoDup_app. split; [done|]. split; [|apply NoDup_singleton].
    intros id Hin ->%list_elem_of_singleton.
    apply Hord in Hin as [? ?]. congruence.
  - intros id. rewrite elem_of_app, list_elem_of_singleton, Hord.
    destruct (decide (id = m_id n)) as [->|Hne].
    + rewrite lookup_insert_eq. split; [by eexists|by right].
    + rewrite lookup_insert_ne by done. split; [by intros [?|?]|by left].
Qed.

Lemma RegisterNode_fields g node :
  m_historyNodes (left_behind (RegisterNode g node)) = m_historyNodes g ∧
  m_modifiers (left_behind (RegisterNode g node)) = m_modifiers g.
Proof.
  unfold RegisterNode. destruct (store g !! node); [|done].
  by destruct (m_nodes g !! _).
Qed.

Lemma history_ok_steps g g' :
  m_historyNodes g' = m_historyNodes g →
  rtc graph_step (store g) (store g') →
  history_ok g → history_ok g'.
Proof.
  intros Hh Hsteps Hok id a. rewrite Hh. intros Ha.
  destruct (Hok _ _ Ha) as (n & Hn & Hhist & Hty & Hd).
  destruct (graph_steps_dirty_History _ _ a Hsteps) as (n' & Hn' & Hty' & Hd');
    [by exists n|].
  destruct (graph_steps_preserve _ same_node_kept _ _ Hsteps _ _ Hn)
    as (n'' & Hn'' & _ & Hhist').
  rewrite Hn' in Hn''. injection Hn'' as <-.
  exists n'. split; [done|]. split; [by apply Hhist'|done].
Qed.

Lemma aggregators_ok_map (f : list (Modifiers.Modifier ModifierContext)
                              → list (Modifiers.Modifier ModifierContext)) g g' :
  m_modifiers g' = f <$> m_modifiers g →
  (∀ ms, sorted_by Modifiers.modifier_before ms →
         sorted_by Modifiers.modifier_before (f ms)) →
  (∀ ms m, m ∈ f ms → m ∈ ms) →
  aggregators_ok g → aggregators_ok g'.
Proof.
  intros Hm Hs Hin Hok statId aggregator. rewrite Hm, lookup_fmap.
  destruct (m_modifiers g !! statId) as [ms|] eqn:Hms; [simpl|done].
  intros [= <-]. destruct (Hok _ _ Hms) as [Hsorted Htarget].
  split; [by apply Hs|]. intros m Hmem. apply Htarget. by eapply Hin.
Qed.

Lemma aggregators_ok_ext g g' :
  m_modifiers g' = m_modifiers g → aggregators_ok g → aggregators_ok g'.
Proof. intros Hm Hok statId aggregator. rewrite Hm. apply Hok. Qed.

Lemma aggregators_ok_add g modifier g' :
  m_modifiers g'
  = <[Modifiers.m_targetStatId modifier :=
        Modifiers.AddModifier
          (aggregator_at g (Modifiers.m_targetStatId modifier)) modifier]>
      (m_modifiers g) →
  aggregators_ok g → aggregators_ok g'.
Proof.
  intros Hm Hok statId aggregator. rewrite Hm.
  destruct (decide (statId = Modifiers.m_targetStatId modifier)) as [->|Hne].
  - rewrite lookup_insert_eq. intros [= <-].
    split; [apply ModifiersFacts.AddModifier_sorted|].
    intros m Hin. unfold Modifiers.AddModifier in Hin.
    rewrite std_sort_perm in Hin.
    apply elem_of_app in Hin as [Hin| ->%list_elem_of_singleton]; [|done].
    unfold aggregator_at in Hin.
    destruct (m_modifiers g !! Modifiers.m_targetStatId modifier) as [ms|]
      eqn:Hms; simpl in Hin; [|by apply elem_of_nil in Hin].
    by apply (Hok _ _ Hms).
  - rewrite lookup_insert_ne by done. apply Hok.
Qed.

Lemma manager_step_aggregators g g' :
  manager_step g g' → aggregators_ok g → aggregators_ok g'.
Proof.
  intros [id label v cat
         |id label parents calcFunc cat o Hcreate
         |now id label w cat
         |fuel id v found g1 Hset
         |fuel modifier g1 Hadd
         |modifierId
         |fuel sourceId g1 Hrem
         |fuel now id amount ty g1 Hrec
         | |
         |fuel g1 Hmark
         |h' Hstep].
  - rewrite CreateBaseStat_left_behind. apply aggregators_ok_ext.
    by rewrite (proj2 (RegisterNode_fields _ _)).
  - apply CreateDerivedStat_left_behind in Hcreate as (s & n & _ & _ & ->).
    apply aggregators_ok_ext. by rewrite (proj2 (RegisterNode_fields _ _)).
  - rewrite CreateHistoryNode_left_behind. apply aggregators_ok_ext.
    by rewrite (proj2 (RegisterNode_fields _ _)).
  - apply aggregators_ok_ext. unfold SetNodeValue in Hset.
    destruct (GetNode g id); [|by injection Hset as _ <-].
    destruct (SetBaseValue _ _ _ _); [simpl in Hset|done].
    by injection Hset as _ <-.
  - apply (aggregators_ok_add g modifier). unfold AddModifier in Hadd.
    destruct (GetNode _ _); [|by injection Hadd as <-].
    simpl in Hadd. destruct (MarkDirty _ _ _); [simpl in Hadd|done].
    by injection Hadd as <-.
  - apply (aggregators_ok_map
             (λ aggregator, Modifiers.RemoveModifier aggregator modifierId));
      [done|..].
    + intros ms. apply ModifiersFacts.RemoveModifier_sorted.
    + intros ms m Hin. unfold Modifiers.RemoveModifier in Hin.
      by apply list_elem_of_filter in Hin as [_ ?].
  - apply (aggregators_ok_map
             (λ aggregator,
                Modifiers.RemoveModifiersBySource aggregator sourceId)).
    + unfold RemoveModifiersBySource in Hrem.
      destruct (foldl _ _ _); [simpl in Hrem|done]. by injection Hrem as <-.
    + intros ms. apply ModifiersFacts.RemoveModifiersBySource_sorted.
    + intros ms m Hin. unfold Modifiers.RemoveModifiersBySource in Hin.
      by apply list_elem_of_filter in Hin as [_ ?].
  - apply aggregators_ok_ext. unfold RecordDamage in Hrec.
    destruct (GetHistoryNode g id); [|by injection Hrec as <-].
    destruct (RecordEvent _ _ _ _ _ _); [simpl in Hrec|done].
    by injection Hrec as <-.
  - by apply aggregators_ok_ext.
  - by apply aggregators_ok_ext.
  - apply aggregators_ok_ext. unfold MarkAllConditionalNodesDirty in Hmark.
    destruct (foldl _ _ _); [simpl in Hmark|done]. by injection Hmark as <-.
  - by apply aggregators_ok_ext.
Qed.

Lemma manager_step_fields g g' :
  manager_step g g' →
  (m_nodes g' = m_nodes g ∧ m_nodeOrder g' = m_nodeOrder g ∧
   m_historyNodes g' = m_historyNodes g) ∨
  (∃ g1 node n,
     g' = left_behind (RegisterNode g1 node) ∧ store g1 !! node = Some n ∧
     m_nodes g1 = m_nodes g ∧ m_nodeOrder g1 = m_nodeOrder g ∧
     (m_historyNodes g1 = m_historyNodes g ∨
      ∃ id, m_historyNodes g1 = <[id := node]> (m_historyNodes g) ∧
            is_Some (m_history n) ∧ m_type n = History ∧ m_isDirty n = true)).
Proof.
  intros [id label v cat
         |id label parents calcFunc cat o Hcreate
         |now id label w cat
         |fuel id v found g1 Hset
         |fuel modifier g1 Hadd
         |modifierId
         |fuel sourceId g1 Hrem
         |fuel now id amount ty g1 Hrec
         | |
         |fuel g1 Hmark
         |h' Hstep].
  - right. rewrite CreateBaseStat_left_behind. eexists _, _, _.
    split; [done|]. simpl. split; [apply lookup_insert_eq|]. by auto.
  - right. apply CreateDerivedStat_left_behind in Hcreate
      as (s & n & _ & _ & ->).
    eexists _, _, _. split; [done|]. simpl.
    split; [apply lookup_insert_eq|]. by auto.
  - right. rewrite CreateHistoryNode_left_behind. eexists _, _, _.
    split; [done|]. simpl. split; [apply lookup_insert_eq|].
    split; [done|]. split; [done|]. right. exists id. split; [done|].
    destruct (bool_decide (cat ≠ ""%string)); simpl; by eauto.
  - left. unfold SetNodeValue in Hset.
    destruct (GetNode g id); [|by injection Hset as _ <-].
    destruct (SetBaseValue _ _ _ _); [simpl in Hset|done].
    by injection Hset as _ <-.
  - left. unfold AddModifier in Hadd.
    destruct (GetNode _ _); [|by injection Hadd as <-].
    simpl in Hadd. destruct (MarkDirty _ _ _); [simpl in Hadd|done].
    by injection Hadd as <-.
  - by left.
  - left. unfold RemoveModifiersBySource in Hrem.
    destruct (foldl _ _ _); [simpl in Hrem|done]. by injection Hrem as <-.
  - left. unfold RecordDamage in Hrec.
    destruct (GetHistoryNode g id); [|by injection Hrec as <-].
    destruct (RecordEvent _ _ _ _ _ _); [simpl in Hrec|done].
    by injection Hrec as <-.
  - by left.
  - by left.
  - left. unfold MarkAllConditionalNodesDirty in Hmark.
    destruct (foldl _ _ _); [simpl in Hmark|done]. by injection Hmark as <-.
  - by left.
Qed.

Lemma history_entry_steps h h' a :
  rtc graph_step h h' →
  (∃ n, h !! a = Some n ∧ is_Some (m_history n) ∧
        m_type n = History ∧ m_isDirty n = true) →
  ∃ n', h' !! a = Some n' ∧ is_Some (m_history n') ∧
        m_type n' = History ∧ m_isDirty n' = true.
Proof.
  intros Hsteps (n & Hn & Hhist & Hty & Hd).
  destruct (graph_steps_dirty_History _ _ a Hsteps) as (n' & Hn' & Hty' & Hd');
    [by exists n|].
  destruct (graph_steps_preserve _ same_node_kept _ _ Hsteps _ _ Hn)
    as (n'' & Hn'' & _ & Hhist').
  rewrite Hn' in Hn''. injection Hn'' as <-.
  exists n'. split; [done|]. split; [by apply Hhist'|done].
Qed.

Lemma manager_step_ok g g' : manager_step g g' → manager_ok g → manager_ok g'.
Proof.
  intros Hstep (Hreg & Hhist & Hagg & Hedges).
  pose proof (manager_step_store _ _ Hstep) as Hsteps.
  pose proof (graph_steps_preserve _ same_node_kept _ _ Hsteps) as Hsame.
  split; [|split; [|split]].
  - destruct (manager_step_fields _ _ Hstep)
      as [(Hn & Ho & _)|(g1 & node & n & -> & Hnode & Hn & Ho & _)].
    + by apply (registry_ok_ext g).
    + rewrite RegisterNode_store in Hsame.
      eapply RegisterNode_registry_ok; [done|]. by apply (registry_ok_ext g).
  - destruct (manager_step_fields _ _ Hstep)
      as [(_ & _ & Hh)|(g1 & node & n & -> & Hnode & _ & _ & Hh)].
    + intros id a. rewrite Hh. intros Ha. eapply history_entry_steps; [done|].
      by eapply Hhist.
    + rewrite RegisterNode_store in Hsteps.
      intros id a. rewrite (proj1 (RegisterNode_fields _ _)).
      rewrite RegisterNode_store.
      destruct Hh as [->|(id' & -> & Hnew)].
      * intros Ha. eapply history_entry_steps; [done|]. by eapply Hhist.
      * destruct (decide (id = id')) as [->|Hne].
        -- rewrite lookup_insert_eq. intros [= <-]. by exists n.
        -- rewrite lookup_insert_ne by done. intros Ha.
           eapply history_entry_steps; [done|]. by eapply Hhist.
  - by eapply manager_step_aggregators.
  - by eapply graph_steps_edges_ok.
Qed.

Lemma new_GraphManager_ok :
  manager_ok (new_GraphManager (Env := Env) (ModifierContext := ModifierContext)).
Proof.
  split; [|split; [|split]].
  - split; [|split]; simpl.
    + intros id a Ha. by rewrite lookup_empty in Ha.
    + apply NoDup_nil_2.
    + intros id. rewrite lookup_empty. split.
      * intros Hin. by apply elem_of_nil in Hin.
      * by intros [? ?].
  - intros id a Ha. simpl in Ha. by rewrite lookup_empty in Ha.
  - intros statId ms Hms. simpl in Hms. by rewrite lookup_empty in Hms.
  - split.
    + intros x n p np Hx. simpl in Hx. by rewrite lookup_empty in Hx.
    + intros x n q Hx. simpl in Hx. by rewrite lookup_empty in Hx.
Qed.

Lemma manager_steps_ok g :
  rtc manager_step new_GraphManager g → manager_ok g.
Proof.
  intros Hsteps.
  assert (∀ g0, rtc manager_step g0 g → manager_ok g0 → manager_ok g) as Hind.
  { clear Hsteps. induction 1 as [|g1 g2 g3 Hstep _ IH]; [done|].
    intros Hok. apply IH. by eapply manager_step_ok. }
  apply (Hind _ Hsteps). apply new_GraphManager_ok.
Qed.


End ManagerInvariant.

(** ** The manager's sweeps over its nodes *)

Section Sweeps.
Context {Env ModifierContext : Type} `{StdSort}.
Implicit Types (g : GraphManager Env ModifierContext).
Implicit Types (h : gmap addr (StatNode Env)) (n : StatNode Env).

Lemma is_conditional_test g id n :
  negb (match m_conditionalParents n with [] => true | _ => false end)
  || bool_decide (is_Some (m_modifiers g !! id)) = true
  ↔ is_conditional g id n.
Proof.
  unfold is_conditional. rewrite orb_true_iff, bool_decide_eq_true.
  destruct (m_conditionalParents n); simpl; split; intros [?|?]; auto; done.
Qed.

Lemma mark_conditional_loop fuel g :
  (∀ id a, m_nodes g !! id = Some a → is_Some (store g !! a)) →
  clean_count (store g) ≤ fuel →
  ∀ ids hc,
    (∀ id, id ∈ ids → is_Some (m_nodes g !! id)) →
    dirtied (store g) hc →
    ∃ h', foldl (λ acc id,
                   h ← acc;
                   node ← m_nodes g !! id;
                   n ← h !! node;
                   if negb (match m_conditionalParents n with
                            | [] => true
                            | _ => false
                            end)
                      || bool_decide (is_Some (m_modifiers g !! id))
                   then MarkDirty fuel h node
                   else Some h) (Some hc) ids = Some h' ∧
          dirtied hc h' ∧
          ∀ id a n, id ∈ ids → m_nodes g !! id = Some a →
                    store g !! a = Some n → is_conditional g id n →
                    flag_at h' a true.
Proof.
  intros Hreg Hfuel. induction ids as [|id ids IH]; intros hc Hids Hd; simpl.
  { exists hc. split; [done|]. split; [apply dirtied_refl|].
    intros ??? Hin. by apply elem_of_nil in Hin. }
  destruct (Hids id) as [a Ha]; [by left|]. rewrite Ha. simpl.
  destruct (Hreg _ _ Ha) as [n Hn].
  destruct (dirtied_lookup_fwd _ _ _ _ Hd Hn) as (nc & Hnc & _ & Hcase).
  rewrite Hnc. simpl.
  assert (m_conditionalParents nc = m_conditionalParents n) as Hcps
    by by destruct Hcase as [->|[_ ->]].
  rewrite Hcps.
  assert (∀ id, id ∈ ids → is_Some (m_nodes g !! id)) as Hids'
    by (intros ??; apply Hids; by right).
  destruct (negb _ || _) eqn:Htest.
  - destruct (MarkDirty_total fuel hc a) as [h1 Hm]; [by eexists|..].
    { pose proof (clean_count_dirtied _ _ Hd). lia. }
    rewrite Hm. pose proof (MarkDirty_dirtied _ _ _ _ Hm) as Hd1.
    destruct (IH h1 Hids') as (h' & Hf & Hd' & Hmarked);
      [by eapply dirtied_trans|].
    exists h'. split; [done|]. split; [by eapply dirtied_trans|].
    intros id' a' n' [->|Hin]%elem_of_cons Hid' Hn' Hc; [|by eapply Hmarked].
    rewrite Ha in Hid'. injection Hid' as <-.
    apply (dirtied_flag_true h1); [done|]. by eapply MarkDirty_marks.
  - destruct (IH hc Hids' Hd) as (h' & Hf & Hd' & Hmarked).
    exists h'. split; [done|]. split; [done|].
    intros id' a' n' [->|Hin]%elem_of_cons Hid' Hn' Hc; [|by eapply Hmarked].
    rewrite Ha in Hid'. injection Hid' as <-.
    rewrite Hn in Hn'. injection Hn' as <-.
    apply is_conditional_test in Hc. congruence.
Qed.

Lemma mark_conditional_sweep fuel g :
  registry_ok g → clean_count (store g) ≤ fuel →
  ∃ s, MarkAllConditionalNodesDirty fuel g = Some (set_store s g) ∧
       dirtied (store g) s ∧
       ∀ id a n, m_nodes g !! id = Some a → store g !! a = Some n →
                 is_conditional g id n → flag_at s a true.
Proof.
  intros (Hreg & _ & Hord) Hfuel.
  destruct (mark_conditional_loop fuel g) with (ids := m_nodeOrder g)
                                               (hc := store g)
    as (s & Hloop & Hd & Hmarked); [..|apply dirtied_refl|].
  { intros id a Ha. destruct (Hreg _ _ Ha) as (n & ? & _). by eexists. }
  { done. }
  { intros id. apply Hord. }
  exists s. unfold MarkAllConditionalNodesDirty. rewrite Hloop. simpl.
  split; [done|]. split; [done|].
  intros id a n Ha Hn Hc. eapply Hmarked; [|done..].
  apply Hord. by eexists.
Qed.

(** X15: in a manager whose registry is consistent,
    [MarkAllConditionalNodesDirty] returns (its [m_nodes.at(id)] never
    throws); afterwards every registered node that has a conditional
    parent, or whose id has an aggregator (even an empty one), is dirty;
    the sweep only raises dirty flags and leaves the registry, the
    modifiers and the pending-changes flag as they were. *)
Theorem MarkAllConditionalNodesDirty_spec fuel g :
  registry_ok g → clean_count (store g) ≤ fuel →
  ∃ s, MarkAllConditionalNodesDirty fuel g = Some (set_store s g) ∧
       dirtied (store g) s ∧
       ∀ id a n, m_nodes g !! id = Some a → store g !! a = Some n →
                 is_conditional g id n → flag_at s a true.
Proof. apply mark_conditional_sweep. Qed.

End Sweeps.

Module ManagersFacts.
Local Abbreviation HistoryTick := Tick (only parsing).
Import GameplayTags Contexts Managers GameplayTagsFacts.

Section ManagerFacts.
Context {Env : Type} `{StdSort} `{StdHash}.
Implicit Types (m : Manager Env).
Implicit Types (h : gmap addr (StatNode Env)) (n : StatNode Env).

Lemma CleanupOldEvents_idem now maxAge n :
  CleanupOldEvents now maxAge (CleanupOldEvents now maxAge n)
  = CleanupOldEvents now maxAge n.
Proof.
  destruct (m_history n) as [hp|] eqn:Hhp.
  - unfold CleanupOldEvents. rewrite Hhp. simpl.
    by rewrite pop_front_older_idem.
  - unfold CleanupOldEvents. by rewrite Hhp, Hhp.
Qed.

Lemma tick_history_loop fuel (checked cleaned : string → TimePoint)
    (now : string → addr → nat → TimePoint) env :
  ∀ (entries : list (string * addr)) any h,
  0 < fuel →
  (∀ entry, entry ∈ entries →
        ∃ n, h !! entry.2 = Some n ∧ is_Some (m_history n) ∧
             m_type n = History ∧ m_isDirty n = true) →
  ∃ h',
    foldl (λ (acc : option (bool * gmap addr (StatNode Env)))
             (entry : string * addr),
             '(anyChanged, h) ← acc;
             '(changed, h') ← HistoryTick fuel (checked entry.1)
                                (cleaned entry.1) (now entry.1) env h
                                entry.2 10;
             Some (if changed : bool then true else anyChanged, h'))
          (Some (any, h)) entries = Some (any, h') ∧
    preserves (rtc (λ n n', ∃ id, n' = CleanupOldEvents (cleaned id) 10 n))
              h h'.
Proof.
  induction entries as [|[id a] entries IH]; intros any h Hfuel Hall; simpl.
  { exists h. split; [done|]. intros x n Hx. exists n. by split. }
  destruct (Hall (id, a)) as (n & Hn & [hp Hhp] & Hty & Hd); [by left|].
  simpl in Hn.
  rewrite (Tick_dirty_History fuel (checked id) (cleaned id) (now id) env
             h a n hp 10 Hn Hhp Hty Hd Hfuel).
  simpl.
  set (n1 := if PrimFloat.ltb 1 (seconds_between (checked id) (m_lastCleanup hp))
             then CleanupOldEvents (cleaned id) 10 n else n).
  assert (n1 = n ∨ n1 = CleanupOldEvents (cleaned id) 10 n) as Hn1.
  { unfold n1.
    destruct (PrimFloat.ltb 1 (seconds_between (checked id) (m_lastCleanup hp)));
      auto. }
  destruct (IH any (<[a := n1]> h) Hfuel) as (h' & Hloop & Hpres).
  { intros [id' b] Hb. simpl. destruct (decide (b = a)) as [->|Hne].
    - exists n1. split; [apply lookup_insert_eq|].
      destruct (CleanupOldEvents_fields (cleaned id) 10 n)
        as (_ & _ & Hty' & Hd').
      destruct Hn1 as [->| ->]; [by eauto|].
      split; [|split; congruence].
      unfold CleanupOldEvents. rewrite Hhp. by eexists.
    - rewrite lookup_insert_ne by done.
      apply (Hall (id', b)). by right. }
  exists h'. split; [done|]. intros x nx Hx.
  destruct (decide (x = a)) as [->|Hne].
  - rewrite Hn in Hx. injection Hx as <-.
    destruct (Hpres a n1) as (n' & Hn' & Hcase); [apply lookup_insert_eq|].
    exists n'. split; [done|].
    destruct Hn1 as [->| ->]; [done|].
    eapply rtc_l; [|done]. by exists id.
  - apply Hpres. by rewrite lookup_insert_ne.
Qed.

(** X16: when every entry of the history registry is a dirty node of type
    History (as for every manager built through its methods), [Tick] sets
    the pending-changes flag exactly when one of the three trackers is
    recent: no history node ever reports a change, whatever events were
    recorded.  It stores its last reading of the clock and changes no node
    except for cleaning up event deques. *)
Theorem Manager_Tick_ignores_history fuel checked cleaned now
    critNow blockNow killNow tickNow env m :
  history_ok (core m) → 0 < fuel →
  ∃ m', Tick fuel checked cleaned now critNow blockNow killNow tickNow env m
        = Some m' ∧
    m_hasChanges (core m')
    = (IsRecent critNow (m_critRecently m)
       || IsRecent blockNow (m_blockRecently m)
       || IsRecent killNow (m_killRecently m) || m_hasChanges (core m)) ∧
    m_lastTick m' = tickNow ∧
    m_activeTags m' = m_activeTags m ∧
    m_nodes (core m') = m_nodes (core m) ∧
    m_modifiers (core m') = m_modifiers (core m) ∧
    preserves (rtc (λ n n', ∃ id, n' = CleanupOldEvents (cleaned id) 10 n))
              (store (core m)) (store (core m')).
Proof.
  intros Hhist Hfuel. unfold Tick, tick_history_nodes.
  destruct (tick_history_loop fuel checked cleaned now env
              (map_to_list (m_historyNodes (core m))) false
              (store (core m)) Hfuel) as (h' & -> & Hpres).
  { intros [id a] Hin. apply elem_of_map_to_list in Hin. by eapply Hhist. }
  simpl. eexists. split; [done|]. simpl.
  destruct (IsRecent critNow (m_critRecently m)
            || IsRecent blockNow (m_blockRecently m)
            || IsRecent killNow (m_killRecently m)); by simpl.
Qed.

Lemma pull_all_loop (fuel d : nat) (now : nat → addr → nat → TimePoint) env
    (nodes : gmap string addr) h0 :
  d ≤ fuel →
  ∀ (entries : list (nat * string)) h,
  recached h0 h →
  (∀ entry, entry ∈ entries →
            ∃ a, nodes !! entry.2 = Some a ∧ grounded d h0 a = true) →
  ∃ h',
    foldl (λ (acc : option (gmap addr (StatNode Env))) (entry : nat * string),
             h ← acc;
             node ← nodes !! entry.2;
             n ← h !! node;
             if bool_decide (m_type n ≠ Base)
             then '(_, h', _) ← GetValue fuel (now entry.1) env h node; Some h'
             else Some h)
          (Some h) entries = Some h' ∧
    recached h h' ∧ keeps_settled h h' ∧
    ∀ entry a, entry ∈ entries → nodes !! entry.2 = Some a →
               ∃ n, h' !! a = Some n ∧ settled n = true.
Proof.
  intros Hle. induction entries as [|[i id] entries IH]; intros h Hr Hall; simpl.
  { exists h. split; [done|]. split; [apply recached_refl|].
    split; [apply keeps_settled_refl|]. by intros ?? ?%elem_of_nil. }
  destruct (Hall (i, id)) as (a & Ha & Hg); [by left|]. simpl in Ha.
  rewrite Ha. simpl.
  assert (grounded d h a = true) as Hg' by by rewrite (grounded_recached _ _ _ _ Hr).
  assert (∃ n, h !! a = Some n) as [n Hn].
  { destruct d; [done|]. simpl in Hg'. destruct (h !! a); [by eexists|done]. }
  rewrite Hn. simpl.
  assert (∃ h1, (if bool_decide (m_type n ≠ Base)
                 then '(_, h', _) ← GetValue fuel (now i) env h a; Some h'
                 else Some h) = Some h1 ∧
                recached h h1 ∧ keeps_settled h h1 ∧
                ∃ n1, h1 !! a = Some n1 ∧ settled n1 = true)
    as (h1 & -> & Hr1 & Hk1 & n1 & Hn1 & Hs1).
  { case_bool_decide as Hty.
    - destruct (GetValue_total d fuel (now i) env h a Hg' Hle)
        as (v & h1 & tr & Hpull & _).
      rewrite Hpull. simpl. exists h1. split; [done|].
      destruct (GetValue_frame _ _ _ _ _ _ _ _ Hpull)
        as (? & ? & n1 & ? & ? & _). by eauto 10.
    - exists h. split; [done|]. split; [apply recached_refl|].
      split; [apply keeps_settled_refl|]. exists n. split; [done|].
      unfold settled, is_source. rewrite Hty.
      by rewrite bool_decide_eq_true_2. }
  destruct (IH h1) as (h' & Hloop & Hr' & Hk' & Hset).
  { by eapply recached_trans. }
  { intros entry Hentry. apply Hall. by right. }
  exists h'. split; [done|]. split; [by eapply recached_trans|].
  split. { intros x nx Hx Hsx. apply Hk'; [|done]. by apply Hk1. }
  intros entry a' [->|Hin]%elem_of_cons Ha'.
  - simpl in Ha'. rewrite Ha in Ha'. injection Ha' as <-.
    exists n1. by split; [apply Hk'|].
  - by eapply Hset.
Qed.

(** X17: on a manager whose registry is in order and whose registered nodes
    are grounded within the budget, the recalculation pass of
    [RecalculateAndSerialize] returns; it caches in every modifier of
    every aggregator whether the modifier applies under the current tags,
    leaves every registered node settled, and changes nothing but caches
    and dirty flags of nodes.  It does not clear the pending-changes
    flag. *)
Theorem Recalculate_settles fuel now env m d :
  registry_ok (core m) →
  (∀ id a, m_nodes (core m) !! id = Some a →
           grounded d (store (core m)) a = true) →
  d ≤ fuel →
  ∃ m', Recalculate fuel now env m = Some m' ∧
    recached (store (core m)) (store (core m')) ∧
    (∀ id a, m_nodes (core m') !! id = Some a →
       ∃ n, store (core m') !! a = Some n ∧ settled n = true) ∧
    (∀ statId,
       m_modifiers (core m') !! statId
       = fmap (M := list)
           (λ mod_, Modifiers.set_conditionMet
                     (ModifiersSpec.applies (context_of m) mod_) mod_)
         <$> m_modifiers (core m) !! statId) ∧
    m_nodes (core m') = m_nodes (core m) ∧
    m_activeTags m' = m_activeTags m ∧
    m_hasChanges (core m') = m_hasChanges (core m).
Proof.
  intros (Hreg & _ & Horder) Hg Hle. unfold Recalculate, pull_all. simpl.
  destruct (pull_all_loop fuel d now env (m_nodes (core m)) (store (core m)) Hle
              (imap pair (m_nodeOrder (core m))) (store (core m)))
    as (h' & -> & Hr & _ & Hset); [apply recached_refl| |].
  { intros entry (i & id & -> & Hid)%elem_of_lookup_imap. simpl.
    destruct (proj1 (Horder id)) as [a Ha]; [by eapply list_elem_of_lookup_2|].
    exists a. split; [done|]. by eapply Hg. }
  simpl. eexists. split; [done|]. simpl. split; [done|].
  split.
  { intros id a Ha.
    assert (id ∈ m_nodeOrder (core m)) as Hin
      by (apply Horder; by eexists).
    apply list_elem_of_lookup in Hin as [i Hi].
    apply (Hset (i, id)); [|done].
    apply elem_of_lookup_imap. by exists i, id. }
  split; [|done]. intros statId. rewrite lookup_fmap.
  destruct (m_modifiers (core m) !! statId) as [ms|]; [simpl|done].
  f_equal. apply list_fmap_ext. intros _ mod_ _.
  rewrite <- (ModifiersFacts.EvaluateCondition_applies (context_of m) mod_).
  unfold Modifiers.EvaluateCondition.
  by destruct (negb (Modifiers.m_isActive mod_)).
Qed.

Lemma on_tags_changed_spec fuel (g : GraphManager Env ModifierContext) :
  registry_ok g → clean_count (store g) ≤ fuel →
  ∃ s, on_tags_changed fuel (Some g) = Some (set_hasChanges true (set_store s g)) ∧
       dirtied (store g) s ∧
       ∀ id a n, m_nodes g !! id = Some a → store g !! a = Some n →
                 is_conditional g id n → flag_at s a true.
Proof.
  intros Hreg Hfuel.
  destruct (mark_conditional_sweep fuel g Hreg Hfuel) as (s & Hs & Hd & Hflag).
  exists s. unfold on_tags_changed. simpl. by rewrite Hs.
Qed.

(** X18: on a manager with the constructor's callback, adding a tag that is
    present and removing one that is absent change nothing, not even the
    pending-changes flag.  Adding an absent tag or removing a present one
    sets the flag and raises the dirty flag of every registered node that
    has conditional parents or an aggregator, changing no node otherwise;
    from then on a modifier built with [RequiresTag] for that tag applies
    exactly when it is active (after adding), or never (after removing). *)
Theorem Manager_tags_drive_conditionals fuel m tag mod_ :
  m_onChangedCallback (m_activeTags m) = Some (on_tags_changed fuel) →
  registry_ok (core m) → clean_count (store (core m)) ≤ fuel →
  (if HasTag m tag then AddTag m tag = Some m else RemoveTag m tag = Some m) ∧
  ∃ m', (if HasTag m tag then RemoveTag m tag else AddTag m tag) = Some m' ∧
    HasTag m' tag = negb (HasTag m tag) ∧
    m_hasChanges (core m') = true ∧
    dirtied (store (core m)) (store (core m')) ∧
    (∀ id a n, m_nodes (core m) !! id = Some a →
               store (core m) !! a = Some n →
               is_conditional (core m) id n →
               flag_at (store (core m')) a true) ∧
    m_onChangedCallback (m_activeTags m') = Some (on_tags_changed fuel) ∧
    ModifiersSpec.applies (context_of m') (RequiresTag tag mod_)
    = Modifiers.m_isActive mod_ && negb (HasTag m tag).
Proof.
  intros Hcb Hreg Hfuel.
  destruct (on_tags_changed_spec fuel (core m) Hreg Hfuel)
    as (s & Hs & Hd & Hflag).
  unfold HasTag, GameplayTags.HasTag, AddTag, RemoveTag,
    GameplayTags.AddTag, GameplayTags.RemoveTag, notify.
  rewrite Hcb, Hs.
  destruct (m_tags (m_activeTags m) !! m_hash tag) as [t|] eqn:Ht; simpl.
  - split; [by destruct m|]. eexists. split; [done|]. simpl.
    split. { rewrite lookup_delete_eq. by rewrite bool_decide_eq_false_2
               by by intros [? [=]]. }
    split_and!; try done.
    unfold ModifiersSpec.applies, RequiresTag, Contexts.HasTag,
      GameplayTags.HasTag. simpl. rewrite lookup_delete_eq.
    by rewrite bool_decide_eq_false_2 by by intros [? [=]].
  - split; [by destruct m|]. eexists. split; [done|]. simpl.
    split. { rewrite lookup_insert_eq. by rewrite bool_decide_eq_true_2
               by by eexists. }
    split_and!; try done.
    unfold ModifiersSpec.applies, RequiresTag, Contexts.HasTag,
      GameplayTags.HasTag. simpl. rewrite lookup_insert_eq.
    by rewrite bool_decide_eq_true_2 by by eexists.
Qed.

End ManagerFacts.

End ManagersFacts.

(** ** Event deques *)

Section Deques.
Context {Env : Type}.

Lemma set_events_same (n : StatNode Env) : set_events (events_of n) n = n.
Proof.
  unfold set_events, events_of. destruct n as [? ? ? ? ? ? ? ? ? ? ? ? [hp|]];
    simpl; [|done].
  by destruct hp.
Qed.

Lemma set_events_twice evs1 evs2 (n : StatNode Env) :
  set_events evs2 (set_events evs1 n) = set_events evs2 n.
Proof.
  unfold set_events. destruct (m_history n) as [hp|] eqn:Hhp; simpl.
  - done.
  - by rewrite Hhp.
Qed.

Lemma last_pop_front_over max (evs : list TimestampedEvent) ev :
  0 < max → last (pop_front_over max (evs ++ [ev])) = Some ev.
Proof.
  intros Hmax. rewrite pop_front_over_drop, length_app. simpl.
  rewrite last_lookup, length_drop, length_app. simpl.
  rewrite lookup_drop.
  replace (length evs + 1 - max
           + pred (length evs + 1 - (length evs + 1 - max)))
    with (length evs + 0) by lia.
  by rewrite lookup_app_r, Nat.add_0_r, Nat.sub_diag by lia.
Qed.

Lemma RecordEvent_on_history fuel now (h : gmap addr (StatNode Env)) a n v ty :
  h !! a = Some n → m_type n = History → m_isDirty n = true →
  RecordEvent fuel now h a v ty
  = Some (<[a := set_events
                   (pop_front_over MAX_EVENTS
                      (events_of n
                       ++ [{| value := v; timestamp := now;
                              eventType := ty |}])) n]> h).
Proof.
  intros Hn Hty Hd. unfold RecordEvent, MarkDirty. rewrite Hn. simpl.
  rewrite lookup_insert_eq. simpl.
  destruct (set_events_fields
              (pop_front_over MAX_EVENTS
                 (events_of n ++ [{| value := v; timestamp := now;
                                     eventType := ty |}])) n)
    as (_ & _ & _ & ->).
  by rewrite Hd.
Qed.

End Deques.

(** ** Producers *)

Module ProducersFacts.
Import GameplayTags Contexts Managers.

Section ProducerFacts.
Context {Env : Type} `{StdSortSpec} `{StdHash}.
Implicit Types (m : Manager Env) (g : GraphManager Env ModifierContext).

Lemma restamped_refl g : restamped g g.
Proof. split_and!; try done. apply dirtied_refl. Qed.

Lemma restamped_trans g1 g2 g3 :
  restamped g1 g2 → restamped g2 g3 → restamped g1 g3.
Proof.
  intros (?&?&?&?) (?&?&?&?). split_and!; try congruence.
  by eapply dirtied_trans.
Qed.

Lemma restamped_registry_ok g g' :
  restamped g g' → registry_ok g → registry_ok g'.
Proof.
  intros (Hn & Ho & _ & Hd). apply registry_ok_ext; [done..|].
  by apply (kept_preserves_dirtied _ same_node_kept).
Qed.

Lemma restamped_ready fuel m m' :
  restamped (core m) (core m') →
  m_onChangedCallback (m_activeTags m')
  = m_onChangedCallback (m_activeTags m) →
  ready fuel m → ready fuel m'.
Proof.
  intros Hr Hcb (Hc & Hreg & Hfuel). split; [congruence|].
  split; [by eapply restamped_registry_ok|].
  destruct Hr as (_ & _ & _ & Hd).
  pose proof (clean_count_dirtied _ _ Hd). lia.
Qed.

Lemma HasTag_hash (tags : gmap N GameplayTag) t t' :
  tag_eqb t t' = true → GameplayTags.HasTag tags t = GameplayTags.HasTag tags t'.
Proof.
  unfold tag_eqb, GameplayTags.HasTag. intros ->%N.eqb_eq. done.
Qed.

Lemma AddTag_step fuel m tag :
  ready fuel m →
  ∃ m', AddTag m tag = Some m' ∧ ready fuel m' ∧
    restamped (core m) (core m') ∧
    m_modifiers (core m') = m_modifiers (core m) ∧
    (m_hasChanges (core m) = true → m_hasChanges (core m') = true) ∧
    ∀ t, HasTag m' t = HasTag m t || tag_eqb t tag.
Proof.
  intros Hready. pose proof Hready as (Hcb & Hreg & Hfuel).
  destruct (ManagersFacts.on_tags_changed_spec fuel (core m) Hreg Hfuel)
    as (s & Hs & Hd & _).
  unfold AddTag, GameplayTags.AddTag, notify. rewrite Hcb, Hs.
  destruct (m_tags (m_activeTags m) !! m_hash tag) as [t0|] eqn:Ht; simpl.
  - exists m. split; [by destruct m|]. split; [done|].
    split; [apply restamped_refl|]. split; [done|]. split; [done|].
    intros t. destruct (tag_eqb t tag) eqn:E; [|by rewrite orb_false_r].
    rewrite orb_true_r. unfold HasTag. rewrite (HasTag_hash _ _ _ E).
    unfold GameplayTags.HasTag. rewrite Ht. by apply bool_decide_eq_true_2.
  - eexists. split; [done|].
    assert (restamped (core m) (set_hasChanges true (set_store s (core m))))
      as Hr by by split_and!.
    split; [by eapply restamped_ready|]. split; [done|]. split; [done|].
    split; [done|]. intros t. unfold HasTag, GameplayTags.HasTag. simpl.
    unfold tag_eqb. destruct (N.eqb_spec (m_hash t) (m_hash tag)) as [->|Hne].
    + rewrite lookup_insert_eq, orb_true_r. by apply bool_decide_eq_true_2.
    + rewrite lookup_insert_ne by done. by rewrite orb_false_r.
Qed.

Lemma RemoveTag_step fuel m tag :
  ready fuel m →
  ∃ m', RemoveTag m tag = Some m' ∧ ready fuel m' ∧
    restamped (core m) (core m') ∧
    m_modifiers (core m') = m_modifiers (core m) ∧
    (m_hasChanges (core m) = true → m_hasChanges (core m') = true) ∧
    ∀ t, HasTag m' t = HasTag m t && negb (tag_eqb t tag).
Proof.
  intros Hready. pose proof Hready as (Hcb & Hreg & Hfuel).
  destruct (ManagersFacts.on_tags_changed_spec fuel (core m) Hreg Hfuel)
    as (s & Hs & Hd & _).
  unfold RemoveTag, GameplayTags.RemoveTag, notify. rewrite Hcb, Hs.
  destruct (m_tags (m_activeTags m) !! m_hash tag) as [t0|] eqn:Ht; simpl.
  - eexists. split; [done|].
    assert (restamped (core m) (set_hasChanges true (set_store s (core m))))
      as Hr by by split_and!.
    split; [by eapply restamped_ready|]. split; [done|]. split; [done|].
    split; [done|]. intros t. unfold HasTag, GameplayTags.HasTag. simpl.
    unfold tag_eqb. destruct (N.eqb_spec (m_hash t) (m_hash tag)) as [->|Hne].
    + rewrite lookup_delete_eq, andb_false_r.
      by apply bool_decide_eq_false_2; intros [? [=]].
    + rewrite lookup_delete_ne by done. by rewrite andb_true_r.
  - exists m. split; [by destruct m|]. split; [done|].
    split; [apply restamped_refl|]. split; [done|]. split; [done|].
    intros t. destruct (tag_eqb t tag) eqn:E; [|by rewrite andb_true_r].
    rewrite andb_false_r. unfold HasTag. rewrite (HasTag_hash _ _ _ E).
    unfold GameplayTags.HasTag. rewrite Ht.
    by apply bool_decide_eq_false_2; intros [? [=]].
Qed.

Lemma add_tags_spec fuel tagList : ∀ m,
  ready fuel m →
  ∃ m', Producers.add_tags tagList m = Some m' ∧ ready fuel m' ∧
    restamped (core m) (core m') ∧
    m_modifiers (core m') = m_modifiers (core m) ∧
    (m_hasChanges (core m) = true → m_hasChanges (core m') = true) ∧
    ∀ t, HasTag m' t = HasTag m t || tag_among t tagList.
Proof.
  unfold Producers.add_tags.
  induction tagList as [|tag rest IH]; intros m Hready; simpl.
  { exists m. split_and!; try done; [apply restamped_refl|].
    intros t. by rewrite orb_false_r. }
  destruct (AddTag_step fuel m tag Hready)
    as (m1 & -> & Hready1 & Hr1 & Hm1 & Hc1 & Ht1).
  destruct (IH m1 Hready1) as (m' & Hloop & Hready' & Hr' & Hm' & Hc' & Ht').
  exists m'. split; [done|]. split; [done|].
  split; [by eapply restamped_trans|]. split; [congruence|].
  split; [auto|]. intros t. by rewrite Ht', Ht1, orb_assoc.
Qed.

Lemma remove_tags_spec fuel tagList : ∀ m,
  ready fuel m →
  ∃ m', Producers.remove_tags tagList m = Some m' ∧ ready fuel m' ∧
    restamped (core m) (core m') ∧
    m_modifiers (core m') = m_modifiers (core m) ∧
    (m_hasChanges (core m) = true → m_hasChanges (core m') = true) ∧
    ∀ t, HasTag m' t = HasTag m t && negb (tag_among t tagList).
Proof.
  unfold Producers.remove_tags.
  induction tagList as [|tag rest IH]; intros m Hready; simpl.
  { exists m. split_and!; try done; [apply restamped_refl|].
    intros t. by rewrite andb_true_r. }
  destruct (RemoveTag_step fuel m tag Hready)
    as (m1 & -> & Hready1 & Hr1 & Hm1 & Hc1 & Ht1).
  destruct (IH m1 Hready1) as (m' & Hloop & Hready' & Hr' & Hm' & Hc' & Ht').
  exists m'. split; [done|]. split; [done|].
  split; [by eapply restamped_trans|]. split; [congruence|].
  split; [auto|]. intros t.
  by rewrite Ht', Ht1, negb_orb, andb_assoc.
Qed.

Lemma AddModifier_step fuel g mod_ :
  registry_ok g → clean_count (store g) ≤ fuel →
  ∃ g', AddModifier fuel g mod_ = Some g' ∧ restamped g g' ∧
    (m_hasChanges g = true → m_hasChanges g' = true) ∧
    ∀ statId,
      aggregator_at g' statId
      ≡ₚ aggregator_at g statId
         ++ (if bool_decide (Modifiers.m_targetStatId mod_ = statId)
             then [mod_] else []).
Proof.
  intros Hreg Hfuel. unfold AddModifier, GetNode. simpl.
  set (mods := <[_ := _]> _).
  assert (∀ statId,
            default [] (mods !! statId)
            ≡ₚ aggregator_at g statId
               ++ (if bool_decide (Modifiers.m_targetStatId mod_ = statId)
                   then [mod_] else [])) as Hmods.
  { intros statId. unfold mods. case_bool_decide as E.
    - subst statId. rewrite lookup_insert_eq. simpl.
      unfold Modifiers.AddModifier. apply std_sort_perm.
    - rewrite lookup_insert_ne by done. by rewrite app_nil_r. }
  destruct (m_nodes g !! Modifiers.m_targetStatId mod_) as [node|] eqn:Hnode.
  - destruct Hreg as (Hlive & _). destruct (Hlive _ _ Hnode) as (n & Hn & _).
    destruct (MarkDirty_total fuel (store g) node) as [s Hs];
      [by eexists|done|].
    rewrite Hs. simpl. eexists. split; [done|].
    split. { split_and!; try done. by eapply MarkDirty_dirtied. }
    split; [done|]. apply Hmods.
  - eexists. split; [done|].
    split; [split_and!; try done; apply dirtied_refl|].
    split; [done|]. apply Hmods.
Qed.

Lemma add_modifiers_spec fuel mods : ∀ m,
  registry_ok (core m) → clean_count (store (core m)) ≤ fuel →
  ∃ m', Producers.add_modifiers fuel mods m = Some m' ∧
    restamped (core m) (core m') ∧
    m_activeTags m' = m_activeTags m ∧
    (m_hasChanges (core m) = true → m_hasChanges (core m') = true) ∧
    ∀ statId,
      aggregator_at (core m') statId
      ≡ₚ aggregator_at (core m) statId
         ++ filter (λ x, Modifiers.m_targetStatId x = statId) mods.
Proof.
  unfold Producers.add_modifiers.
  induction mods as [|mod_ rest IH]; intros m Hreg Hfuel; simpl.
  { exists m. split_and!; try done; [apply restamped_refl|].
    intros statId. by rewrite filter_nil, app_nil_r. }
  destruct (AddModifier_step fuel (core m) mod_ Hreg Hfuel)
    as (g1 & Hg1 & Hr1 & Hc1 & Hagg1).
  unfold on_core at 2. rewrite Hg1. simpl.
  destruct (IH (set_core g1 m)) as (m' & Hloop & Hr' & Htags & Hc' & Hagg').
  { by eapply restamped_registry_ok. }
  { destruct Hr1 as (_ & _ & _ & Hd).
    pose proof (clean_count_dirtied _ _ Hd). simpl. lia. }
  exists m'. split; [done|]. split; [by eapply restamped_trans|].
  split; [done|]. split; [auto|]. intros statId.
  rewrite Hagg'. simpl. rewrite Hagg1, filter_cons, <- (assoc_L (++)).
  by case_bool_decide; case_decide.
Qed.

Lemma mark_targets_loop fuel g : ∀ (ids : list string) hc,
  registry_ok g → dirtied (store g) hc → clean_count (store g) ≤ fuel →
  ∃ s, foldl (λ acc statId,
                h ← acc;
                match GetNode g statId with
                | Some node => MarkDirty fuel h node
                | None => Some h
                end) (Some hc) ids = Some s ∧
       dirtied hc s.
Proof.
  induction ids as [|id ids IH]; intros hc Hreg Hd Hfuel; simpl.
  { exists hc. split; [done|apply dirtied_refl]. }
  unfold GetNode at 2.
  destruct (m_nodes g !! id) as [node|] eqn:Hnode.
  - destruct Hreg as (Hlive & ?). destruct (Hlive _ _ Hnode) as (n & Hn & _).
    destruct (dirtied_lookup_fwd _ _ _ _ Hd Hn) as (nc & Hnc & _).
    destruct (MarkDirty_total fuel hc node) as [h1 Hh1]; [by eexists|..].
    { pose proof (clean_count_dirtied _ _ Hd). lia. }
    rewrite Hh1. pose proof (MarkDirty_dirtied _ _ _ _ Hh1) as Hd1.
    destruct (IH h1) as (s & Hloop & Hds);
      [done|by eapply dirtied_trans|done|].
    exists s. split; [done|]. by eapply dirtied_trans.
  - destruct (IH hc Hreg Hd Hfuel) as (s & Hloop & Hds). by exists s.
Qed.

Lemma RemoveModifiersBySource_step fuel g sourceId :
  registry_ok g → clean_count (store g) ≤ fuel →
  ∃ g', RemoveModifiersBySource fuel g sourceId = Some g' ∧
    restamped g g' ∧ m_hasChanges g' = true ∧
    m_modifiers g'
    = (λ aggregator, Modifiers.RemoveModifiersBySource aggregator sourceId)
        <$> m_modifiers g.
Proof.
  intros Hreg Hfuel. unfold RemoveModifiersBySource.
  destruct (mark_targets_loop fuel g ((map_to_list (m_modifiers g)).*1)
              (store g) Hreg (dirtied_refl _) Hfuel) as (s & -> & Hd).
  simpl. eexists. split; [done|]. by split_and!.
Qed.

(** X19: equipping an item that is not equipped returns; every aggregator
    then holds, besides what it held, the item's modifiers for its stat
    (aggregators are created on demand, also for stats that do not
    exist), and the manager has the tags it had and the tags the item
    grants.  The registries are as before and nodes differ in raised
    dirty flags only.  Equipping an equipped item does nothing. *)
Theorem Item_Activate_spec fuel i m :
  ready fuel m →
  if Producers.m_isEquipped i
  then Producers.Item_Activate fuel i m = Some (i, m)
  else
    ∃ m', Producers.Item_Activate fuel i m
          = Some (Producers.set_isEquipped true i, m') ∧
      ready fuel m' ∧ restamped (core m) (core m') ∧
      (∀ statId,
         aggregator_at (core m') statId
         ≡ₚ aggregator_at (core m) statId
            ++ filter (λ x, Modifiers.m_targetStatId x = statId)
                      (Producers.m_modifiers i)) ∧
      ∀ t, HasTag m' t
           = HasTag m t || tag_among t (Producers.m_grantedTags i).
Proof.
  intros Hready. unfold Producers.Item_Activate.
  destruct (Producers.m_isEquipped i); [done|].
  pose proof Hready as (Hcb & Hreg & Hfuel).
  destruct (add_modifiers_spec fuel (Producers.m_modifiers i) m Hreg Hfuel)
    as (m1 & -> & Hr1 & Htags1 & _ & Hagg1). simpl.
  assert (ready fuel m1) as Hready1
    by (eapply restamped_ready; [done|by rewrite Htags1|done]).
  destruct (add_tags_spec fuel (Producers.m_grantedTags i) m1 Hready1)
    as (m2 & -> & Hready2 & Hr2 & Hm2 & _ & Ht2). simpl.
  exists m2. split; [done|]. split; [done|].
  split; [by eapply restamped_trans|]. split.
  - intros statId. unfold aggregator_at at 1. rewrite Hm2. apply Hagg1.
  - intros t. rewrite Ht2. unfold HasTag. by rewrite Htags1.
Qed.

(** X20: unequipping an equipped item returns; every aggregator loses
    exactly its modifiers whose source id is the item's id, and the
    manager loses every tag the item grants, whether or not something
    else had added the tag as well.  The pending-changes flag is set, the
    registries are as before and nodes differ in raised dirty flags only.
    Unequipping an item that is not equipped does nothing. *)
Theorem Item_Deactivate_spec fuel i m :
  ready fuel m →
  if Producers.m_isEquipped i
  then
    ∃ m', Producers.Item_Deactivate fuel i m
          = Some (Producers.set_isEquipped false i, m') ∧
      ready fuel m' ∧ restamped (core m) (core m') ∧
      m_hasChanges (core m') = true ∧
      m_modifiers (core m')
      = filter (λ x, Modifiers.m_sourceId x ≠ Producers.m_id i)
          <$> m_modifiers (core m) ∧
      ∀ t, HasTag m' t
           = HasTag m t && negb (tag_among t (Producers.m_grantedTags i))
  else Producers.Item_Deactivate fuel i m = Some (i, m).
Proof.
  intros Hready. unfold Producers.Item_Deactivate.
  destruct (Producers.m_isEquipped i); [simpl|done].
  pose proof Hready as (Hcb & Hreg & Hfuel).
  destruct (RemoveModifiersBySource_step fuel (core m) (Producers.m_id i)
              Hreg Hfuel) as (g1 & Hg1 & Hr1 & Hc1 & Hmods1).
  unfold on_core. rewrite Hg1. simpl.
  assert (ready fuel (set_core g1 m)) as Hready1
    by (eapply restamped_ready; [exact Hr1|done|done]).
  destruct (remove_tags_spec fuel (Producers.m_grantedTags i) _ Hready1)
    as (m2 & -> & Hready2 & Hr2 & Hm2 & Hc2 & Ht2). simpl.
  exists m2. split; [done|]. split; [done|].
  split; [by eapply restamped_trans|]. split; [by apply Hc2|].
  split; [by rewrite Hm2|]. intros t. by rewrite Ht2.
Qed.

Lemma record_if_present_spec fuel now historyId amount ty g :
  history_ok g →
  let ev := {| value := amount; timestamp := now; eventType := ty |} in
  ∃ g', Producers.record_if_present fuel now historyId amount ty g = Some g' ∧
    history_ok g' ∧
    m_hasChanges g' = m_hasChanges g ∧
    m_nodes g' = m_nodes g ∧ m_nodeOrder g' = m_nodeOrder g ∧
    m_historyNodes g' = m_historyNodes g ∧
    m_modifiers g' = m_modifiers g ∧
    preserves (λ n n', ∃ evs, n' = set_events evs n) (store g) (store g') ∧
    (∀ x n, store g !! x = Some n → last (events_of n) = Some ev →
            ∃ n', store g' !! x = Some n' ∧ last (events_of n') = Some ev) ∧
    (∀ a, m_historyNodes g !! historyId = Some a →
          ∃ n', store g' !! a = Some n' ∧ last (events_of n') = Some ev) ∧
    ∀ x, m_historyNodes g !! historyId ≠ Some x → store g' !! x = store g !! x.
Proof.
  intros Hhist ev. unfold Producers.record_if_present, GetHistoryNode.
  destruct (m_historyNodes g !! historyId) as [node|] eqn:Hnode.
  2:{ exists g. split_and!; try done; [|by eauto].
      intros x n Hx. exists n. split; [done|]. exists (events_of n).
      by rewrite set_events_same. }
  destruct (Hhist _ _ Hnode) as (n & Hn & [hp Hhp] & Hty & Hd).
  rewrite (RecordEvent_on_history fuel now _ _ _ amount ty Hn Hty Hd). simpl.
  fold ev. set (evs := pop_front_over MAX_EVENTS _).
  destruct (set_events_fields evs n) as (Hid & Hch & Hty' & Hd').
  assert (last (events_of (set_events evs n)) = Some ev) as Hlast.
  { unfold events_of at 1, set_events. rewrite Hhp. simpl.
    apply last_pop_front_over. unfold MAX_EVENTS. lia. }
  eexists. split; [done|]. simpl. split_and!; try done.
  - intros id a Ha. simpl. destruct (decide (a = node)) as [->|Hne].
    + exists (set_events evs n). rewrite lookup_insert_eq.
      split; [done|]. split; [|split; congruence].
      unfold set_events. rewrite Hhp. by eexists.
    + rewrite lookup_insert_ne by done. by eapply Hhist.
  - intros x nx Hx. destruct (decide (x = node)) as [->|Hne].
    + rewrite Hn in Hx. injection Hx as <-. exists (set_events evs n).
      rewrite lookup_insert_eq. split; [done|]. by exists evs.
    + rewrite lookup_insert_ne by done. exists nx. split; [done|].
      exists (events_of nx). by rewrite set_events_same.
  - intros x nx Hx Hl. destruct (decide (x = node)) as [->|Hne].
    + exists (set_events evs n). by rewrite lookup_insert_eq.
    + rewrite lookup_insert_ne by done. by exists nx.
  - intros a [= <-]. exists (set_events evs n). by rewrite lookup_insert_eq.
  - intros x Hx. rewrite lookup_insert_ne; [done|congruence].
Qed.

Lemma record_twice fuel now1 now2 id1 id2 amount ty g :
  history_ok g →
  ∃ g', (g1 ← Producers.record_if_present fuel now1 id1 amount ty g;
         g2 ← Producers.record_if_present fuel now2 id2 amount ty g1;
         Some (MarkChanged g2)) = Some g' ∧
    m_hasChanges g' = true ∧ history_ok g' ∧
    m_nodes g' = m_nodes g ∧ m_nodeOrder g' = m_nodeOrder g ∧
    m_historyNodes g' = m_historyNodes g ∧
    m_modifiers g' = m_modifiers g ∧
    preserves (λ n n', ∃ evs, n' = set_events evs n) (store g) (store g') ∧
    (∀ a, m_historyNodes g !! id2 = Some a →
          ∃ n', store g' !! a = Some n' ∧
                last (events_of n')
                = Some {| value := amount; timestamp := now2;
                          eventType := ty |}) ∧
    ∀ a, m_historyNodes g !! id1 = Some a →
         m_historyNodes g !! id2 ≠ Some a →
         ∃ n', store g' !! a = Some n' ∧
               last (events_of n')
               = Some {| value := amount; timestamp := now1;
                         eventType := ty |}.
Proof.
  intros Hhist.
  destruct (record_if_present_spec fuel now1 id1 amount ty g Hhist)
    as (g1 & -> & Hhist1 & Hc1 & Hn1 & Ho1 & Hh1 & Hm1 & Hp1 & _ & Hlast1 & _).
  simpl.
  destruct (record_if_present_spec fuel now2 id2 amount ty g1 Hhist1)
    as (g2 & -> & Hhist2 & Hc2 & Hn2 & Ho2 & Hh2 & Hm2 & Hp2 & _ & Hlast2
        & Hrest2).
  simpl.
  eexists. split; [done|]. simpl. split; [done|]. split; [exact Hhist2|].
  split_and!; try congruence.
  - intros x n Hx. destruct (Hp1 _ _ Hx) as (n1 & Hx1 & evs1 & ->).
    destruct (Hp2 _ _ Hx1) as (n2 & Hx2 & evs2 & ->).
    exists (set_events evs2 (set_events evs1 n)). split; [done|].
    exists evs2. apply set_events_twice.
  - intros a Ha. apply Hlast2. by rewrite Hh1.
  - intros a Ha Hne. destruct (Hlast1 _ Ha) as (n1 & Hx1 & Hl1).
    exists n1. split; [|done]. rewrite Hrest2; [done|]. by rewrite Hh1.
Qed.

(** X21: on a manager whose history registry is in order, [TakeDamage] and
    [DealDamage] return with any budget and set the pending-changes flag,
    also when neither history node exists.  The general node, where
    registered, has the event as its newest one, stamped with the second
    reading of the clock, and so has the typed node with the first
    reading; nothing but event deques changes: no dirty flag is raised, so
    no stat that reads a history node is invalidated. *)
Theorem CombatEvent_damage fuel typedNow generalNow g amount type :
  history_ok g →
  let ev (now : TimePoint) :=
    {| value := amount; timestamp := now;
       eventType := Producers.DamageTypeToString type |} in
  let recorded (event : option (GraphManager Env ModifierContext))
               (general : string) (suffix : string) :=
    ∃ g', event = Some g' ∧
      m_hasChanges g' = true ∧ history_ok g' ∧
      m_nodes g' = m_nodes g ∧ m_nodeOrder g' = m_nodeOrder g ∧
      m_historyNodes g' = m_historyNodes g ∧
      m_modifiers g' = m_modifiers g ∧
      preserves (λ n n', ∃ evs, n' = set_events evs n) (store g) (store g') ∧
      (∀ a, m_historyNodes g !! general = Some a →
            ∃ n', store g' !! a = Some n' ∧
                  last (events_of n') = Some (ev generalNow)) ∧
      ∀ a, m_historyNodes g
             !! (Producers.DamageTypeToString type +:+ suffix) = Some a →
           m_historyNodes g !! general ≠ Some a →
           ∃ n', store g' !! a = Some n' ∧
                 last (events_of n') = Some (ev typedNow) in
  recorded (Producers.TakeDamage fuel typedNow generalNow g amount type)
           "damageTaken" "DamageTaken" ∧
  recorded (Producers.DealDamage fuel typedNow generalNow g amount type)
           "damageDealt" "DamageDealt".
Proof.
  intros Hhist ev recorded.
  split; unfold recorded, Producers.TakeDamage, Producers.DealDamage;
    by apply record_twice.
Qed.

Lemma aggregator_at_removed g g' sourceId statId :
  m_modifiers g'
  = (λ aggregator, Modifiers.RemoveModifiersBySource aggregator sourceId)
      <$> m_modifiers g →
  aggregator_at g' statId
  = filter (λ x, Modifiers.m_sourceId x ≠ sourceId) (aggregator_at g statId).
Proof.
  intros Hm. unfold aggregator_at. rewrite Hm, lookup_fmap.
  by destruct (m_modifiers g !! statId).
Qed.

Lemma filter_own_source sourceId statId
    (mods : list (Modifiers.Modifier ModifierContext)) :
  Forall (λ x, Modifiers.m_sourceId x = sourceId) mods →
  filter (λ x, Modifiers.m_sourceId x ≠ sourceId)
         (filter (λ x, Modifiers.m_targetStatId x = statId) mods) = [].
Proof.
  induction 1 as [|x mods Hx _ IH]; [done|].
  rewrite filter_cons. case_decide; [|done].
  rewrite filter_cons. by case_decide.
Qed.

(** X22: equipping an item whose modifiers carry its id as source (as the
    item's own builders make them) and unequipping it again returns the
    item as it was; every aggregator then holds what it held before, less
    any modifier that already had the item's id as source, in some order;
    and the manager holds the tags it held before less the tags the item
    grants: a tag that was active before the item was equipped is gone. *)
Theorem Item_equip_unequip fuel i m :
  Producers.m_isEquipped i = false →
  Forall (λ x, Modifiers.m_sourceId x = Producers.m_id i)
         (Producers.m_modifiers i) →
  ready fuel m →
  ∃ i1 m1 m2,
    Producers.Item_Activate fuel i m = Some (i1, m1) ∧
    Producers.Item_Deactivate fuel i1 m1 = Some (i, m2) ∧
    (∀ statId,
       aggregator_at (core m2) statId
       ≡ₚ filter (λ x, Modifiers.m_sourceId x ≠ Producers.m_id i)
                 (aggregator_at (core m) statId)) ∧
    ∀ t, HasTag m2 t
         = HasTag m t && negb (tag_among t (Producers.m_grantedTags i)).
Proof.
  intros Heq Hsrc Hready. pose proof Hready as (Hcb & Hreg & Hfuel).
  destruct (add_modifiers_spec fuel (Producers.m_modifiers i) m Hreg Hfuel)
    as (m1 & Hadd & Hr1 & Htags1 & _ & Hagg1).
  assert (ready fuel m1) as Hready1
    by (eapply restamped_ready; [done|by rewrite Htags1|done]).
  destruct (add_tags_spec fuel (Producers.m_grantedTags i) m1 Hready1)
    as (m2 & Htag & Hready2 & Hr2 & Hm2 & _ & Ht2).
  pose proof Hready2 as (_ & Hreg2 & Hfuel2).
  destruct (RemoveModifiersBySource_step fuel (core m2) (Producers.m_id i)
              Hreg2 Hfuel2) as (g3 & Hg3 & Hr3 & Hc3 & Hmods3).
  assert (ready fuel (set_core g3 m2)) as Hready3
    by (eapply restamped_ready; [exact Hr3|done|done]).
  destruct (remove_tags_spec fuel (Producers.m_grantedTags i) _ Hready3)
    as (m4 & Huntag & Hready4 & Hr4 & Hm4 & _ & Ht4).
  exists (Producers.set_isEquipped true i), m2, m4.
  split.
  { unfold Producers.Item_Activate. rewrite Heq, Hadd. simpl.
    by rewrite Htag. }
  split.
  { unfold Producers.Item_Deactivate, on_core. simpl. rewrite Hg3. simpl.
    rewrite Huntag. simpl. f_equal. f_equal. destruct i. simpl in Heq.
    by subst. }
  simpl in Hm4, Ht4. split.
  - intros statId.
    assert (aggregator_at (core m4) statId = aggregator_at g3 statId) as ->
      by (unfold aggregator_at; by rewrite Hm4).
    rewrite (aggregator_at_removed _ _ _ _ Hmods3).
    assert (aggregator_at (core m2) statId = aggregator_at (core m1) statId)
      as -> by (unfold aggregator_at; by rewrite Hm2).
    rewrite Hagg1, filter_app, (filter_own_source _ _ _ Hsrc).
    by rewrite app_nil_r.
  - intros t. rewrite Ht4.
    assert (HasTag (set_core g3 m2) t = HasTag m2 t) as -> by done.
    rewrite Ht2.
    assert (HasTag m1 t = HasTag m t) as ->
      by (unfold HasTag; by rewrite Htags1).
    by destruct (HasTag m t), (tag_among t (Producers.m_grantedTags i)).
Qed.

(** X23: activating an inactive aura returns and stamps it with the clock
    reading; the manager then holds the tags it had and the aura's, and
    every aggregator holds, besides what it held, the aura's modifiers
    for its stat.  Deactivating an active aura returns, keeps the
    activation time, removes the aura's tags and, from every aggregator,
    the modifiers whose source id is the aura's id.  Activating an active
    aura and deactivating an inactive one do nothing. *)
Theorem Aura_Activate_Deactivate fuel now a m :
  ready fuel m →
  if Producers.a_isActive a
  then
    Producers.Aura_Activate fuel now a m = Some (a, m) ∧
    ∃ m', Producers.Aura_Deactivate fuel a m
          = Some (Producers.set_active false (Producers.a_activatedAt a) a,
                  m') ∧
      ready fuel m' ∧ restamped (core m) (core m') ∧
      m_hasChanges (core m') = true ∧
      m_modifiers (core m')
      = filter (λ x, Modifiers.m_sourceId x ≠ Producers.a_id a)
          <$> m_modifiers (core m) ∧
      ∀ t, HasTag m' t
           = HasTag m t && negb (tag_among t (Producers.a_grantedTags a))
  else
    Producers.Aura_Deactivate fuel a m = Some (a, m) ∧
    ∃ m', Producers.Aura_Activate fuel now a m
          = Some (Producers.set_active true now a, m') ∧
      ready fuel m' ∧ restamped (core m) (core m') ∧
      (∀ statId,
         aggregator_at (core m') statId
         ≡ₚ aggregator_at (core m) statId
            ++ filter (λ x, Modifiers.m_targetStatId x = statId)
                      (Producers.a_modifiers a)) ∧
      ∀ t, HasTag m' t
           = HasTag m t || tag_among t (Producers.a_grantedTags a).
Proof.
  intros Hready. unfold Producers.Aura_Activate, Producers.Aura_Deactivate.
  destruct (Producers.a_isActive a); simpl; (split; [done|]).
  - destruct (remove_tags_spec fuel (Producers.a_grantedTags a) m Hready)
      as (m1 & -> & Hready1 & Hr1 & Hm1 & _ & Ht1). simpl.
    pose proof Hready1 as (Hcb1 & Hreg1 & Hfuel1).
    destruct (RemoveModifiersBySource_step fuel (core m1) (Producers.a_id a)
                Hreg1 Hfuel1) as (g2 & Hg2 & Hr2 & Hc2 & Hmods2).
    unfold on_core. rewrite Hg2. simpl. eexists. split; [done|].
    split; [by eapply restamped_ready; [exact Hr2|done|done]|]. simpl.
    split; [by eapply restamped_trans|]. split; [done|].
    split; [by rewrite Hmods2, Hm1|]. done.
  - destruct (add_tags_spec fuel (Producers.a_grantedTags a) m Hready)
      as (m1 & -> & Hready1 & Hr1 & Hm1 & _ & Ht1). simpl.
    pose proof Hready1 as (Hcb1 & Hreg1 & Hfuel1).
    destruct (add_modifiers_spec fuel (Producers.a_modifiers a) m1 Hreg1 Hfuel1)
      as (m2 & -> & Hr2 & Htags2 & _ & Hagg2). simpl.
    exists m2. split; [done|].
    split; [by eapply restamped_ready; [done|by rewrite Htags2|done]|].
    split; [by eapply restamped_trans|]. split.
    + intros statId. rewrite Hagg2. unfold aggregator_at. by rewrite Hm1.
    + intros t. unfold HasTag. rewrite Htags2. apply Ht1.
Qed.

(** X24: a permanent aura (negative duration) never expires and reports an
    infinite remaining duration.  A timed aura that is not active, in
    particular one never activated, counts as expired; and whenever a
    timed aura has expired its remaining duration is zero. *)
Theorem Aura_expiry now a :
  (PrimFloat.ltb (Producers.a_duration a) 0 = true →
   Producers.HasExpired now a = false ∧
   Producers.GetRemainingDuration now a = infinity) ∧
  (PrimFloat.ltb (Producers.a_duration a) 0 = false →
   (Producers.a_isActive a = false → Producers.HasExpired now a = true) ∧
   (Producers.HasExpired now a = true →
    Producers.GetRemainingDuration now a = 0%float)).
Proof.
  unfold Producers.HasExpired, Producers.GetRemainingDuration.
  split; intros ->; [done|].
  destruct (Producers.a_isActive a); simpl; [|done].
  split; [done|]. intros Hlt. by rewrite (ltb_asym _ _ Hlt).
Qed.

End ProducerFacts.

End ProducersFacts.

(** ** Creating nodes through the manager *)

Section Creation.
Context {Env ModifierContext : Type}.
Implicit Types (g : GraphManager Env ModifierContext).
Implicit Types (h : gmap addr (StatNode Env)) (n : StatNode Env).

(** X25: with an id that is free, [CreateBaseStat] returns a new node that
    [GetNode] finds under the id, appends the id to the registration
    order, sets the pending-changes flag and leaves every other
    registration and node as it was; a pull of the new node returns the
    base value.  With an id that is taken it throws and the registry, the
    order, the flag and every node are as before. *)
Theorem CreateBaseStat_registers g id label v cat :
  match m_nodes g !! id with
  | None =>
      ∃ node g' n,
        CreateBaseStat g id label v cat = Returns node g' ∧
        store g !! node = None ∧
        store g' = <[node := n]> (store g) ∧
        m_id n = id ∧ m_type n = Base ∧ m_baseValue n = v ∧
        m_nodes g' = <[id := node]> (m_nodes g) ∧
        GetNode g' id = Some node ∧
        m_nodeOrder g' = m_nodeOrder g ++ [id] ∧
        m_hasChanges g' = true ∧
        ∀ fuel now env,
          GetValue (S fuel) now env (store g') node = Some (v, store g', [])
  | Some _ =>
      ∃ what g',
        CreateBaseStat g id label v cat = Throws what g' ∧
        m_nodes g' = m_nodes g ∧ m_nodeOrder g' = m_nodeOrder g ∧
        m_hasChanges g' = m_hasChanges g ∧
        ∀ x nx, store g !! x = Some nx → store g' !! x = Some nx
  end.
Proof.
  unfold CreateBaseStat, make_shared, RegisterNode. simpl.
  rewrite lookup_insert_eq.
  set (n := if bool_decide (cat ≠ ""%string) then _ else _).
  assert (m_id n = id ∧ m_type n = Base ∧ m_baseValue n = v)
    as (Hid & Hty & Hv) by (unfold n; by case_bool_decide).
  rewrite Hid. destruct (m_nodes g !! id) as [old|] eqn:Hold.
  - do 2 eexists. split; [done|]. simpl. split_and!; try done.
    intros x nx Hx. rewrite lookup_insert_ne; [done|].
    intros <-. by rewrite fresh_store_None in Hx.
  - exists (fresh (dom (store g))). eexists. exists n.
    split; [done|]. simpl. split; [apply fresh_store_None|].
    split_and!; try done. { unfold GetNode. simpl. apply lookup_insert_eq. }
    intros fuel now env. rewrite <- Hv. apply GetValue_source.
    + apply lookup_insert_eq.
    + unfold is_source. rewrite Hty. by rewrite bool_decide_eq_true_2.
Qed.

(** X26: with an id that is free, [CreateHistoryNode] returns a new node of
    type History with an empty deque, found by both [GetNode] and
    [GetHistoryNode].  With an id that is taken it throws and [GetNode]
    answers as before, yet [GetHistoryNode] now answers with the new node:
    events recorded under that id from then on go to a node that no
    registered stat reads. *)
Theorem CreateHistoryNode_registers now g id label w cat :
  ∃ node n,
    store g !! node = None ∧
    store (left_behind (CreateHistoryNode now g id label w cat))
    = <[node := n]> (store g) ∧
    GetHistoryNode (left_behind (CreateHistoryNode now g id label w cat)) id
    = Some node ∧
    m_id n = id ∧ m_type n = History ∧ m_isDirty n = true ∧
    events_of n = [] ∧ GetDefaultWindow n = w ∧
    match m_nodes g !! id with
    | None =>
        ∃ g', CreateHistoryNode now g id label w cat = Returns node g' ∧
              GetNode g' id = Some node ∧
              m_nodeOrder g' = m_nodeOrder g ++ [id] ∧
              m_hasChanges g' = true
    | Some old =>
        ∃ what g', CreateHistoryNode now g id label w cat = Throws what g' ∧
                   m_nodes g' = m_nodes g ∧
                   m_nodeOrder g' = m_nodeOrder g ∧
                   m_hasChanges g' = m_hasChanges g
    end.
Proof.
  unfold CreateHistoryNode, make_shared, RegisterNode. simpl.
  rewrite lookup_insert_eq.
  set (n := set_type History _).
  assert (m_id n = id ∧ m_type n = History ∧ m_isDirty n = true ∧
          events_of n = [] ∧ GetDefaultWindow n = w)
    as (Hid & Hty & Hd & Hev & Hw) by (unfold n; by case_bool_decide).
  rewrite Hid. exists (fresh (dom (store g))), n.
  split; [apply fresh_store_None|].
  destruct (m_nodes g !! id) as [old|] eqn:Hold; simpl.
  - split; [done|]. split; [apply lookup_insert_eq|].
    split_and!; try done. do 2 eexists. split; [done|]. simpl.
    by split_and!.
  - split; [done|]. split; [apply lookup_insert_eq|].
    split_and!; try done. eexists. split; [done|]. simpl.
    split_and!; try done. unfold GetNode. simpl. apply lookup_insert_eq.
Qed.

End Creation.

(** ** The order of tag names *)

Lemma Ascii_compare_refl a : Ascii.compare a a = Eq.
Proof. unfold Ascii.compare. apply N.compare_refl. Qed.

Lemma String_compare_refl s : String.compare s s = Eq.
Proof.
  induction s as [|a s IH]; [done|]. simpl. by rewrite Ascii_compare_refl.
Qed.

Lemma String_compare_trans : ∀ x y z,
  String.compare x y = Lt → String.compare y z = Lt → String.compare x z = Lt.
Proof.
  induction x as [|a x IH]; intros [|b y] [|c z]; simpl; try done.
  destruct (Ascii.compare a b) eqn:Eab; [| |done].
  - apply Ascii.compare_eq_iff in Eab as ->.
    destruct (Ascii.compare b c); [apply IH|done|done].
  - destruct (Ascii.compare b c) eqn:Ebc; [| |done].
    + apply Ascii.compare_eq_iff in Ebc as ->. by rewrite Eab.
    + assert (Ascii.compare a c = Lt) as ->; [|done].
      unfold Ascii.compare in *. rewrite N.compare_lt_iff in *.
      by etrans.
Qed.

Lemma String_ltb_swo : StrictWeakOrder String.ltb.
Proof.
  assert (∀ x y, String.ltb x y = true ↔ String.compare x y = Lt) as Hlt.
  { intros x y. unfold String.ltb. by destruct (String.compare x y). }
  split.
  - intros x. unfold String.ltb. by rewrite String_compare_refl.
  - intros x y z. rewrite !Hlt. apply String_compare_trans.
  - intros x y z Hxy Hyz. apply not_true_is_false. rewrite Hlt. intros Hxz.
    apply not_true_iff_false in Hxy, Hyz. rewrite Hlt in Hxy, Hyz.
    destruct (String.compare y x) eqn:Eyx.
    + apply String.compare_eq_iff in Eyx as ->. done.
    + apply Hyz. by eapply String_compare_trans.
    + apply Hxy. rewrite String.compare_antisym, Eyx. done.
Qed.

Module TagNamesFacts.
Import GameplayTags.

Section TagNames.
Context `{StdSortSpec} `{StdHash}.

(** X27: with a sorting routine that meets the contract of [std::sort],
    [GetAllTagNames] lists the name of every tag of the container exactly
    once (as many names as [Count] says) in ascending order of
    [std::string]. *)
Theorem GetAllTagNames_sorted (tags : gmap N GameplayTag) :
  sorted_by String.ltb (GetAllTagNames tags) ∧
  GetAllTagNames tags ≡ₚ m_name <$> GetAllTags tags ∧
  length (GetAllTagNames tags) = Count tags ∧
  ∀ name, name ∈ GetAllTagNames tags
          ↔ ∃ tag, tag ∈ GetAllTags tags ∧ m_name tag = name.
Proof.
  unfold GetAllTagNames.
  pose proof (std_sort_perm String.ltb (m_name <$> GetAllTags tags)) as Hperm.
  split; [apply std_sort_sorted, String_ltb_swo|]. split; [done|].
  split.
  { rewrite Hperm. unfold GetAllTags, Count.
    by rewrite !length_fmap, length_map_to_list. }
  intros name. rewrite Hperm, list_elem_of_fmap.
  split; [intros (tag & -> & Hin)|intros (tag & Hin & <-)]; by exists tag.
Qed.

End TagNames.

End TagNamesFacts.

(** ** Recording an event *)

Section Recording.
Context {Env : Type}.
Implicit Types (h : gmap addr (StatNode Env)) (n : StatNode Env).

(** X28: on a node with a [HistoryStatNode] part and with enough budget,
    [RecordEvent] returns; the node then holds at most [MAX_EVENTS]
    events, namely the newest end of its old deque followed by the new
    event, so [GetLastEventTime] is the clock reading; the node is dirty,
    every other node is as before up to raised dirty flags. *)
Theorem RecordEvent_keeps_newest fuel now h a n v ty :
  h !! a = Some n → is_Some (m_history n) → clean_count h ≤ fuel →
  let ev := {| value := v; timestamp := now; eventType := ty |} in
  ∃ h' n',
    RecordEvent fuel now h a v ty = Some h' ∧
    h' !! a = Some n' ∧
    GetEventCount n' ≤ MAX_EVENTS ∧
    events_of n'
    = drop (length (events_of n ++ [ev]) - MAX_EVENTS) (events_of n ++ [ev]) ∧
    GetLastEventTime (events_of n') = Some now ∧
    m_isDirty n' = true ∧
    ∀ x nx, x ≠ a → h !! x = Some nx →
            ∃ nx', h' !! x = Some nx' ∧
                   (nx' = nx ∨ nx' = set_isDirty true nx).
Proof.
  intros Ha Hhist Hfuel ev.
  set (evs := pop_front_over MAX_EVENTS (events_of n ++ [ev])).
  destruct (MarkDirty_total fuel (<[a := set_events evs n]> h) a)
    as [h' Hmark].
  { rewrite lookup_insert_eq. by eexists. }
  { rewrite (clean_count_insert_same h a n); [done..|].
    by destruct (set_events_fields evs n) as (_ & _ & _ & ->). }
  assert (RecordEvent fuel now h a v ty = Some h') as Hrec.
  { unfold RecordEvent. rewrite Ha. simpl. exact Hmark. }
  destruct (RecordEvent_bounded fuel now h a n v ty h' Ha Hhist Hrec)
    as (n' & Hn' & Hcount & Hevs).
  exists h', n'. split; [done|]. split; [done|]. split; [done|].
  split; [done|]. split.
  { simpl in Hevs. rewrite Hevs, <- pop_front_over_drop.
    unfold GetLastEventTime.
    rewrite last_pop_front_over by (unfold MAX_EVENTS; lia). done. }
  split.
  { destruct (MarkDirty_marks _ _ _ _ Hmark) as (n0 & Hn0 & Hd0).
    congruence. }
  intros x nx Hne Hx.
  pose proof (MarkDirty_dirtied _ _ _ _ Hmark) as Hd.
  destruct (dirtied_lookup_fwd _ _ x nx Hd) as (nx' & Hx' & _ & Hcase).
  { by rewrite lookup_insert_ne. }
  exists nx'. split; [done|]. destruct Hcase as [->|[_ ->]]; auto.
Qed.

End Recording.

(** ** The theorems at work on the scenarios *)

(** The doubling node: its first pull hands the 10 its parent shows to the
    function, which runs once, and returns 20; every later pull returns
    the cached 20 and runs nothing. *)
Lemma GetValue_lazy_witness :
  ∃ h2, GetValue 2 (at_time 0) tt doubling_graph 1
        = Some (20%float, h2, [] ++ [1]) ∧
        h2 !! 1 = (set_isDirty false ∘ set_cachedValue 20)
                    <$> doubling_graph !! 1 ∧
        ∀ fuel', GetValue (S fuel') (at_time 0) tt h2 1
                 = Some (20%float, h2, []).
Proof.
  destruct (GetValue_lazy 1 1 (at_time 0) tt doubling_graph 1 _
              (λ parents, (nth 0 parents 0 * 2)%float)
              eq_refl eq_refl eq_refl eq_refl eq_refl (le_n 1))
    as (vs & h1 & tr & n1 & h2 & _ & Hn1 & -> & Hget & Hshown & _ & Hagain).
  destruct Hshown as (-> & -> & ->).
  { intros p np Hin Hp. vm_compute in Hin.
    apply list_elem_of_singleton in Hin as ->.
    vm_compute in Hp. by injection Hp as <-. }
  vm_compute in Hn1. injection Hn1 as <-.
  eexists. split; [exact Hget|]. split; [by vm_compute|exact Hagain].
Defined.

(** The conditional graph with the predicate true: the default sum is taken
    over the 100 that [base] shows followed by the 50 that [bonus] shows. *)
Lemma conditional_parent_contribution_witness :
  ∃ h' tr,
    GetValue 2 (at_time 0) true (default ∅ conditional_graph) 2
    = Some (sum_values [100; 50]%float, h', tr).
Proof.
  destruct (proj2 conditional_parent_contribution bool 1 1 (at_time 0) true
              (default ∅ conditional_graph) 2 _
              eq_refl eq_refl eq_refl eq_refl (le_n 1))
    as (vs & h1 & tr & h' & _ & Hget & Hshown & _).
  rewrite Hshown in Hget.
  - exists h', (tr ++ []). exact Hget.
  - intros p np Hin Hp. vm_compute in Hin.
    apply elem_of_cons in Hin as [->|Hin];
      [|apply list_elem_of_singleton in Hin as ->];
      vm_compute in Hp; by injection Hp as <-.
Defined.

(** The bonus edge without a predicate: listed as active by
    [GetEdgeStates], while the pull returns 100, the value of [base]
    alone. *)
Lemma null_condition_edge_witness :
  let g := default ∅ null_condition_graph in
  {| fromId := "bonus"; toId := "derived"; isActive := true;
     isConditional := true; condition := "no predicate" |}
    ∈ GetEdgeStates true g (default (new_StatNode "" "" 0 Base) (g !! 2)) ∧
  (λ r, r.1.1) <$> GetValue 2 (at_time 0) true g 2 = Some 100%float.
Proof.
  intros g.
  set (n := default (new_StatNode "" "" 0 Base) (g !! 2)).
  set (cp := {| cp_node := 1; cp_condition := None;
                cp_conditionDesc := "no predicate"; cp_lastActive := true |}
             : ConditionalParent bool).
  assert (g !! 2 = Some n) as Hn by by vm_compute.
  assert (m_conditionalParents n = [] ++ cp :: []) as Hcps by by vm_compute.
  set (parent := set_children [2] (new_StatNode "bonus" "Bonus" 50 Base)
                 : StatNode bool).
  assert (g !! cp_node cp = Some parent) as Hparent by by vm_compute.
  destruct (null_condition_edge (at_time 0) true g 2 n [] cp [] parent
              Hn Hcps eq_refl Hparent) as [Hvalue Hedge].
  split; [exact Hedge|]. rewrite (Hvalue 1). by vm_compute.
Defined.

(** In the fully pulled conditional graph [MarkDirty] on [base] marks its
    dependent [derived] and leaves [bonus] as it was. *)
Lemma MarkDirty_dirty_set_witness :
  ∃ h', MarkDirty 3 conditional_pulled 0 = Some h' ∧
        h' !! 2 = set_isDirty true <$> conditional_pulled !! 2 ∧
        h' !! 1 = conditional_pulled !! 1.
Proof.
  destruct (proj2 (MarkDirty_dirty_set 3 conditional_pulled 0 _ eq_refl))
    as (h' & Hmark & _ & Hset).
  { apply dirty_closedb_sound. by vm_compute. }
  { vm_compute. lia. }
  exists h'. split; [exact Hmark|]. split.
  - destruct (Hset 2 _ eq_refl) as [Hin _]. rewrite Hin; [done|].
    right. apply tc_once. eexists. split; [reflexivity|].
    split; [|by eexists]. vm_compute. apply list_elem_of_here.
  - destruct (Hset 1 _ eq_refl) as [_ Hout]. rewrite Hout; [done|].
    intros [[=]|Hreach]. apply tc_rtc_r with (z := 1) in Hreach; [|done].
    clear -Hreach. unfold descendant in Hreach.
    assert (∀ s t, tc (child_edge conditional_pulled) s t → t ≠ 1) as Hno.
    { induction 1 as [s t (ns & Hs & Hin & _)|]; [|done].
      intros ->. apply map_to_list_In in Hs. vm_compute in Hs.
      destruct Hs as [[= <- <-]|[[= <- <-]|[[= <- <-]|[]]]];
        vm_compute in Hin; by repeat (apply elem_of_cons in Hin as [[=]|Hin]);
        try by apply elem_of_nil in Hin. }
    by eapply Hno.
Defined.

(** C6, as stated, fails: after the regraft node 1 is dirty and its child,
    node 2, is clean; [MarkDirty] on node 1 changes nothing, so node 2, a
    transitive dependent of node 1, is not in the dirty set. *)
Lemma MarkDirty_dirty_skips_descendant :
  ∃ h n1 n2,
    regraft_graph = Some h ∧
    h !! 1 = Some n1 ∧ m_isDirty n1 = true ∧ 2 ∈ m_children n1 ∧
    MarkDirty 4 h 1 = Some h ∧
    h !! 2 = Some n2 ∧ m_isDirty n2 = false.
Proof.
  vm_compute. do 3 eexists. split; [reflexivity|].
  split; [reflexivity|]. split; [reflexivity|].
  split; [apply list_elem_of_here|]. split; [reflexivity|].
  split; reflexivity.
Qed.

(** C4, as stated, fails: in the chain, after [C] was pulled while its
    edge was inactive, [SetBaseValue] on [A] stops at the dirty [B]; the
    Derived node [C], reachable from [A] through child edges, is still
    clean afterwards. *)
Lemma SetBaseValue_skips_descendant :
  ∃ h' nA nB nC,
    SetBaseValue 4 chain_pulled 0 20 = Some h' ∧
    chain_pulled !! 0 = Some nA ∧ m_type nA = Base ∧
    m_baseValue nA = 10%float ∧ 1 ∈ m_children nA ∧
    chain_pulled !! 1 = Some nB ∧ 2 ∈ m_children nB ∧
    h' !! 2 = Some nC ∧ m_type nC = Derived ∧ m_isDirty nC = false.
Proof.
  vm_compute. do 4 eexists. split; [reflexivity|].
  split; [reflexivity|]. split; [reflexivity|]. split; [reflexivity|].
  split; [apply list_elem_of_here|]. split; [reflexivity|].
  split; [apply list_elem_of_here|]. split; [reflexivity|].
  split; reflexivity.
Qed.

(** In the conditional graph after its first pull, where every node is
    clean, [base] is set to 120: [derived] is marked dirty and changes in
    nothing else, [bonus], no dependent of [base], is as it was, and the
    next pull of [derived] returns 120, its value computed from scratch. *)
Lemma SetBaseValue_push_witness :
  ∃ h' hx tr,
    SetBaseValue 4 conditional_pulled 0 120 = Some h' ∧
    flag_at conditional_pulled 2 false ∧
    h' !! 2 = set_isDirty true <$> conditional_pulled !! 2 ∧
    h' !! 1 = conditional_pulled !! 1 ∧
    GetValue 2 (at_time 0) false h' 2 = Some (120%float, hx, tr) ∧
    eval 2 (at_time 0) false h' 2 = Some 120%float.
Proof.
  destruct (proj2 (SetBaseValue_push 4 conditional_pulled 0 _ 120%float
                     eq_refl eq_refl ltac:(vm_compute; lia)) eq_refl)
    as (h' & Hset & _ & _ & _ & _ & Hmarked & Hkept & Hpull).
  assert (flag_at conditional_pulled 2 false) as Hclean
    by (eexists; split; [by vm_compute|done]).
  assert (clean_descendant conditional_pulled 0 2) as Hreach.
  { apply tc_once. split; [|done]. eexists. split; [reflexivity|].
    split; [|by eexists]. vm_compute. apply list_elem_of_here. }
  assert (¬ clean_descendant conditional_pulled 0 1) as Hnot.
  { intros Hbad%clean_descendant_descendant.
    assert (∀ s t, tc (child_edge conditional_pulled) s t → t ≠ 1) as Hno.
    { induction 1 as [s t (ns & Hs & Hin & _)|]; [|done].
      intros ->. apply map_to_list_In in Hs. vm_compute in Hs.
      destruct Hs as [[= <- <-]|[[= <- <-]|[[= <- <-]|[]]]];
        vm_compute in Hin; by repeat (apply elem_of_cons in Hin as [[=]|Hin]);
        try by apply elem_of_nil in Hin. }
    by eapply Hno. }
  destruct (Hpull (at_time 0) false) as [_ Hfresh].
  { apply coherentb_sound. by vm_compute. }
  { apply wf_edgesb_sound. by vm_compute. }
  destruct (Hfresh 2 2 2 ltac:(by vm_compute in Hset; injection Hset as <-)
              (le_n 2)) as (r & hx & tr & Hget & Hev).
  destruct (conditional_pulled !! 2) as [n2|] eqn:Hn2; [|by vm_compute in Hn2].
  destruct (conditional_pulled !! 1) as [n1|] eqn:Hn1; [|by vm_compute in Hn1].
  assert (eval 2 (at_time 0) false h' 2 = Some 120%float) as Hev'
    by (vm_compute in Hset; injection Hset as <-; by vm_compute).
  rewrite Hev' in Hev. injection Hev as <-.
  exists h', hx, tr. split; [exact Hset|]. split; [done|].
  split; [by apply Hmarked|]. split; [by apply Hkept|]. by split.
Defined.


(** The four not-found operations on the equipped manager, after a
    [HasChanges()] call has reset the pending-changes flag. *)
Lemma not_found_operations_witness :
  let g := (HasChanges (default new_GraphManager equipped_manager)).2 in
  m_hasChanges g = false ∧
  SetNodeValue 2 g "mana" 5 = Some (false, g) ∧
  RecordDamage 2 0 g "damageTaken" 5 "Fire" = Some g ∧
  RemoveModifier g "boots_flat" = set_hasChanges true g ∧
  ∃ s, RemoveModifiersBySource 2 g "boots"
       = Some (set_hasChanges true (set_store s g)) ∧
       flag_at s 0 true.
Proof.
  intros g.
  assert (m_modifiers g
          = {[ "health"%string :=
                 [Modifiers.WithSource "ring"
                    (Modifiers.new_Modifier "ring_flat" "health"
                       Modifiers.Flat 10 "+10 health")] ]}) as Hmods
    by by vm_compute.
  destruct (not_found_operations 2 0%Z g)
    as (Hset & Hrecord & Hremove & Hsource).
  split; [done|]. split; [by apply Hset|]. split; [by apply Hrecord|].
  split.
  - apply Hremove. intros statId aggregator m. rewrite Hmods.
    intros [_ <-]%lookup_singleton_Some ->%list_elem_of_singleton. done.
  - destruct (Hsource "boots"%string) as (s & Hrun & _ & Hflag).
    + intros statId aggregator m. rewrite Hmods.
      intros [_ <-]%lookup_singleton_Some ->%list_elem_of_singleton. done.
    + intros id a. replace (m_nodes g) with ({[ "health"%string := 0 ]}
                                             : gmap string addr)
        by by vm_compute.
      intros [_ <-]%lookup_singleton_Some. by eexists.
    + vm_compute. lia.
    + exists s. split; [exact Hrun|].
      apply (Hflag "health"%string); [rewrite Hmods; by eexists|done].
Defined.

(** ** The theorems on the manager, the tags and the producers at work *)

(** Cleaning the three events up ten seconds after the epoch with a
    maximum age of 3 drops a prefix of events that are all older than 3
    seconds. *)
Lemma CleanupOldEvents_spec_witness :
  ∃ k, events_of (CleanupOldEvents 10000000000 3 ledger_node)
       = drop k three_events ∧
       ∀ e, e ∈ take k three_events →
            PrimFloat.ltb 3 (GetAge 10000000000 e) = true.
Proof.
  destruct (CleanupOldEvents_spec 10000000000 3 ledger_node _ eq_refl)
    as (k & Heq & Hold & _).
  exists k. split; [by rewrite Heq|exact Hold].
Defined.


(** The first pull of the doubling node returns 20 and changes caches
    only; the same pull again returns 20, changes nothing and runs no
    calculation function. *)
Lemma GetValue_touches_caches_only_witness :
  ∃ h', GetValue 2 (at_time 0) tt doubling_graph 1
        = Some (20%float, h', [1]) ∧
        recached doubling_graph h' ∧ keeps_settled doubling_graph h' ∧
        ∀ fuel', GetValue (S fuel') (at_time 0) tt h' 1
                 = Some (20%float, h', []).
Proof.
  assert (∃ h', GetValue 2 (at_time 0) tt doubling_graph 1
                = Some (20%float, h', [1]))
    as [h' Hget] by (vm_compute; by eexists).
  destruct (GetValue_touches_caches_only 2 (at_time 0) tt doubling_graph 1
              20%float h' [1] Hget) as (Hr & Hk & _ & Hagain).
  by exists h'.
Defined.

(** The doubling node, pulled in the freshly built graph, returns the
    value computed from scratch, 20. *)
Lemma GetValue_from_scratch_witness :
  ∃ h' tr, GetValue 2 (at_time 0) tt doubling_graph 1
           = Some (20%float, h', tr) ∧
           eval 2 (at_time 0) tt doubling_graph 1 = Some 20%float ∧
           coherent (at_time 0) tt h'.
Proof.
  destruct (GetValue_from_scratch 2 2 (at_time 0) tt doubling_graph 1)
    as (v & h' & tr & Hget & Hev & Hco & _).
  { apply coherentb_sound. by vm_compute. }
  { by vm_compute. }
  { lia. }
  vm_compute in Hev. injection Hev as <-.
  exists h', tr. split; [exact Hget|]. split; [by vm_compute|exact Hco].
Defined.

(** The history node of the manager: dirty, of type History, and an event
    recorded on it changes its deque only. *)
Lemma History_node_never_propagates_witness :
  ∃ n, store managed_ledger !! 0 = Some n ∧
       m_type n = History ∧ m_isDirty n = true ∧
       ∀ fuel now v ty,
         RecordEvent fuel now (store managed_ledger) 0 v ty
         = Some (<[0 := set_events
                          (pop_front_over MAX_EVENTS
                             (events_of n
                              ++ [{| value := v; timestamp := now;
                                     eventType := ty |}])) n]>
                   (store managed_ledger)).
Proof.
  destruct (History_node_never_propagates 0%Z
              (new_GraphManager (Env := unit)
                 (ModifierContext := Contexts.ModifierContext))
              "damageTaken" "Total DMG Taken" 4%float "defense"
              0 managed_ledger (store managed_ledger))
    as (n & Hn & Hty & Hd & _ & Hrec).
  { by vm_compute. }
  { apply rtc_refl. }
  by exists n.
Defined.

(** Ticking the manager's history node five seconds after the epoch
    reports no change. *)
Lemma Tick_History_node_witness :
  ∃ h', Tick 1 5000000000 5000000001 (at_time 5000000002) tt
             (store managed_ledger) 0 10 = Some (false, h').
Proof.
  set (n := default (new_StatNode "" "" 0 Base) (store managed_ledger !! 0)).
  eexists.
  apply (Tick_History_node 1 5000000000 5000000001 (at_time 5000000002) tt
           (store managed_ledger) 0 n
           {| m_events := []; m_defaultWindow := 4; m_lastCleanup := 0 |}
           10%float); try (by vm_compute).
Defined.

(** Ticking the directly constructed ledger ten seconds after the epoch
    with a maximum age of 3: the two old events are dropped, the node is
    left clean with the value 4 of the event that remains, and a change is
    reported. *)
Lemma Tick_ledger_witness :
  ∃ h' n',
    Tick 1 10000000000 10000000001 (at_time 10000000002) tt ledger_store 0 3
    = Some (true, h') ∧
    h' !! 0 = Some n' ∧ m_isDirty n' = false ∧
    m_cachedValue n' = 4%float ∧
    events_of n'
    = [ {| value := 4; timestamp := 9000000000; eventType := "Fire" |} ].
Proof.
  destruct (Tick_ledger 0 1 10000000000 10000000001 (at_time 10000000002) tt
              ledger_store 0 ledger_node
              {| m_events := three_events; m_defaultWindow := DEFAULT_WINDOW;
                 m_lastCleanup := 0 |} 3%float)
    as (h' & n' & Htick & Hn' & Hd & Hc & Hev);
    try (by vm_compute); try lia.
  { vm_compute. lia. }
  exists h', n'. split; [rewrite Htick; by vm_compute|].
  split; [done|]. split; [done|].
  split; [rewrite Hc; by vm_compute|rewrite Hev; by vm_compute].
Defined.

(** An event of 8 recorded on the ledger ten seconds after the epoch,
    without any budget: the deque stays within bounds and the last event
    time is that reading. *)
Lemma RecordEvent_keeps_newest_witness :
  ∃ h' n',
    RecordEvent 0 10000000000 ledger_store 0 8 "Fire" = Some h' ∧
    h' !! 0 = Some n' ∧
    GetEventCount n' ≤ MAX_EVENTS ∧
    GetLastEventTime (events_of n') = Some 10000000000%Z.
Proof.
  destruct (RecordEvent_keeps_newest 0 10000000000 ledger_store 0 ledger_node
              8%float "Fire")
    as (h' & n' & Hrec & Hn' & Hcount & _ & Hlast & _).
  { by vm_compute. }
  { by eexists. }
  { vm_compute. lia. }
  by exists h', n'.
Defined.

(** The combat manager is built by four calls of the manager's methods. *)
Lemma combat_core_steps : rtc manager_step new_GraphManager combat_core.
Proof.
  eapply rtc_l;
    [exact (mstep_CreateBaseStat _ "strength" "Strength" 10 "attributes")|].
  eapply rtc_l;
    [exact (mstep_CreateHistoryNode _ 0 "damageTaken" "Total DMG Taken" 4
              "defense")|].
  destruct combat_graph as [o|] eqn:Hgraph; [|by vm_compute in Hgraph].
  assert (is_Some (AddModifier 4 (left_behind o) sword_mastery)) as [g Hg].
  { revert Hgraph. vm_compute. intros [= <-]. by eexists. }
  assert (combat_core = g) as ->
    by (unfold combat_core; by rewrite Hgraph; simpl; rewrite Hg).
  unfold combat_graph in Hgraph.
  eapply rtc_l; [exact (mstep_CreateDerivedStat _ _ _ _ _ _ o Hgraph)|].
  eapply rtc_l; [|apply rtc_refl].
  exact (mstep_AddModifier _ 4 sword_mastery g Hg).
Qed.

Lemma combat_core_ok : manager_ok combat_core.
Proof. apply manager_steps_ok, combat_core_steps. Qed.

Lemma combat_manager_ready : ready 4 combat_manager.
Proof.
  split; [done|]. split; [apply combat_core_ok|]. vm_compute. lia.
Qed.


(** The sweep over the combat manager returns and leaves [power], which
    has an aggregator, dirty. *)
Lemma MarkAllConditionalNodesDirty_spec_witness :
  ∃ s, MarkAllConditionalNodesDirty 4 combat_core
       = Some (set_store s combat_core) ∧
       dirtied (store combat_core) s ∧ flag_at s 2 true.
Proof.
  destruct (MarkAllConditionalNodesDirty_spec 4 combat_core)
    as (s & Hsweep & Hd & Hflag).
  { apply combat_core_ok. }
  { vm_compute. lia. }
  exists s. split; [exact Hsweep|]. split; [exact Hd|].
  destruct (store combat_core !! 2) as [n|] eqn:Hn; [|by vm_compute in Hn].
  apply (Hflag "power"%string 2 n); [by vm_compute|exact Hn|].
  right. vm_compute. by eexists.
Defined.

(** A tick of the combat manager five seconds after the epoch, after
    [HasChanges] has reset the flag: no tracker is recent and the history
    node reports nothing, so the flag stays down. *)
Lemma Manager_Tick_ignores_history_witness :
  let m := Managers.set_core (HasChanges combat_core).2 combat_manager in
  let t := 5000000000%Z in
  ∃ m', Managers.Tick 1 (λ _, t) (λ _, t + 1)%Z (λ _, at_time (t + 2)%Z)
          (t + 3)%Z (t + 4)%Z (t + 5)%Z (t + 6)%Z tt m = Some m' ∧
        m_hasChanges (Managers.core m') = false ∧
        Managers.m_lastTick m' = 5000000006%Z.
Proof.
  intros m t.
  destruct (ManagersFacts.Manager_Tick_ignores_history 1
              (λ _, t) (λ _, t + 1)%Z (λ _, at_time (t + 2)%Z)
              (t + 3)%Z (t + 4)%Z (t + 5)%Z (t + 6)%Z tt m)
    as (m' & Htick & Hflag & Hlast & _).
  { intros id a Ha. by apply (proj1 (proj2 combat_core_ok) id a). }
  { lia. }
  exists m'. split; [exact Htick|]. split; [|exact Hlast].
  rewrite Hflag. by vm_compute.
Defined.

(** Recalculating the combat manager returns and leaves [power]
    settled. *)
Lemma Recalculate_settles_witness :
  ∃ m' n, Managers.Recalculate 2 (λ _, at_time 0) tt combat_manager
          = Some m' ∧
          store (Managers.core m') !! 2 = Some n ∧ settled n = true.
Proof.
  destruct (ManagersFacts.Recalculate_settles 2 (λ _, at_time 0) tt
              combat_manager 2)
    as (m' & Hrun & _ & Hsettled & _ & Hnodes & _).
  { apply combat_core_ok. }
  { intros id a Ha. apply elem_of_map_to_list in Ha. revert Ha.
    vm_compute (map_to_list _).
    intros Hin.
    apply elem_of_cons in Hin as [[= -> ->]|Hin]; [by vm_compute|].
    apply elem_of_cons in Hin as [[= -> ->]|Hin]; [by vm_compute|].
    apply elem_of_cons in Hin as [[= -> ->]|Hin]; [by vm_compute|].
    by apply elem_of_nil in Hin. }
  { lia. }
  destruct (Hsettled "power"%string 2) as (n & Hn & Hs).
  { rewrite Hnodes. by vm_compute. }
  exists m', n. split; [exact Hrun|]. split; [exact Hn|exact Hs].
Defined.

(** Adding [Weapon.Sword] to the combat manager, which does not hold it:
    the tag is present afterwards, the flag is set, and the modifier that
    asks for the tag applies; removing the absent tag changes nothing. *)
Lemma Manager_tags_drive_conditionals_witness :
  Managers.RemoveTag combat_manager sword_tag = Some combat_manager ∧
  ∃ m', Managers.AddTag combat_manager sword_tag = Some m' ∧
        Managers.HasTag m' sword_tag = true ∧
        m_hasChanges (Managers.core m') = true ∧
        ModifiersSpec.applies (Managers.context_of m') sword_mastery = true.
Proof.
  destruct combat_manager_ready as (Hcb & Hreg & Hfuel).
  pose proof (ManagersFacts.Manager_tags_drive_conditionals 4 combat_manager
                sword_tag
                (Modifiers.new_Modifier "sword_mastery" "power"
                   Modifiers.Increased 0.5
                   "50% increased power with swords")
                Hcb Hreg Hfuel) as Hthm.
  assert (Managers.HasTag combat_manager sword_tag = false) as Hno
    by by vm_compute.
  rewrite Hno in Hthm. destruct Hthm as (Hnoop & m' & Hadd & Hhas & Hflag
                                          & _ & _ & _ & Happ).
  split; [exact Hnoop|]. exists m'. by split_and!.
Defined.

(** Fire damage of 25 taken seven seconds after the epoch, with no
    budget: the call returns, the flag is set and the event is the newest
    one of [damageTaken], stamped with the second reading. *)
Lemma CombatEvent_damage_witness :
  ∃ g' n',
    Producers.TakeDamage 0 7000000000 7000000100 combat_core 25 Producers.Fire
    = Some g' ∧
    m_hasChanges g' = true ∧
    store g' !! 1 = Some n' ∧
    last (events_of n')
    = Some {| value := 25; timestamp := 7000000100; eventType := "Fire" |}.
Proof.
  destruct (ProducersFacts.CombatEvent_damage 0 7000000000 7000000100
              combat_core 25%float
              Producers.Fire (proj1 (proj2 combat_core_ok)))
    as [(g' & Hrun & Hflag & _ & _ & _ & _ & _ & _ & Hlast & _) _].
  destruct (Hlast 1) as (n' & Hn' & Hl); [by vm_compute|].
  exists g', n'. split; [exact Hrun|]. split; [exact Hflag|].
  split; [exact Hn'|exact Hl].
Defined.

(** Equipping the iron sword on the combat manager: the tag is granted
    and the aggregator of [strength], created on demand, holds the
    sword's modifier. *)
Lemma Item_Activate_spec_witness :
  ∃ m', Producers.Item_Activate 4 iron_sword combat_manager
        = Some (equipped_sword, m') ∧
        Managers.HasTag m' sword_tag = true ∧
        aggregator_at (Managers.core m') "strength"
        ≡ₚ Producers.m_modifiers iron_sword.
Proof.
  pose proof (ProducersFacts.Item_Activate_spec 4 iron_sword combat_manager
                combat_manager_ready) as Hthm.
  assert (Producers.m_isEquipped iron_sword = false) as Hoff by reflexivity.
  rewrite Hoff in Hthm. destruct Hthm as (m' & Hrun & _ & _ & Hagg & Htags).
  exists m'. split; [exact Hrun|]. split.
  - rewrite Htags. by vm_compute.
  - rewrite Hagg. by vm_compute.
Defined.

Lemma armed_manager_ready : ready 4 armed_manager.
Proof.
  destruct combat_manager_ready as (Hcb & Hreg & Hfuel).
  unfold armed_manager, Producers.Item_Activate.
  change (Producers.m_isEquipped iron_sword) with false. cbv iota.
  destruct (ProducersFacts.add_modifiers_spec 4
              (Producers.m_modifiers iron_sword) combat_manager Hreg Hfuel)
    as (m1 & -> & Hr1 & Htags1 & _).
  assert (ready 4 m1) as Hready1.
  { eapply ProducersFacts.restamped_ready; [exact Hr1|by rewrite Htags1|].
    apply combat_manager_ready. }
  destruct (ProducersFacts.add_tags_spec 4 (Producers.m_grantedTags iron_sword)
              m1 Hready1) as (m2 & Htag & Hready2 & _).
  cbn [mbind option_bind]. rewrite Htag. exact Hready2.
Qed.

(** Unequipping the sword from the armed manager: the tag is gone and the
    aggregator of [strength] is empty again. *)
Lemma Item_Deactivate_spec_witness :
  ∃ m', Producers.Item_Deactivate 4 equipped_sword armed_manager
        = Some (iron_sword, m') ∧
        Managers.HasTag armed_manager sword_tag = true ∧
        Managers.HasTag m' sword_tag = false ∧
        aggregator_at (Managers.core m') "strength" = [].
Proof.
  pose proof (ProducersFacts.Item_Deactivate_spec 4 equipped_sword
                armed_manager armed_manager_ready) as Hthm.
  assert (Producers.m_isEquipped equipped_sword = true) as Hon by reflexivity.
  rewrite Hon in Hthm. destruct Hthm as (m' & Hrun & _ & _ & _ & Hmods & Htags).
  exists m'. split; [exact Hrun|]. split; [by vm_compute|]. split.
  - rewrite Htags. by vm_compute.
  - unfold aggregator_at. rewrite Hmods. by vm_compute.
Defined.

(** The sword equipped on the combat manager and unequipped again: the
    item is as it was, and the manager does not hold the tag. *)
Lemma Item_equip_unequip_witness :
  ∃ i1 m1 m2,
    Producers.Item_Activate 4 iron_sword combat_manager = Some (i1, m1) ∧
    Producers.Item_Deactivate 4 i1 m1 = Some (iron_sword, m2) ∧
    Managers.HasTag m2 sword_tag = false ∧
    aggregator_at (Managers.core m2) "power"
    ≡ₚ aggregator_at combat_core "power".
Proof.
  destruct (ProducersFacts.Item_equip_unequip 4 iron_sword combat_manager)
    as (i1 & m1 & m2 & Hon & Hoff & Hagg & Htags).
  { done. }
  { repeat constructor. }
  { apply combat_manager_ready. }
  exists i1, m1, m2. split; [exact Hon|]. split; [exact Hoff|]. split.
  - rewrite Htags. by vm_compute.
  - rewrite Hagg. by vm_compute.
Defined.

(** Activating the haste aura on the combat manager three seconds after
    the epoch stamps it and grants its tag; deactivating the inactive aura
    does nothing. *)
Lemma Aura_Activate_Deactivate_witness :
  Producers.Aura_Deactivate 4 haste combat_manager
  = Some (haste, combat_manager) ∧
  ∃ m', Producers.Aura_Activate 4 3000000000 haste combat_manager
        = Some (Producers.set_active true 3000000000 haste, m') ∧
        Managers.HasTag m' (GameplayTags.new_GameplayTag "Buff.Haste") = true.
Proof.
  pose proof (ProducersFacts.Aura_Activate_Deactivate 4 3000000000 haste
                combat_manager combat_manager_ready) as Hthm.
  assert (Producers.a_isActive haste = false) as Hoff by reflexivity.
  rewrite Hoff in Hthm. destruct Hthm as (Hnoop & m' & Hrun & _ & _ & _ & Htags).
  split; [exact Hnoop|]. exists m'. split; [exact Hrun|].
  rewrite Htags. by vm_compute.
Defined.

(** The names of the two tags come out in ascending order. *)
Lemma GetAllTagNames_sorted_witness :
  sorted_by String.ltb (GameplayTags.GetAllTagNames two_tags) ∧
  length (GameplayTags.GetAllTagNames two_tags) = 2.
Proof.
  destruct (TagNamesFacts.GetAllTagNames_sorted two_tags)
    as (Hsorted & _ & Hlen & _).
  split; [exact Hsorted|]. rewrite Hlen. by vm_compute.
Defined.
